(** * A shallow embedding of the ACO shader-compiler core and of the NIR
      divergence analysis, with the properties of their specification.

The development follows the sources: the IR classes of [aco_ir.h], the
occupancy computation that closes [live_var_analysis], the register
bounds of [register_allocation], the assembler ([emit_instruction],
[fix_branches], [emit_program]), the NIR divergence analysis
([visit_alu] ... [nir_divergence_analysis]), the spill-slot colouring
of [assign_spill_slots], the lowering of divergent boolean phis and the
driver entry point [aco_compile_shader].

Machine integers are [Z] with the wrap-around written out; C++ vectors
are lists; code that can run into undefined behaviour or an assertion
returns [option]. *)

From Stdlib Require Import ZArith List Bool Lia Arith PeanoNat.
Import ListNotations.

Local Open Scope Z_scope.

(** ** Machine integers *)

Definition u16 (x : Z) : Z := x mod 65536.
Definition u32 (x : Z) : Z := x mod 4294967296.
Definition u64 (x : Z) : Z := x mod 18446744073709551616.

(** [x << n] and [x | y] on [uint32_t]. *)
Definition shl32 (x n : Z) : Z := u32 (Z.shiftl x n).
Definition or32 (x y : Z) : Z := Z.lor x (u32 y).

(** A small error monad for code with undefined behaviour or assertions. *)
Definition bind {A B : Type} (m : option A) (f : A -> option B) : option B :=
  match m with
  | Some a => f a
  | None => None
  end.

Notation "x <- m ;; k" := (bind m (fun x => k))
  (at level 61, m at next level, right associativity).
Notation "' p <- m ;; k" := (bind m (fun p => k))
  (at level 61, p pattern, m at next level, right associativity).

(** ** The IR of [aco_ir.h] *)

Module RegClass.
  (** [enum RegClass]: the low five bits are the size in dwords, bit 5
      marks the vector bank. *)
Inductive t := b | s1 | s2 | s3 | s4 | s8 | s16 | v1 | v2 | v3 | v4 | v6.

Definition value (rc : t) : Z :=
  match rc with
  | b => 0 | s1 => 1 | s2 => 2 | s3 => 3 | s4 => 4 | s8 => 8 | s16 => 16
  | v1 => Z.lor 1 (Z.shiftl 1 5)
  | v2 => Z.lor 2 (Z.shiftl 1 5)
  | v3 => Z.lor 3 (Z.shiftl 1 5)
  | v4 => Z.lor 4 (Z.shiftl 1 5)
  | v6 => Z.lor 6 (Z.shiftl 1 5)
  end.

Definition eqb (x y : t) : bool := value x =? value y.
End RegClass.

Inductive RegType := scc | sgpr | vgpr.

Definition RegType_eqb (x y : RegType) : bool :=
  match x, y with
  | scc, scc | sgpr, sgpr | vgpr, vgpr => true
  | _, _ => false
  end.

Definition typeOf (rc : RegClass.t) : RegType :=
  if RegClass.eqb rc RegClass.b then scc
  else if RegClass.value rc <=? RegClass.value RegClass.s16 then sgpr
  else vgpr.

Definition sizeOf (rc : RegClass.t) : Z := Z.land (RegClass.value rc) 31.

Record Temp := mkTemp { id : Z; reg_class : RegClass.t }.

Record PhysReg := mkPhysReg { reg : Z }.

Definition fixed_vgpr (idx : Z) : PhysReg := mkPhysReg (u32 (idx + 256)).
Definition fixed_sgpr (idx : Z) : PhysReg := mkPhysReg idx.

Definition m0 : PhysReg := mkPhysReg 124.
Definition vcc : PhysReg := mkPhysReg 106.
Definition exec : PhysReg := mkPhysReg 126.

(** [class Operand].  The union [data_] overlays the constant [i] and the
    [id_] of the temporary, so one field [op_data] holds both; [op_rc] is
    the register class of the temporary.  The bits of [control_] are kept
    as booleans. *)
Record Operand := mkOperand {
  op_data : Z;
  op_rc : RegClass.t;
  op_reg : PhysReg;
  op_isTemp : bool;      (* control_[0] *)
  op_isFixed : bool;     (* control_[1] *)
  op_isConst : bool;     (* control_[2] *)
  op_isKill : bool;      (* control_[3] *)
  op_isUndef : bool      (* control_[4] *)
}.

Definition setFixed (r : PhysReg) (o : Operand) : Operand :=
  mkOperand (op_data o) (op_rc o) r (op_isTemp o) true (op_isConst o)
            (op_isKill o) (op_isUndef o).

(** [explicit Operand(Temp r)] *)
Definition Operand_temp (r : Temp) : Operand :=
  mkOperand (id r) (reg_class r) (mkPhysReg 0) true false false false false.

(** The register chosen by [explicit Operand(uint32_t v)]. *)
Definition constant_reg (v : Z) : PhysReg :=
  if v <=? 64 then mkPhysReg (u32 (128 + v))
  else if v >=? 0xFFFFFFF0 then mkPhysReg (u32 (192 - v))
  else if v =? 0x3f000000 then mkPhysReg 240
  else if v =? 0xbf000000 then mkPhysReg 241
  else if v =? 0x3f800000 then mkPhysReg 242
  else if v =? 0xbf800000 then mkPhysReg 243
  else if v =? 0x40000000 then mkPhysReg 244
  else if v =? 0xc0000000 then mkPhysReg 245
  else if v =? 0x40800000 then mkPhysReg 246
  else if v =? 0xc0800000 then mkPhysReg 247
  else if v =? 0x3e22f983 then mkPhysReg 248
  else mkPhysReg 255.

(** [explicit Operand(uint32_t v)] *)
Definition Operand_const (v : Z) : Operand :=
  setFixed (constant_reg v)
    (mkOperand v RegClass.b (mkPhysReg 0) false false true false false).

(** [explicit Operand()]: the undefined operand.  The constructor does not
    write [data_], so [op_data] stands for storage that holds no value: no
    function of this development reads it from an undefined operand, and
    [lower_pred], whose source does, takes what the storage held as an
    argument. *)
Definition Operand_undef : Operand :=
  setFixed (mkPhysReg 128)
    (mkOperand 0 RegClass.b (mkPhysReg 0) false false false false true).

(** [explicit Operand(PhysReg reg, RegClass type)] *)
Definition Operand_phys (r : PhysReg) (type : RegClass.t) : Operand :=
  setFixed r (mkOperand 0 type (mkPhysReg 0) false false false false false).

Definition isTemp (o : Operand) : bool := op_isTemp o.
Definition getTemp (o : Operand) : Temp := mkTemp (op_data o) (op_rc o).
Definition tempId (o : Operand) : Z := op_data o.
Definition physReg (o : Operand) : PhysReg := op_reg o.
Definition isConstant (o : Operand) : bool := op_isConst o.
Definition isLiteral (o : Operand) : bool :=
  isConstant o && (reg (op_reg o) =? 255).
Definition isUndefined (o : Operand) : bool := op_isUndef o.
Definition constantValue (o : Operand) : Z := op_data o.

(** [class Definition] *)
Record Definition_ := mkDefinition {
  def_temp : Temp;
  def_reg : PhysReg;
  def_isFixed : bool;       (* control_[0] *)
  def_reuseInput : bool;    (* control_[1] *)
  def_hasHint : bool        (* control_[2] *)
}.

Definition Definition_temp (t : Temp) : Definition_ :=
  mkDefinition t (mkPhysReg 0) false false false.
Definition Definition_idx (index : Z) (type : RegClass.t) : Definition_ :=
  Definition_temp (mkTemp index type).
Definition Definition_phys (r : PhysReg) (type : RegClass.t) : Definition_ :=
  mkDefinition (mkTemp 0 type) r true false false.
(** [Definition(uint32_t id, PhysReg reg, RegClass type)], used by the
    lowering of boolean phis for the SCC results. *)
Definition Definition_fixed (index : Z) (r : PhysReg) (type : RegClass.t)
  : Definition_ :=
  mkDefinition (mkTemp index type) r true false false.

(** ** Instructions, blocks *)

Module aco_opcode.
  (** The opcodes the sources name; the generated [aco_opcodes.h] is not
      among them, every other opcode is [other n]. *)
Inductive t :=
  | p_phi | p_linear_phi | p_logical_start | p_logical_end
  | p_spill | p_reload | p_start_linear_vgpr | p_end_linear_vgpr
  | p_split_vector
  | s_cselect_b64 | s_mov_b64 | s_andn2_b64 | s_and_b64 | s_or_b64
  | s_endpgm | exp
  | other (n : nat).

Definition eq_dec (x y : t) : {x = y} + {x <> y}.
Proof. decide equality. apply Nat.eq_dec. Defined.

Definition eqb (x y : t) : bool := if eq_dec x y then true else false.
End aco_opcode.

Module Format.
  (** [enum class Format : std::uint16_t] *)
Definition PSEUDO : Z := 0.
Definition SOP1 : Z := 1.
Definition SOP2 : Z := 2.
Definition SOPK : Z := 3.
Definition SOPP : Z := 4.
Definition SOPC : Z := 5.
Definition SMEM : Z := 6.
Definition VINTRP : Z := 7.
Definition DS : Z := 8.
Definition MTBUF : Z := 9.
Definition MUBUF : Z := 10.
Definition MIMG : Z := 11.
Definition EXP : Z := 12.
Definition FLAT : Z := 13.
Definition GLOBAL : Z := 14.
Definition SCRATCH : Z := 15.
Definition PSEUDO_BRANCH : Z := 16.
Definition VOP1 : Z := Z.shiftl 1 8.
Definition VOP2 : Z := Z.shiftl 1 9.
Definition VOPC : Z := Z.shiftl 1 10.
Definition VOP3B : Z := Z.shiftl 1 11.
Definition VOP3P : Z := Z.shiftl 1 12.
Definition VOP3A : Z := Z.shiftl 1 13.
Definition DPP : Z := Z.shiftl 1 14.
Definition SDWA : Z := Z.shiftl 1 15.
End Format.

Definition bool3 : Type := bool * bool * bool.
Definition nth3 (a : bool3) (i : nat) : bool :=
  match a, i with
  | (x, _, _), O => x
  | (_, y, _), S O => y
  | (_, _, z), _ => z
  end.

(** The fields the subclasses of [Instruction] add.  A [Block *] is the
    index of the block. *)
Inductive Payload :=
| NoPayload
| SOPK_fields (imm : Z)
| SOPP_fields (imm : Z) (block : option nat)
| SMEM_fields (glc nv : bool)
| VOP3A_fields (abs opsel : bool3) (clamp : bool) (omod : Z) (neg : bool3)
| DPP_fields (dpp_ctrl row_mask bank_mask : Z) (abs neg : bool * bool)
             (bound_ctrl : bool)
| Interp_fields (attribute component : Z)
| DS_fields (offset0 offset1 : Z) (gds : bool)
| MUBUF_fields (dfmt nfmt offset : Z) (offen idxen glc slc tfe lds : bool)
| MIMG_fields (dmask : Z) (unrm glc slc tfe da lwe r128 d16 : bool)
| Export_fields (enabled_mask dest : Z) (compressed done valid_mask : bool)
| Pseudo_branch_fields (targets : nat * nat).

Record Instruction := mkInstruction {
  opcode : aco_opcode.t;
  format : Z;
  operands : list Operand;
  definitions : list Definition_;
  payload : Payload
}.

Definition operandCount (i : Instruction) : Z := Z.of_nat (length (operands i)).
Definition definitionCount (i : Instruction) : Z :=
  Z.of_nat (length (definitions i)).
Definition getOperand (i : Instruction) (n : nat) : option Operand :=
  nth_error (operands i) n.
Definition getDefinition (i : Instruction) (n : nat) : option Definition_ :=
  nth_error (definitions i) n.

Definition isDPP (i : Instruction) : bool :=
  negb (Z.land (format i) Format.DPP =? 0).

(** [struct Block]; predecessors and successors are block indices. *)
Record Block := mkBlock {
  index : nat;
  instructions : list Instruction;
  logical_predecessors : list nat;
  linear_predecessors : list nat;
  logical_successors : list nat;
  linear_successors : list nat
}.

Definition set_instructions (l : list Instruction) (b : Block) : Block :=
  mkBlock (index b) l (logical_predecessors b) (linear_predecessors b)
          (logical_successors b) (linear_successors b).

(** [v[i] = x] on a vector; [None] outside of it. *)
Definition vector_set {A : Type} (l : list A) (i : nat) (x : A)
  : option (list A) :=
  if (i <? length l)%nat then Some (firstn i l ++ x :: skipn (S i) l)
  else None.

(** [v.insert(v.begin() + i, x)] *)
Definition vector_insert {A : Type} (l : list A) (i : nat) (x : A) : list A :=
  firstn i l ++ x :: skipn i l.

(** ** The register bounds of [register_allocation] *)

Module RegAlloc.

Record ac_shader_config := mkConfig { num_vgprs : Z; num_sgprs : Z }.

(** Lines 47-80: the bounds chosen from the demand of the program. *)
Definition register_bounds (vgpr_demand sgpr_demand : Z) : Z * Z :=
  if (vgpr_demand <=? 24) && (sgpr_demand <=? 46) then (46, 24)
  else if (vgpr_demand <=? 28) && (sgpr_demand <=? 54) then (54, 28)
  else if (vgpr_demand <=? 32) && (sgpr_demand <=? 62) then (62, 32)
  else if (vgpr_demand <=? 36) && (sgpr_demand <=? 70) then (70, 36)
  else if (vgpr_demand <=? 40) && (sgpr_demand <=? 78) then (78, 40)
  else if (vgpr_demand <=? 48) && (sgpr_demand <=? 94) then (94, 48)
  else (100,
        if vgpr_demand <=? 64 then 64
        else if vgpr_demand <=? 84 then 84
        else if vgpr_demand <=? 128 then 128
        else 256).

(** The prologue of [register_allocation]: the assertion on the demand,
    the choice of the bounds and the two writes to [program->config]. *)
Definition register_allocation (vgpr_demand sgpr_demand : Z)
    (config : ac_shader_config) : option ac_shader_config :=
  if (vgpr_demand <=? 256) && (sgpr_demand <=? 100) then
    let '(max_sgpr, max_vgpr) := register_bounds vgpr_demand sgpr_demand in
    Some (mkConfig max_vgpr (u32 (max_sgpr + 2)))
  else None.

(** The table of the specification, without its open last entry. *)
Definition bounds_table : list (Z * Z) :=
  [(46, 24); (54, 28); (62, 32); (70, 36); (78, 40); (94, 48)].

Definition fits (vgpr_demand sgpr_demand : Z) (e : Z * Z) : Prop :=
  sgpr_demand <= fst e /\ vgpr_demand <= snd e.

Local Close Scope Z_scope.

(** The [for] loop of [_get_reg] over [i = 1 .. size - 1]: the register
    [reg_hi] it breaks at, if one is in use.  [reg_file] is the
    [std::array] of the ids the registers hold, 0 for a free one. *)
Fixpoint first_used (reg_file : list Z) (reg_lo i count : nat)
    : option (option nat) :=
  match count with
  | O => Some None
  | S count' =>
      x <- nth_error reg_file (reg_lo + i) ;;
      if negb (x =? 0)%Z then Some (Some (reg_lo + i))
      else first_used reg_file reg_lo (S i) count'
  end.

(** [while (reg_lo <= reg_hi) reg_lo += stride;] *)
Fixpoint skip_past (fuel reg_lo reg_hi stride : nat) : option nat :=
  if reg_lo <=? reg_hi then
    match fuel with
    | O => None
    | S fuel' => skip_past fuel' (reg_lo + stride) reg_hi stride
    end
  else Some reg_lo.

(** [while (!found && reg_lo + size <= ub)] *)
Fixpoint get_reg_loop (fuel : nat) (reg_file : list Z)
    (ub size stride reg_lo : nat) : option (nat * bool) :=
  if reg_lo + size <=? ub then
    match fuel with
    | O => None
    | S fuel' =>
        x <- nth_error reg_file reg_lo ;;
        if negb (x =? 0)%Z
        then get_reg_loop fuel' reg_file ub size stride (reg_lo + stride)
        else
          r <- first_used reg_file reg_lo 1 (size - 1) ;;
          match r with
          | None => Some (reg_lo, true)
          | Some reg_hi =>
              reg_lo <- skip_past fuel' reg_lo reg_hi stride ;;
              get_reg_loop fuel' reg_file ub size stride reg_lo
          end
    end
  else Some (0, false).

(** [_get_reg] with [num_moves == 0], "trivial case: without moves": the
    register found and whether one was found.  [fuel] bounds the
    iterations of its loops.  The [uint32_t] values are natural numbers
    here: the model is the code as long as [lb + size] and
    [ub + stride + size] stay below 2^32, so that no sum wraps, and it
    has no result where the code reads outside of [reg_file]. *)
Definition get_reg_without_moves (fuel : nat) (reg_file : list Z)
    (lb ub size stride : nat) : option (nat * bool) :=
  get_reg_loop fuel reg_file ub size stride lb.

(** The registers [r], ..., [r + size - 1] are free. *)
Definition free_at (reg_file : list Z) (r size : nat) : Prop :=
  forall j, r <= j < r + size -> nth_error reg_file j = Some 0%Z.

(** A register file of eight registers: 0, 1 and 5 are in use. *)
Definition example_reg_file : list Z := [7; 7; 0; 0; 0; 9; 0; 0]%Z.

Local Open Scope Z_scope.

End RegAlloc.

(** ** The occupancy computed by [live_var_analysis] *)

Module Liveness.

(** Modelled from the spec: [enum chip_class] of [amd_family.h] is not
    among the sources; the generations are kept in their order, and the
    code only asks whether the chip is [VI] or newer. *)
Inductive chip_class := SI | CIK | VI | GFX9.

Definition chip_ge_VI (c : chip_class) : bool :=
  match c with
  | SI | CIK => false
  | VI | GFX9 => true
  end.

Record Program := mkProgram { num_waves : Z; max_sgpr : Z; max_vgpr : Z }.

Definition total_sgpr_regs (c : chip_class) : Z :=
  if chip_ge_VI c then 800 else 512.
Definition max_addressible_sgpr (c : chip_class) : Z :=
  if chip_ge_VI c then 102 else 104.

(** The maximum over the blocks the worklist loop has processed; every
    entry is the ([vgpr_demand], [sgpr_demand]) of the block just
    processed. *)
Definition max_demand (visits : list (Z * Z)) : Z * Z :=
  fold_left (fun acc d => (Z.max (fst acc) (fst d), Z.max (snd acc) (snd d)))
            visits (0, 0).

(** Lines 185-210 of [live_var_analysis<true>], from the demand the loop
    has accumulated in its two [uint16_t] counters. *)
Definition occupancy (c : chip_class) (vgpr_demand sgpr_demand0 : Z)
    : Program :=
  (* Add VCC to demand *)
  let sgpr_demand := u16 (sgpr_demand0 + 2) in
  let rounded_vgpr_demand :=
    Z.max 4 (u16 (Z.land (vgpr_demand + 3) (Z.lnot 3))) in
  let rounded_sgpr_demand :=
    Z.min (Z.max 8 (u16 (Z.land (sgpr_demand + 7) (Z.lnot 7))))
          (max_addressible_sgpr c) in
  if (vgpr_demand >? 256) || (sgpr_demand >? max_addressible_sgpr c) then
    mkProgram 0 sgpr_demand vgpr_demand
  else
    let waves :=
      Z.min 10 (Z.min (u16 (256 / rounded_vgpr_demand))
                      (u16 (total_sgpr_regs c / rounded_sgpr_demand))) in
    mkProgram waves
      (* Subtract 2 again for VCC *)
      (Z.min (u16 (Z.land (total_sgpr_regs c / waves) (Z.lnot 7)))
             (max_addressible_sgpr c) - 2)
      (Z.land (256 / waves) (Z.lnot 3)).

Definition live_var_analysis (c : chip_class) (visits : list (Z * Z))
    : Program :=
  let '(vgpr_demand, sgpr_demand) := max_demand visits in
  occupancy c vgpr_demand sgpr_demand.

(** The formula of the specification, where it has a value: the quotient
    by a rounded demand of zero is undefined. *)
Definition round_up (m x : Z) : Z := ((x + m - 1) / m) * m.

Definition quot (a d : Z) : option Z :=
  if d =? 0 then None else Some (a / d).


Definition demand_fits (c : chip_class) (vgpr_demand sgpr_demand : Z) : Prop :=
  0 <= vgpr_demand <= 256 /\ 0 <= sgpr_demand /\
  sgpr_demand + 2 <= max_addressible_sgpr c.

(** The values of [chip_class]. *)
Definition all_chips : list chip_class := [SI; CIK; VI; GFX9].

(** The formula with the guard of the code on the rounded vector demand. *)
Definition guarded_num_waves (c : chip_class) (vgpr_demand sgpr_demand : Z) : Z :=
  Z.min 10 (Z.min (256 / Z.max 4 (round_up 4 vgpr_demand))
                  (total_sgpr_regs c / round_up 8 (sgpr_demand + 2))).

End Liveness.

(** ** The assembler *)

Module Asm.
Section Assembler.

(** [opcode_infos[(int)op].opcode]: the hardware opcode of the generated
    table, which is not among the sources. *)
Variable hw_opcode : aco_opcode.t -> Z.

(** [struct asm_context].  [branches] is the [std::map] from the position
    of a branch word to the index of the block its instruction targets,
    kept in key order. *)
Record asm_context := mkCtx {
  branches : list (nat * nat);
  block_offset : list Z
}.

(** [std::map::insert]: an existing key keeps its value. *)
Fixpoint map_insert (k v : nat) (m : list (nat * nat)) : list (nat * nat) :=
  match m with
  | [] => [(k, v)]
  | (k', v') :: m' =>
      if (k <? k')%nat then (k, v) :: m
      else if (k =? k')%nat then m
      else (k', v') :: map_insert k v m'
  end.

Definition push_back (out : list Z) (w : Z) : list Z := out ++ [w].

Definition opreg (i : Instruction) (n : nat) : option Z :=
  o <- getOperand i n ;; Some (reg (physReg o)).
Definition defreg (i : Instruction) (n : nat) : option Z :=
  d <- getDefinition i n ;; Some (reg (def_reg d)).

(** [c ? e : 0] where [e] may read past the operands. *)
Definition cond (c : bool) (e : option Z) : option Z :=
  if c then e else Some 0.
Definition bit (c : bool) (n : Z) : Z := if c then Z.shiftl 1 n else 0.
Definition b2z (c : bool) : Z := if c then 1 else 0.

(** The loop "append literal dword" that closes [emit_instruction]. *)
Fixpoint append_literal (out : list Z) (ops : list Operand) : list Z :=
  match ops with
  | [] => out
  | o :: ops' =>
      if isLiteral o then push_back out (u32 (constantValue o))
      else append_literal out ops'
  end.

(** The cases of the [switch] that end in [break], one function for
    each; [None] is undefined behaviour (an operand that does not exist,
    a cast to a subclass the instruction is not). *)
Definition encode_sop2 (out : list Z) (instr : Instruction) : option (list Z) :=
  let e := u32 (Z.shiftl 2 30) in
  let e := or32 e (shl32 (hw_opcode (opcode instr)) 23) in
  d <- cond (negb (definitionCount instr =? 0))
            (r <- defreg instr 0 ;; Some (shl32 r 16)) ;;
  let e := or32 e d in
  s1 <- cond (operandCount instr >=? 2)
             (r <- opreg instr 1 ;; Some (shl32 r 8)) ;;
  let e := or32 e s1 in
  s0 <- cond (negb (operandCount instr =? 0)) (opreg instr 0) ;;
  let e := or32 e s0 in
  Some (push_back out e).

(** The register field of SOPK: the definition unless it is of class
    [b], else the operand unless it is of class [b], else 0. *)
Definition sopk_reg (instr : Instruction) : option Z :=
  def_ok <- (if negb (definitionCount instr =? 0)
             then d <- getDefinition instr 0 ;;
                  Some (negb (RegClass.eqb (reg_class (def_temp d)) RegClass.b))
             else Some false) ;;
  if def_ok : bool then r <- defreg instr 0 ;; Some (shl32 r 16)
  else
    op_ok <- (if negb (operandCount instr =? 0)
              then o <- getOperand instr 0 ;;
                   Some (negb (RegClass.eqb (op_rc o) RegClass.b))
              else Some false) ;;
    if op_ok : bool then r <- opreg instr 0 ;; Some (shl32 r 16)
    else Some 0.

Definition encode_sopk (out : list Z) (instr : Instruction) : option (list Z) :=
  let e := u32 (Z.shiftl 11 28) in
  let e := or32 e (shl32 (hw_opcode (opcode instr)) 23) in
  r <- sopk_reg instr ;;
  let e := or32 e r in
  match payload instr with
  | SOPK_fields imm => Some (push_back out (or32 e (u16 imm)))
  | _ => None
  end.

Definition encode_sop1 (out : list Z) (instr : Instruction) : option (list Z) :=
  let e := u32 (Z.shiftl 381 23) in
  d <- cond (negb (definitionCount instr =? 0))
            (r <- defreg instr 0 ;; Some (shl32 r 16)) ;;
  let e := or32 e d in
  let e := or32 e (shl32 (hw_opcode (opcode instr)) 8) in
  s0 <- cond (negb (operandCount instr =? 0)) (opreg instr 0) ;;
  Some (push_back out (or32 e s0)).

Definition encode_sopc (out : list Z) (instr : Instruction) : option (list Z) :=
  let e := u32 (Z.shiftl 382 23) in
  let e := or32 e (shl32 (hw_opcode (opcode instr)) 16) in
  s1 <- cond (operandCount instr =? 2)
             (r <- opreg instr 1 ;; Some (shl32 r 8)) ;;
  let e := or32 e s1 in
  s0 <- cond (negb (operandCount instr =? 0)) (opreg instr 0) ;;
  Some (push_back out (or32 e s0)).

(** SOPP also records, for a branch that targets a block, the position
    of its word. *)
Definition encode_sopp (ctx : asm_context) (out : list Z) (instr : Instruction)
    : option (asm_context * list Z) :=
  match payload instr with
  | SOPP_fields imm block =>
      let e := u32 (Z.shiftl 383 23) in
      let e := or32 e (shl32 (hw_opcode (opcode instr)) 16) in
      let e := or32 e (u16 imm) in
      let ctx' :=
        match block with
        | Some target =>
            mkCtx (map_insert (length out) target (branches ctx))
                  (block_offset ctx)
        | None => ctx
        end in
      Some (ctx', push_back out e)
  | _ => None
  end.

Definition encode_vop2 (out : list Z) (instr : Instruction) : option (list Z) :=
  let e := 0 in
  let e := or32 e (shl32 (hw_opcode (opcode instr)) 25) in
  d <- defreg instr 0 ;;
  let e := or32 e (shl32 (Z.land 255 d) 17) in
  s1 <- opreg instr 1 ;;
  let e := or32 e (shl32 (Z.land 255 s1) 9) in
  s0 <- opreg instr 0 ;;
  Some (push_back out (or32 e s0)).

Definition encode_vop1 (out : list Z) (instr : Instruction) : option (list Z) :=
  let e := u32 (Z.shiftl 63 25) in
  d <- defreg instr 0 ;;
  let e := or32 e (shl32 (Z.land 255 d) 17) in
  let e := or32 e (shl32 (hw_opcode (opcode instr)) 9) in
  s0 <- opreg instr 0 ;;
  Some (push_back out (or32 e s0)).

Definition encode_vopc (out : list Z) (instr : Instruction) : option (list Z) :=
  let e := u32 (Z.shiftl 62 25) in
  let e := or32 e (shl32 (hw_opcode (opcode instr)) 17) in
  s1 <- opreg instr 1 ;;
  let e := or32 e (shl32 (Z.land 255 s1) 9) in
  s0 <- opreg instr 0 ;;
  Some (push_back out (or32 e s0)).

Definition encode_vintrp (out : list Z) (instr : Instruction) : option (list Z) :=
  match payload instr with
  | Interp_fields attribute component =>
      let e := u32 (Z.shiftl 53 26) in
      d <- defreg instr 0 ;;
      let e := or32 e (shl32 (Z.land 255 d) 18) in
      let e := or32 e (shl32 (hw_opcode (opcode instr)) 16) in
      let e := or32 e (shl32 attribute 10) in
      let e := or32 e (shl32 component 8) in
      s0 <- opreg instr 0 ;;
      Some (push_back out (or32 e (Z.land 255 s0)))
  | _ => None
  end.

Definition encode_ds (out : list Z) (instr : Instruction) : option (list Z) :=
  match payload instr with
  | DS_fields offset0 offset1 gds =>
      let e := u32 (Z.shiftl 54 26) in
      let e := or32 e (shl32 (hw_opcode (opcode instr)) 17) in
      let e := or32 e (Z.shiftl (b2z gds) 16) in
      let e := or32 e (Z.land 255 (Z.shiftl offset1 8)) in
      let e := or32 e (Z.land 65535 offset0) in
      let out := push_back out e in
      let e := 0 in
      r <- cond (negb (definitionCount instr =? 0)) (defreg instr 0) ;;
      let e := or32 e (shl32 (Z.land 255 r) 24) in
      r <- cond (operandCount instr >=? 3) (opreg instr 2) ;;
      let e := or32 e (shl32 (Z.land 255 r) 16) in
      r <- cond (operandCount instr >=? 2) (opreg instr 1) ;;
      let e := or32 e (shl32 (Z.land 255 r) 8) in
      s0 <- opreg instr 0 ;;
      Some (push_back out (or32 e (Z.land 255 s0)))
  | _ => None
  end.

Definition encode_mubuf (out : list Z) (instr : Instruction) : option (list Z) :=
  match payload instr with
  | MUBUF_fields dfmt nfmt offset offen idxen glc slc tfe lds =>
      let e := u32 (Z.shiftl 56 26) in
      let e := or32 e (shl32 (hw_opcode (opcode instr)) 18) in
      let e := or32 e (Z.shiftl (b2z slc) 17) in
      let e := or32 e (Z.shiftl (b2z lds) 16) in
      let e := or32 e (Z.shiftl (b2z glc) 14) in
      let e := or32 e (Z.shiftl (b2z idxen) 13) in
      let e := or32 e (Z.shiftl (b2z offen) 12) in
      let e := or32 e (Z.land 4095 offset) in
      let out := push_back out e in
      let e := 0 in
      s2 <- opreg instr 2 ;;
      let e := or32 e (shl32 s2 24) in
      let e := or32 e (Z.shiftl (b2z tfe) 23) in
      s1 <- opreg instr 1 ;;
      let e := or32 e (shl32 (Z.shiftr s1 2) 16) in
      r <- (if operandCount instr >? 3 then opreg instr 3
            else defreg instr 0) ;;
      let e := or32 e (shl32 (Z.land 255 r) 8) in
      s0 <- opreg instr 0 ;;
      Some (push_back out (or32 e (Z.land 255 s0)))
  | _ => None
  end.

Definition encode_mimg (out : list Z) (instr : Instruction) : option (list Z) :=
  match payload instr with
  | MIMG_fields dmask unrm glc slc tfe da lwe r128 d16 =>
      let e := u32 (Z.shiftl 60 26) in
      let e := or32 e (bit slc 25) in
      let e := or32 e (shl32 (hw_opcode (opcode instr)) 18) in
      let e := or32 e (bit lwe 17) in
      let e := or32 e (bit tfe 16) in
      let e := or32 e (bit r128 15) in
      let e := or32 e (bit da 14) in
      let e := or32 e (bit glc 13) in
      let e := or32 e (bit unrm 12) in
      let e := or32 e (shl32 (Z.land 15 dmask) 8) in
      let out := push_back out e in
      s0 <- opreg instr 0 ;;
      let e := Z.land 255 s0 in
      d <- defreg instr 0 ;;
      let e := or32 e (shl32 (Z.land 255 d) 8) in
      s1 <- opreg instr 1 ;;
      let e := or32 e (shl32 (Z.land 31 (Z.shiftr s1 2)) 16) in
      r <- cond (operandCount instr >? 2)
                (s2 <- opreg instr 2 ;;
                 Some (shl32 (Z.land 31 (Z.shiftr s2 2)) 21)) ;;
      Some (push_back out (or32 e r))
  | _ => None
  end.

Definition encode_exp (out : list Z) (instr : Instruction) : option (list Z) :=
  match payload instr with
  | Export_fields enabled_mask dest compressed done valid_mask =>
      let e := u32 (Z.shiftl 49 26) in
      let e := or32 e (bit valid_mask 12) in
      let e := or32 e (bit done 11) in
      let e := or32 e (bit compressed 10) in
      let e := or32 e (shl32 dest 4) in
      let e := or32 e enabled_mask in
      let out := push_back out e in
      s0 <- opreg instr 0 ;;
      let e := Z.land 255 s0 in
      s1 <- opreg instr 1 ;;
      let e := or32 e (shl32 (Z.land 255 s1) 8) in
      s2 <- opreg instr 2 ;;
      let e := or32 e (shl32 (Z.land 255 s2) 16) in
      s3 <- opreg instr 3 ;;
      Some (push_back out (or32 e (shl32 (Z.land 255 s3) 24)))
  | _ => None
  end.

Definition keep_ctx (ctx : asm_context) (r : option (list Z))
    : option (asm_context * list Z) :=
  out <- r ;; Some (ctx, out).

(** The [switch] over the formats that leave it through [break]. *)
Definition encode_break (ctx : asm_context) (out : list Z) (instr : Instruction)
    : option (asm_context * list Z) :=
  let f := format instr in
  if f =? Format.SOP2 then keep_ctx ctx (encode_sop2 out instr)
  else if f =? Format.SOPK then keep_ctx ctx (encode_sopk out instr)
  else if f =? Format.SOP1 then keep_ctx ctx (encode_sop1 out instr)
  else if f =? Format.SOPC then keep_ctx ctx (encode_sopc out instr)
  else if f =? Format.SOPP then encode_sopp ctx out instr
  else if f =? Format.VOP2 then keep_ctx ctx (encode_vop2 out instr)
  else if f =? Format.VOP1 then keep_ctx ctx (encode_vop1 out instr)
  else if f =? Format.VOPC then keep_ctx ctx (encode_vopc out instr)
  else if f =? Format.VINTRP then keep_ctx ctx (encode_vintrp out instr)
  else if f =? Format.DS then keep_ctx ctx (encode_ds out instr)
  else if f =? Format.MUBUF then keep_ctx ctx (encode_mubuf out instr)
  else if f =? Format.MIMG then keep_ctx ctx (encode_mimg out instr)
  else if f =? Format.EXP then keep_ctx ctx (encode_exp out instr)
  else if f =? Format.PSEUDO then Some (ctx, out)
  else None.

(** The formats that reach the [break] of the [switch]. *)
Definition breaks (f : Z) : bool :=
  existsb (Z.eqb f)
    [Format.SOP2; Format.SOPK; Format.SOP1; Format.SOPC; Format.SOPP;
     Format.VOP2; Format.VOP1; Format.VOPC; Format.VINTRP; Format.DS;
     Format.MUBUF; Format.MIMG; Format.EXP; Format.PSEUDO].

(** [case Format::SMEM], which returns after its two words. *)
Definition encode_smem (out : list Z) (instr : Instruction) : option (list Z) :=
  match payload instr with
  | SMEM_fields glc nv =>
      let e := u32 (Z.shiftl 48 26) in
      let e := or32 e (shl32 (hw_opcode (opcode instr)) 18) in
      o1 <- getOperand instr 1 ;;
      let e := or32 e (bit (isConstant o1) 17) in
      let e := or32 e (bit glc 16) in
      d <- cond (negb (definitionCount instr =? 0))
                (r <- defreg instr 0 ;; Some (shl32 r 6)) ;;
      let e := or32 e d in
      s0 <- opreg instr 0 ;;
      let e := or32 e (Z.shiftr s0 1) in
      let out := push_back out e in
      let e := if isConstant o1 then u32 (constantValue o1)
               else reg (physReg o1) in
      Some (push_back out e)
  | _ => None
  end.

(** The VOP3A branch of the [default] case, which returns as well.  The
    loop over the operands shifts the 32-bit [reg] by [i * 9]: from the
    fifth operand on the shift is by 36 or more, which is undefined. *)
Fixpoint vop3_srcs (e : Z) (ops : list Operand) (i : Z) : option Z :=
  match ops with
  | [] => Some e
  | o :: ops' =>
      if i * 9 <? 32
      then vop3_srcs (or32 e (shl32 (reg (physReg o)) (i * 9))) ops' (i + 1)
      else None
  end.

Definition encode_vop3a (out : list Z) (instr : Instruction) : option (list Z) :=
  match payload instr with
  | VOP3A_fields abs opsel clamp omod neg =>
      let f := format instr in
      let base := hw_opcode (opcode instr) in
      let op :=
        if negb (Z.land f Format.VOP2 =? 0) then u32 (base + 0x100)
        else if negb (Z.land f Format.VOP1 =? 0) then u32 (base + 0x140)
        else if negb (Z.land f Format.VOPC =? 0) then u32 (base + 0x0)
        else if negb (Z.land f Format.VINTRP =? 0) then u32 (base + 0x270)
        else base in
      let e := u32 (Z.shiftl 52 26) in
      let e := or32 e (shl32 op 16) in
      let e := or32 e (Z.shiftl (b2z clamp) 15) in
      let e := or32 e (Z.shiftl (b2z (nth3 abs 0)) 8) in
      let e := or32 e (Z.shiftl (b2z (nth3 abs 1)) 9) in
      let e := or32 e (Z.shiftl (b2z (nth3 abs 2)) 10) in
      d <- defreg instr 0 ;;
      let e := or32 e (Z.land 255 d) in
      let out := push_back out e in
      e <- vop3_srcs 0 (operands instr) 0 ;;
      let e := or32 e (shl32 omod 27) in
      let e := or32 e (Z.shiftl (b2z (nth3 neg 0)) 29) in
      let e := or32 e (Z.shiftl (b2z (nth3 neg 1)) 30) in
      let e := or32 e (Z.shiftl (b2z (nth3 neg 2)) 31) in
      Some (push_back out e)
  | _ => None
  end.

(** [emit_instruction] for an instruction without the DPP modifier: the
    inner call of the DPP branch, whose own DPP bit is cleared. *)
Definition emit_plain (ctx : asm_context) (out : list Z) (instr : Instruction)
    : option (asm_context * list Z) :=
  if breaks (format instr) then
    '(ctx', out') <- encode_break ctx out instr ;;
    Some (ctx', append_literal out' (operands instr))
  else if format instr =? Format.SMEM then
    out' <- encode_smem out instr ;; Some (ctx, out')
  else if negb (Z.land (format instr) Format.VOP3A =? 0) then
    out' <- encode_vop3a out instr ;; Some (ctx, out')
  else None.

Definition set_operand0 (o : Operand) (instr : Instruction) : option Instruction :=
  match operands instr with
  | [] => None
  | _ :: ops => Some (mkInstruction (opcode instr) (format instr) (o :: ops)
                                    (definitions instr) (payload instr))
  end.

Definition set_format (f : Z) (instr : Instruction) : Instruction :=
  mkInstruction (opcode instr) f (operands instr) (definitions instr)
                (payload instr).

(** [emit_instruction].  The DPP branch rewrites the instruction it is
    given (operand 0, the format) before it calls itself; the program is
    not read after assembly, so the rewritten instruction is dropped. *)
Definition emit_instruction (ctx : asm_context) (out : list Z)
    (instr : Instruction) : option (asm_context * list Z) :=
  if breaks (format instr) || (format instr =? Format.SMEM)
     || negb (Z.land (format instr) Format.VOP3A =? 0)
  then emit_plain ctx out instr
  else if isDPP instr then
    dpp_op <- getOperand instr 0 ;;
    instr1 <- set_operand0 (Operand_phys (mkPhysReg 250) RegClass.v1) instr ;;
    let instr2 :=
      set_format (u16 (Z.land (format instr1) (Z.lnot (Z.shiftl 1 14)))) instr1 in
    '(ctx', out') <- emit_plain ctx out instr2 ;;
    match payload instr with
    | DPP_fields dpp_ctrl row_mask bank_mask abs neg bound_ctrl =>
        let e := shl32 (Z.land 15 row_mask) 28 in
        let e := or32 e (shl32 (Z.land 15 bank_mask) 24) in
        let e := or32 e (Z.shiftl (b2z (snd abs)) 23) in
        let e := or32 e (Z.shiftl (b2z (snd neg)) 22) in
        let e := or32 e (Z.shiftl (b2z (fst abs)) 21) in
        let e := or32 e (Z.shiftl (b2z (fst neg)) 20) in
        let e := or32 e (Z.shiftl (b2z bound_ctrl) 19) in
        let e := or32 e (Z.shiftl dpp_ctrl 8) in
        let e := or32 e (Z.land 255 (reg (physReg dpp_op))) in
        Some (ctx', push_back out' e)
    | _ => None
    end
  else None.

Fixpoint emit_block_instrs (ctx : asm_context) (out : list Z)
    (instrs : list Instruction) : option (asm_context * list Z) :=
  match instrs with
  | [] => Some (ctx, out)
  | i :: rest =>
      '(ctx', out') <- emit_instruction ctx out i ;;
      emit_block_instrs ctx' out' rest
  end.

Definition emit_block (ctx : asm_context) (out : list Z) (block : Block)
    : option (asm_context * list Z) :=
  emit_block_instrs ctx out (instructions block).

(** The loop of [fix_branches] over the entries of [ctx.branches]. *)
Fixpoint fix_branches_loop (block_offset : list Z) (brs : list (nat * nat))
    (out : list Z) : option (list Z) :=
  match brs with
  | [] => Some out
  | (first, target) :: brs' =>
      start <- nth_error block_offset target ;;
      let offset := start - Z.of_nat first - 1 in
      w <- nth_error out first ;;
      out' <- vector_set out first (Z.lor w (u16 offset)) ;;
      fix_branches_loop block_offset brs' out'
  end.

Definition fix_branches (ctx : asm_context) (out : list Z) : option (list Z) :=
  fix_branches_loop (block_offset ctx) (branches ctx) out.

(** The null export [fix_exports] synthesizes. *)
Definition null_export : Instruction :=
  mkInstruction aco_opcode.exp Format.EXP
    [Operand_undef; Operand_undef; Operand_undef; Operand_undef] []
    (Export_fields 0 9 false true true).

Inductive scan := Found (l : list Instruction) | Missing | Broken.

(** The [while] loop of [fix_exports] over the instructions of a block
    from the one before the last towards the first. *)
Fixpoint find_export (rl : list Instruction) : scan :=
  match rl with
  | [] => Missing
  | i :: rest =>
      if format i =? Format.EXP then
        match payload i with
        | Export_fields m d c _ _ =>
            Found (mkInstruction (opcode i) (format i) (operands i)
                                 (definitions i) (Export_fields m d c true true)
                   :: rest)
        | _ => Broken
        end
      else if match definitions i with
              | d :: _ => reg (def_reg d) =? reg exec
              | [] => false
              end then Missing
      else if aco_opcode.eqb (opcode i) aco_opcode.s_endpgm then Missing
      else match find_export rest with
           | Found l => Found (i :: l)
           | r => r
           end
  end.

(** [fix_exports] over the blocks from the last towards the first; the
    result holds the blocks in reverse order. *)
Fixpoint fix_exports_rev (rblocks : list Block) : option (list Block) :=
  match rblocks with
  | [] => Some []
  | blk :: rest =>
      match rev (instructions blk) with
      | [] => None
      | last :: before =>
          match find_export before with
          | Found before' =>
              Some (set_instructions (rev (last :: before')) blk :: rest)
          | Broken => None
          | Missing =>
              let n := length (instructions blk) in
              let blk' := set_instructions
                (vector_insert (instructions blk) (n - 1) null_export) blk in
              rest' <- fix_exports_rev rest ;;
              Some (blk' :: rest')
          end
      end
  end.

Definition fix_exports (blocks : list Block) : option (list Block) :=
  r <- fix_exports_rev (rev blocks) ;; Some (rev r).

(** The loop of [emit_program] over the blocks. *)
Fixpoint emit_blocks (ctx : asm_context) (out : list Z) (blocks : list Block)
    : option (asm_context * list Z) :=
  match blocks with
  | [] => Some (ctx, out)
  | blk :: rest =>
      offs <- vector_set (block_offset ctx) (index blk) (Z.of_nat (length out)) ;;
      '(ctx', out') <- emit_block (mkCtx (branches ctx) offs) out blk ;;
      emit_blocks ctx' out' rest
  end.

Definition emit_program (blocks : list Block) : option (list Z) :=
  let ctx := mkCtx [] (repeat 0 (length blocks)) in
  let out := [] in
  blocks' <- fix_exports blocks ;;
  '(ctx', out') <- emit_blocks ctx out blocks' ;;
  fix_branches ctx' out'.

End Assembler.
(** The block a branch instruction targets, as [emit_instruction] records it. *)
Definition sopp_target (i : Instruction) : option nat :=
  if format i =? Format.SOPP then
    match payload i with
    | SOPP_fields _ (Some t) => Some t
    | _ => None
    end
  else None.

(** The word of a SOPP instruction before [fix_branches]. *)
Definition sopp_word (hw : aco_opcode.t -> Z) (i : Instruction) (imm : Z) : Z :=
  or32 (or32 (u32 (Z.shiftl 383 23)) (shl32 (hw (opcode i)) 16)) (u16 imm).

(** The branches of an assembled program: for every SOPP instruction [i]
    that targets a block [t], the word at the position of [i] in [final],
    after the words of the blocks before it and of the instructions before
    it in its block, is related by [P] to the [imm] field of [i] and to
    [target_block_start - (branch_index + 1)], where the block [t] starts
    after the words of the blocks before it. *)
Definition branches_patched (P : Z -> Z -> Z -> Prop)
    (hw : aco_opcode.t -> Z) (n : nat) (blocks : list Block) (final : list Z)
    : Prop :=
  forall bpre blk bpost ipre i ipost imm t,
    blocks = bpre ++ blk :: bpost ->
    instructions blk = ipre ++ i :: ipost ->
    format i = Format.SOPP -> payload i = SOPP_fields imm (Some t) ->
    exists c1 o1 offs c2 o2 ct ot w,
      emit_blocks hw (mkCtx [] (repeat 0 n)) [] bpre = Some (c1, o1) /\
      vector_set (block_offset c1) (index blk) (Z.of_nat (length o1))
        = Some offs /\
      emit_block_instrs hw (mkCtx (branches c1) offs) o1 ipre = Some (c2, o2) /\
      emit_blocks hw (mkCtx [] (repeat 0 n)) [] (firstn t blocks)
        = Some (ct, ot) /\
      nth_error final (length o2) = Some w /\
      P imm w (Z.of_nat (length ot) - (Z.of_nat (length o2) + 1)).

(** A table of hardware opcodes for the examples. *)
Definition example_opcodes (op : aco_opcode.t) : Z :=
  match op with
  | aco_opcode.s_endpgm => 1
  | aco_opcode.other n => Z.of_nat n
  | _ => 0
  end.

Definition example_sopp (op : aco_opcode.t) (imm : Z) (block : option nat)
  : Instruction :=
  mkInstruction op Format.SOPP [] [] (SOPP_fields imm block).

Definition example_export : Instruction :=
  mkInstruction aco_opcode.exp Format.EXP
    [Operand_phys (mkPhysReg 256) RegClass.v1;
     Operand_phys (mkPhysReg 257) RegClass.v1;
     Operand_phys (mkPhysReg 258) RegClass.v1;
     Operand_phys (mkPhysReg 259) RegClass.v1] []
    (Export_fields 15 0 false false false).

(** Three blocks: an export and a branch to the last block, a block that
    is skipped, the end of the program.  [imm] is the [imm] field of the
    branch. *)
Definition example_program (imm : Z) : list Block :=
  [ mkBlock 0 [example_export; example_sopp (aco_opcode.other 2) imm (Some 2%nat)]
            [] [] [] [];
    mkBlock 1 [example_sopp (aco_opcode.other 0) 7 None] [] [] [] [];
    mkBlock 2 [example_sopp aco_opcode.s_endpgm 0 None] [] [] [] [] ].

(** The example after [fix_exports]. *)
Definition example_fixed (imm : Z) : list Block :=
  match fix_exports (example_program imm) with
  | Some blocks => blocks
  | None => []
  end.

Definition extends (enc : list Z -> Instruction -> option (list Z)) : Prop :=
  forall out i out', enc out i = Some out' -> exists ws, out' = out ++ ws.

(** What the emission of one instruction does to the context and the
    words, stated once for [emit_plain] and [emit_instruction]. *)
Definition emission (hw : aco_opcode.t -> Z) (i : Instruction)
    (ctx : asm_context) (out : list Z)
    (ctx' : asm_context) (out' : list Z) : Prop :=
  block_offset ctx' = block_offset ctx /\
  branches ctx' = match sopp_target i with
                  | Some t => map_insert (length out) t (branches ctx)
                  | None => branches ctx
                  end /\
  exists ws, out' = out ++ ws /\
             forall imm blk, format i = Format.SOPP ->
                             payload i = SOPP_fields imm blk ->
                             exists ws', ws = sopp_word hw i imm :: ws'.

Definition keys_below (n : nat) (m : list (nat * nat)) : Prop :=
  forall k t, In (k, t) m -> (k < n)%nat.

(** The branches a run of the assembler has recorded so far: their keys
    are distinct positions of the words emitted. *)
Definition recorded (ctx : asm_context) (out : list Z) : Prop :=
  NoDup (map fst (branches ctx)) /\ keys_below (length out) (branches ctx).

(** A run from [(ctx, out)] to [(ctx', out')]: words and records are only
    added, records at the positions of new words. *)
Definition grows (ctx : asm_context) (out : list Z)
    (ctx' : asm_context) (out' : list Z) : Prop :=
  (exists ws, out' = out ++ ws) /\
  (exists new, branches ctx' = branches ctx ++ new /\
               forall k t, In (k, t) new -> (length out <= k)%nat) /\
  recorded ctx' out'.

Definition targets_below (n : nat) (m : list (nat * nat)) : Prop :=
  forall k t, In (k, t) m -> (t < n)%nat.





(** [s_mov_b32 s0, 0x12345]: a SOP1 instruction with a literal operand. *)
Definition example_sop1 : Instruction :=
  mkInstruction (aco_opcode.other 0) Format.SOP1
    [Operand_const 0x12345] [Definition_phys (mkPhysReg 0) RegClass.s1]
    NoPayload.

End Asm.

(** ** The assembler of [aco_assembler.cpp] *)

(** The sources hold a second, older assembler: no branches are recorded,
    the formats SOPC, SMEM, DS, MUBUF, MIMG and the DPP modifier are not
    implemented, and only the first operand is looked at for a literal. *)
Module OldAsm.
Section Assembler.

Variable hw_opcode : aco_opcode.t -> Z.

Definition push_back (out : list Z) (w : Z) : list Z := out ++ [w].

Definition opreg (i : Instruction) (n : nat) : option Z :=
  o <- getOperand i n ;; Some (reg (physReg o)).
Definition defreg (i : Instruction) (n : nat) : option Z :=
  d <- getDefinition i n ;; Some (reg (def_reg d)).
Definition cond (c : bool) (e : option Z) : option Z :=
  if c then e else Some 0.
Definition bit (c : bool) (n : Z) : Z := if c then Z.shiftl 1 n else 0.

(** The loop over the operands of the VOP3A case; a shift of the 32-bit
    [reg] by 36 or more, from the fifth operand on, is undefined. *)
Fixpoint vop3_srcs (e : Z) (ops : list Operand) (i : Z) : option Z :=
  match ops with
  | [] => Some e
  | o :: ops' =>
      if i * 9 <? 32
      then vop3_srcs (or32 e (shl32 (reg (physReg o)) (i * 9))) ops' (i + 1)
      else None
  end.

Definition encode_vop3a (out : list Z) (instr : Instruction) : option (list Z) :=
  let e := u32 (Z.shiftl 52 26) in
  let e := or32 e (shl32 (hw_opcode (opcode instr)) 16) in
  d <- defreg instr 0 ;;
  let e := or32 e (Z.land 255 d) in
  let out := push_back out e in
  e <- vop3_srcs 0 (operands instr) 0 ;;
  Some (push_back out e).

Definition encode_sop2 (out : list Z) (instr : Instruction) : option (list Z) :=
  let e := u32 (Z.shiftl 2 30) in
  let e := or32 e (shl32 (hw_opcode (opcode instr)) 23) in
  d <- cond (negb (definitionCount instr =? 0))
            (r <- defreg instr 0 ;; Some (shl32 r 16)) ;;
  let e := or32 e d in
  s1 <- cond (operandCount instr =? 2)
             (r <- opreg instr 1 ;; Some (shl32 r 8)) ;;
  let e := or32 e s1 in
  s0 <- cond (negb (operandCount instr =? 0)) (opreg instr 0) ;;
  Some (push_back out (or32 e s0)).

Definition sopk_reg (instr : Instruction) : option Z :=
  def_ok <- (if negb (definitionCount instr =? 0)
             then d <- getDefinition instr 0 ;;
                  Some (negb (RegClass.eqb (reg_class (def_temp d)) RegClass.b))
             else Some false) ;;
  if def_ok : bool then r <- defreg instr 0 ;; Some (shl32 r 16)
  else
    op_ok <- (if negb (operandCount instr =? 0)
              then o <- getOperand instr 0 ;;
                   Some (negb (RegClass.eqb (op_rc o) RegClass.b))
              else Some false) ;;
    if op_ok : bool then r <- opreg instr 0 ;; Some (shl32 r 16)
    else Some 0.

Definition encode_sopk (out : list Z) (instr : Instruction) : option (list Z) :=
  let e := u32 (Z.shiftl 11 28) in
  let e := or32 e (shl32 (hw_opcode (opcode instr)) 23) in
  r <- sopk_reg instr ;;
  let e := or32 e r in
  match payload instr with
  | SOPK_fields imm => Some (push_back out (or32 e (u16 imm)))
  | _ => None
  end.

Definition encode_sop1 (out : list Z) (instr : Instruction) : option (list Z) :=
  let e := u32 (Z.shiftl 381 23) in
  d <- cond (negb (definitionCount instr =? 0))
            (r <- defreg instr 0 ;; Some (shl32 r 16)) ;;
  let e := or32 e d in
  let e := or32 e (shl32 (hw_opcode (opcode instr)) 8) in
  s0 <- cond (negb (operandCount instr =? 0)) (opreg instr 0) ;;
  Some (push_back out (or32 e s0)).

(** The [imm] of a SOPP instruction is ORed in as the [uint32_t] it is. *)
Definition encode_sopp (out : list Z) (instr : Instruction) : option (list Z) :=
  match payload instr with
  | SOPP_fields imm _ =>
      let e := u32 (Z.shiftl 383 23) in
      let e := or32 e (shl32 (hw_opcode (opcode instr)) 16) in
      Some (push_back out (or32 e imm))
  | _ => None
  end.

Definition encode_vop2 (out : list Z) (instr : Instruction) : option (list Z) :=
  let e := 0 in
  let e := or32 e (shl32 (hw_opcode (opcode instr)) 25) in
  d <- defreg instr 0 ;;
  let e := or32 e (shl32 (Z.land 255 d) 17) in
  s1 <- opreg instr 1 ;;
  let e := or32 e (shl32 s1 9) in
  s0 <- opreg instr 0 ;;
  Some (push_back out (or32 e s0)).

Definition encode_vop1 (out : list Z) (instr : Instruction) : option (list Z) :=
  let e := u32 (Z.shiftl 63 25) in
  d <- defreg instr 0 ;;
  let e := or32 e (shl32 (Z.land 255 d) 17) in
  let e := or32 e (shl32 (hw_opcode (opcode instr)) 9) in
  s0 <- opreg instr 0 ;;
  Some (push_back out (or32 e s0)).

Definition encode_vopc (out : list Z) (instr : Instruction) : option (list Z) :=
  let e := u32 (Z.shiftl 62 25) in
  let e := or32 e (shl32 (hw_opcode (opcode instr)) 17) in
  s1 <- opreg instr 1 ;;
  let e := or32 e (shl32 (Z.land 255 s1) 9) in
  s0 <- opreg instr 0 ;;
  Some (push_back out (or32 e s0)).

Definition encode_vintrp (out : list Z) (instr : Instruction) : option (list Z) :=
  match payload instr with
  | Interp_fields attribute component =>
      let e := u32 (Z.shiftl 53 26) in
      d <- defreg instr 0 ;;
      let e := or32 e (shl32 (Z.land 255 d) 18) in
      let e := or32 e (shl32 (hw_opcode (opcode instr)) 16) in
      let e := or32 e (shl32 attribute 10) in
      let e := or32 e (shl32 component 8) in
      s0 <- opreg instr 0 ;;
      Some (push_back out (or32 e (Z.land 255 s0)))
  | _ => None
  end.

Definition encode_exp (out : list Z) (instr : Instruction) : option (list Z) :=
  match payload instr with
  | Export_fields enabled_mask dest compressed done valid_mask =>
      let e := u32 (Z.shiftl 49 26) in
      let e := or32 e (bit valid_mask 12) in
      let e := or32 e (bit done 11) in
      let e := or32 e (bit compressed 10) in
      let e := or32 e (shl32 dest 4) in
      let e := or32 e enabled_mask in
      let out := push_back out e in
      s0 <- opreg instr 0 ;;
      let e := Z.land 255 s0 in
      s1 <- opreg instr 1 ;;
      let e := or32 e (shl32 (Z.land 255 s1) 8) in
      s2 <- opreg instr 2 ;;
      let e := or32 e (shl32 (Z.land 255 s2) 16) in
      s3 <- opreg instr 3 ;;
      Some (push_back out (or32 e (shl32 (Z.land 255 s3) 24)))
  | _ => None
  end.

(** "append literal dword": the first operand alone, by its register. *)
Definition append_literal (out : list Z) (instr : Instruction) : option (list Z) :=
  if negb (operandCount instr =? 0) then
    o <- getOperand instr 0 ;;
    if reg (physReg o) =? 255 then Some (push_back out (u32 (constantValue o)))
    else Some out
  else Some out.

Definition emit_instruction (out : list Z) (instr : Instruction)
    : option (list Z) :=
  let f := format instr in
  out' <-
    (if f =? Format.VOP3A then encode_vop3a out instr
     else if f =? Format.SOP2 then encode_sop2 out instr
     else if f =? Format.SOPK then encode_sopk out instr
     else if f =? Format.SOP1 then encode_sop1 out instr
     else if f =? Format.SOPP then encode_sopp out instr
     else if f =? Format.VOP2 then encode_vop2 out instr
     else if f =? Format.VOP1 then encode_vop1 out instr
     else if f =? Format.VOPC then encode_vopc out instr
     else if f =? Format.VINTRP then encode_vintrp out instr
     else if f =? Format.EXP then encode_exp out instr
     else if f =? Format.PSEUDO then Some out
     else None) ;;
  append_literal out' instr.

Fixpoint emit_block_instrs (out : list Z) (instrs : list Instruction)
    : option (list Z) :=
  match instrs with
  | [] => Some out
  | i :: rest => out' <- emit_instruction out i ;; emit_block_instrs out' rest
  end.

Definition emit_block (out : list Z) (block : Block) : option (list Z) :=
  emit_block_instrs out (instructions block).

Fixpoint emit_blocks (out : list Z) (blocks : list Block) : option (list Z) :=
  match blocks with
  | [] => Some out
  | blk :: rest => out' <- emit_block out blk ;; emit_blocks out' rest
  end.

(** [emit_program]; [emit_elf_header] is empty. *)
Definition emit_program (blocks : list Block) : option (list Z) :=
  emit_blocks [] blocks.

End Assembler.

(** The formats on which the two assemblers have the same case. *)
Definition common_formats : list Z :=
  [Format.SOPK; Format.SOP1; Format.VOP1; Format.VOPC; Format.VINTRP;
   Format.EXP; Format.PSEUDO].

(** The two rules for the literal dword name the same operand: only the
    first operand can read the register 255, and only as a constant. *)
Definition literal_first (instr : Instruction) : bool :=
  match operands instr with
  | [] => true
  | o :: rest =>
      (negb (reg (physReg o) =? 255) || isConstant o)
      && forallb (fun o' => negb (isLiteral o')) rest
  end.

End OldAsm.

(** ** The NIR divergence analysis *)

Module Nir.

Inductive nir_instr_type :=
| nir_instr_type_alu | nir_instr_type_deref | nir_instr_type_call
| nir_instr_type_tex | nir_instr_type_intrinsic | nir_instr_type_load_const
| nir_instr_type_jump | nir_instr_type_ssa_undef | nir_instr_type_phi
| nir_instr_type_parallel_copy.

Definition is_tex (t : nir_instr_type) : bool :=
  match t with nir_instr_type_tex => true | _ => false end.
Definition is_ssa_undef (t : nir_instr_type) : bool :=
  match t with nir_instr_type_ssa_undef => true | _ => false end.

Inductive nir_cf_node_type :=
| nir_cf_node_block | nir_cf_node_if | nir_cf_node_loop | nir_cf_node_function.

Inductive nir_op :=
| nir_op_vec2 | nir_op_vec3 | nir_op_vec4 | nir_op_other (n : nat).

Inductive nir_intrinsic_op :=
| nir_intrinsic_shader_clock | nir_intrinsic_ballot
| nir_intrinsic_read_invocation | nir_intrinsic_read_first_invocation
| nir_intrinsic_vote_any | nir_intrinsic_vote_all
| nir_intrinsic_vote_feq | nir_intrinsic_vote_ieq
| nir_intrinsic_reduce | nir_intrinsic_load_push_constant
| nir_intrinsic_vulkan_resource_index | nir_intrinsic_load_ubo
| nir_intrinsic_load_interpolated_input | nir_intrinsic_load_barycentric_pixel
| nir_intrinsic_other (n : nat).

Inductive nir_tex_src_type := nir_tex_src_coord | nir_tex_src_other (n : nat).

(** [nir_ssa_def]: its index and size, and the type of the instruction
    that defines it ([ssa->parent_instr->type]). *)
Record nir_ssa_def := mkDef {
  index : nat;
  num_components : nat;
  parent_instr_type : nir_instr_type
}.

Record nir_alu_src := mkAluSrc { src : nir_ssa_def; swizzle : nat -> nat }.

Record nir_alu_instr := mkAlu {
  op : nir_op;
  alu_dest : nat;
  alu_src : list nir_alu_src
}.

Record nir_intrinsic_instr := mkIntrinsic {
  intrinsic : nir_intrinsic_op;
  intrinsic_dest : nat;
  intrinsic_src : list nir_ssa_def
}.

Record nir_tex_src := mkTexSrc { src_type : nir_tex_src_type; tex_ssa : nir_ssa_def }.

Record nir_tex_instr := mkTex { tex_dest : nat; tex_src : list nir_tex_src }.

(** A phi source: the cf node of the predecessor block and the value. *)
Record nir_phi_src := mkPhiSrc { pred : nat; phi_ssa : nir_ssa_def }.

(** [phi_block] is the cf node of [instr.block]. *)
Record nir_phi_instr := mkPhi {
  phi_dest : nat;
  phi_block : nat;
  phi_srcs : list nir_phi_src
}.

Record nir_parallel_copy_entry := mkEntry { entry_dest : nat; entry_src : nir_ssa_def }.

(** [deref_uses]: the types of the instructions that use the result,
    what [nir_foreach_use] visits ([src->parent_instr->type]). *)
Record nir_deref_instr := mkDeref {
  deref_dest : nat;
  deref_uses : list nir_instr_type
}.

Inductive nir_instr :=
| instr_alu (i : nir_alu_instr)
| instr_intrinsic (i : nir_intrinsic_instr)
| instr_tex (i : nir_tex_instr)
| instr_phi (i : nir_phi_instr)
| instr_parallel_copy (entries : list nir_parallel_copy_entry)
| instr_load_const (def : nat)
| instr_ssa_undef (def : nat)
| instr_deref (i : nir_deref_instr)
| instr_jump
| instr_call.

(** The control-flow tree as the analysis walks it.  A cf node is a
    number; [parents n] is the chain [n->parent], [n->parent->parent], ...
    up to the function, [prev n] is [nir_cf_node_prev(n)]. *)
Record nir_cf := mkCf {
  node_type : nat -> nir_cf_node_type;
  parents : nat -> list nat;
  prev : nat -> option nat;
  if_condition : nat -> nat;
  loop_last_block : nat -> nat
}.

(** [bool *divergent] *)
Definition divergence : Type := nat -> bool.

Definition set (t : divergence) (i : nat) (v : bool) : divergence :=
  fun j => if Nat.eqb j i then v else t j.

Section Analysis.

(** [nir_op_infos] and [nir_intrinsic_infos], generated tables that are
    not among the sources. *)
Variable num_inputs : nir_op -> nat.
Variable input_sizes : nir_op -> nat -> nat.
Variable has_dest : nir_intrinsic_op -> bool.
Variable num_srcs : nir_intrinsic_op -> nat.

Variable cf : nir_cf.

(** [alu_src_is_divergent].  [src.src.parent_instr] is the instruction
    that uses the source, the ALU instruction [parent] itself: its type
    is [nir_instr_type_alu]. *)
Definition alu_src_is_divergent (divergent : divergence)
    (parent : nir_alu_instr) (s : nir_alu_src)
    (num_input_components : nat) : option bool :=
  if Nat.eqb num_input_components 1
     && negb (Nat.eqb (num_components (src s)) 1)
  then
    match op parent with
    | nir_op_vec2 | nir_op_vec3 | nir_op_vec4 =>
        p <- nth_error (alu_src parent) (swizzle s 0) ;;
        if divergent (index (src p)) then Some true else Some false
    | nir_op_other _ => Some (divergent (index (src s)))
    end
  else Some (divergent (index (src s))).

(** The [for] loop of [visit_alu]: is one of the sources [i], ... of the
    list divergent? *)
Fixpoint alu_loop (divergent : divergence) (instr : nir_alu_instr)
    (idxs : list nat) : option bool :=
  match idxs with
  | [] => Some false
  | i :: rest =>
      s <- nth_error (alu_src instr) i ;;
      d <- alu_src_is_divergent divergent instr s (input_sizes (op instr) i) ;;
      if d : bool then Some true else alu_loop divergent instr rest
  end.

Definition visit_alu (divergent : divergence) (instr : nir_alu_instr)
    : option (divergence * bool) :=
  if divergent (alu_dest instr) then Some (divergent, false)
  else
    let num_src := num_inputs (op instr) in
    d <- alu_loop divergent instr (seq 0 num_src) ;;
    if d : bool then Some (set divergent (alu_dest instr) true, true)
    else Some (set divergent (alu_dest instr) false, false).

Fixpoint ubo_loop (divergent : divergence) (srcs : list nir_ssa_def)
    (idxs : list nat) : option bool :=
  match idxs with
  | [] => Some false
  | i :: rest =>
      s <- nth_error srcs i ;;
      if divergent (index s) then Some true else ubo_loop divergent srcs rest
  end.

Definition visit_intrinsic (divergent : divergence)
    (instr : nir_intrinsic_instr) : option (divergence * bool) :=
  if negb (has_dest (intrinsic instr)) then Some (divergent, false)
  else if divergent (intrinsic_dest instr) then Some (divergent, false)
  else
    is_divergent <-
      match intrinsic instr with
      | nir_intrinsic_shader_clock | nir_intrinsic_ballot
      | nir_intrinsic_read_invocation | nir_intrinsic_read_first_invocation
      | nir_intrinsic_vote_any | nir_intrinsic_vote_all
      | nir_intrinsic_vote_feq | nir_intrinsic_vote_ieq
      | nir_intrinsic_reduce | nir_intrinsic_load_push_constant
      | nir_intrinsic_vulkan_resource_index => Some false
      | nir_intrinsic_load_ubo =>
          ubo_loop divergent (intrinsic_src instr)
                   (seq 0 (num_srcs (intrinsic instr)))
      | nir_intrinsic_load_interpolated_input
      | nir_intrinsic_load_barycentric_pixel
      | nir_intrinsic_other _ => Some true
      end ;;
    Some (set divergent (intrinsic_dest instr) is_divergent, is_divergent).

Fixpoint tex_loop (divergent : divergence) (is_divergent : bool)
    (srcs : list nir_tex_src) : bool :=
  match srcs with
  | [] => is_divergent
  | s :: rest =>
      match src_type s with
      | nir_tex_src_coord =>
          tex_loop divergent (is_divergent || divergent (index (tex_ssa s))) rest
      | nir_tex_src_other _ => tex_loop divergent is_divergent rest
      end
  end.

Definition visit_tex (divergent : divergence) (instr : nir_tex_instr)
    : option (divergence * bool) :=
  if divergent (tex_dest instr) then Some (divergent, false)
  else
    let is_divergent := tex_loop divergent false (tex_src instr) in
    Some (set divergent (tex_dest instr) is_divergent, is_divergent).

(** The first loop of [visit_phi]: [inl tt] when a source is divergent,
    else the number of sources that are not undefined. *)
Fixpoint phi_scan (divergent : divergence) (non_undef : nat)
    (srcs : list nir_phi_src) : unit + nat :=
  match srcs with
  | [] => inr non_undef
  | s :: rest =>
      if divergent (index (phi_ssa s)) then inl tt
      else if negb (is_ssa_undef (parent_instr_type (phi_ssa s)))
      then phi_scan divergent (non_undef + 1) rest
      else phi_scan divergent non_undef rest
  end.

(** [while (current->type != nir_cf_node_loop)] along the parents of a
    predecessor: is the condition of an enclosing [if] divergent?  The
    chain ends at the function, whose parent is null. *)
Fixpoint walk_conditions (divergent : divergence) (chain : list nat)
    : option bool :=
  match chain with
  | [] => None
  | current :: up =>
      match node_type cf current with
      | nir_cf_node_loop => Some false
      | nir_cf_node_if =>
          if divergent (if_condition cf current) then Some true
          else walk_conditions divergent up
      | _ => walk_conditions divergent up
      end
  end.

(** The two unconditional ssa-defs of a mu node. *)
Definition unconditional_defs (last_block prev_block : nat)
    (srcs : list nir_phi_src) : list nat :=
  map (fun s => index (phi_ssa s))
      (filter (fun s => Nat.eqb (pred s) last_block
                        || Nat.eqb (pred s) prev_block) srcs).

Fixpoint mu_loop (divergent : divergence) (u0 u1 : nat)
    (srcs : list nir_phi_src) : option bool :=
  match srcs with
  | [] => Some false
  | s :: rest =>
      if Nat.eqb (index (phi_ssa s)) u0 || Nat.eqb (index (phi_ssa s)) u1
      then mu_loop divergent u0 u1 rest
      else
        d <- walk_conditions divergent (parents cf (pred s)) ;;
        if d : bool then Some true else mu_loop divergent u0 u1 rest
  end.

Fixpoint eta_loop (divergent : divergence) (srcs : list nir_phi_src)
    : option bool :=
  match srcs with
  | [] => Some false
  | s :: rest =>
      match parents cf (pred s) with
      | current :: _ =>
          match node_type cf current with
          | nir_cf_node_if =>
              d <- walk_conditions divergent (parents cf (pred s)) ;;
              if d : bool then Some true else eta_loop divergent rest
          | _ => None
          end
      | [] => None
      end
  end.

Definition visit_phi (divergent : divergence) (instr : nir_phi_instr)
    : option (divergence * bool) :=
  if divergent (phi_dest instr) then Some (divergent, false)
  else
    match phi_scan divergent 0 (phi_srcs instr) with
    | inl _ => Some (set divergent (phi_dest instr) true, true)
    | inr non_undef =>
        if (non_undef <=? 1)%nat then Some (divergent, false)
        else
          d <-
            match prev cf (phi_block instr) with
            | None =>
                (* mu: the phi must be at a loop header *)
                match parents cf (phi_block instr) with
                | loop :: _ =>
                    match node_type cf loop, prev cf loop with
                    | nir_cf_node_loop, Some before =>
                        match node_type cf before,
                              unconditional_defs (loop_last_block cf loop)
                                                 before (phi_srcs instr) with
                        | nir_cf_node_block, [u0; u1] =>
                            mu_loop divergent u0 u1 (phi_srcs instr)
                        | _, _ => None
                        end
                    | _, _ => None
                    end
                | [] => None
                end
            | Some p =>
                match node_type cf p with
                | nir_cf_node_if =>
                    (* gamma: check if the condition is divergent *)
                    Some (divergent (if_condition cf p))
                | nir_cf_node_loop =>
                    (* eta: check if any loop exit condition is divergent *)
                    eta_loop divergent (phi_srcs instr)
                | _ => None
                end
            end ;;
          if d : bool then Some (set divergent (phi_dest instr) true, true)
          else Some (set divergent (phi_dest instr) false, false)
    end.

Fixpoint visit_parallel_copy_loop (divergent : divergence) (has_changed : bool)
    (entries : list nir_parallel_copy_entry) : divergence * bool :=
  match entries with
  | [] => (divergent, has_changed)
  | e :: rest =>
      if divergent (entry_dest e)
      then visit_parallel_copy_loop divergent has_changed rest
      else
        let divergent' :=
          set divergent (entry_dest e) (divergent (index (entry_src e))) in
        visit_parallel_copy_loop divergent'
          (if divergent' (entry_dest e) then true else has_changed) rest
  end.

Definition visit_parallel_copy (divergent : divergence)
    (entries : list nir_parallel_copy_entry) : option (divergence * bool) :=
  Some (visit_parallel_copy_loop divergent false entries).

Definition visit_load_const (divergent : divergence) (def : nat)
    : option (divergence * bool) :=
  Some (set divergent def false, false).

Definition visit_ssa_undef (divergent : divergence) (def : nat)
    : option (divergence * bool) :=
  Some (set divergent def false, false).

Definition visit_deref (divergent : divergence) (instr : nir_deref_instr)
    : option (divergence * bool) :=
  if existsb (fun t => negb (is_tex t)) (deref_uses instr)
  then Some (set divergent (deref_dest instr) false, false)
  else
    let before := divergent (deref_dest instr) in
    Some (set divergent (deref_dest instr) true, negb before).

(** The [switch] of [nir_divergence_analysis] on the type of the
    instruction; a call trips [assert(false)]. *)
Definition visit_instr (divergent : divergence) (instr : nir_instr)
    : option (divergence * bool) :=
  match instr with
  | instr_alu i => visit_alu divergent i
  | instr_intrinsic i => visit_intrinsic divergent i
  | instr_tex i => visit_tex divergent i
  | instr_phi i => visit_phi divergent i
  | instr_parallel_copy es => visit_parallel_copy divergent es
  | instr_load_const d => visit_load_const divergent d
  | instr_ssa_undef d => visit_ssa_undef divergent d
  | instr_deref i => visit_deref divergent i
  | instr_jump => Some (divergent, false)
  | instr_call => None
  end.

(** [nir_foreach_instr(instr, block)] with [has_changed |= ...]. *)
Fixpoint visit_block (divergent : divergence) (has_changed : bool)
    (instrs : list nir_instr) : option (divergence * bool) :=
  match instrs with
  | [] => Some (divergent, has_changed)
  | i :: rest =>
      '(divergent', c) <- visit_instr divergent i ;;
      visit_block divergent' (has_changed || c) rest
  end.

(** Modelled from the spec: the block worklist of [nir_worklist.h] is not
    among the sources.  It is a queue of block indices without
    duplicates; it is seeded with every block and refilled with every
    block after a change. *)
Definition worklist_add_all (worklist : list nat) (num_blocks : nat)
    : list nat :=
  fold_left (fun w b => if existsb (Nat.eqb b) w then w else w ++ [b])
            (seq 0 num_blocks) worklist.

(** The [while] loop of [nir_divergence_analysis] over the blocks of the
    entry point; [fuel] bounds the number of blocks it pops. *)
Fixpoint analysis_loop (fuel : nat) (blocks : list (list nir_instr))
    (t : divergence) (worklist : list nat) : option divergence :=
  match worklist with
  | [] => Some t
  | block :: worklist' =>
      match fuel with
      | O => None
      | S fuel' =>
          instrs <- nth_error blocks block ;;
          '(t', has_changed) <- visit_block t false instrs ;;
          analysis_loop fuel' blocks t'
            (if has_changed : bool
             then worklist_add_all worklist' (length blocks)
             else worklist')
      end
  end.

Definition nir_divergence_analysis (fuel : nat) (blocks : list (list nir_instr))
    : option divergence :=
  analysis_loop fuel blocks (fun _ => false)
                (worklist_add_all [] (length blocks)).

(** The ssa indices an instruction defines. *)
Definition defs (i : nir_instr) : list nat :=
  match i with
  | instr_alu a => [alu_dest a]
  | instr_intrinsic a => if has_dest (intrinsic a) then [intrinsic_dest a] else []
  | instr_tex a => [tex_dest a]
  | instr_phi a => [phi_dest a]
  | instr_parallel_copy es => map entry_dest es
  | instr_load_const d => [d]
  | instr_ssa_undef d => [d]
  | instr_deref a => [deref_dest a]
  | instr_jump | instr_call => []
  end.

(** SSA form: every index has one definition. *)
Definition ssa_form (blocks : list (list nir_instr)) : Prop :=
  NoDup (concat (map defs (concat blocks))).

(** The states of the map in the course of the iteration: the zeroed
    array, and what a visit of an instruction of the shader makes of a
    state that was reached. *)
Inductive reached (blocks : list (list nir_instr)) : divergence -> Prop :=
| reached_init : reached blocks (fun _ => false)
| reached_visit : forall t i t' c,
    reached blocks t -> In i (concat blocks) ->
    visit_instr t i = Some (t', c) -> reached blocks t'.

End Analysis.
Local Close Scope Z_scope.

(** The number of phi sources that are not undefined. *)
Definition non_undef_count (srcs : list nir_phi_src) : nat :=
  length (filter (fun s => negb (is_ssa_undef (parent_instr_type (phi_ssa s))))
                 srcs).

(** The values the analysis can only ever write [false] to: the results of
    a load_const, of an undef, and of a deref with a use outside of a
    texture instruction. *)
Definition written_uniform (i : nir_instr) (d : nat) : Prop :=
  match i with
  | instr_load_const d' => d' = d
  | instr_ssa_undef d' => d' = d
  | instr_deref di =>
      deref_dest di = d /\
      existsb (fun t => negb (is_tex t)) (deref_uses di) = true
  | _ => False
  end.

(** An example for the phi of an if-then-else: the cf nodes are the block
    0 with the condition, the [if] 1 with the blocks 2 and 3 in it, and the
    join block 4. *)
Definition example_cf : nir_cf :=
  mkCf (fun n => match n with
                 | 1 => nir_cf_node_if
                 | 5 => nir_cf_node_function
                 | _ => nir_cf_node_block
                 end)
       (fun n => match n with
                 | 2 | 3 => [1; 5]
                 | _ => [5]
                 end)
       (fun n => match n with
                 | 1 => Some 0 | 4 => Some 1 | _ => None
                 end)
       (fun _ => 0)
       (fun _ => 0).

(** The phi of the join block: one source is the value 1 of the then
    branch, the other is undefined. *)
Definition example_gamma : nir_phi_instr :=
  mkPhi 3 4 [mkPhiSrc 2 (mkDef 1 1 nir_instr_type_load_const);
             mkPhiSrc 3 (mkDef 2 1 nir_instr_type_ssa_undef)].

(** The shader of the example: the condition 0 is an interpolated input. *)
Definition example_shader : list (list nir_instr) :=
  [ [instr_intrinsic (mkIntrinsic nir_intrinsic_load_interpolated_input 0 [])];
    [instr_load_const 1];
    [instr_ssa_undef 2];
    [instr_phi example_gamma] ].

(** What the analysis keeps of these values in the course of the
    iteration. *)
Definition uniform_kept (blocks : list (list nir_instr)) (t : divergence)
  : Prop :=
  forall i d, In i (concat blocks) -> written_uniform i d -> t d = false.

(** The [if] nodes the [while] loops of [visit_phi] test along a chain of
    parents: those before the first loop. *)
Fixpoint enclosing_ifs (cf : nir_cf) (chain : list nat) : list nat :=
  match chain with
  | [] => []
  | current :: up =>
      match node_type cf current with
      | nir_cf_node_loop => []
      | nir_cf_node_if => current :: enclosing_ifs cf up
      | _ => enclosing_ifs cf up
      end
  end.

(** A source of a phi lies under a divergent condition. *)
Definition under_divergent_if (cf : nir_cf) (t : divergence) (s : nir_phi_src)
  : Prop :=
  exists n, In n (enclosing_ifs cf (parents cf (pred s))) /\
            t (if_condition cf n) = true.

(** An example with a loop: the block 0, the loop 1 with the header block
    2, the [if] 3 with the blocks 4 and 5 in it and the last block 6, and
    the block 7 after the loop; 9 is the function.  The condition of the
    [if] is the value 0. *)
Definition example_loop_cf : nir_cf :=
  mkCf (fun n => match n with
                 | 1 => nir_cf_node_loop
                 | 3 => nir_cf_node_if
                 | 9 => nir_cf_node_function
                 | _ => nir_cf_node_block
                 end)
       (fun n => match n with
                 | 2 | 3 | 6 => [1; 9]
                 | 4 | 5 => [3; 1; 9]
                 | _ => [9]
                 end)
       (fun n => match n with
                 | 1 => Some 0 | 3 => Some 2 | 6 => Some 3 | 7 => Some 1
                 | _ => None
                 end)
       (fun _ => 0)
       (fun _ => 6).

(** The phi of the block after the loop, for the values that leave the
    loop from the two sides of the [if]. *)
Definition example_eta : nir_phi_instr :=
  mkPhi 5 7 [mkPhiSrc 4 (mkDef 3 1 nir_instr_type_alu);
             mkPhiSrc 5 (mkDef 4 1 nir_instr_type_alu)].

(** The phi of the loop header: the initial value 1, the value 2 of the
    back-edge, and the value 3 of a [continue] in the block 5. *)
Definition example_mu : nir_phi_instr :=
  mkPhi 6 2 [mkPhiSrc 0 (mkDef 1 1 nir_instr_type_load_const);
             mkPhiSrc 6 (mkDef 2 1 nir_instr_type_alu);
             mkPhiSrc 5 (mkDef 3 1 nir_instr_type_alu)].

(** The ssa indices the shader defines. *)
Definition all_defs (has_dest : nir_intrinsic_op -> bool)
    (blocks : list (list nir_instr)) : list nat :=
  concat (map (defs has_dest) (concat blocks)).

(** The number of values among [ds] that are marked uniform. *)
Definition uniform_count (t : divergence) (ds : list nat) : nat :=
  length (filter (fun d => negb (t d)) ds).

(** Two maps that mark the same values. *)
Definition same_marks (t t' : divergence) : Prop := forall v, t' v = t v.

(** Two results of a visit with the same marks and the same flag. *)
Definition same_result (r r' : option (divergence * bool)) : Prop :=
  match r, r' with
  | Some (a, c), Some (a', c') => same_marks a a' /\ c' = c
  | None, None => True
  | _, _ => False
  end.

(** The number of blocks the loop of [nir_divergence_analysis] pops at
    most: a change turns one of the values divergent for good, and refills
    the worklist with the blocks. *)
Definition analysis_fuel (has_dest : nir_intrinsic_op -> bool)
    (blocks : list (list nir_instr)) : nat :=
  S (length (all_defs has_dest blocks)) * S (length blocks).

(** The intrinsics whose result [visit_intrinsic] takes to be uniform. *)
Definition uniform_intrinsics : list nir_intrinsic_op :=
  [nir_intrinsic_shader_clock; nir_intrinsic_ballot;
   nir_intrinsic_read_invocation; nir_intrinsic_read_first_invocation;
   nir_intrinsic_vote_any; nir_intrinsic_vote_all;
   nir_intrinsic_vote_feq; nir_intrinsic_vote_ieq;
   nir_intrinsic_reduce; nir_intrinsic_load_push_constant;
   nir_intrinsic_vulkan_resource_index].

Local Open Scope Z_scope.

End Nir.

(** ** The spill slots of [assign_spill_slots] *)

Module Spill.

(** [std::set<uint32_t>]: a list in increasing order without
    repetitions. *)
Fixpoint set_insert (x : nat) (s : list nat) : list nat :=
  match s with
  | [] => [x]
  | y :: s' =>
      if (x <? y)%nat then x :: s
      else if (x =? y)%nat then s
      else y :: set_insert x s'
  end.

(** [s.insert(t.begin(), t.end())] *)
Definition set_insert_all (s t : list nat) : list nat :=
  fold_left (fun acc x => set_insert x acc) t s.

(** [s.find(x) != s.end()] *)
Definition set_mem (x : nat) (s : list nat) : bool := existsb (Nat.eqb x) s.

(** [ctx.interferences]: for every spill id its register class and the
    ids it interferes with. *)
Definition interferences_t : Type := list (RegClass.t * list nat).

Definition get_set (I : interferences_t) (id : nat) : option (list nat) :=
  option_map snd (nth_error I id).

Definition put_set (I : interferences_t) (id : nat) (s : list nat)
    : option interferences_t :=
  e <- nth_error I id ;; vector_set I id (fst e, s).

(** "first, handle affinities: just merge all interferences into both
    spill ids" *)
Fixpoint merge_affinities (I : interferences_t) (affinities : list (nat * nat))
    : option interferences_t :=
  match affinities with
  | [] => Some I
  | (first, second) :: rest =>
      if (first =? second)%nat then None
      else
        s1 <- get_set I first ;;
        s2 <- get_set I second ;;
        I <- put_set I first (set_insert_all s1 s2) ;;
        s1 <- get_set I first ;;
        I <- put_set I second (set_insert_all s2 s1) ;;
        merge_affinities I rest
  end.

(** The assertion that no spill id interferes with itself. *)
Definition no_self_interference (I : interferences_t) : bool :=
  forallb (fun p => negb (set_mem (fst p) (snd (snd p))))
          (combine (seq 0 (length I)) I).

(** The state of the two loops. *)
Record slots := mkSlots {
  sgpr_slot : list (nat * nat);
  vgpr_slot : list (nat * nat);
  is_assigned : list bool;
  spill_slot_interferences : list (list nat)
}.

Definition slot_of (m : list (nat * nat)) (id : nat) : option nat :=
  option_map snd (find (fun p => (fst p =? id)%nat) m).

(** "check interferences" in the loop of the scalar spill ids: the
    dwords [i], ..., of which [count] are left. *)
Fixpoint check_sgpr (id i count : nat) (ssi : list (list nat))
    : option (bool * list (list nat)) :=
  match count with
  | O => Some (false, ssi)
  | S count' =>
      let ssi := if (i =? length ssi)%nat then ssi ++ [[]] else ssi in
      s <- nth_error ssi i ;;
      if set_mem id s then Some (true, ssi)
      else check_sgpr id (S i) count' ssi
  end.

(** The same in the loop of the vector spill ids: "check for
    interference and ensure that vector regs are stored next to each
    other". *)
Fixpoint check_vgpr (id slot_idx i count : nat) (ssi : list (list nat))
    : option (bool * list (list nat)) :=
  match count with
  | O => Some (false, ssi)
  | S count' =>
      let ssi := if (i =? length ssi)%nat then ssi ++ [[]] else ssi in
      s <- nth_error ssi i ;;
      if set_mem id s || negb (i / 64 =? slot_idx / 64)%nat then Some (true, ssi)
      else check_vgpr id slot_idx (S i) count' ssi
  end.

(** The loop that inserts the interferences of an id into its dwords. *)
Fixpoint mark (ids : list nat) (i count : nat) (ssi : list (list nat))
    : option (list (list nat)) :=
  match count with
  | O => Some ssi
  | S count' =>
      s <- nth_error ssi i ;;
      ssi <- vector_set ssi i (set_insert_all s ids) ;;
      mark ids (S i) count' ssi
  end.

Definition map_set (m : list (nat * nat)) (k v : nat) : list (nat * nat) :=
  (k, v) :: filter (fun p => negb (fst p =? k)%nat) m.

(** The body of the [for] loop over the ids in the loop of the scalar
    spill ids. *)
Definition try_sgpr (I : interferences_t) (slot_idx id : nat)
    (st : bool * slots) : option (bool * slots) :=
  let '(done, s) := st in
  assigned <- nth_error (is_assigned s) id ;;
  e <- nth_error I id ;;
  if assigned : bool then Some st
  else if negb (RegType_eqb (typeOf (fst e)) sgpr) then Some st
  else
    let size := Z.to_nat (sizeOf (fst e)) in
    '(interferes, ssi) <-
      check_sgpr id slot_idx size (spill_slot_interferences s) ;;
    if interferes : bool
    then Some (false, mkSlots (sgpr_slot s) (vgpr_slot s) (is_assigned s) ssi)
    else
      asg <- vector_set (is_assigned s) id true ;;
      ssi <- mark (snd e) slot_idx size ssi ;;
      Some (done, mkSlots (map_set (sgpr_slot s) id slot_idx) (vgpr_slot s)
                          asg ssi).

(** The body of the [for] loop in the loop of the vector spill ids. *)
Definition try_vgpr (I : interferences_t) (slot_idx id : nat)
    (st : bool * slots) : option (bool * slots) :=
  let '(done, s) := st in
  assigned <- nth_error (is_assigned s) id ;;
  e <- nth_error I id ;;
  if assigned : bool then Some st
  else if negb (RegType_eqb (typeOf (fst e)) vgpr) then Some st
  else
    let size := Z.to_nat (sizeOf (fst e)) in
    '(interferes, ssi) <-
      check_vgpr id slot_idx slot_idx size (spill_slot_interferences s) ;;
    if interferes : bool
    then Some (false, mkSlots (sgpr_slot s) (vgpr_slot s) (is_assigned s) ssi)
    else
      asg <- vector_set (is_assigned s) id true ;;
      ssi <- mark (snd e) slot_idx size ssi ;;
      Some (done, mkSlots (sgpr_slot s) (map_set (vgpr_slot s) id slot_idx)
                          asg ssi).

Fixpoint for_ids (body : nat -> bool * slots -> option (bool * slots))
    (ids : list nat) (st : bool * slots) : option (bool * slots) :=
  match ids with
  | [] => Some st
  | id :: rest => st' <- body id st ;; for_ids body rest st'
  end.

(** [while (!done)]: one pass over the ids for each slot; [fuel] bounds
    the number of slots tried. *)
Fixpoint assign_loop (try : nat -> nat -> bool * slots -> option (bool * slots))
    (n fuel slot_idx : nat) (s : slots) : option slots :=
  match fuel with
  | O => None
  | S fuel' =>
      '(done, s') <- for_ids (try slot_idx) (seq 0 n) (true, s) ;;
      if done : bool then Some s'
      else assign_loop try n fuel' (S slot_idx) s'
  end.

(** [assign_spill_slots] up to the assertions that follow the two loops;
    the result carries the number of linear vgprs,
    [vgpr_spill_temps.size()]. *)
Definition assign_spill_slots (fuel : nat) (interferences : interferences_t)
    (affinities : list (nat * nat)) (spills_to_vgpr : nat)
    : option (slots * nat) :=
  I <- merge_affinities interferences affinities ;;
  if negb (no_self_interference I) then None
  else
    let n := length I in
    let s := mkSlots [] [] (repeat false n) [] in
    s <- assign_loop (try_sgpr I) n fuel 0 s ;;
    s <- assign_loop (try_vgpr I) n fuel 0 s ;;
    if negb (forallb (fun a => a) (is_assigned s)) then None
    else
      let temps := ((length (spill_slot_interferences s) + 63) / 64)%nat in
      if (temps <=? spills_to_vgpr)%nat then Some (s, temps) else None.

(** What the rewriting of a scalar [p_spill] and [p_reload] makes of a
    slot: the linear vgpr [spill_slot / 64] and the lane
    [spill_slot % 64] in it. *)
Definition backing (spill_slot : nat) : nat * nat :=
  ((spill_slot / 64)%nat, (spill_slot mod 64)%nat).

(** [program->blocks[idx]->linear_idom] or [->logical_idom]: [idoms]
    lists the field for the blocks of the program; an index outside of
    the blocks is undefined behaviour. *)
Definition block_idom (idoms : list Z) (idx : Z) : option Z :=
  if idx <? 0 then None else nth_error idoms (Z.to_nat idx).

(** The [while (idx_a != idx_b)] loop of [get_dominator]; [fuel] bounds
    its iterations. *)
Fixpoint dominator_loop (idoms : list Z) (fuel : nat) (idx_a idx_b : Z)
    : option Z :=
  if idx_a =? idx_b then Some idx_a
  else
    match fuel with
    | O => None
    | S fuel' =>
        if idx_a >? idx_b
        then a <- block_idom idoms idx_a ;; dominator_loop idoms fuel' a idx_b
        else b <- block_idom idoms idx_b ;; dominator_loop idoms fuel' idx_a b
    end.

(** [get_dominator]; the two lists are the [linear_idom] and the
    [logical_idom] of the blocks. *)
Definition get_dominator (fuel : nat) (idx_a idx_b : Z)
    (linear_idom logical_idom : list Z) (is_linear : bool) : option Z :=
  if idx_a =? -1 then Some idx_b
  else if idx_b =? -1 then Some idx_a
  else
    r <- dominator_loop (if is_linear then linear_idom else logical_idom)
                        fuel idx_a idx_b ;;
    if r =? -1 then None else Some r.

(** [c] is [x] or one of its dominators: it lies on the chain of the
    immediate dominators of [x]. *)
Inductive on_chain (idoms : list Z) : Z -> Z -> Prop :=
| chain_here : forall x, on_chain idoms x x
| chain_up : forall c x y,
    block_idom idoms x = Some y -> on_chain idoms c y -> on_chain idoms c x.

(** The dominator tree the loop relies on: the immediate dominator of a
    block other than the first is a block before it. *)
Definition idoms_ok (idoms : list Z) : Prop :=
  forall i y, nth_error idoms i = Some y ->
    y <= Z.of_nat i /\ ((0 < i)%nat -> 0 <= y < Z.of_nat i).

(** The targets of [spill]. *)
Record targets := mkTargets {
  target_vgpr : Z;
  target_sgpr : Z;
  num_waves : Z;
  spills_to_vgpr : Z
}.

(** The loop of [spill] over [num_waves_next]: "test if it possible to
    increase occupancy with little spilling". *)
Fixpoint target_loop (total_sgpr_regs max_addressible_sgpr max_vgpr max_sgpr : Z)
    (nexts : list Z) (t : targets) : targets :=
  match nexts with
  | [] => t
  | num_waves_next :: rest =>
      let target_vgpr_next := u16 (Z.land (256 / num_waves_next) (Z.lnot 3)) in
      let target_sgpr_next :=
        u16 (Z.min (u16 (Z.land (total_sgpr_regs / num_waves_next) (Z.lnot 7)))
                   max_addressible_sgpr - 2) in
      if max_vgpr >? target_vgpr_next then t
      else if max_sgpr >? target_sgpr_next then
        let spills_to_vgpr_next :=
          Z.quot (max_sgpr - target_sgpr_next + 63 + 32) 64 in
        if spills_to_vgpr_next + max_vgpr >? target_vgpr_next then t
        else target_loop total_sgpr_regs max_addressible_sgpr max_vgpr max_sgpr
               rest (mkTargets target_vgpr_next target_sgpr_next
                               num_waves_next spills_to_vgpr_next)
      else target_loop total_sgpr_regs max_addressible_sgpr max_vgpr max_sgpr
             rest (mkTargets target_vgpr_next target_sgpr_next
                             num_waves_next (spills_to_vgpr t))
  end.

Inductive spill_decision :=
| no_spilling          (* the wave count is already high *)
| nothing_to_do        (* the occupancy cannot be improved *)
| spill_to (t : targets).

(** [spill] up to the point where it creates the spill context: the
    early return, the targets, the assertion on the vector demand and the
    second return.  [max_vgpr] and [max_sgpr] are the maxima of the
    demand of the blocks. *)
Definition spill_targets (c : Liveness.chip_class)
    (program_num_waves max_vgpr max_sgpr : Z) : option spill_decision :=
  if program_num_waves >=? 6 then Some no_spilling
  else
    let total_sgpr_regs := if Liveness.chip_ge_VI c then 800 else 512 in
    let max_addressible_sgpr := if Liveness.chip_ge_VI c then 102 else 104 in
    let t :=
      target_loop total_sgpr_regs max_addressible_sgpr max_vgpr max_sgpr
        [2; 3; 4; 5; 6; 7; 8]
        (mkTargets 256 max_addressible_sgpr 1
                   (Z.quot (max_sgpr - max_addressible_sgpr + 63) 64)) in
    if negb (max_vgpr <=? target_vgpr t) then None
    else if num_waves t =? program_num_waves then Some nothing_to_do
    else Some (spill_to t).

Local Close Scope Z_scope.

(** Five scalar spill ids that interfere with one another: one dword and
    four of sixteen dwords. *)
Definition example_interferences : interferences_t :=
  [ (RegClass.s1, [1; 2; 3; 4]);
    (RegClass.s16, [0; 2; 3; 4]);
    (RegClass.s16, [0; 1; 3; 4]);
    (RegClass.s16, [0; 1; 2; 4]);
    (RegClass.s16, [0; 1; 2; 3]) ].

(** The same pressure in the vector bank: one dword and eleven spill ids
    of six dwords, all interfering. *)
Definition example_vector_interferences : interferences_t :=
  map (fun id => (if (id =? 0)%nat then RegClass.v1 else RegClass.v6,
                  filter (fun j => negb (j =? id)%nat) (seq 0 12)))
      (seq 0 12).

(** The slot one of the two loops gave a spill id. *)
Definition placed (s : slots) (id slot : nat) : Prop :=
  slot_of (sgpr_slot s) id = Some slot \/ slot_of (vgpr_slot s) id = Some slot.

(** The dword [j] belongs to a spill of class [rc] at [slot]. *)
Definition occupies (rc : RegClass.t) (slot j : nat) : Prop :=
  slot <= j < slot + Z.to_nat (sizeOf rc).

(** The vector of the sets of the dwords is only extended. *)
Definition extended (ssi ssi' : list (list nat)) : Prop :=
  exists ext, ssi' = ssi ++ ext.

(** What the two loops of [assign_spill_slots] keep: the set of every
    dword of a placed id holds the interferences of the id, two placed ids
    that interfere with one another have no dword in common, and the ids
    that are placed are the ones marked assigned. *)
Definition coloured (I : interferences_t) (s : slots) : Prop :=
  (forall a sa ea j,
      placed s a sa -> nth_error I a = Some ea -> occupies (fst ea) sa j ->
      exists set, nth_error (spill_slot_interferences s) j = Some set /\
                  forall x, In x (snd ea) -> In x set) /\
  (forall a b sa sb ea eb j,
      a <> b -> placed s a sa -> placed s b sb ->
      nth_error I a = Some ea -> nth_error I b = Some eb ->
      In b (snd ea) -> In a (snd eb) ->
      occupies (fst ea) sa j -> occupies (fst eb) sb j -> False) /\
  (forall a, (exists sa, placed s a sa) <->
             nth_error (is_assigned s) a = Some true) /\
  length (is_assigned s) = length I.

(** A dominator tree of four blocks: 1 and 2 below 0, 3 below 1. *)
Definition example_idoms : list Z := [0%Z; 0%Z; 0%Z; 1%Z].

(** A spill of [size] dwords at [slot] lies within one linear vgpr. *)
Definition within_linear_vgpr (slot size : nat) : bool :=
  (slot / 64 =? (slot + size - 1) / 64)%nat.

Local Open Scope Z_scope.

End Spill.

(** ** The lowering of divergent boolean phis *)

Module BoolPhis.

(** [class Program]: the blocks and the id allocator. *)
Record Program := mkProgram { blocks : list Block; allocationID : Z }.

Definition allocateId (p : Program) : Z * Program :=
  (allocationID p, mkProgram (blocks p) (u32 (allocationID p + 1))).

Definition get_block (p : Program) (b : nat) : option Block :=
  nth_error (blocks p) b.

Definition set_block_instructions (p : Program) (b : nat)
    (l : list Instruction) : option Program :=
  blk <- get_block p b ;;
  bs <- vector_set (blocks p) b (set_instructions l blk) ;;
  Some (mkProgram bs (allocationID p)).

(** [struct phi_use], ordered by block and then by [phi_def]; a
    [Block *] is the index of the block. *)
Definition phi_use : Type := (nat * Z)%type.

Definition phi_use_ltb (a b : phi_use) : bool :=
  (fst a <? fst b)%nat || ((fst a =? fst b)%nat && (snd a <? snd b)).
Definition phi_use_eqb (a b : phi_use) : bool :=
  (fst a =? fst b)%nat && (snd a =? snd b).

(** [struct ssa_state]: [latest] maps a block to an id, [phis] maps an
    id to the operands of the linear phis that read it, a mask of
    operand positions for each phi. *)
Record ssa_state := mkState {
  latest : list (nat * Z);
  phis : list (Z * list (phi_use * Z))
}.

Definition latest_find (st : ssa_state) (b : nat) : option Z :=
  option_map snd (find (fun e => (fst e =? b)%nat) (latest st)).

Definition latest_set (st : ssa_state) (b : nat) (v : Z) : ssa_state :=
  mkState ((b, v) :: filter (fun e => negb (fst e =? b)%nat) (latest st))
          (phis st).

Definition phis_get (st : ssa_state) (k : Z) : list (phi_use * Z) :=
  match find (fun e => fst e =? k) (phis st) with
  | Some e => snd e
  | None => []
  end.

Definition phis_set (st : ssa_state) (k : Z) (m : list (phi_use * Z))
    : ssa_state :=
  mkState (latest st) ((k, m) :: filter (fun e => negb (fst e =? k)) (phis st)).

(** [m[use] |= bits] on the inner map, kept in the order of the keys. *)
Fixpoint inner_or (m : list (phi_use * Z)) (use : phi_use) (bits : Z)
    : list (phi_use * Z) :=
  match m with
  | [] => [(use, bits)]
  | (u, v) :: m' =>
      if phi_use_ltb use u then (use, bits) :: m
      else if phi_use_eqb use u then (u, Z.lor v bits) :: m'
      else (u, v) :: inner_or m' use bits
  end.

(** [state->phis[k][use] |= (uint64_t)1 << i] *)
Definition phis_or (st : ssa_state) (k : Z) (use : phi_use) (i : nat)
    : ssa_state :=
  phis_set st k (inner_or (phis_get st k) use (u64 (Z.shiftl 1 (Z.of_nat i)))).

Definition is_phi (i : Instruction) : bool :=
  aco_opcode.eqb (opcode i) aco_opcode.p_phi
  || aco_opcode.eqb (opcode i) aco_opcode.p_linear_phi.

Definition result (A : Type) : Type := option (A * Program * ssa_state).

(** The loop of [get_ssa] over the predecessors of a block that gets a
    linear phi; [rec] is [get_ssa] itself. *)
Fixpoint phi_operands (rec : Program -> nat -> ssa_state -> result Operand)
    (block : nat) (res : Z) (preds : list nat) (i : nat)
    (ops : list Operand) (p : Program) (st : ssa_state)
    : result (list Operand) :=
  match preds with
  | [] => Some (ops, p, st)
  | q :: rest =>
      '(o, p, st) <- rec p q st ;;
      st <- (if isTemp o
             then if (i <? 64)%nat
                  then Some (phis_or st (tempId o) (block, res) i)
                  else None
             else Some st) ;;
      phi_operands rec block res rest (S i) (ops ++ [o]) p st
  end.

(** The linear phi [get_ssa] creates for the id [res]. *)
Definition linear_phi (res : Z) (ops : list Operand) : Instruction :=
  mkInstruction aco_opcode.p_linear_phi Format.PSEUDO ops
    [Definition_temp (mkTemp res RegClass.s2)] NoPayload.

(** [get_ssa]; [fuel] bounds the depth of the walk over the linear
    predecessors. *)
Fixpoint get_ssa (fuel : nat) (p : Program) (block : nat) (st : ssa_state)
    : result Operand :=
  match fuel with
  | O => None
  | S fuel' =>
      match latest_find st block with
      | Some pos => Some (Operand_temp (mkTemp pos RegClass.s2), p, st)
      | None =>
          blk <- get_block p block ;;
          match linear_predecessors blk with
          | [] => Some (Operand_undef, p, st)
          | [q] => get_ssa fuel' p q st
          | preds =>
              let '(res, p) := allocateId p in
              let st := latest_set st block res in
              '(ops, p, st) <-
                phi_operands (get_ssa fuel') block res preds 0 [] p st ;;
              let phi := linear_phi res ops in
              blk <- get_block p block ;;
              p <- set_block_instructions p block (phi :: instructions blk) ;;
              Some (Operand_temp (mkTemp res RegClass.s2), p, st)
          end
      end
  end.

(** The [for] loop of [update_phi] that looks for the linear phi that
    defines [phi_def]: its position among the leading phis. *)
Fixpoint find_phi (l : list Instruction) (phi_def : Z) (k : nat) : option nat :=
  match l with
  | [] => None
  | i :: rest =>
      if negb (is_phi i) then None
      else if negb (aco_opcode.eqb (opcode i) aco_opcode.p_linear_phi)
      then find_phi rest phi_def (S k)
      else
        match definitions i with
        | [] => None
        | d :: _ =>
            if negb (id (def_temp d) =? phi_def)
            then find_phi rest phi_def (S k)
            else Some k
        end
  end.

(** [ffsll]: one plus the index of the lowest bit set, 0 for 0. *)
Definition ffsll (mask : Z) : nat :=
  match find (fun i => Z.testbit mask (Z.of_nat i)) (seq 0 64) with
  | Some i => S i
  | None => O
  end.

Definition set_operand (i : Instruction) (n : nat) (o : Operand)
    : option Instruction :=
  ops <- vector_set (operands i) n o ;;
  Some (mkInstruction (opcode i) (format i) ops (definitions i) (payload i)).

(** The [while (operands)] loop of [update_phi] over the bits of the
    mask, the lowest first.  The phi is the instruction [k] of [block];
    a lookup that changed the instructions of [block] under the
    iteration is undefined behaviour. *)
Fixpoint update_operands (rec : Program -> nat -> ssa_state -> result Operand)
    (block : nat) (phi_def : Z) (k : nat) (mask : Z) (bits : list nat)
    (p : Program) (st : ssa_state) : option (Program * ssa_state) :=
  match bits with
  | [] => Some (p, st)
  | operand :: rest =>
      if negb (Z.testbit mask (Z.of_nat operand))
      then update_operands rec block phi_def k mask rest p st
      else
        blk <- get_block p block ;;
        q <- nth_error (linear_predecessors blk) operand ;;
        '(new_operand, p', st) <- rec p q st ;;
        blk' <- get_block p' block ;;
        if negb (length (instructions blk') =? length (instructions blk))%nat
        then None
        else
          phi <- nth_error (instructions blk') k ;;
          phi <- set_operand phi operand new_operand ;;
          l <- vector_set (instructions blk') k phi ;;
          p' <- set_block_instructions p' block l ;;
          let st :=
            if negb (isUndefined new_operand)
            then phis_or st (tempId new_operand) (block, phi_def) operand
            else st in
          update_operands rec block phi_def k mask rest p' st
  end.

Definition update_phi (fuel : nat) (p : Program) (st : ssa_state)
    (block : nat) (phi_def : Z) (operand_mask : Z)
    : option (Program * ssa_state) :=
  blk <- get_block p block ;;
  k <- find_phi (instructions blk) phi_def 0 ;;
  phi <- nth_error (instructions blk) k ;;
  if negb (Z.of_nat (ffsll operand_mask) <=? operandCount phi) then None
  else update_operands (get_ssa fuel) block phi_def k operand_mask
                       (seq 0 64) p st.

Fixpoint update_phis (fuel : nat) (uses : list (phi_use * Z))
    (p : Program) (st : ssa_state) : option (Program * ssa_state) :=
  match uses with
  | [] => Some (p, st)
  | ((block, phi_def), mask) :: rest =>
      '(p, st) <- update_phi fuel p st block phi_def mask ;;
      update_phis fuel rest p st
  end.

Definition write_ssa (fuel : nat) (p : Program) (block : nat)
    (st : ssa_state) (previous : Z) : result Temp :=
  let '(id, p) := allocateId p in
  let st := latest_set st block id in
  '(p, st) <-
    (if negb (previous =? 0)
     then
       let uses := phis_get st previous in
       update_phis fuel uses p (phis_set st previous [])
     else Some (p, st)) ;;
  Some (mkTemp id RegClass.s2, p, st).

Definition is_logical_end (i : Instruction) : bool :=
  aco_opcode.eqb (opcode i) aco_opcode.p_logical_end.

(** [insert_before_branch]; an empty block reads [instructions[-1]]. *)
Definition insert_before_branch (l : list Instruction) (instr : Instruction)
    : option (list Instruction) :=
  match rev l with
  | [] => None
  | last :: _ =>
      if format last =? Format.PSEUDO_BRANCH
      then Some (vector_insert l (length l - 1) instr)
      else Some (l ++ [instr])
  end.

(** The index the loop of [insert_before_logical_end] stops at: the last
    [p_logical_end] of the block. *)
Fixpoint last_logical_end (l : list Instruction) : option nat :=
  match l with
  | [] => None
  | x :: rest =>
      match last_logical_end rest with
      | Some i => Some (S i)
      | None => if is_logical_end x then Some O else None
      end
  end.

Definition insert_before_logical_end (l : list Instruction)
    (instr : Instruction) : option (list Instruction) :=
  match last_logical_end l with
  | Some i => Some (vector_insert l i instr)
  | None => insert_before_branch l instr
  end.

(** [insert_before_logical_end(pred, ...)] on the block of a program. *)
Definition insert_in_block (p : Program) (pred : nat) (instr : Instruction)
    : option Program :=
  blk <- get_block p pred ;;
  l <- insert_before_logical_end (instructions blk) instr ;;
  set_block_instructions p pred l.

Section Lowering.

(** The [PhysReg] constant [scc] of the header this pass is compiled
    against, which is not among the sources. *)
Variable scc_reg : PhysReg.

(** What the storage of an undefined operand holds.  [get_ssa] returns
    [Operand()] where no accumulator is found, whose [data_] is not
    initialised, and [lower_divergent_bool_phi] passes its [tempId()] to
    [write_ssa] before it asks [isUndefined()]: [uninit phi i] is the
    value this read finds for the operand [i] of [phi].  Nothing is
    known of it. *)
Variable uninit : Instruction -> nat -> Z.

Definition cselect (phi_src new_src : Temp) : Instruction :=
  mkInstruction aco_opcode.s_cselect_b64 Format.SOP2
    [Operand_const (u32 (-1)); Operand_const 0;
     setFixed scc_reg (Operand_temp phi_src)]
    [Definition_temp new_src] NoPayload.

(** "materialize" a 1-bit operand: the first part of the body of the
    loop of [lower_divergent_bool_phi]. *)
Definition materialize (p : Program) (pred : nat) (phi_src : Temp)
    : option (Temp * Program) :=
  if RegClass.eqb (reg_class phi_src) RegClass.s1 then
    let '(id, p) := allocateId p in
    let new_src := mkTemp id RegClass.s2 in
    p <- insert_in_block p pred (cselect phi_src new_src) ;;
    Some (new_src, p)
  else if RegClass.eqb (reg_class phi_src) RegClass.s2 then Some (phi_src, p)
  else None.

Definition merge_mov (phi_src new_cur : Temp) : Instruction :=
  mkInstruction aco_opcode.s_mov_b64 Format.SOP1
    [Operand_temp phi_src] [Definition_temp new_cur] NoPayload.

Definition merge_andn2 (cur : Operand) (tmp1 : Temp) (scc_id : Z) : Instruction :=
  mkInstruction aco_opcode.s_andn2_b64 Format.SOP2
    [cur; Operand_phys exec RegClass.s2]
    [Definition_temp tmp1; Definition_fixed scc_id scc_reg RegClass.b]
    NoPayload.

Definition merge_and (phi_src tmp2 : Temp) (scc_id : Z) : Instruction :=
  mkInstruction aco_opcode.s_and_b64 Format.SOP2
    [Operand_temp phi_src; Operand_phys exec RegClass.s2]
    [Definition_temp tmp2; Definition_fixed scc_id scc_reg RegClass.b]
    NoPayload.

Definition merge_or (tmp1 tmp2 new_cur : Temp) (scc_id : Z) : Instruction :=
  mkInstruction aco_opcode.s_or_b64 Format.SOP2
    [Operand_temp tmp1; Operand_temp tmp2]
    [Definition_temp new_cur; Definition_fixed scc_id scc_reg RegClass.b]
    NoPayload.

(** The last part of the body: the instructions that give the
    accumulator its new value. *)
Definition merge (p : Program) (pred : nat) (cur : Operand)
    (phi_src new_cur : Temp) : option Program :=
  if isUndefined cur then
    insert_in_block p pred (merge_mov phi_src new_cur)
  else
    let '(t1, p) := allocateId p in
    let tmp1 := mkTemp t1 RegClass.s2 in
    let '(c1, p) := allocateId p in
    p <- insert_in_block p pred (merge_andn2 cur tmp1 c1) ;;
    let '(t2, p) := allocateId p in
    let tmp2 := mkTemp t2 RegClass.s2 in
    let '(c2, p) := allocateId p in
    p <- insert_in_block p pred (merge_and phi_src tmp2 c2) ;;
    let '(c3, p) := allocateId p in
    insert_in_block p pred (merge_or tmp1 tmp2 new_cur c3).

(** [cur.tempId()]: the id of the accumulator, or what the storage of
    an undefined operand held. *)
Definition previous_id (held : Z) (cur : Operand) : Z :=
  if isUndefined cur then held else tempId cur.

(** The body of the loop of [lower_divergent_bool_phi] for the operand
    [o] of the phi and the logical predecessor [pred]; [held] is what
    the storage of [cur] holds when [cur] is undefined. *)
Definition lower_pred (fuel : nat) (p : Program) (st : ssa_state)
    (pred : nat) (o : Operand) (held : Z) : option (Program * ssa_state) :=
  if negb (isTemp o) then None
  else
    '(phi_src, p) <- materialize p pred (getTemp o) ;;
    '(cur, p, st) <- get_ssa fuel p pred st ;;
    '(new_cur, p, st) <- write_ssa fuel p pred st (previous_id held cur) ;;
    p <- merge p pred cur phi_src new_cur ;;
    Some (p, st).

Fixpoint lower_preds (fuel : nat) (block : nat) (held : nat -> Z)
    (ops : list Operand) (i : nat)
    (p : Program) (st : ssa_state) : option (Program * ssa_state) :=
  match ops with
  | [] => Some (p, st)
  | o :: rest =>
      blk <- get_block p block ;;
      pred <- nth_error (logical_predecessors blk) i ;;
      '(p, st) <- lower_pred fuel p st pred o (held i) ;;
      lower_preds fuel block held rest (S i) p st
  end.

Definition lower_divergent_bool_phi (fuel : nat) (p : Program) (block : nat)
    (phi : Instruction) : option (Instruction * Program) :=
  '(p, st) <- lower_preds fuel block (uninit phi) (operands phi) 0 p
                (mkState [] []) ;;
  '(o, p, st) <- get_ssa fuel p block st ;;
  d <- getDefinition phi 0 ;;
  Some (mkInstruction aco_opcode.s_mov_b64 Format.SOP1 [o] [d] NoPayload, p).

(** The first loop of [lower_bool_phis] over the leading phis of a
    block: the phis of class [s2] are lowered, their copies collected in
    [non_phi]; the others are put back into the block.  The result is
    the rest of the instructions. *)
Fixpoint lower_block_phis (fuel : nat) (block : nat)
    (instrs non_phi : list Instruction) (p : Program)
    : option (list Instruction * list Instruction * Program) :=
  match instrs with
  | [] => Some ([], non_phi, p)
  | phi :: rest =>
      if negb (is_phi phi) then Some (instrs, non_phi, p)
      else
        lower <-
          (if aco_opcode.eqb (opcode phi) aco_opcode.p_phi
           then d <- getDefinition phi 0 ;;
                Some (RegClass.eqb (reg_class (def_temp d)) RegClass.s2)
           else Some false) ;;
        if lower : bool then
          '(copy, p) <- lower_divergent_bool_phi fuel p block phi ;;
          lower_block_phis fuel block rest (non_phi ++ [copy]) p
        else
          blk <- get_block p block ;;
          p <- set_block_instructions p block (instructions blk ++ [phi]) ;;
          lower_block_phis fuel block rest non_phi p
  end.

Fixpoint lower_blocks (fuel : nat) (bs : list nat) (p : Program)
    : option Program :=
  match bs with
  | [] => Some p
  | block :: rest =>
      blk <- get_block p block ;;
      let instrs := instructions blk in
      p <- set_block_instructions p block [] ;;
      '(rest_instrs, non_phi, p) <- lower_block_phis fuel block instrs [] p ;;
      if existsb is_phi non_phi || existsb is_phi rest_instrs then None
      else
        blk <- get_block p block ;;
        p <- set_block_instructions p block
               (instructions blk ++ non_phi ++ rest_instrs) ;;
        lower_blocks fuel rest p
  end.

Definition lower_bool_phis (fuel : nat) (p : Program) : option Program :=
  lower_blocks fuel (seq 0 (length (blocks p))) p.

End Lowering.
(** The instructions of a block after its leading phis. *)
Fixpoint strip_phis (l : list Instruction) : list Instruction :=
  match l with
  | [] => []
  | i :: rest => if is_phi i then strip_phis rest else l
  end.

(** The leading phis of a block. *)
Fixpoint leading_phis (l : list Instruction) : list Instruction :=
  match l with
  | [] => []
  | i :: rest => if is_phi i then i :: leading_phis rest else []
  end.

(** The block has a linear phi that defines [d], the one the loop of
    [update_phi] stops at, with an operand for each linear predecessor. *)
Definition has_phi (blk : Block) (d : Z) : Prop :=
  exists k phi,
    find_phi (instructions blk) d 0 = Some k /\
    nth_error (instructions blk) k = Some phi /\
    length (operands phi) = length (linear_predecessors blk).

(** Two programs with the same blocks up to the leading phis of each
    block; the on-demand construction of the accumulator only adds linear
    phis and rewrites their operands, and the linear phis [update_phi] can
    find stay ones it can find. *)
Definition same_code (p p' : Program) : Prop :=
  length (blocks p') = length (blocks p) /\
  forall b blk, get_block p b = Some blk ->
    exists blk', get_block p' b = Some blk' /\
      strip_phis (instructions blk') = strip_phis (instructions blk) /\
      (length (instructions blk) <= length (instructions blk'))%nat /\
      index blk' = index blk /\
      logical_predecessors blk' = logical_predecessors blk /\
      linear_predecessors blk' = linear_predecessors blk /\
      logical_successors blk' = logical_successors blk /\
      linear_successors blk' = linear_successors blk /\
      forall d, has_phi blk d -> has_phi blk' d.



(** Whether [get_ssa] finds an accumulator for [block]: a value written
    in the block or up its chain of single linear predecessors, or the
    linear phi [get_ssa] creates at a block with several linear
    predecessors; none where the chain ends at a block without linear
    predecessors. *)
Fixpoint finds_accumulator (fuel : nat) (p : Program) (st : ssa_state)
    (block : nat) : bool :=
  match fuel with
  | O => false
  | S fuel' =>
      match latest_find st block with
      | Some _ => true
      | None =>
          match get_block p block with
          | None => false
          | Some blk =>
              match linear_predecessors blk with
              | [] => false
              | [q] => finds_accumulator fuel' p st q
              | _ => true
              end
          end
      end
  end.




(** *** Well-formed inputs of the lowering *)

(** The control-flow graph the pass relies on: at most 64 linear
    predecessors per block as the operand masks of [update_phi] have 64
    bits, predecessors that are blocks of the program, and a block with one
    linear predecessor comes after it (the walk of [get_ssa] up a chain of
    such blocks ends). *)
Definition wf_cfg (p : Program) : Prop :=
  forall b blk, get_block p b = Some blk ->
    (length (linear_predecessors blk) <= 64)%nat /\
    (forall q, In q (linear_predecessors blk) -> (q < length (blocks p))%nat) /\
    (forall q, linear_predecessors blk = [q] -> (q < b)%nat).

(** [state->latest] has an entry for the block. *)
Definition is_marked (st : ssa_state) (b : nat) : bool :=
  match latest_find st b with
  | Some _ => true
  | None => false
  end.

(** The blocks [get_ssa] would still give a linear phi: those with
    several linear predecessors and no entry in [state->latest]. *)
Definition needs_phi (p : Program) (st : ssa_state) (b : nat) : bool :=
  negb (is_marked st b) &&
  match get_block p b with
  | Some blk => (2 <=? length (linear_predecessors blk))%nat
  | None => false
  end.

Definition open_joins (p : Program) (st : ssa_state) : nat :=
  length (filter (needs_phi p st) (seq 0 (length (blocks p)))).

(** The depth [get_ssa] needs at most on a program: the walk passes each
    join once and between two joins goes up chains of blocks. *)
Definition enough_fuel (p : Program) : nat :=
  (S (length (blocks p)) * S (length (blocks p)))%nat.

(** The bits of an operand mask are positions below [n]. *)
Definition mask_below (mask : Z) (n : nat) : Prop :=
  forall j : nat, Z.testbit mask (Z.of_nat j) = true -> (j < n)%nat.

(** An entry of [state->phis] that [update_phi] can follow: the block has
    its entry in [latest], the mask names operands of the phi, and the phi
    is in the block, or is one of those [get_ssa] is about to insert
    ([pend]). *)
Definition use_ok (pend : nat -> Z -> Prop) (p : Program) (st : ssa_state)
    (u : phi_use * Z) : Prop :=
  is_marked st (fst (fst u)) = true /\
  exists blk,
    get_block p (fst (fst u)) = Some blk /\
    mask_below (snd u) (length (linear_predecessors blk)) /\
    (has_phi blk (snd (fst u)) \/ pend (fst (fst u)) (snd (fst u))).

Definition uses_ok (pend : nat -> Z -> Prop) (p : Program) (st : ssa_state)
    : Prop :=
  forall k u, In u (phis_get st k) -> use_ok pend p st u.

(** What a lookup of the accumulator does to the state and the program:
    entries of [latest] are only added, the blocks that have one are left
    as they are, and the entries of [phis] stay ones [update_phi] can
    follow. *)
Definition marks_grow (st st' : ssa_state) : Prop :=
  forall x, is_marked st x = true -> is_marked st' x = true.

Definition marked_kept (st : ssa_state) (p p' : Program) : Prop :=
  forall x, is_marked st x = true -> get_block p' x = get_block p x.

Definition ssa_step (p : Program) (st : ssa_state)
    (p' : Program) (st' : ssa_state) : Prop :=
  marks_grow st st' /\ marked_kept st p p' /\
  forall pend, uses_ok pend p st -> uses_ok pend p' st'.




(** The checks of [wf_cfg] on a block. *)
Definition wf_block (n b : nat) (blk : Block) : bool :=
  (length (linear_predecessors blk) <=? 64)%nat &&
  forallb (fun q => (q <? n)%nat) (linear_predecessors blk) &&
  match linear_predecessors blk with
  | [q] => (q <? b)%nat
  | _ => true
  end.

Definition check_cfg (p : Program) : bool :=
  forallb (fun e => wf_block (length (blocks p)) (fst e) (snd e))
          (combine (seq 0 (length (blocks p))) (blocks p)).


(** *** An example: the phi of an if-then-else *)

(** The blocks 1 and 3 are the sides of a divergent if-then-else of the
    block 0, the block 2 between them inverts [exec], and the block 4
    joins them with a boolean phi of an [s2] and an [s1] operand. *)
Definition example_pseudo (op : aco_opcode.t) : Instruction :=
  mkInstruction op Format.PSEUDO [] [] NoPayload.

Definition example_branch : Instruction :=
  mkInstruction (aco_opcode.other 9) Format.PSEUDO_BRANCH [] [] NoPayload.

Definition example_body : list Instruction :=
  [example_pseudo aco_opcode.p_logical_start;
   example_pseudo (aco_opcode.other 1);
   example_pseudo aco_opcode.p_logical_end;
   example_branch].

Definition example_phi : Instruction :=
  mkInstruction aco_opcode.p_phi Format.PSEUDO
    [Operand_temp (mkTemp 1 RegClass.s2); Operand_temp (mkTemp 2 RegClass.s1)]
    [Definition_temp (mkTemp 3 RegClass.s2)] NoPayload.

Definition example_join : Block :=
  mkBlock 4 (example_phi :: example_body) [1; 3]%nat [2; 3]%nat [] [].

Definition example_diamond : Program :=
  mkProgram
    [mkBlock 0 example_body [] [] [1; 3]%nat [1; 2]%nat;
     mkBlock 1 example_body [0]%nat [0]%nat [4]%nat [2]%nat;
     mkBlock 2 [example_branch] [] [0; 1]%nat [] [3; 4]%nat;
     mkBlock 3 example_body [0]%nat [2]%nat [4]%nat [4]%nat;
     example_join]
    4.

(** The entries of [state->latest] stay as they are. *)
Definition latest_kept (st st' : ssa_state) : Prop :=
  forall x v, latest_find st x = Some v -> latest_find st' x = Some v.

(** [program->blocks] with the block [b] replaced. *)
Definition put_block (bs : list Block) (b : nat) (blk : Block) : list Block :=
  firstn b bs ++ blk :: skipn (S b) bs.

(** A program of one block without phis. *)
Definition example_straight : Program :=
  mkProgram [mkBlock 0 example_body [] [] [] []] 1.

(** [Program::createAndInsertBlock]: the new block gets the number of
    blocks as its index, an [unsigned]. *)
Definition createAndInsertBlock (p : Program) : Block * Program :=
  let b := mkBlock (Z.to_nat (u32 (Z.of_nat (length (blocks p))))) [] [] [] [] [] in
  (b, mkProgram (blocks p ++ [b]) (allocationID p)).

(** The index of every block is its position in [program->blocks]. *)
Definition indexed (p : Program) : Prop :=
  forall k blk, get_block p k = Some blk -> index blk = k.

(** The phis [lower_bool_phis] lowers: a [p_phi] whose definition is of
    class [s2]. *)
Definition is_bool_phi (i : Instruction) : bool :=
  aco_opcode.eqb (opcode i) aco_opcode.p_phi &&
  match getDefinition i 0 with
  | Some d => RegClass.eqb (reg_class (def_temp d)) RegClass.s2
  | None => false
  end.

(** What [lower_bool_phis] asserts of a block it has nothing to lower in:
    the phis stand at its start, and each [p_phi] has a definition, of a
    class other than [s2]. *)
Definition phis_lead (l : list Instruction) : bool :=
  forallb (fun i => negb (is_phi i)) (strip_phis l) &&
  forallb (fun i => negb (aco_opcode.eqb (opcode i) aco_opcode.p_phi)
                    || (negb (length (definitions i) =? 0)%nat
                        && negb (is_bool_phi i)))
          (leading_phis l).

(** The block has the three instructions of the blend. *)
Definition blends (blk : Block) : bool :=
  existsb (fun i => aco_opcode.eqb (opcode i) aco_opcode.s_andn2_b64)
          (instructions blk) &&
  existsb (fun i => aco_opcode.eqb (opcode i) aco_opcode.s_and_b64)
          (instructions blk) &&
  existsb (fun i => aco_opcode.eqb (opcode i) aco_opcode.s_or_b64)
          (instructions blk).

End BoolPhis.

(** ** The driver entry point *)

Module Interface.

(** Modelled from the spec: [gl_shader_stage] of Mesa's [shader_enums.h]
    is not among the sources; the entry point only asks whether the
    stage is the fragment stage. *)
Inductive gl_shader_stage :=
| MESA_SHADER_VERTEX | MESA_SHADER_TESS_CTRL | MESA_SHADER_TESS_EVAL
| MESA_SHADER_GEOMETRY | MESA_SHADER_FRAGMENT | MESA_SHADER_COMPUTE.

Definition is_fragment (s : gl_shader_stage) : bool :=
  match s with MESA_SHADER_FRAGMENT => true | _ => false end.

(** [struct ac_shader_binary], the two fields the entry point writes. *)
Record ac_shader_binary := mkBinary { code : list Z; code_size : Z }.

Section Driver.

(** The shader, the structures the driver passes in and the program of
    the compiler; the passes of the pipeline are the collaborators of
    the entry point.  A pass works on the program together with the
    [config] and [info] it points to. *)
Variables nir_shader ac_shader_config radv_shader_variant_info
          radv_nir_compiler_options Program : Type.
Variable stage : nir_shader -> gl_shader_stage.
Variable zero_config : ac_shader_config.
Variable zero_info : radv_shader_variant_info.

Definition unit_ : Type :=
  (Program * ac_shader_config * radv_shader_variant_info)%type.

Variable select_program :
  nir_shader -> ac_shader_config -> radv_shader_variant_info ->
  radv_nir_compiler_options -> unit_.
Variables register_allocation eliminate_pseudo_instr schedule
          insert_wait_states : unit_ -> unit_.
Variable emit_program : unit_ -> unit_ * list Z.
(** What [aco_print_program], the two register counts and [print_asm]
    write to the error stream. *)
Variable aco_print_program : unit_ -> list Z.
Variable print_counts : ac_shader_config -> list Z.
Variable print_asm : list Z -> list Z.
(** The headings, as the characters written. *)
Variable heading : nat -> list Z.

(** What the caller sees: the three structures and the error stream. *)
Record outputs := mkOutputs {
  config : ac_shader_config;
  binary : ac_shader_binary;
  info : radv_shader_variant_info;
  cerr : list Z
}.

Definition aco_compile_shader (shader : nir_shader)
    (options : radv_nir_compiler_options) (o : outputs) : outputs :=
  if negb (is_fragment (stage shader)) then o
  else
    let info0 := zero_info in
    let config0 := zero_config in
    let program := select_program shader config0 info0 options in
    let err := cerr o ++ heading 0 ++ aco_print_program program in
    let program := register_allocation program in
    let err := err ++ heading 1 ++ aco_print_program program in
    let program := eliminate_pseudo_instr program in
    let err := err ++ heading 2 ++ aco_print_program program in
    let program := schedule program in
    let err := err ++ heading 3 ++ aco_print_program program in
    let program := insert_wait_states program in
    let err := err ++ heading 4 ++ aco_print_program program in
    let '(program, code) := emit_program program in
    let err := err ++ heading 5 ++ print_counts (snd (fst program)) in
    let err := err ++ print_asm code in
    mkOutputs (snd (fst program))
              (mkBinary code (Z.of_nat (length code) * 4))
              (snd program) err.

End Driver.
End Interface.

(* ================================================================== *)
(** * Properties *)

Section RegisterBounds.

(** ** Register bounds *)

Ltac split_bounds :=
  match goal with
  | |- context [if ?c then _ else _] =>
      let E := fresh "E" in
      destruct c eqn:E;
      [ try (apply andb_true_iff in E; destruct E as [? ?])
      | try (apply andb_false_iff in E) ]
  end.

Ltac leb_facts :=
  repeat match goal with
         | H : (_ <=? _) = true |- _ => apply Z.leb_le in H
         | H : (_ <=? _) = false |- _ => apply Z.leb_gt in H
         | H : (_ <=? _) = false \/ (_ <=? _) = false |- _ =>
             rewrite !Z.leb_gt in H
         end.

Ltac in_cases H :=
  cbn [In] in H;
  repeat (destruct H as [H | H];
          [ try subst; cbn [fst snd] in *; try lia | ]);
  try contradiction.

(** C2.  Under the assertion of [register_allocation] on the demand, the
    bounds are the first entry of the table, in its order, that fits the
    demand; the entries grow in both components, so that entry is the
    smallest fitting one.  When none of the six closed entries fits the
    bounds are 100 scalar registers and the smallest of 64, 84, 128 and 256
    vector registers that fits.  [num_vgprs] is the vector bound and
    [num_sgprs] the scalar bound plus 2; a demand of 30 scalar and 20
    vector registers gives 24 and 48. *)
Theorem register_allocation_table :
  forall vgpr_demand sgpr_demand config,
    vgpr_demand <= 256 -> sgpr_demand <= 100 ->
    exists max_sgpr max_vgpr,
      RegAlloc.register_allocation vgpr_demand sgpr_demand config
        = Some (RegAlloc.mkConfig max_vgpr (max_sgpr + 2)) /\
      RegAlloc.fits vgpr_demand sgpr_demand (max_sgpr, max_vgpr) /\
      (In (max_sgpr, max_vgpr) RegAlloc.bounds_table \/
       (max_sgpr = 100 /\ In max_vgpr [64; 84; 128; 256] /\
        forall e, In e RegAlloc.bounds_table ->
                  ~ RegAlloc.fits vgpr_demand sgpr_demand e)) /\
      (forall e, In e RegAlloc.bounds_table ->
                 RegAlloc.fits vgpr_demand sgpr_demand e ->
                 max_sgpr <= fst e /\ max_vgpr <= snd e) /\
      (forall m, In m [64; 84; 128; 256] -> vgpr_demand <= m ->
                 max_sgpr = 100 -> max_vgpr <= m) /\
      RegAlloc.register_allocation 20 30 config = Some (RegAlloc.mkConfig 24 48).
Proof.
  intros v s config Hv Hs.
  remember (RegAlloc.register_allocation 20 30 config) as s3 eqn:Hs3.
  exists (fst (RegAlloc.register_bounds v s)), (snd (RegAlloc.register_bounds v s)).
  unfold RegAlloc.register_allocation.
  assert (Ha : (v <=? 256) && (s <=? 100) = true)
    by (apply andb_true_iff; split; apply Z.leb_le; assumption).
  rewrite Ha.
  unfold RegAlloc.register_bounds, RegAlloc.fits, RegAlloc.bounds_table, u32.
  repeat split_bounds; leb_facts; cbn [fst snd];
    (split; [reflexivity|]);
    (split; [lia|]);
    (split; [ first [ left; cbn [In]; tauto
                    | right; split; [reflexivity|]; split; [cbn [In]; tauto|];
                      intros e He [? ?]; in_cases He ] |]);
    (split; [intros e He [? ?]; in_cases He|]);
    (split; [intros m Hm ? ?; in_cases Hm|]);
    subst s3; reflexivity.
Qed.

(** A demand of 50 vector and 10 scalar registers. *)
Lemma register_allocation_table_witness :
  exists max_sgpr max_vgpr,
    RegAlloc.register_allocation 50 10 (RegAlloc.mkConfig 0 0)
      = Some (RegAlloc.mkConfig max_vgpr (max_sgpr + 2)) /\
    RegAlloc.fits 50 10 (max_sgpr, max_vgpr) /\
    (In (max_sgpr, max_vgpr) RegAlloc.bounds_table \/
     (max_sgpr = 100 /\ In max_vgpr [64; 84; 128; 256] /\
      forall e, In e RegAlloc.bounds_table -> ~ RegAlloc.fits 50 10 e)) /\
    (forall e, In e RegAlloc.bounds_table -> RegAlloc.fits 50 10 e ->
               max_sgpr <= fst e /\ max_vgpr <= snd e) /\
    (forall m, In m [64; 84; 128; 256] -> 50 <= m ->
               max_sgpr = 100 -> max_vgpr <= m) /\
    RegAlloc.register_allocation 20 30 (RegAlloc.mkConfig 0 0)
      = Some (RegAlloc.mkConfig 24 48).
Proof.
  apply (register_allocation_table 50 10 (RegAlloc.mkConfig 0 0)); lia.
Defined.

End RegisterBounds.

Section Occupancy.

(** ** Occupancy *)

Import Liveness.



Lemma all_chips_complete : forall c, In c all_chips.
Proof. destruct c; cbn; tauto. Qed.

Lemma in_range : forall n x, 0 <= x < Z.of_nat n -> In x (map Z.of_nat (seq 0 n)).
Proof.
  intros n x H. apply in_map_iff. exists (Z.to_nat x). split.
  - lia.
  - apply in_seq. lia.
Qed.

Lemma occupancy_checked :
  forallb (fun c =>
    forallb (fun v =>
      forallb (fun s =>
        (s + 2 >? max_addressible_sgpr c)
        || (num_waves (occupancy c v s) =? guarded_num_waves c v s))
        (map Z.of_nat (seq 0 103)))
      (map Z.of_nat (seq 0 257)))
    all_chips = true.
Proof. vm_compute. reflexivity. Qed.

Lemma occupancy_guarded :
  forall c v s, demand_fits c v s ->
    num_waves (occupancy c v s) = guarded_num_waves c v s.
Proof.
  intros c v s (Hv & Hs & Hm).
  pose proof occupancy_checked as H.
  rewrite forallb_forall in H. specialize (H c (all_chips_complete c)).
  rewrite forallb_forall in H. specialize (H v (in_range 257 v ltac:(lia))).
  rewrite forallb_forall in H.
  assert (Hs' : 0 <= s < Z.of_nat 103)
    by (unfold max_addressible_sgpr in Hm; destruct (chip_ge_VI c); lia).
  specialize (H s (in_range 103 s Hs')).
  apply orb_true_iff in H. destruct H as [H | H].
  - apply Z.gtb_lt in H. lia.
  - apply Z.eqb_eq in H. exact H.
Qed.




(** Below the wrap-around of the scalar counter.  When the vector demand
    exceeds 256, or the scalar demand with the VCC pair exceeds the highest
    addressable scalar register, the liveness pass returns with 0 waves
    and the demand recorded on the program.  The scalar counter is a
    [uint16_t]; the demand is one that [sgpr_demand += 2] does not wrap. *)
Lemma resource_exhaustion_zero_waves :
  forall c visits vgpr_demand sgpr_demand,
    max_demand visits = (vgpr_demand, sgpr_demand) ->
    0 <= sgpr_demand -> sgpr_demand + 2 < 65536 ->
    256 < vgpr_demand \/ max_addressible_sgpr c < sgpr_demand + 2 ->
    live_var_analysis c visits = mkProgram 0 (sgpr_demand + 2) vgpr_demand.
Proof.
  intros c visits v s Hmax Hs0 Hs1 Hex.
  unfold live_var_analysis. rewrite Hmax. unfold occupancy.
  assert (Hu : u16 (s + 2) = s + 2) by (unfold u16; apply Z.mod_small; lia).
  rewrite Hu.
  assert (Hc : (v >? 256) || (s + 2 >? max_addressible_sgpr c) = true).
  { apply orb_true_iff. destruct Hex as [H | H]; [left | right];
      apply Z.gtb_lt; exact H. }
  rewrite Hc. reflexivity.
Qed.

(** A [VI] program that needs 300 vector registers. *)
Lemma resource_exhaustion_zero_waves_witness :
  live_var_analysis VI [(300, 40); (12, 120)] = mkProgram 0 (120 + 2) 300.
Proof.
  apply (resource_exhaustion_zero_waves VI [(300, 40); (12, 120)] 300 120).
  - reflexivity.
  - lia.
  - lia.
  - left. lia.
Defined.

Lemma wrapped_demand_checked :
  forallb (fun c =>
    forallb (fun v =>
      forallb (fun s =>
        (max_addressible_sgpr c <? s)
        && (1 <=? num_waves (occupancy c v s))
        && (num_waves (occupancy c v s) <=? 10)
        && (max_sgpr (occupancy c v s) <? s))
        [65534; 65535])
      (map Z.of_nat (seq 0 257)))
    all_chips = true.
Proof. vm_compute. reflexivity. Qed.

(** C6.  The scalar counter of [live_var_analysis] wraps.  A block with a
    scalar demand of 65534 and no vector demand gives the program 10 waves
    with [max_sgpr = 46]: [sgpr_demand += 2] has made the [uint16_t]
    counter 0.  For every chip, every vector demand of at most 256 and
    the scalar demands 65534 and 65535, which exceed the highest
    addressable scalar register, the pass records between 1 and 10 waves
    and a [max_sgpr] below the demand, not 0 waves.  For the scalar
    demands up to 65533 it records 0 waves whenever the vector demand
    exceeds 256 or the scalar demand with the VCC pair exceeds the highest
    addressable register. *)
Theorem scalar_demand_wraps :
  live_var_analysis SI [(0, 65534)] = mkProgram 10 46 24 /\
  (forall c v s,
      0 <= v <= 256 -> 65534 <= s <= 65535 ->
      max_addressible_sgpr c < s /\
      1 <= num_waves (occupancy c v s) <= 10 /\
      max_sgpr (occupancy c v s) < s) /\
  (forall c visits v s,
      max_demand visits = (v, s) ->
      0 <= s <= 65533 ->
      256 < v \/ max_addressible_sgpr c < s + 2 ->
      live_var_analysis c visits = mkProgram 0 (s + 2) v).
Proof.
  split; [vm_compute; reflexivity|]. split.
  - intros c v s Hv Hs.
    pose proof wrapped_demand_checked as H.
    rewrite forallb_forall in H. specialize (H c (all_chips_complete c)).
    rewrite forallb_forall in H. specialize (H v (in_range 257 v ltac:(lia))).
    rewrite forallb_forall in H.
    assert (Hin : In s [65534; 65535]) by (cbn [In]; lia).
    specialize (H s Hin).
    apply andb_true_iff in H. destruct H as [H H4].
    apply andb_true_iff in H. destruct H as [H H3].
    apply andb_true_iff in H. destruct H as [H1 H2].
    apply Z.ltb_lt in H1, H4. apply Z.leb_le in H2, H3.
    split; [exact H1|]. split; [split; assumption | exact H4].
  - intros c visits v s Hmax Hs Hex.
    apply (resource_exhaustion_zero_waves c visits v s Hmax); [lia | lia | exact Hex].
Qed.

(** The converse: a demand that fits never yields 0 waves. *)
Lemma fitting_demand_has_waves :
  forall c v s, demand_fits c v s -> 1 <= num_waves (occupancy c v s) <= 10.
Proof.
  intros c v s Hfit. rewrite (occupancy_guarded c v s Hfit).
  destruct Hfit as (Hv & Hs & Hm). unfold guarded_num_waves, round_up.
  assert (Hm' : s + 2 <= 104)
    by (unfold max_addressible_sgpr in Hm; destruct (chip_ge_VI c); lia).
  assert (Ht : 512 <= total_sgpr_regs c)
    by (unfold total_sgpr_regs; destruct (chip_ge_VI c); lia).
  pose proof (Z.div_mod (v + 4 - 1) 4 ltac:(lia)).
  pose proof (Z.mod_pos_bound (v + 4 - 1) 4 ltac:(lia)).
  pose proof (Z.div_mod (s + 2 + 8 - 1) 8 ltac:(lia)).
  pose proof (Z.mod_pos_bound (s + 2 + 8 - 1) 8 ltac:(lia)).
  assert (Hrv : 4 <= Z.max 4 ((v + 4 - 1) / 4 * 4) <= 256) by lia.
  assert (Hrs : 8 <= (s + 2 + 8 - 1) / 8 * 8 <= 104) by lia.
  assert (1 <= 256 / Z.max 4 ((v + 4 - 1) / 4 * 4))
    by (apply Z.div_le_lower_bound; lia).
  assert (1 <= total_sgpr_regs c / ((s + 2 + 8 - 1) / 8 * 8))
    by (apply Z.div_le_lower_bound; lia).
  lia.
Qed.

End Occupancy.

Section Branches.

(** ** The assembler *)

Import Asm.


Lemma some_inj {A : Type} (a b : A) : Some a = Some b -> a = b.
Proof.
  intros H.
  exact (f_equal (fun o => match o with Some x => x | None => a end) H).
Qed.

Ltac crunch H :=
  repeat (cbn [bind] in H;
    match type of H with
    | bind ?m _ = Some _ =>
        let E := fresh "E" in destruct m eqn:E; cbn [bind] in H; [|discriminate H]
    | (if ?c then _ else _) = Some _ =>
        let E := fresh "E" in destruct c eqn:E
    | match ?x with _ => _ end = Some _ =>
        let E := fresh "E" in destruct x eqn:E; try discriminate H
    | Some (_, _) = Some (_, _) =>
        apply some_inj, pair_equal_spec in H;
        let H1 := fresh "H" in destruct H as [H1 H]; try subst
    | Some _ = Some _ => apply some_inj in H; try subst
    | None = Some _ => discriminate H
    end).

Ltac by_format Hk H lem :=
  apply (Hk _ H);
  match type of H with
  | keep_ctx _ ?r = _ =>
      let E := fresh "E" in
      destruct r eqn:E;
      [ destruct (lem _ _ _ E) as [ws Hws]; exists ws; rewrite Hws; reflexivity
      | discriminate H ]
  end.

Ltac app_out :=
  unfold push_back;
  match goal with
  | |- exists ws, _ = ?o ++ ws =>
      rewrite <- ?(app_assoc o); eexists; reflexivity
  end.

Section AsmFacts.
  Variable hw : aco_opcode.t -> Z.

Lemma encode_sop2_app : extends (encode_sop2 hw).
Proof. intros out i out' H. unfold encode_sop2 in H. crunch H. app_out. Qed.
Lemma encode_sopk_app : extends (encode_sopk hw).
Proof. intros out i out' H. unfold encode_sopk in H. crunch H. app_out. Qed.
Lemma encode_sop1_app : extends (encode_sop1 hw).
Proof. intros out i out' H. unfold encode_sop1 in H. crunch H. app_out. Qed.
Lemma encode_sopc_app : extends (encode_sopc hw).
Proof. intros out i out' H. unfold encode_sopc in H. crunch H. app_out. Qed.
Lemma encode_vop2_app : extends (encode_vop2 hw).
Proof. intros out i out' H. unfold encode_vop2 in H. crunch H. app_out. Qed.
Lemma encode_vop1_app : extends (encode_vop1 hw).
Proof. intros out i out' H. unfold encode_vop1 in H. crunch H. app_out. Qed.
Lemma encode_vopc_app : extends (encode_vopc hw).
Proof. intros out i out' H. unfold encode_vopc in H. crunch H. app_out. Qed.
Lemma encode_vintrp_app : extends (encode_vintrp hw).
Proof. intros out i out' H. unfold encode_vintrp in H. crunch H. app_out. Qed.
Lemma encode_ds_app : extends (encode_ds hw).
Proof. intros out i out' H. unfold encode_ds in H. crunch H. app_out. Qed.
Lemma encode_mubuf_app : extends (encode_mubuf hw).
Proof. intros out i out' H. unfold encode_mubuf in H. crunch H. app_out. Qed.
Lemma encode_mimg_app : extends (encode_mimg hw).
Proof. intros out i out' H. unfold encode_mimg in H. crunch H. app_out. Qed.
Lemma encode_exp_app : extends encode_exp.
Proof. intros out i out' H. unfold encode_exp in H. crunch H. app_out. Qed.
Lemma encode_smem_app : extends (encode_smem hw).
Proof. intros out i out' H. unfold encode_smem in H. crunch H. app_out. Qed.
Lemma encode_vop3a_app : extends (encode_vop3a hw).
Proof. intros out i out' H. unfold encode_vop3a in H. crunch H. app_out. Qed.


Lemma encode_sopp_spec : forall ctx out i ctx' out',
    encode_sopp hw ctx out i = Some (ctx', out') ->
    exists imm blk,
      payload i = SOPP_fields imm blk /\
      out' = out ++ [sopp_word hw i imm] /\
      block_offset ctx' = block_offset ctx /\
      branches ctx' = match blk with
                      | Some t => map_insert (length out) t (branches ctx)
                      | None => branches ctx
                      end.
Proof.
  intros ctx out i ctx' out' H. unfold encode_sopp in H.
  destruct (payload i) eqn:Ep; try discriminate H.
  apply some_inj, pair_equal_spec in H. destruct H as [Hc Ho]. subst.
  exists imm, block. repeat split; destruct block; reflexivity.
Qed.

Lemma keep_ctx_inv : forall ctx r ctx' out',
    keep_ctx ctx r = Some (ctx', out') -> ctx' = ctx /\ r = Some out'.
Proof.
  intros ctx r ctx' out' H. unfold keep_ctx in H.
  destruct r; cbn [bind] in H; [|discriminate H].
  apply some_inj, pair_equal_spec in H. destruct H; subst. split; reflexivity.
Qed.

Lemma sopp_target_not_sopp : forall i,
    format i <> Format.SOPP -> sopp_target i = None.
Proof.
  intros i H. unfold sopp_target.
  destruct (Z.eqb_spec (format i) Format.SOPP); [contradiction | reflexivity].
Qed.

(** What a case that ends in [break] does to the context and the words. *)
Lemma encode_break_spec : forall ctx out i ctx' out',
    encode_break hw ctx out i = Some (ctx', out') ->
    block_offset ctx' = block_offset ctx /\
    branches ctx' = match sopp_target i with
                    | Some t => map_insert (length out) t (branches ctx)
                    | None => branches ctx
                    end /\
    exists ws, out' = out ++ ws /\
               forall imm blk, format i = Format.SOPP ->
                               payload i = SOPP_fields imm blk ->
                               ws = [sopp_word hw i imm].
Proof.
  intros ctx out i ctx' out' H. unfold encode_break in H.
  destruct (Z.eqb_spec (format i) Format.SOPP) as [Es | Ens].
  - rewrite Es in H. cbn in H. apply encode_sopp_spec in H.
    destruct H as (imm & blk & Hp & Ho & Hb & Hbr).
    split; [exact Hb|]. split.
    + unfold sopp_target. rewrite Es, Z.eqb_refl, Hp. destruct blk; exact Hbr.
    + exists [sopp_word hw i imm]. split; [exact Ho|].
      intros imm' blk' _ Hp'. rewrite Hp in Hp'. inversion Hp'. reflexivity.
  - rewrite (sopp_target_not_sopp i Ens).
    assert (Hk : forall r, keep_ctx ctx r = Some (ctx', out') ->
                           (exists ws, r = Some (out ++ ws)) ->
                block_offset ctx' = block_offset ctx /\
                branches ctx' = branches ctx /\
                exists ws, out' = out ++ ws /\
                  forall imm blk, format i = Format.SOPP ->
                                  payload i = SOPP_fields imm blk ->
                                  ws = [sopp_word hw i imm]).
    { intros r Hr [ws Hws]. apply keep_ctx_inv in Hr. destruct Hr as [-> Hr].
      rewrite Hr in Hws. apply some_inj in Hws.
      repeat split. exists ws. split; [exact Hws|]. intros; contradiction. }
    repeat match type of H with
           | (if ?c then _ else _) = Some _ => destruct c eqn:?
           end.
    + by_format Hk H encode_sop2_app.
    + by_format Hk H encode_sopk_app.
    + by_format Hk H encode_sop1_app.
    + by_format Hk H encode_sopc_app.
    + by_format Hk H encode_vop2_app.
    + by_format Hk H encode_vop1_app.
    + by_format Hk H encode_vopc_app.
    + by_format Hk H encode_vintrp_app.
    + by_format Hk H encode_ds_app.
    + by_format Hk H encode_mubuf_app.
    + by_format Hk H encode_mimg_app.
    + by_format Hk H encode_exp_app.
    + apply some_inj, pair_equal_spec in H. destruct H; subst.
      repeat split. exists []. split; [symmetry; apply app_nil_r|].
      intros; contradiction.
    + discriminate H.
Qed.


Lemma append_literal_find : forall ops out,
    append_literal out ops
    = match find isLiteral ops with
      | Some o => out ++ [u32 (constantValue o)]
      | None => out
      end.
Proof.
  induction ops as [|o ops IH]; intros out; cbn [append_literal find].
  - reflexivity.
  - destruct (isLiteral o); [reflexivity | apply IH].
Qed.

Lemma breaks_sopp : forall f, f = Format.SOPP -> breaks f = true.
Proof. intros f ->. reflexivity. Qed.

Lemma smem_not_sopp : forall f, (f =? Format.SMEM) = true -> f <> Format.SOPP.
Proof. intros f H ->. discriminate H. Qed.

Lemma vop3a_not_sopp : forall f,
    negb (Z.land f Format.VOP3A =? 0) = true -> f <> Format.SOPP.
Proof. intros f H ->. discriminate H. Qed.


Lemma emission_not_sopp : forall i ctx out out',
    format i <> Format.SOPP -> (exists ws, out' = out ++ ws) ->
    emission hw i ctx out ctx out'.
Proof.
  intros i ctx out out' Hf [ws Hws]. unfold emission.
  rewrite (sopp_target_not_sopp i Hf). repeat split.
  exists ws. split; [exact Hws|]. intros imm blk Hf'. contradiction.
Qed.

Lemma emit_plain_spec : forall ctx out i ctx' out',
    emit_plain hw ctx out i = Some (ctx', out') -> emission hw i ctx out ctx' out'.
Proof.
  intros ctx out i ctx' out' H. unfold emit_plain in H.
  destruct (breaks (format i)) eqn:Eb.
  - destruct (encode_break hw ctx out i) as [[c o]|] eqn:Ee;
      cbn [bind] in H; [|discriminate H].
    apply some_inj, pair_equal_spec in H. destruct H as [-> <-].
    apply encode_break_spec in Ee. destruct Ee as (Hb & Hbr & ws & Ho & Hs).
    split; [exact Hb|]. split; [exact Hbr|].
    rewrite append_literal_find. subst o.
    destruct (find isLiteral (operands i)) as [l|].
    + exists (ws ++ [u32 (constantValue l)]). split; [symmetry; apply app_assoc|].
      intros imm blk Hf Hp. rewrite (Hs imm blk Hf Hp). eexists. reflexivity.
    + exists ws. split; [reflexivity|].
      intros imm blk Hf Hp. rewrite (Hs imm blk Hf Hp). eexists. reflexivity.
  - destruct (format i =? Format.SMEM) eqn:Es.
    + destruct (encode_smem hw out i) as [o|] eqn:Ee;
        cbn [bind] in H; [|discriminate H].
      apply some_inj, pair_equal_spec in H. destruct H as [<- <-].
      apply emission_not_sopp; [apply smem_not_sopp, Es|].
      apply (encode_smem_app _ _ _ Ee).
    + destruct (negb (Z.land (format i) Format.VOP3A =? 0)) eqn:Ev;
        [|discriminate H].
      destruct (encode_vop3a hw out i) as [o|] eqn:Ee;
        cbn [bind] in H; [|discriminate H].
      apply some_inj, pair_equal_spec in H. destruct H as [<- <-].
      apply emission_not_sopp; [apply vop3a_not_sopp, Ev|].
      apply (encode_vop3a_app _ _ _ Ee).
Qed.

Lemma emit_instruction_spec : forall ctx out i ctx' out',
    emit_instruction hw ctx out i = Some (ctx', out') ->
    emission hw i ctx out ctx' out'.
Proof.
  intros ctx out i ctx' out' H. unfold emit_instruction in H.
  destruct (breaks (format i) || (format i =? Format.SMEM)
            || negb (Z.land (format i) Format.VOP3A =? 0)) eqn:Ec.
  - apply emit_plain_spec, H.
  - apply orb_false_iff in Ec. destruct Ec as [Ec _].
    apply orb_false_iff in Ec. destruct Ec as [Eb _].
    assert (Hns : format i <> Format.SOPP).
    { intros Hf. rewrite (breaks_sopp _ Hf) in Eb. discriminate Eb. }
    destruct (isDPP i); [|discriminate H].
    destruct (getOperand i 0) as [dpp_op|]; cbn [bind] in H; [|discriminate H].
    destruct (set_operand0 _ i) as [i1|] eqn:E1; cbn [bind] in H;
      [|discriminate H].
    match type of H with
    | bind (emit_plain hw ctx out ?i2) _ = _ =>
        remember i2 as instr2 eqn:Hi2;
        destruct (emit_plain hw ctx out instr2) as [[c o]|] eqn:Ee;
        cbn [bind] in H; [|discriminate H]
    end.
    destruct (payload i) eqn:Ep; try discriminate H.
    apply some_inj, pair_equal_spec in H. destruct H as [<- <-].
    assert (Hp2 : payload instr2 = payload i).
    { subst instr2. unfold set_operand0 in E1.
      destruct (operands i); [discriminate E1|].
      apply some_inj in E1. subst i1. reflexivity. }
    apply emit_plain_spec in Ee. destruct Ee as (Hb & Hbr & ws & Ho & _).
    assert (Ht2 : sopp_target instr2 = None).
    { unfold sopp_target. rewrite Hp2, Ep.
      destruct (format instr2 =? Format.SOPP); reflexivity. }
    rewrite Ht2 in Hbr.
    unfold emission. rewrite (sopp_target_not_sopp i Hns).
    split; [exact Hb|]. split; [exact Hbr|].
    subst o. unfold push_back. rewrite <- app_assoc.
    eexists. split; [reflexivity|]. intros imm blk Hf. contradiction.
Qed.


(** *** Vectors *)

Lemma vector_set_spec : forall (A : Type) (l : list A) i x l',
    vector_set l i x = Some l' ->
    length l' = length l /\ nth_error l' i = Some x /\
    forall j, j <> i -> nth_error l' j = nth_error l j.
Proof.
  intros A l i x l' H. unfold vector_set in H.
  destruct (Nat.ltb_spec i (length l)) as [Hlt|]; [|discriminate H].
  apply some_inj in H. subst l'.
  assert (Hf : length (firstn i l) = i) by (rewrite length_firstn; lia).
  repeat split.
  - rewrite length_app, Hf. cbn [length]. rewrite length_skipn. lia.
  - rewrite nth_error_app2 by lia. rewrite Hf, Nat.sub_diag. reflexivity.
  - intros j Hj. destruct (Nat.lt_ge_cases j i) as [Hlt'|Hge].
    + rewrite nth_error_app1 by lia. rewrite nth_error_firstn.
      destruct (Nat.ltb_spec j i); [reflexivity | lia].
    + rewrite nth_error_app2 by lia. rewrite Hf.
      destruct (j - i)%nat as [|d] eqn:Ed; [lia|]. cbn [nth_error].
      rewrite nth_error_skipn. f_equal. lia.
Qed.

Lemma vector_set_total : forall (A : Type) (l : list A) i x,
    (i < length l)%nat -> exists l', vector_set l i x = Some l'.
Proof.
  intros A l i x H. unfold vector_set.
  destruct (Nat.ltb_spec i (length l)); [eexists; reflexivity | lia].
Qed.

Lemma NoDup_snoc : forall (A : Type) (l : list A) x,
    NoDup l -> ~ In x l -> NoDup (l ++ [x]).
Proof.
  intros A l x Hnd Hx. induction Hnd as [|y l Hy Hnd IH]; cbn [app].
  - constructor; [intros []|constructor].
  - constructor.
    + intros Hin. apply in_app_or in Hin. destruct Hin as [Hin|[Hin|[]]].
      * contradiction.
      * apply Hx. left. symmetry. exact Hin.
    + apply IH. intros Hin. apply Hx. right. exact Hin.
Qed.

(** *** The recorded branches *)

Lemma map_insert_above : forall k v m,
    keys_below k m -> map_insert k v m = m ++ [(k, v)].
Proof.
  intros k v m. induction m as [|[k' v'] m IH]; intros Hb; cbn [map_insert app].
  - reflexivity.
  - assert (Hk : (k' < k)%nat) by (apply (Hb k' v'); left; reflexivity).
    destruct (Nat.ltb_spec k k'); [lia|].
    destruct (Nat.eqb_spec k k'); [lia|].
    f_equal. apply IH. intros k0 t0 Hin. apply (Hb k0 t0). right. exact Hin.
Qed.

Lemma grows_refl : forall ctx out, recorded ctx out -> grows ctx out ctx out.
Proof.
  intros ctx out H. split; [exists []; symmetry; apply app_nil_r|].
  split; [|exact H]. exists []. split; [symmetry; apply app_nil_r|].
  intros k t [].
Qed.

Lemma grows_trans : forall c1 o1 c2 o2 c3 o3,
    grows c1 o1 c2 o2 -> grows c2 o2 c3 o3 -> grows c1 o1 c3 o3.
Proof.
  intros c1 o1 c2 o2 c3 o3 ([w1 Hw1] & (n1 & Hn1 & Hk1) & _)
         ([w2 Hw2] & (n2 & Hn2 & Hk2) & Hr).
  split; [exists (w1 ++ w2); subst; symmetry; apply app_assoc|].
  split; [|exact Hr].
  exists (n1 ++ n2). split.
  - rewrite Hn2, Hn1. symmetry. apply app_assoc.
  - intros k t Hin. apply in_app_or in Hin. destruct Hin as [Hin|Hin].
    + apply (Hk1 k t Hin).
    + specialize (Hk2 k t Hin). subst o2. rewrite length_app in Hk2. lia.
Qed.

Lemma emission_grows : forall i ctx out ctx' out',
    emission hw i ctx out ctx' out' -> recorded ctx out ->
    grows ctx out ctx' out' /\
    forall t, sopp_target i = Some t ->
              branches ctx' = branches ctx ++ [(length out, t)].
Proof.
  intros i ctx out ctx' out' (Hb & Hbr & ws & Ho & Hs) [Hnd Hkb].
  destruct (sopp_target i) as [t|] eqn:Et.
  - rewrite (map_insert_above _ _ _ Hkb) in Hbr.
    assert (Hlen : (length out < length out')%nat).
    { unfold sopp_target in Et.
      destruct (Z.eqb_spec (format i) Format.SOPP) as [Hf|]; [|discriminate Et].
      destruct (payload i) eqn:Ep; try discriminate Et.
      destruct (Hs _ _ Hf eq_refl) as [ws' ->]. subst out'.
      rewrite length_app. cbn [length]. lia. }
    split.
    + split; [exists ws; exact Ho|]. split.
      * exists [(length out, t)]. split; [exact Hbr|].
        intros k t' [Hin|[]]. inversion Hin. lia.
      * split.
        -- rewrite Hbr, map_app. cbn [map fst].
           apply NoDup_snoc; [exact Hnd|].
           intros Hin. apply in_map_iff in Hin.
           destruct Hin as ([k t'] & Hk & Hin). cbn [fst] in Hk. subst k.
           specialize (Hkb _ _ Hin). lia.
        -- intros k t' Hin. rewrite Hbr in Hin. apply in_app_or in Hin.
           destruct Hin as [Hin|[Hin|[]]].
           ++ specialize (Hkb k t' Hin). lia.
           ++ inversion Hin. lia.
    + intros t' Ht'. inversion Ht'. subst t'. exact Hbr.
  - split.
    + split; [exists ws; exact Ho|]. split.
      * exists []. split; [rewrite Hbr; symmetry; apply app_nil_r|].
        intros k t [].
      * split; [rewrite Hbr; exact Hnd|].
        intros k t Hin. rewrite Hbr in Hin. specialize (Hkb k t Hin).
        subst out'. rewrite length_app. lia.
    + intros t Ht. discriminate Ht.
Qed.


(** *** Blocks *)

Lemma emit_block_instrs_split : forall pre i post ctx out r,
    emit_block_instrs hw ctx out (pre ++ i :: post) = Some r ->
    exists c1 o1 c2 o2,
      emit_block_instrs hw ctx out pre = Some (c1, o1) /\
      emit_instruction hw c1 o1 i = Some (c2, o2) /\
      emit_block_instrs hw c2 o2 post = Some r.
Proof.
  induction pre as [|p pre IH]; intros i post ctx out r H;
    cbn [app emit_block_instrs] in *.
  - destruct (emit_instruction hw ctx out i) as [[c2 o2]|] eqn:E;
      cbn [bind] in H; [|discriminate H].
    exists ctx, out, c2, o2. repeat split; assumption.
  - destruct (emit_instruction hw ctx out p) as [[c o]|] eqn:E;
      cbn [bind] in *; [|discriminate H].
    apply IH, H.
Qed.

Lemma emit_block_instrs_grows : forall l ctx out ctx' out',
    emit_block_instrs hw ctx out l = Some (ctx', out') ->
    recorded ctx out ->
    grows ctx out ctx' out' /\ block_offset ctx' = block_offset ctx.
Proof.
  induction l as [|i l IH]; intros ctx out ctx' out' H Hr;
    cbn [emit_block_instrs] in H.
  - apply some_inj, pair_equal_spec in H. destruct H as [<- <-].
    split; [apply grows_refl, Hr | reflexivity].
  - destruct (emit_instruction hw ctx out i) as [[c o]|] eqn:E;
      cbn [bind] in H; [|discriminate H].
    apply emit_instruction_spec in E.
    destruct (emission_grows _ _ _ _ _ E Hr) as [Hg _].
    destruct E as (Hb & _).
    destruct (IH _ _ _ _ H (proj2 (proj2 Hg))) as [Hg' Hb'].
    split; [apply (grows_trans _ _ _ _ _ _ Hg Hg') | congruence].
Qed.

Lemma emit_blocks_split : forall pre blk post ctx out r,
    emit_blocks hw ctx out (pre ++ blk :: post) = Some r ->
    exists c1 o1 offs c2 o2,
      emit_blocks hw ctx out pre = Some (c1, o1) /\
      vector_set (block_offset c1) (index blk) (Z.of_nat (length o1))
        = Some offs /\
      emit_block_instrs hw (mkCtx (branches c1) offs) o1 (instructions blk)
        = Some (c2, o2) /\
      emit_blocks hw c2 o2 post = Some r.
Proof.
  induction pre as [|p pre IH]; intros blk post ctx out r H;
    cbn [app emit_blocks] in *.
  - destruct (vector_set (block_offset ctx) (index blk) (Z.of_nat (length out)))
      as [offs|] eqn:Ev; cbn [bind] in H; [|discriminate H].
    unfold emit_block in H.
    destruct (emit_block_instrs hw (mkCtx (branches ctx) offs) out
                (instructions blk)) as [[c2 o2]|] eqn:E;
      cbn [bind] in H; [|discriminate H].
    exists ctx, out, offs, c2, o2. repeat split; assumption.
  - destruct (vector_set (block_offset ctx) (index p) (Z.of_nat (length out)))
      as [offs|]; cbn [bind] in *; [|discriminate H].
    destruct (emit_block hw (mkCtx (branches ctx) offs) out p) as [[c o]|];
      cbn [bind] in *; [|discriminate H].
    apply IH, H.
Qed.

Lemma emit_blocks_grows : forall l ctx out ctx' out',
    emit_blocks hw ctx out l = Some (ctx', out') ->
    recorded ctx out ->
    grows ctx out ctx' out' /\
    length (block_offset ctx') = length (block_offset ctx) /\
    forall j, (forall blk, In blk l -> index blk <> j) ->
              nth_error (block_offset ctx') j = nth_error (block_offset ctx) j.
Proof.
  induction l as [|blk l IH]; intros ctx out ctx' out' H Hr;
    cbn [emit_blocks] in H.
  - apply some_inj, pair_equal_spec in H. destruct H as [<- <-].
    split; [apply grows_refl, Hr|]. split; reflexivity.
  - destruct (vector_set (block_offset ctx) (index blk) (Z.of_nat (length out)))
      as [offs|] eqn:Ev; cbn [bind] in H; [|discriminate H].
    unfold emit_block in H.
    destruct (emit_block_instrs hw (mkCtx (branches ctx) offs) out
                (instructions blk)) as [[c o]|] eqn:E;
      cbn [bind] in H; [|discriminate H].
    destruct (emit_block_instrs_grows _ _ _ _ _ E Hr) as [Hg Hb].
    cbn [block_offset] in Hb.
    destruct (IH _ _ _ _ H (proj2 (proj2 Hg))) as (Hg' & Hlen & Hoff).
    destruct (vector_set_spec _ _ _ _ _ Ev) as (Hl & _ & Hother).
    split; [apply (grows_trans _ _ _ _ _ _ Hg Hg')|].
    split; [congruence|].
    intros j Hj. rewrite Hoff by (intros b Hin; apply Hj; right; exact Hin).
    rewrite Hb. apply Hother. intros ->. apply (Hj blk); [left|]; reflexivity.
Qed.

(** *** [fix_branches] *)

Lemma fix_branches_loop_spec : forall offs brs out final,
    fix_branches_loop offs brs out = Some final ->
    NoDup (map fst brs) ->
    length final = length out /\
    (forall k, ~ In k (map fst brs) -> nth_error final k = nth_error out k) /\
    forall k t, In (k, t) brs ->
      exists start w,
        nth_error offs t = Some start /\ nth_error out k = Some w /\
        nth_error final k = Some (Z.lor w (u16 (start - Z.of_nat k - 1))).
Proof.
  intros offs brs. induction brs as [|[k0 t0] brs IH]; intros out final H Hnd;
    cbn [fix_branches_loop] in H.
  - apply some_inj in H. subst final. repeat split. intros k t [].
  - destruct (nth_error offs t0) as [start|] eqn:Es; cbn [bind] in H;
      [|discriminate H].
    destruct (nth_error out k0) as [w|] eqn:Ew; cbn [bind] in H;
      [|discriminate H].
    destruct (vector_set out k0 (Z.lor w (u16 (start - Z.of_nat k0 - 1))))
      as [out1|] eqn:Ev; cbn [bind] in H; [|discriminate H].
    cbn [map fst] in Hnd. inversion Hnd as [|? ? Hk0 Hnd']; subst.
    destruct (IH _ _ H Hnd') as (Hlen & Hkeep & Hbr).
    destruct (vector_set_spec _ _ _ _ _ Ev) as (Hl1 & Hset & Hother).
    split; [congruence|]. split.
    + intros k Hk. cbn [map fst In] in Hk.
      rewrite Hkeep by tauto. apply Hother. intros ->. tauto.
    + intros k t [Hin|Hin].
      * inversion Hin; subst k t. exists start, w.
        split; [exact Es|]. split; [exact Ew|].
        rewrite Hkeep by exact Hk0. exact Hset.
      * destruct (Hbr k t Hin) as (st & w' & H1 & H2 & H3).
        exists st, w'. split; [exact H1|]. split; [|exact H3].
        rewrite <- H2. symmetry. apply Hother. intros ->.
        apply Hk0. apply in_map_iff. exists (k0, t). split; [reflexivity|exact Hin].
Qed.

Lemma fix_branches_loop_total : forall offs brs out,
    (forall k t, In (k, t) brs ->
                 (k < length out)%nat /\ (t < length offs)%nat) ->
    exists final, fix_branches_loop offs brs out = Some final.
Proof.
  intros offs brs. induction brs as [|[k0 t0] brs IH]; intros out H;
    cbn [fix_branches_loop].
  - eexists. reflexivity.
  - destruct (H k0 t0 (or_introl eq_refl)) as [Hk Ht].
    destruct (nth_error offs t0) as [start|] eqn:Es;
      [|apply nth_error_None in Es; lia].
    destruct (nth_error out k0) as [w|] eqn:Ew;
      [|apply nth_error_None in Ew; lia].
    cbn [bind].
    destruct (vector_set_total _ out k0
                (Z.lor w (u16 (start - Z.of_nat k0 - 1))) Hk) as [out1 Ev].
    rewrite Ev. cbn [bind]. apply IH.
    intros k t Hin. destruct (H k t (or_intror Hin)) as [Hk' Ht'].
    destruct (vector_set_spec _ _ _ _ _ Ev) as (Hl & _). lia.
Qed.


(** *** The targets of the recorded branches *)

Lemma emit_block_instrs_targets : forall n l ctx out ctx' out',
    emit_block_instrs hw ctx out l = Some (ctx', out') ->
    recorded ctx out ->
    (forall i t, In i l -> sopp_target i = Some t -> (t < n)%nat) ->
    targets_below n (branches ctx) -> targets_below n (branches ctx').
Proof.
  intros n. induction l as [|i l IH]; intros ctx out ctx' out' H Hr Hl Ht;
    cbn [emit_block_instrs] in H.
  - apply some_inj, pair_equal_spec in H. destruct H as [<- <-]. exact Ht.
  - destruct (emit_instruction hw ctx out i) as [[c o]|] eqn:E;
      cbn [bind] in H; [|discriminate H].
    apply emit_instruction_spec in E.
    destruct (emission_grows _ _ _ _ _ E Hr) as [Hg Hnew].
    apply (IH _ _ _ _ H (proj2 (proj2 Hg))).
    + intros i' t Hin. apply Hl. right. exact Hin.
    + destruct E as (_ & Hbr & _).
      destruct (sopp_target i) as [t|] eqn:Et.
      * rewrite (Hnew t eq_refl). intros k t' Hin.
        apply in_app_or in Hin. destruct Hin as [Hin|[Hin|[]]].
        -- apply (Ht k t' Hin).
        -- inversion Hin; subst. apply (Hl i t'); [left; reflexivity|exact Et].
      * rewrite Hbr. exact Ht.
Qed.

Lemma emit_blocks_targets : forall n l ctx out ctx' out',
    emit_blocks hw ctx out l = Some (ctx', out') ->
    recorded ctx out ->
    (forall blk i t, In blk l -> In i (instructions blk) ->
                     sopp_target i = Some t -> (t < n)%nat) ->
    targets_below n (branches ctx) -> targets_below n (branches ctx').
Proof.
  intros n. induction l as [|blk l IH]; intros ctx out ctx' out' H Hr Hl Ht;
    cbn [emit_blocks] in H.
  - apply some_inj, pair_equal_spec in H. destruct H as [<- <-]. exact Ht.
  - destruct (vector_set (block_offset ctx) (index blk) (Z.of_nat (length out)))
      as [offs|] eqn:Ev; cbn [bind] in H; [|discriminate H].
    unfold emit_block in H.
    destruct (emit_block_instrs hw (mkCtx (branches ctx) offs) out
                (instructions blk)) as [[c o]|] eqn:E;
      cbn [bind] in H; [|discriminate H].
    destruct (emit_block_instrs_grows _ _ _ _ _ E Hr) as [Hg _].
    apply (IH _ _ _ _ H (proj2 (proj2 Hg))).
    + intros b i t Hin. apply Hl. right. exact Hin.
    + apply (emit_block_instrs_targets n _ _ _ _ _ E Hr).
      * intros i t Hin. apply (Hl blk i t). left. reflexivity. exact Hin.
      * exact Ht.
Qed.

(** *** The immediate of a patched branch word *)

Lemma low16_shl16 : forall x, Z.land (shl32 x 16) 65535 = 0.
Proof.
  intros x. change 65535 with (Z.ones 16). rewrite Z.land_ones by lia.
  unfold shl32, u32. rewrite Z.shiftl_mul_pow2 by lia.
  change 4294967296 with (2 ^ 16 * 2 ^ 16).
  rewrite Z.rem_mul_r by lia.
  rewrite Z.mod_mul by lia. rewrite Z.add_0_l.
  rewrite Z.mul_comm. apply Z.mod_mul. lia.
Qed.

Lemma low16_u16 : forall x, Z.land (u16 x) 65535 = u16 x.
Proof.
  intros x. change 65535 with (Z.ones 16). rewrite Z.land_ones by lia.
  unfold u16. change (2 ^ 16) with 65536. apply Z.mod_mod. lia.
Qed.

Lemma u32_u16 : forall x, u32 (u16 x) = u16 x.
Proof.
  intros x. unfold u32, u16. apply Z.mod_small.
  pose proof (Z.mod_pos_bound x 65536 ltac:(lia)). lia.
Qed.

Lemma patched_immediate : forall i imm x,
    Z.land (Z.lor (sopp_word hw i imm) (u16 x)) 65535
    = Z.lor (u16 imm) (u16 x).
Proof.
  intros i imm x. unfold sopp_word, or32.
  rewrite !Z.land_lor_distr_l.
  rewrite u32_u16, !low16_u16.
  assert (H1 : Z.land (u32 (Z.shiftl 383 23)) 65535 = 0) by reflexivity.
  assert (H2 : Z.land (u32 (shl32 (hw (opcode i)) 16)) 65535 = 0).
  { assert (Hu : u32 (shl32 (hw (opcode i)) 16) = shl32 (hw (opcode i)) 16)
      by (unfold shl32, u32; apply Z.mod_mod; lia).
    rewrite Hu. apply low16_shl16. }
  rewrite H1, H2. reflexivity.
Qed.


Lemma fix_exports_length : forall l l',
    fix_exports l = Some l' -> length l' = length l.
Proof.
  assert (Hrev : forall r r', fix_exports_rev r = Some r' -> length r' = length r).
  { induction r as [|blk r IH]; intros r' H; cbn [fix_exports_rev] in H.
    - apply some_inj in H. subst r'. reflexivity.
    - destruct (rev (instructions blk)) as [|last before]; [discriminate H|].
      destruct (find_export before).
      + apply some_inj in H. subst r'. reflexivity.
      + destruct (fix_exports_rev r) as [r0|]; cbn [bind] in H; [|discriminate H].
        apply some_inj in H. subst r'. cbn [length]. f_equal. apply IH. reflexivity.
      + discriminate H. }
  intros l l' H. unfold fix_exports in H.
  destruct (fix_exports_rev (rev l)) as [r|] eqn:E; cbn [bind] in H;
    [|discriminate H].
  apply some_inj in H. subst l'. rewrite length_rev, (Hrev _ _ E), length_rev.
  reflexivity.
Qed.

Lemma recorded_init : forall offs, recorded (mkCtx [] offs) [].
Proof.
  intros offs. split; [constructor|]. intros k t [].
Qed.

Lemma nth_error_middle : forall (A : Type) (l : list A) t,
    (t < length l)%nat ->
    exists x, nth_error l t = Some x /\ l = firstn t l ++ x :: skipn (S t) l.
Proof.
  intros A l t Ht. destruct (nth_error l t) as [x|] eqn:E;
    [|apply nth_error_None in E; lia].
  exists x. split; [reflexivity|].
  rewrite <- (firstn_skipn t l) at 1. f_equal.
  clear Ht. revert l E. induction t as [|t IH]; intros [|y l] E;
    cbn in E; try discriminate E.
  - inversion E. reflexivity.
  - cbn [skipn]. apply IH, E.
Qed.

Lemma later_index : forall blocks t b,
    (forall k blk, nth_error blocks k = Some blk -> index blk = k) ->
    In b (skipn (S t) blocks) -> index b <> t.
Proof.
  intros blocks t b Hidx Hin. apply In_nth_error in Hin. destruct Hin as [n Hn].
  rewrite nth_error_skipn in Hn. rewrite (Hidx _ _ Hn). lia.
Qed.

(** The run of [emit_blocks] on a program whose block indices are the
    positions of the blocks, followed by [fix_branches]. *)
Lemma emit_then_fix : forall blocks n ctx out,
    (forall k blk, nth_error blocks k = Some blk -> index blk = k) ->
    (forall blk i t, In blk blocks -> In i (instructions blk) ->
                     sopp_target i = Some t -> (t < length blocks)%nat) ->
    n = length blocks ->
    emit_blocks hw (mkCtx [] (repeat 0 n)) [] blocks = Some (ctx, out) ->
    exists final,
      fix_branches ctx out = Some final /\
      forall bpre blk bpost ipre i ipost imm t,
        blocks = bpre ++ blk :: bpost ->
        instructions blk = ipre ++ i :: ipost ->
        format i = Format.SOPP -> payload i = SOPP_fields imm (Some t) ->
        exists c1 o1 offs c2 o2 ct ot w,
          emit_blocks hw (mkCtx [] (repeat 0 n)) [] bpre = Some (c1, o1) /\
          vector_set (block_offset c1) (index blk) (Z.of_nat (length o1))
            = Some offs /\
          emit_block_instrs hw (mkCtx (branches c1) offs) o1 ipre
            = Some (c2, o2) /\
          emit_blocks hw (mkCtx [] (repeat 0 n)) [] (firstn t blocks)
            = Some (ct, ot) /\
          nth_error final (length o2) = Some w /\
          w = Z.lor (sopp_word hw i imm)
                    (u16 (Z.of_nat (length ot) - (Z.of_nat (length o2) + 1))).
Proof.
  intros blocks n ctx out Hidx Htgt Hn Hemit.
  set (ctx0 := mkCtx [] (repeat 0 n)) in *.
  pose proof (recorded_init (repeat 0 n)) as Hr0. fold ctx0 in Hr0.
  destruct (emit_blocks_grows _ _ _ _ _ Hemit Hr0) as (Hg & Hlen & _).
  destruct Hg as (_ & _ & Hrec).
  assert (Htb : targets_below (length blocks) (branches ctx)).
  { apply (emit_blocks_targets _ _ _ _ _ _ Hemit Hr0 Htgt). intros k t []. }
  assert (Hoffs : length (block_offset ctx) = length blocks).
  { rewrite Hlen. unfold ctx0. cbn [block_offset]. rewrite repeat_length. exact Hn. }
  destruct (fix_branches_loop_total (block_offset ctx) (branches ctx) out)
    as [final Hfix].
  { intros k t Hin. split; [apply (proj2 Hrec k t Hin)|].
    rewrite Hoffs. apply (Htb k t Hin). }
  exists final. split; [exact Hfix|].
  destruct (fix_branches_loop_spec _ _ _ _ Hfix (proj1 Hrec)) as (_ & _ & Hpatch).
  intros bpre blk bpost ipre i ipost imm t Hb Hi Hf Hp.
  assert (Hst : sopp_target i = Some t).
  { unfold sopp_target. rewrite Hf, Z.eqb_refl, Hp. reflexivity. }
  (* the state at the branch *)
  rewrite Hb in Hemit.
  destruct (emit_blocks_split _ _ _ _ _ _ Hemit)
    as (c1 & o1 & offs & cb & ob & He1 & Hv & Heb & Hepost).
  rewrite Hi in Heb.
  destruct (emit_block_instrs_split _ _ _ _ _ _ Heb)
    as (c2 & o2 & c3 & o3 & Hpre & Hins & Hrest).
  destruct (emit_blocks_grows _ _ _ _ _ He1 Hr0) as ((_ & _ & Hr1) & _).
  assert (Hr1' : recorded (mkCtx (branches c1) offs) o1) by exact Hr1.
  destruct (emit_block_instrs_grows _ _ _ _ _ Hpre Hr1') as ((_ & _ & Hr2) & _).
  pose proof (emit_instruction_spec _ _ _ _ _ Hins) as Hem.
  destruct (emission_grows _ _ _ _ _ Hem Hr2) as [Hg3 Hnew].
  specialize (Hnew t Hst).
  destruct Hem as (_ & _ & ws & Ho3 & Hws).
  destruct (Hws _ _ Hf Hp) as [ws' ->].
  destruct (emit_block_instrs_grows _ _ _ _ _ Hrest (proj2 (proj2 Hg3)))
    as (([w4 Ho4] & (n4 & Hn4 & _) & Hr4) & _).
  destruct (emit_blocks_grows _ _ _ _ _ Hepost Hr4)
    as (([w5 Ho5] & (n5 & Hn5 & _) & _) & _).
  assert (Hin : In (length o2, t) (branches ctx)).
  { rewrite Hn5, Hn4, Hnew. apply in_or_app. left. apply in_or_app. left.
    apply in_or_app. right. left. reflexivity. }
  assert (Hword : nth_error out (length o2) = Some (sopp_word hw i imm)).
  { rewrite Ho5, Ho4, Ho3. rewrite <- !app_assoc.
    rewrite nth_error_app2 by lia. rewrite Nat.sub_diag. reflexivity. }
  destruct (Hpatch _ _ Hin) as (start & w0 & Hstart & Hw0 & Hfinal).
  rewrite Hword in Hw0. apply some_inj in Hw0. subst w0.
  (* the start of the target block *)
  rewrite <- Hb in Hemit.
  assert (Ht : (t < length blocks)%nat).
  { apply (Htgt blk i t).
    - rewrite Hb. apply in_or_app. right. left. reflexivity.
    - rewrite Hi. apply in_or_app. right. left. reflexivity.
    - exact Hst. }
  destruct (nth_error_middle _ blocks t Ht) as (bt & Hbt & Hsplit).
  rewrite Hsplit in Hemit.
  destruct (emit_blocks_split _ _ _ _ _ _ Hemit)
    as (ct & ot & offst & cu & ou & Het & Hvt & Hebt & Hetpost).
  rewrite (Hidx _ _ Hbt) in Hvt.
  destruct (vector_set_spec _ _ _ _ _ Hvt) as (_ & Hset & _).
  destruct (emit_blocks_grows _ _ _ _ _ Het Hr0) as ((_ & _ & Hrt) & _).
  assert (Hrt' : recorded (mkCtx (branches ct) offst) ot) by exact Hrt.
  destruct (emit_block_instrs_grows _ _ _ _ _ Hebt Hrt') as ((_ & _ & Hru) & Hbu).
  cbn [block_offset] in Hbu.
  destruct (emit_blocks_grows _ _ _ _ _ Hetpost Hru) as (_ & _ & Hkeep).
  assert (Hstart' : nth_error (block_offset ctx) t = Some (Z.of_nat (length ot))).
  { rewrite Hkeep.
    - rewrite Hbu. exact Hset.
    - intros b Hinb. apply (later_index blocks t b Hidx Hinb). }
  rewrite Hstart' in Hstart. apply some_inj in Hstart. subst start.
  exists c1, o1, offs, c2, o2, ct, ot.
  eexists. repeat split; try eassumption.
  rewrite Hfinal. do 3 f_equal. lia.
Qed.

End AsmFacts.

(** C7.  After [emit_program], for every SOPP instruction that targets a
    block and whose [imm] field is 0 the low 16 bits of its word, the
    immediate of the branch, are [target_block_start - (branch_index + 1)]
    modulo 2^16.  An [imm] of 0 is what [create_instruction] leaves, which
    takes the instruction from [calloc]; no code of the sources writes the
    [imm] of a branch.  [fix_branches] ORs the offset into the word, so in
    general the low 16 bits are the bits of [imm] or-ed with the offset.
    The program is the one [fix_exports] leaves, its block indices are the
    positions of the blocks and its branches target blocks of the
    program. *)
Theorem fix_branches_patches :
  forall hw blocks0 blocks ctx out,
    fix_exports blocks0 = Some blocks ->
    (forall k blk, nth_error blocks k = Some blk -> index blk = k) ->
    (forall blk i t, In blk blocks -> In i (instructions blk) ->
                     sopp_target i = Some t -> (t < length blocks)%nat) ->
    emit_blocks hw (mkCtx [] (repeat 0 (length blocks0))) [] blocks
      = Some (ctx, out) ->
    exists final,
      emit_program hw blocks0 = Some final /\
      branches_patched
        (fun imm w offset =>
           Z.land w 65535 = Z.lor (u16 imm) (u16 offset) /\
           (u16 imm = 0 -> Z.land w 65535 = u16 offset))
        hw (length blocks0) blocks final.
Proof.
  intros hw blocks0 blocks ctx out Hfix Hidx Htgt Hemit.
  pose proof (fix_exports_length _ _ Hfix) as Hlen.
  destruct (emit_then_fix hw blocks (length blocks0) ctx out Hidx Htgt
              (eq_sym Hlen) Hemit) as (final & Hfinal & Hall).
  exists final. split.
  - unfold emit_program. rewrite Hfix. cbn [bind]. rewrite Hemit. cbn [bind].
    exact Hfinal.
  - intros bpre blk bpost ipre i ipost imm t Hb Hi Hf Hp.
    destruct (Hall _ _ _ _ _ _ _ _ Hb Hi Hf Hp)
      as (c1 & o1 & offs & c2 & o2 & ct & ot & w & H1 & H2 & H3 & H4 & H5 & H6).
    exists c1, o1, offs, c2, o2, ct, ot, w.
    repeat (split; [assumption|]).
    assert (Hlow : Z.land w 65535
                   = Z.lor (u16 imm)
                       (u16 (Z.of_nat (length ot) - (Z.of_nat (length o2) + 1)))).
    { rewrite H6. apply patched_immediate. }
    split; [exact Hlow|].
    intros H0. rewrite Hlow, H0. reflexivity.
Qed.

Lemma indices_from_seq : forall blocks,
    map index blocks = seq 0 (length blocks) ->
    forall k blk, nth_error blocks k = Some blk -> index blk = k.
Proof.
  intros blocks H k blk Hk.
  pose proof (map_nth_error index k blocks Hk) as Hm.
  rewrite H in Hm.
  assert (Hlt : (k < length blocks)%nat)
    by (apply nth_error_Some; rewrite Hk; discriminate).
  rewrite (nth_error_nth' (seq 0 (length blocks)) 0%nat) in Hm
    by (rewrite length_seq; exact Hlt).
  rewrite seq_nth in Hm by exact Hlt.
  apply some_inj in Hm. cbn in Hm. symmetry. exact Hm.
Qed.

Lemma targets_from_check : forall blocks,
    forallb (fun blk =>
      forallb (fun i => match sopp_target i with
                        | Some t => (t <? length blocks)%nat
                        | None => true
                        end) (instructions blk)) blocks = true ->
    forall blk i t, In blk blocks -> In i (instructions blk) ->
                    sopp_target i = Some t -> (t < length blocks)%nat.
Proof.
  intros blocks H blk i t Hb Hi Ht.
  rewrite forallb_forall in H. specialize (H blk Hb).
  rewrite forallb_forall in H. specialize (H i Hi).
  rewrite Ht in H. apply Nat.ltb_lt. exact H.
Qed.

(** The example program with a forward branch whose [imm] field is 0. *)
Lemma fix_branches_patches_witness :
  exists final,
    emit_program example_opcodes (example_program 0) = Some final /\
    branches_patched
      (fun imm w offset =>
         Z.land w 65535 = Z.lor (u16 imm) (u16 offset) /\
         (u16 imm = 0 -> Z.land w 65535 = u16 offset))
      example_opcodes (length (example_program 0)) (example_fixed 0) final.
Proof.
  eapply (fix_branches_patches example_opcodes (example_program 0)
            (example_fixed 0)).
  - vm_compute. reflexivity.
  - apply indices_from_seq. vm_compute. reflexivity.
  - apply targets_from_check. vm_compute. reflexivity.
  - vm_compute. reflexivity.
Defined.

(** The bits of an [imm] field that is not 0 stay in the patched word:
    with [imm = 4] and an offset of 3 the low 16 bits are 7, not the
    offset. *)
Lemma fix_branches_keeps_imm :
  ~ (forall final,
        emit_program example_opcodes (example_program 4) = Some final ->
        branches_patched (fun _ w offset => Z.land w 65535 = u16 offset)
          example_opcodes (length (example_program 4)) (example_fixed 4) final).
Proof.
  intros H.
  specialize (H _ ltac:(vm_compute; reflexivity)).
  unfold branches_patched in H.
  match type of H with
  | forall bpre blk bpost, _ =>
      specialize (H [] (nth 0 (example_fixed 4) (mkBlock 0 [] [] [] [] []))
                    (skipn 1 (example_fixed 4))
                    [nth 0 (instructions (nth 0 (example_fixed 4)
                                               (mkBlock 0 [] [] [] [] [])))
                         example_export]
                    (example_sopp (aco_opcode.other 2) 4 (Some 2%nat)) []
                    4 2%nat
                    ltac:(vm_compute; reflexivity)
                    ltac:(vm_compute; reflexivity)
                    eq_refl eq_refl)
  end.
  destruct H as (c1 & o1 & offs & c2 & o2 & ct & ot & w
                 & H1 & H2 & H3 & H4 & H5 & H6).
  vm_compute in H1. apply some_inj, pair_equal_spec in H1.
  destruct H1 as [<- <-].
  vm_compute in H2. apply some_inj in H2. subst offs.
  vm_compute in H3. apply some_inj, pair_equal_spec in H3.
  destruct H3 as [<- <-].
  vm_compute in H4. apply some_inj, pair_equal_spec in H4.
  destruct H4 as [<- <-].
  vm_compute in H5. apply some_inj in H5. subst w.
  vm_compute in H6. discriminate H6.
Qed.

End Branches.

Section Constants.

Import Asm.












End Constants.

Section EntryPoint.

(** ** The driver entry point *)

Import Interface.

(** C10.  For a shader whose stage is not the fragment stage
    [aco_compile_shader] returns at once: whatever the passes of the
    pipeline are, the binary, the config, the info and the error stream are
    as they were.  A fragment shader goes through the pipeline, and the
    binary is the code [emit_program] returns for it. *)
Theorem non_fragment_not_compiled :
  forall (nir_shader ac_shader_config radv_shader_variant_info
          radv_nir_compiler_options Program : Type)
         (stage : nir_shader -> gl_shader_stage)
         zero_config zero_info select_program register_allocation
         eliminate_pseudo_instr schedule insert_wait_states emit_program
         aco_print_program print_counts print_asm heading
         (shader : nir_shader) (options : radv_nir_compiler_options)
         (o : outputs ac_shader_config radv_shader_variant_info),
    let compiled :=
      aco_compile_shader nir_shader ac_shader_config radv_shader_variant_info
        radv_nir_compiler_options Program stage zero_config zero_info
        select_program register_allocation eliminate_pseudo_instr schedule
        insert_wait_states emit_program aco_print_program print_counts
        print_asm heading shader options o in
    (stage shader <> MESA_SHADER_FRAGMENT -> compiled = o) /\
    (stage shader = MESA_SHADER_FRAGMENT ->
     let code :=
       snd (emit_program
              (insert_wait_states
                 (schedule
                    (eliminate_pseudo_instr
                       (register_allocation
                          (select_program shader zero_config zero_info
                             options)))))) in
     binary _ _ compiled = mkBinary code (Z.of_nat (length code) * 4)).
Proof.
  intros. unfold compiled, aco_compile_shader. split.
  - intros Hs. destruct (stage shader); try reflexivity. contradiction.
  - intros Hs. rewrite Hs. cbn [is_fragment negb].
    destruct (emit_program _) as [program code0]. reflexivity.
Qed.

(** A vertex shader. *)
Lemma non_fragment_not_compiled_witness :
  aco_compile_shader gl_shader_stage Z Z unit (list Z) (fun s => s) 0 0
    (fun _ _ _ _ => ([1], 24, 7)) (fun u => u) (fun u => u) (fun u => u)
    (fun u => u) (fun u => (u, fst (fst u))) (fun u => fst (fst u))
    (fun c => [c]) (fun c => c) (fun n => [Z.of_nat n])
    MESA_SHADER_VERTEX tt (mkOutputs Z Z 5 (mkBinary [] 0) 6 [])
  = mkOutputs Z Z 5 (mkBinary [] 0) 6 [].
Proof.
  apply (non_fragment_not_compiled gl_shader_stage Z Z unit (list Z)).
  discriminate.
Defined.

End EntryPoint.

Section Divergence.
Local Close Scope Z_scope.

(** ** The divergence analysis *)

Import Nir.


Section DivergenceFacts.

Variable num_inputs : nir_op -> nat.
Variable input_sizes : nir_op -> nat -> nat.
Variable has_dest : nir_intrinsic_op -> bool.
Variable num_srcs : nir_intrinsic_op -> nat.
Variable cf : nir_cf.

Local Abbreviation visit_instr := (visit_instr num_inputs input_sizes has_dest num_srcs cf).
Local Abbreviation visit_block := (visit_block num_inputs input_sizes has_dest num_srcs cf).
Local Abbreviation analysis_loop := (analysis_loop num_inputs input_sizes has_dest num_srcs cf).
Local Abbreviation reached := (reached num_inputs input_sizes has_dest num_srcs cf).
Local Abbreviation defs := (defs has_dest).
Local Abbreviation ssa_form := (ssa_form has_dest).

Lemma set_same : forall t i v, set t i v i = v.
Proof. intros. unfold set. rewrite Nat.eqb_refl. reflexivity. Qed.

Lemma set_other : forall t i v j, j <> i -> set t i v j = t j.
Proof.
  intros t i v j H. unfold set.
  destruct (Nat.eqb_spec j i); [contradiction | reflexivity].
Qed.

(** A write to an index that was uniform keeps what was divergent. *)
Lemma set_uniform_monotone : forall t i b v,
    t i = false -> t v = true -> set t i b v = true.
Proof.
  intros t i b v Hi Hv. rewrite set_other; [exact Hv|].
  intros ->. rewrite Hi in Hv. discriminate Hv.
Qed.

Lemma parallel_copy_monotone : forall es t c t' c' v,
    visit_parallel_copy_loop t c es = (t', c') -> t v = true -> t' v = true.
Proof.
  induction es as [|e es IH]; intros t c t' c' v H Hv;
    cbn [visit_parallel_copy_loop] in H.
  - inversion H. subst. exact Hv.
  - destruct (t (entry_dest e)) eqn:Ed.
    + apply (IH _ _ _ _ _ H Hv).
    + apply (IH _ _ _ _ _ H). apply set_uniform_monotone; assumption.
Qed.

Lemma parallel_copy_writes : forall es t c t' c' v,
    visit_parallel_copy_loop t c es = (t', c') ->
    ~ In v (map entry_dest es) -> t' v = t v.
Proof.
  induction es as [|e es IH]; intros t c t' c' v H Hv;
    cbn [visit_parallel_copy_loop] in H.
  - inversion H. reflexivity.
  - cbn [map In] in Hv. destruct (t (entry_dest e)).
    + apply (IH _ _ _ _ _ H). tauto.
    + rewrite (IH _ _ _ _ _ H) by tauto. apply set_other. intros ->. tauto.
Qed.

Ltac visit_cases H :=
  repeat match type of H with
         | bind ?m _ = Some _ =>
             let E := fresh "E" in
             destruct m eqn:E; cbn [bind] in H; [|discriminate H]
         | (if ?c then _ else _) = Some _ =>
             let E := fresh "E" in destruct c eqn:E
         | match ?x with _ => _ end = Some _ =>
             let E := fresh "E" in destruct x eqn:E; try discriminate H
         end;
  try (inversion H; subst; clear H).

(** An instruction writes the indices it defines only. *)
Lemma visit_writes_defs : forall t i t' c v,
    visit_instr t i = Some (t', c) -> ~ In v (defs i) -> t' v = t v.
Proof.
  intros t i t' c v H Hv. destruct i; cbn [Nir.visit_instr Nir.defs] in *.
  - unfold visit_alu in H. visit_cases H; try reflexivity;
      apply set_other; intros ->; apply Hv; left; reflexivity.
  - unfold visit_intrinsic in H.
    destruct (has_dest (intrinsic i)) eqn:Eh; cbn [negb] in H.
    + visit_cases H; try reflexivity;
        apply set_other; intros ->; apply Hv; left; reflexivity.
    + inversion H. reflexivity.
  - unfold visit_tex in H. visit_cases H; try reflexivity.
    apply set_other; intros ->; apply Hv; left; reflexivity.
  - unfold visit_phi in H. visit_cases H; try reflexivity;
      apply set_other; intros ->; apply Hv; left; reflexivity.
  - unfold visit_parallel_copy in H.
    destruct (visit_parallel_copy_loop t false entries) as [t1 c1] eqn:E.
    inversion H; subst. apply (parallel_copy_writes _ _ _ _ _ _ E Hv).
  - unfold visit_load_const in H. inversion H; subst.
    apply set_other; intros ->; apply Hv; left; reflexivity.
  - unfold visit_ssa_undef in H. inversion H; subst.
    apply set_other; intros ->; apply Hv; left; reflexivity.
  - unfold visit_deref in H. visit_cases H;
      apply set_other; intros ->; apply Hv; left; reflexivity.
  - inversion H. reflexivity.
  - discriminate H.
Qed.

(** The instructions that test their result first never reset a value;
    the three that do not write [false] only where [written_uniform]
    holds. *)
Lemma visit_monotone_or_uniform : forall t i t' c v,
    visit_instr t i = Some (t', c) -> t v = true ->
    t' v = true \/ written_uniform i v.
Proof.
  intros t i t' c v H Hv. destruct i; cbn [Nir.visit_instr written_uniform] in *.
  - left. unfold visit_alu in H. visit_cases H; try assumption;
      apply set_uniform_monotone; assumption.
  - left. unfold visit_intrinsic in H. visit_cases H; try assumption;
      apply set_uniform_monotone; assumption.
  - left. unfold visit_tex in H. visit_cases H; try assumption.
    apply set_uniform_monotone; assumption.
  - left. unfold visit_phi in H. visit_cases H; try assumption;
      apply set_uniform_monotone; assumption.
  - left. unfold visit_parallel_copy in H.
    destruct (visit_parallel_copy_loop t false entries) as [t1 c1] eqn:E.
    inversion H; subst. apply (parallel_copy_monotone _ _ _ _ _ _ E Hv).
  - unfold visit_load_const in H. inversion H; subst.
    destruct (Nat.eq_dec def v) as [->|Hne]; [right; reflexivity|].
    left. rewrite set_other by congruence. exact Hv.
  - unfold visit_ssa_undef in H. inversion H; subst.
    destruct (Nat.eq_dec def v) as [->|Hne]; [right; reflexivity|].
    left. rewrite set_other by congruence. exact Hv.
  - unfold visit_deref in H.
    destruct (existsb (fun t0 => negb (is_tex t0)) (deref_uses i)) eqn:Eu;
      inversion H; subst.
    + destruct (Nat.eq_dec (deref_dest i) v) as [Hd|Hne];
        [right; split; [exact Hd | reflexivity]|].
      left. rewrite set_other by congruence. exact Hv.
    + left. destruct (Nat.eq_dec v (deref_dest i)) as [->|Hne].
      * apply set_same.
      * rewrite set_other by exact Hne. exact Hv.
  - left. inversion H; subst. exact Hv.
  - discriminate H.
Qed.


Lemma written_uniform_defs : forall i d, written_uniform i d -> In d (defs i).
Proof.
  intros i d H. destruct i; cbn [written_uniform Nir.defs] in *;
    try contradiction.
  - left. exact H.
  - left. exact H.
  - left. exact (proj1 H).
Qed.

Lemma written_uniform_visit : forall t i t' c d,
    visit_instr t i = Some (t', c) -> written_uniform i d -> t' d = false.
Proof.
  intros t i t' c d H Hw. destruct i; cbn [Nir.visit_instr written_uniform] in *;
    try contradiction.
  - unfold visit_load_const in H. inversion H; subst. apply set_same.
  - unfold visit_ssa_undef in H. inversion H; subst. apply set_same.
  - destruct Hw as [Hd Hu]. unfold visit_deref in H. rewrite Hu in H.
    inversion H; subst. apply set_same.
Qed.

Lemma NoDup_app_disjoint : forall (A : Type) (l1 l2 : list A) x,
    NoDup (l1 ++ l2) -> In x l1 -> In x l2 -> False.
Proof.
  intros A l1 l2 x. induction l1 as [|a l1 IH]; intros Hnd H1 H2.
  - destruct H1.
  - cbn [app] in Hnd. inversion Hnd as [|? ? Ha Hnd']; subst.
    destruct H1 as [->|H1].
    + apply Ha. apply in_or_app. right. exact H2.
    + apply (IH Hnd' H1 H2).
Qed.

Lemma NoDup_concat_unique : forall (A B : Type) (f : A -> list B) l a b x,
    NoDup (concat (map f l)) -> In a l -> In b l ->
    In x (f a) -> In x (f b) -> a = b.
Proof.
  intros A B f l a b x. induction l as [|y l IH]; intros Hnd Ha Hb Hxa Hxb.
  - destruct Ha.
  - cbn [map concat] in Hnd.
    assert (Hin : forall c, In c l -> In x (f c) -> In x (concat (map f l))).
    { intros c Hc Hx. apply in_concat. exists (f c). split; [|exact Hx].
      apply in_map. exact Hc. }
    destruct Ha as [->|Ha], Hb as [->|Hb].
    + reflexivity.
    + exfalso. apply (NoDup_app_disjoint _ _ _ x Hnd Hxa). apply (Hin b Hb Hxb).
    + exfalso. apply (NoDup_app_disjoint _ _ _ x Hnd Hxb). apply (Hin a Ha Hxa).
    + apply (IH (NoDup_app_remove_l _ _ Hnd) Ha Hb Hxa Hxb).
Qed.

(** In SSA form the values of [written_uniform] stay uniform in every
    state the iteration reaches. *)
Lemma reached_uniform_kept : forall blocks t,
    ssa_form blocks -> reached blocks t -> uniform_kept blocks t.
Proof.
  intros blocks t Hssa Hr. induction Hr as [|t x t' c Hr IH Hx Hv].
  - intros i d _ _. reflexivity.
  - intros i d Hi Hw.
    destruct (in_dec Nat.eq_dec d (defs x)) as [Hd|Hd].
    + assert (x = i).
      { apply (NoDup_concat_unique _ _ defs (concat blocks) x i d Hssa Hx Hi Hd).
        apply written_uniform_defs, Hw. }
      subst x. apply (written_uniform_visit _ _ _ _ _ Hv Hw).
    + rewrite (visit_writes_defs _ _ _ _ _ Hv Hd). apply (IH i d Hi Hw).
Qed.

(** C8.  In the course of the iteration over a shader in SSA form a
    visit of an instruction never resets a value that is marked
    divergent: what is [true] in a state the iteration has reached is
    [true] after the visit. *)
Theorem divergence_monotone :
  forall blocks t i t' c v,
    ssa_form blocks ->
    reached blocks t -> In i (concat blocks) ->
    visit_instr t i = Some (t', c) ->
    t v = true -> t' v = true.
Proof.
  intros blocks t i t' c v Hssa Hr Hi Hv Ht.
  destruct (visit_monotone_or_uniform _ _ _ _ _ Hv Ht) as [H|H]; [exact H|].
  rewrite (reached_uniform_kept blocks t Hssa Hr i v Hi H) in Ht.
  discriminate Ht.
Qed.

(** The states of the loop of [nir_divergence_analysis] are states the
    iteration reaches, and the map only grows along the loop. *)
Lemma visit_block_reached : forall blocks instrs t c t' c',
    incl instrs (concat blocks) ->
    visit_block t c instrs = Some (t', c') ->
    reached blocks t -> reached blocks t'.
Proof.
  intros blocks. induction instrs as [|i instrs IH];
    intros t c t' c' Hincl H Hr; cbn [Nir.visit_block] in H.
  - inversion H; subst. exact Hr.
  - destruct (visit_instr t i) as [[t1 c1]|] eqn:E; cbn [bind] in H;
      [|discriminate H].
    apply (IH t1 (c || c1)%bool t' c').
    + intros x Hx. apply Hincl. right. exact Hx.
    + exact H.
    + apply (reached_visit _ _ _ _ _ _ t i t1 c1 Hr); [|exact E].
      apply Hincl. left. reflexivity.
Qed.

Lemma analysis_loop_reached : forall blocks fuel t worklist t',
    analysis_loop fuel blocks t worklist = Some t' ->
    reached blocks t -> reached blocks t'.
Proof.
  intros blocks. induction fuel as [|fuel IH]; intros t worklist t' H Hr;
    destruct worklist as [|b worklist]; cbn [Nir.analysis_loop] in H;
    try (inversion H; subst; exact Hr); try discriminate H.
  destruct (nth_error blocks b) as [instrs|] eqn:Eb; cbn [bind] in H;
    [|discriminate H].
  destruct (visit_block t false instrs) as [[t1 c1]|] eqn:Ev; cbn [bind] in H;
    [|discriminate H].
  apply (IH _ _ _ H).
  apply (visit_block_reached blocks instrs t false t1 c1); [|exact Ev|exact Hr].
  intros x Hx. apply in_concat. exists instrs. split; [|exact Hx].
  apply (nth_error_In _ _ Eb).
Qed.

End DivergenceFacts.

End Divergence.

Section GammaPhi.
Local Close Scope Z_scope.

Import Nir.

Lemma phi_scan_spec : forall t srcs n,
    (phi_scan t n srcs = inl tt /\
     exists s, In s srcs /\ t (index (phi_ssa s)) = true) \/
    (phi_scan t n srcs = inr (n + non_undef_count srcs) /\
     forall s, In s srcs -> t (index (phi_ssa s)) = false).
Proof.
  intros t. induction srcs as [|s srcs IH]; intros n; cbn [phi_scan].
  - right. split; [unfold non_undef_count; cbn; f_equal; lia|]. intros s [].
  - destruct (t (index (phi_ssa s))) eqn:Es.
    + left. split; [reflexivity|]. exists s. split; [left; reflexivity|exact Es].
    + unfold non_undef_count. cbn [filter].
      destruct (negb (is_ssa_undef (parent_instr_type (phi_ssa s)))).
      * destruct (IH (n + 1)) as [[H1 (s' & Hs' & Ht)]|[H1 H2]].
        -- left. split; [exact H1|]. exists s'. split; [right; exact Hs'|exact Ht].
        -- right. split.
           ++ rewrite H1. unfold non_undef_count. cbn [length]. f_equal. lia.
           ++ intros s' [<-|Hs']; [exact Es | apply H2, Hs'].
      * destruct (IH n) as [[H1 (s' & Hs' & Ht)]|[H1 H2]].
        -- left. split; [exact H1|]. exists s'. split; [right; exact Hs'|exact Ht].
        -- right. split; [exact H1|].
           intros s' [<-|Hs']; [exact Es | apply H2, Hs'].
Qed.

(** C1, as the code has it.  For a phi at the join of an if-then-else the
    visit returns, writes the result of the phi only, and leaves it marked
    divergent iff it was marked before, or an operand is divergent, or the
    branch condition is divergent and at least two operands are not
    undefined. *)
Theorem gamma_phi_divergent :
  forall cf t instr p,
    prev cf (phi_block instr) = Some p ->
    node_type cf p = nir_cf_node_if ->
    exists t' c,
      visit_phi cf t instr = Some (t', c) /\
      (forall v, v <> phi_dest instr -> t' v = t v) /\
      (t' (phi_dest instr) = true <->
       t (phi_dest instr) = true \/
       (exists s, In s (phi_srcs instr) /\ t (index (phi_ssa s)) = true) \/
       (t (if_condition cf p) = true /\ 2 <= non_undef_count (phi_srcs instr))).
Proof.
  intros cf t instr p Hprev Hif. unfold visit_phi.
  destruct (t (phi_dest instr)) eqn:Ed.
  { exists t, false. split; [reflexivity|]. split; [reflexivity|].
    rewrite Ed. tauto. }
  destruct (phi_scan_spec t (phi_srcs instr) 0) as [[Hs Hex]|[Hs Hall]];
    rewrite Hs.
  { eexists; eexists. split; [reflexivity|].
    split; [intros v Hv; apply set_other, Hv|].
    rewrite set_same. tauto. }
  assert (Hnone : ~ exists s, In s (phi_srcs instr)
                              /\ t (index (phi_ssa s)) = true).
  { intros (s & Hin & Ht). rewrite (Hall s Hin) in Ht. discriminate Ht. }
  cbn [Nat.add].
  destruct (Nat.leb_spec (non_undef_count (phi_srcs instr)) 1) as [Hle|Hgt].
  { exists t, false. split; [reflexivity|]. split; [reflexivity|].
    rewrite Ed. split; [discriminate|]. intros [H|[H|[_ H]]];
      [discriminate H | contradiction | lia]. }
  rewrite Hprev, Hif. cbn [bind].
  destruct (t (if_condition cf p)) eqn:Ec.
  - eexists; eexists. split; [reflexivity|].
    split; [intros v Hv; apply set_other, Hv|].
    rewrite set_same. split; [|reflexivity]. intros _. right. right.
    split; [reflexivity | lia].
  - eexists; eexists. split; [reflexivity|].
    split; [intros v Hv; apply set_other, Hv|].
    rewrite set_same. split; [discriminate|].
    intros [H|[H|[H _]]]; [discriminate H | contradiction | discriminate H].
Qed.

(** The phi of the example shader under a divergent condition: one of
    its two operands is undefined, so the result stays uniform. *)
Lemma gamma_phi_divergent_witness :
  exists t' c,
    visit_phi example_cf (set (fun _ => false) 0 true) example_gamma
      = Some (t', c) /\
    (forall v, v <> phi_dest example_gamma ->
               t' v = set (fun _ => false) 0 true v) /\
    (t' (phi_dest example_gamma) = true <->
     set (fun _ => false) 0 true (phi_dest example_gamma) = true \/
     (exists s, In s (phi_srcs example_gamma)
                /\ set (fun _ => false) 0 true (index (phi_ssa s)) = true) \/
     (set (fun _ => false) 0 true (if_condition example_cf 1) = true
      /\ 2 <= non_undef_count (phi_srcs example_gamma))).
Proof.
  apply (gamma_phi_divergent example_cf (set (fun _ => false) 0 true)
           example_gamma 1); reflexivity.
Defined.

(** The claim as the specification words it fails when all operands but
    one are undefined: the condition 0 of the example is divergent and the
    visit leaves the result 3 of the phi uniform. *)
Lemma gamma_phi_undef_uniform :
  ~ (forall cf t instr p t' c,
        prev cf (phi_block instr) = Some p ->
        node_type cf p = nir_cf_node_if ->
        visit_phi cf t instr = Some (t', c) ->
        (t' (phi_dest instr) = true <->
         t (if_condition cf p) = true \/
         exists s, In s (phi_srcs instr) /\ t (index (phi_ssa s)) = true)).
Proof.
  intros H.
  specialize (H example_cf (set (fun _ => false) 0 true) example_gamma 1
                (set (fun _ => false) 0 true) false eq_refl eq_refl eq_refl).
  destruct H as [_ H].
  assert (Hd : set (fun _ => false) 0 true (phi_dest example_gamma) = true).
  { apply H. left. reflexivity. }
  discriminate Hd.
Qed.

(** The witness of C8: the phi of the example shader visited in the state
    where the condition is divergent. *)
Lemma divergence_monotone_witness :
  set (fun _ => false) 0 true 0 = true.
Proof.
  apply (divergence_monotone (fun _ => 2) (fun _ _ => 1) (fun _ => true)
           (fun _ => 0) example_cf example_shader
           (set (fun _ => false) 0 true) (instr_phi example_gamma)
           (set (fun _ => false) 0 true) false 0).
  - unfold ssa_form. cbn. repeat constructor; cbn; intuition discriminate.
  - apply (reached_visit _ _ _ _ _ _ (fun _ => false)
             (instr_intrinsic
                (mkIntrinsic nir_intrinsic_load_interpolated_input 0 []))
             _ true).
    + apply reached_init.
    + cbn. tauto.
    + reflexivity.
  - cbn. tauto.
  - reflexivity.
  - reflexivity.
Defined.

End GammaPhi.

Section SpillSlots.
Local Close Scope Z_scope.

(** ** Spill slots *)

Import Spill.


(** C4 at the failing input.  The loop of the scalar spill ids, whose
    slots are the lanes of the linear vgprs, colours the five ids, of 1, 16,
    16, 16 and 16 dwords, with the slots 0, 1, 17, 33 and 49.  The ranges are
    disjoint, but the last spill of sixteen dwords is given the range from
    49 to 64 and straddles the boundary at 64, and its [p_spill] is
    rewritten to lane 49 of the linear vgpr 0. *)
Theorem scalar_spill_straddles :
  exists s,
    assign_spill_slots 100 example_interferences [] 2 = Some (s, 2%nat) /\
    map (slot_of (sgpr_slot s)) [0; 1; 2; 3; 4]%nat
      = [Some 0; Some 1; Some 17; Some 33; Some 49]%nat /\
    map (fun e => Z.to_nat (sizeOf (fst e))) example_interferences
      = [1; 16; 16; 16; 16]%nat /\
    within_linear_vgpr 49 16 = false /\
    backing 49 = (0, 49)%nat.
Proof.
  eexists. split; [vm_compute; reflexivity|].
  repeat split.
Qed.

(** The loop of the vector spill ids does forbid it: the last spill of six
    dwords skips the slots 61 to 63 and starts at 64. *)
Lemma vector_spill_within :
  exists s,
    assign_spill_slots 100 example_vector_interferences [] 2 = Some (s, 2%nat) /\
    slot_of (vgpr_slot s) 10 = Some 55%nat /\
    slot_of (vgpr_slot s) 11 = Some 64%nat /\
    within_linear_vgpr 64 6 = true.
Proof.
  eexists. split; [vm_compute; reflexivity|].
  repeat split.
Qed.

End SpillSlots.

Section BoolPhiLowering.

(** ** The lowering of divergent boolean phis *)

Import BoolPhis.


Lemma leading_strip : forall l, l = leading_phis l ++ strip_phis l.
Proof.
  induction l as [|i l IH]; cbn [leading_phis strip_phis].
  - reflexivity.
  - destruct (is_phi i); [cbn [app]; f_equal; exact IH | reflexivity].
Qed.



Lemma strip_phis_middle : forall a x b,
    is_phi x = false -> strip_phis (a ++ x :: b) = strip_phis a ++ x :: b.
Proof.
  induction a as [|i a IH]; intros x b Hx; cbn [app strip_phis].
  - rewrite Hx. reflexivity.
  - destruct (is_phi i); [apply IH, Hx | reflexivity].
Qed.

Lemma strip_phis_cons_phi : forall x l,
    is_phi x = true -> strip_phis (x :: l) = strip_phis l.
Proof. intros x l H. cbn [strip_phis]. rewrite H. reflexivity. Qed.


(** *** The place of an insertion *)

Lemma last_logical_end_none : forall l,
    forallb (fun i => negb (is_logical_end i)) l = true ->
    last_logical_end l = None.
Proof.
  induction l as [|x l IH]; intros H; cbn [last_logical_end].
  - reflexivity.
  - cbn [forallb] in H. apply andb_true_iff in H. destruct H as [Hx Hl].
    rewrite (IH Hl). apply negb_true_iff in Hx. rewrite Hx. reflexivity.
Qed.

Lemma last_logical_end_app : forall pre e post,
    is_logical_end e = true ->
    forallb (fun i => negb (is_logical_end i)) post = true ->
    last_logical_end (pre ++ e :: post) = Some (length pre).
Proof.
  induction pre as [|x pre IH]; intros e post He Hpost;
    cbn [app last_logical_end length].
  - rewrite (last_logical_end_none _ Hpost), He. reflexivity.
  - rewrite (IH _ _ He Hpost). reflexivity.
Qed.

Lemma vector_insert_app : forall (A : Type) (pre post : list A) x,
    vector_insert (pre ++ post) (length pre) x = pre ++ x :: post.
Proof.
  intros A pre post x. unfold vector_insert.
  rewrite firstn_app, Nat.sub_diag, firstn_all. cbn [firstn].
  rewrite app_nil_r.
  rewrite skipn_app, Nat.sub_diag, skipn_all. reflexivity.
Qed.

(** With a [p_logical_end] in the block the instruction goes right before
    the last one. *)
Lemma insert_before_logical_end_spec : forall pre e post x,
    is_logical_end e = true ->
    forallb (fun i => negb (is_logical_end i)) post = true ->
    insert_before_logical_end (pre ++ e :: post) x = Some (pre ++ x :: e :: post).
Proof.
  intros pre e post x He Hpost. unfold insert_before_logical_end.
  rewrite (last_logical_end_app _ _ _ He Hpost). f_equal.
  apply vector_insert_app.
Qed.

(** *** The linear phis [update_phi] finds *)

Lemma find_phi_shift : forall l d k,
    find_phi l d (S k) = option_map S (find_phi l d k).
Proof.
  induction l as [|i l IH]; intros d k; cbn [find_phi]; [reflexivity|].
  destruct (negb (is_phi i)); [reflexivity|].
  destruct (negb (aco_opcode.eqb (opcode i) aco_opcode.p_linear_phi));
    [apply IH|].
  destruct (definitions i) as [|dd ds]; [reflexivity|].
  destruct (negb (id (def_temp dd) =? d)); [apply IH | reflexivity].
Qed.

Lemma has_phi_prepend : forall blk res ops d,
    length ops = length (linear_predecessors blk) ->
    has_phi blk d ->
    has_phi (set_instructions (linear_phi res ops :: instructions blk) blk) d.
Proof.
  intros blk res ops d Hlen (k & phi & Hf & Hn & Hl). unfold has_phi.
  cbn [instructions set_instructions linear_predecessors].
  cbn [find_phi linear_phi is_phi opcode definitions aco_opcode.eqb negb
       def_temp Definition_temp id].
  change (is_phi (linear_phi res ops)) with true. cbn [negb].
  change (aco_opcode.eqb (opcode (linear_phi res ops)) aco_opcode.p_linear_phi)
    with true. cbn [negb definitions linear_phi].
  change (id (def_temp (Definition_temp (mkTemp res RegClass.s2)))) with res.
  destruct (Z.eqb_spec res d) as [E|E]; cbn [negb].
  - exists O, (linear_phi res ops). repeat split. exact Hlen.
  - rewrite find_phi_shift, Hf. exists (S k), phi. repeat split; assumption.
Qed.

Lemma has_phi_new : forall blk res ops,
    length ops = length (linear_predecessors blk) ->
    has_phi (set_instructions (linear_phi res ops :: instructions blk) blk) res.
Proof.
  intros blk res ops Hlen. unfold has_phi.
  cbn [instructions set_instructions linear_predecessors find_phi].
  change (is_phi (linear_phi res ops)) with true. cbn [negb].
  change (aco_opcode.eqb (opcode (linear_phi res ops)) aco_opcode.p_linear_phi)
    with true. cbn [negb definitions linear_phi].
  change (id (def_temp (Definition_temp (mkTemp res RegClass.s2)))) with res.
  rewrite Z.eqb_refl. cbn [negb].
  exists O, (linear_phi res ops). repeat split. exact Hlen.
Qed.







(** *** Programs with the same code *)

Ltac same_block :=
  repeat match goal with |- _ /\ _ => split end;
  try reflexivity; try assumption; try lia;
  try (let d := fresh "d" in let Hd := fresh "Hd" in intros d Hd; exact Hd).

Lemma same_code_refl : forall p, same_code p p.
Proof.
  intros p. split; [reflexivity|]. intros b blk H. exists blk.
  split; [exact H|]. same_block.
Qed.

Lemma same_code_trans : forall p1 p2 p3,
    same_code p1 p2 -> same_code p2 p3 -> same_code p1 p3.
Proof.
  intros p1 p2 p3 [Hl1 H1] [Hl2 H2]. split; [congruence|].
  intros b blk Hb.
  destruct (H1 b blk Hb)
    as (blk2 & Hb2 & Hs2 & Hn2 & Hi2 & Ha2 & Hb2' & Hc2 & Hd2 & Hp2).
  destruct (H2 b blk2 Hb2)
    as (blk3 & Hb3 & Hs3 & Hn3 & Hi3 & Ha3 & Hb3' & Hc3 & Hd3 & Hp3).
  exists blk3. split; [exact Hb3|].
  repeat match goal with |- _ /\ _ => split end; try congruence; try lia.
  intros d Hd. apply Hp3, Hp2, Hd.
Qed.

Lemma allocateId_blocks : forall p id p',
    allocateId p = (id, p') -> blocks p' = blocks p /\ id = allocationID p.
Proof. intros p id p' H. inversion H. split; reflexivity. Qed.

Lemma allocateId_same_code : forall p id p',
    allocateId p = (id, p') -> same_code p p'.
Proof.
  intros p id p' H. apply allocateId_blocks in H. destruct H as [Hb _].
  split; [rewrite Hb; reflexivity|]. intros b blk Hg. exists blk.
  unfold get_block in *. rewrite Hb.
  split; [exact Hg|]. same_block.
Qed.

Lemma set_block_instructions_spec : forall p b blk l,
    get_block p b = Some blk ->
    exists p',
      set_block_instructions p b l = Some p' /\
      get_block p' b = Some (set_instructions l blk) /\
      (forall b', b' <> b -> get_block p' b' = get_block p b') /\
      allocationID p' = allocationID p /\
      length (blocks p') = length (blocks p).
Proof.
  intros p b blk l Hb. unfold set_block_instructions. rewrite Hb. cbn [bind].
  assert (Hlt : (b < length (blocks p))%nat).
  { apply nth_error_Some. unfold get_block in Hb. rewrite Hb. discriminate. }
  destruct (vector_set_total _ (blocks p) b (set_instructions l blk) Hlt)
    as [bs Hbs].
  rewrite Hbs. cbn [bind]. eexists. split; [reflexivity|].
  destruct (vector_set_spec _ _ _ _ _ Hbs) as (Hlen & Hset & Hother).
  unfold get_block. cbn [blocks allocationID].
  repeat split; assumption.
Qed.

Lemma set_block_instructions_inv : forall p b l p',
    set_block_instructions p b l = Some p' ->
    exists blk,
      get_block p b = Some blk /\
      get_block p' b = Some (set_instructions l blk) /\
      (forall b', b' <> b -> get_block p' b' = get_block p b') /\
      allocationID p' = allocationID p /\
      length (blocks p') = length (blocks p).
Proof.
  intros p b l p' H.
  destruct (get_block p b) as [blk|] eqn:Hb;
    [|unfold set_block_instructions in H; rewrite Hb in H; discriminate H].
  exists blk. split; [reflexivity|].
  destruct (set_block_instructions_spec p b blk l Hb) as (p2 & H2 & Hrest).
  rewrite H in H2. apply some_inj in H2. subst p2. exact Hrest.
Qed.

(** Replacing the instructions of a block by ones with the same code. *)
Lemma set_block_same_code : forall p b blk l p',
    get_block p b = Some blk ->
    strip_phis l = strip_phis (instructions blk) ->
    (length (instructions blk) <= length l)%nat ->
    (forall d, has_phi blk d -> has_phi (set_instructions l blk) d) ->
    set_block_instructions p b l = Some p' ->
    same_code p p'.
Proof.
  intros p b blk l p' Hb Hs Hn Hphi H.
  destruct (set_block_instructions_inv _ _ _ _ H)
    as (blk0 & Hb0 & Hb' & Hother & _ & Hlen).
  rewrite Hb in Hb0. apply some_inj in Hb0. subst blk0.
  split; [exact Hlen|]. intros b0 blk1 Hg.
  destruct (Nat.eq_dec b0 b) as [->|Hne].
  - rewrite Hb in Hg. apply some_inj in Hg. subst blk1.
    exists (set_instructions l blk). split; [exact Hb'|].
    same_block.
  - exists blk1. rewrite (Hother _ Hne).
    split; [exact Hg|]. same_block.
Qed.

Lemma phi_operands_length : forall rec block res preds i ops p st ops' p' st',
    phi_operands rec block res preds i ops p st = Some (ops', p', st') ->
    length ops' = (length ops + length preds)%nat.
Proof.
  intros rec block res. induction preds as [|q preds IH];
    intros i ops p st ops' p' st' H; cbn [phi_operands] in H.
  - apply some_inj in H. inversion H. cbn [length]. lia.
  - destruct (rec p q st) as [[[o p1] st1]|]; cbn [bind] in H;
      [|discriminate H].
    match type of H with
    | bind ?m _ = _ => destruct m as [st2|]; cbn [bind] in H; [|discriminate H]
    end.
    rewrite (IH _ _ _ _ _ _ _ H), length_app. cbn [length]. lia.
Qed.

Section SameCode.

Variable rec : Program -> nat -> ssa_state -> result Operand.
Hypothesis rec_same : forall p q st o p' st',
    rec p q st = Some (o, p', st') -> same_code p p'.

Lemma phi_operands_same_code : forall block res preds i ops p st ops' p' st',
    phi_operands rec block res preds i ops p st = Some (ops', p', st') ->
    same_code p p'.
Proof.
  intros block res. induction preds as [|q preds IH];
    intros i ops p st ops' p' st' H; cbn [phi_operands] in H.
  - apply some_inj in H. inversion H. apply same_code_refl.
  - destruct (rec p q st) as [[[o p1] st1]|] eqn:Er; cbn [bind] in H;
      [|discriminate H].
    match type of H with
    | bind ?m _ = _ => destruct m as [st2|]; cbn [bind] in H; [|discriminate H]
    end.
    apply (same_code_trans _ p1 _).
    + apply (rec_same _ _ _ _ _ _ Er).
    + apply (IH _ _ _ _ _ _ _ H).
Qed.

End SameCode.

Lemma is_phi_linear_phi : forall ops ds,
    is_phi (mkInstruction aco_opcode.p_linear_phi Format.PSEUDO ops ds NoPayload)
    = true.
Proof. reflexivity. Qed.

Lemma get_ssa_same_code : forall fuel p block st o p' st',
    get_ssa fuel p block st = Some (o, p', st') -> same_code p p'.
Proof.
  induction fuel as [|fuel IH]; intros p block st o p' st' H;
    cbn [get_ssa] in H; [discriminate H|].
  destruct (latest_find st block) as [pos|].
  { apply some_inj in H. inversion H. apply same_code_refl. }
  destruct (get_block p block) as [blk|] eqn:Hb; cbn [bind] in H;
    [|discriminate H].
  destruct (linear_predecessors blk) as [|q [|q' preds]] eqn:Hp.
  - apply some_inj in H. inversion H. apply same_code_refl.
  - apply (IH _ _ _ _ _ _ H).
  - destruct (allocateId p) as [res p0] eqn:Ea.
    match type of H with
    | bind ?m _ = _ =>
        destruct m as [[[ops p1] st1]|] eqn:Eo; cbn [bind] in H; [|discriminate H]
    end.
    destruct (get_block p1 block) as [blk1|] eqn:Hb1; cbn [bind] in H;
      [|discriminate H].
    match type of H with
    | bind ?m _ = _ =>
        destruct m as [p2|] eqn:Es; cbn [bind] in H; [|discriminate H]
    end.
    apply some_inj in H. inversion H; subst.
    apply (same_code_trans _ p0 _); [apply (allocateId_same_code _ _ _ Ea)|].
    apply (same_code_trans _ p1 _).
    + apply (phi_operands_same_code (get_ssa fuel) IH _ _ _ _ _ _ _ _ _ _ Eo).
    + eapply set_block_same_code; [exact Hb1 | | | | exact Es].
      * apply strip_phis_cons_phi. reflexivity.
      * cbn [length]. lia.
      * intros d Hd. apply has_phi_prepend; [|exact Hd].
        rewrite (phi_operands_length _ _ _ _ _ _ _ _ _ _ _ Eo). cbn [length].
        destruct (proj2 (same_code_trans _ _ _ (allocateId_same_code _ _ _ Ea)
                           (phi_operands_same_code (get_ssa fuel) IH
                              _ _ _ _ _ _ _ _ _ _ Eo)) block blk Hb)
          as (blk1' & Hb1' & _ & _ & _ & _ & Hl & _).
        rewrite Hb1 in Hb1'. apply some_inj in Hb1'. subst blk1'.
        rewrite Hl, Hp. reflexivity.
Qed.

(** *** Rewriting an operand of a leading phi *)






Section SameCodeUpdate.

Variable rec : Program -> nat -> ssa_state -> result Operand.
Hypothesis rec_same : forall p q st o p' st',
    rec p q st = Some (o, p', st') -> same_code p p'.


End SameCodeUpdate.




(** *** Insertions into a block of the program *)





(** *** Programs that evolve *)












Section LoweringFacts.

Variable scc_reg : PhysReg.




End LoweringFacts.

(** *** The state of the accumulator *)

Lemma find_filter_other : forall (l : list (nat * Z)) b x,
    x <> b ->
    find (fun e => (fst e =? x)%nat)
         (filter (fun e => negb (fst e =? b)%nat) l)
    = find (fun e => (fst e =? x)%nat) l.
Proof.
  induction l as [|[k v] l IH]; intros b x Hx; cbn [filter find fst].
  - reflexivity.
  - destruct (Nat.eqb_spec k b) as [->|Hkb]; cbn [negb].
    + destruct (Nat.eqb_spec b x); [congruence | apply IH, Hx].
    + cbn [find fst]. destruct (Nat.eqb_spec k x); [reflexivity | apply IH, Hx].
Qed.

Lemma latest_find_set : forall st b v x,
    latest_find (latest_set st b v) x
    = if (x =? b)%nat then Some v else latest_find st x.
Proof.
  intros st b v x. unfold latest_find, latest_set. cbn [latest find fst].
  rewrite (Nat.eqb_sym b x).
  destruct (Nat.eqb_spec x b) as [->|Hx]; [reflexivity|].
  rewrite (find_filter_other _ _ _ Hx). reflexivity.
Qed.

Lemma is_marked_set : forall st b v x,
    is_marked (latest_set st b v) x = (x =? b)%nat || is_marked st x.
Proof.
  intros st b v x. unfold is_marked. rewrite latest_find_set.
  destruct (x =? b)%nat; reflexivity.
Qed.

Lemma is_marked_phis_set : forall st k m x,
    is_marked (phis_set st k m) x = is_marked st x.
Proof. reflexivity. Qed.

Lemma is_marked_phis_or : forall st k u i x,
    is_marked (phis_or st k u i) x = is_marked st x.
Proof. reflexivity. Qed.

Lemma find_filter_other_Z : forall (A : Type) (l : list (Z * A)) b x,
    x <> b ->
    find (fun e => fst e =? x) (filter (fun e => negb (fst e =? b)) l)
    = find (fun e => fst e =? x) l.
Proof.
  intros A. induction l as [|[k v] l IH]; intros b x Hx; cbn [filter find fst].
  - reflexivity.
  - destruct (Z.eqb_spec k b) as [->|Hkb]; cbn [negb].
    + destruct (Z.eqb_spec b x); [congruence | apply IH, Hx].
    + cbn [find fst]. destruct (Z.eqb_spec k x); [reflexivity | apply IH, Hx].
Qed.

Lemma phis_get_set : forall st k m x,
    phis_get (phis_set st k m) x = if x =? k then m else phis_get st x.
Proof.
  intros st k m x. unfold phis_get, phis_set. cbn [phis find fst].
  rewrite (Z.eqb_sym k x).
  destruct (Z.eqb_spec x k) as [->|Hx]; [reflexivity|].
  rewrite (find_filter_other_Z _ _ _ _ Hx). reflexivity.
Qed.

Lemma phis_get_latest_set : forall st b v x,
    phis_get (latest_set st b v) x = phis_get st x.
Proof. reflexivity. Qed.

Lemma phi_use_eqb_eq : forall a b, phi_use_eqb a b = true -> a = b.
Proof.
  intros [a1 a2] [b1 b2] H. unfold phi_use_eqb in H. cbn [fst snd] in H.
  apply andb_true_iff in H. destruct H as [H1 H2].
  apply Nat.eqb_eq in H1. apply Z.eqb_eq in H2. congruence.
Qed.

(** The entries of the inner map after [m[use] |= bits]. *)
Lemma inner_or_in : forall m use bits u,
    In u (inner_or m use bits) ->
    In u m \/
    (fst u = use /\
     (snd u = bits \/ exists v, In (use, v) m /\ snd u = Z.lor v bits)).
Proof.
  induction m as [|[u0 v0] m IH]; intros use bits u H; cbn [inner_or] in H.
  - destruct H as [<-|[]]. right. split; [reflexivity | left; reflexivity].
  - destruct (phi_use_ltb use u0).
    + destruct H as [<-|H]; [|left; exact H].
      right. split; [reflexivity | left; reflexivity].
    + destruct (phi_use_eqb use u0) eqn:E.
      * apply phi_use_eqb_eq in E. subst u0.
        destruct H as [<-|H]; [|left; right; exact H].
        right. split; [reflexivity|]. right. exists v0.
        split; [left; reflexivity | reflexivity].
      * destruct H as [<-|H]; [left; left; reflexivity|].
        destruct (IH _ _ _ H) as [Hin|(Hf & [Hs|(v & Hv & Hs)])].
        -- left. right. exact Hin.
        -- right. split; [exact Hf | left; exact Hs].
        -- right. split; [exact Hf|]. right. exists v.
           split; [right; exact Hv | exact Hs].
Qed.

Lemma mask_below_lor : forall a b n,
    mask_below a n -> mask_below b n -> mask_below (Z.lor a b) n.
Proof.
  intros a b n Ha Hb j Hj. rewrite Z.lor_spec in Hj.
  apply orb_true_iff in Hj. destruct Hj; [apply Ha | apply Hb]; assumption.
Qed.

Lemma mask_below_bit : forall i n,
    (i < n)%nat -> mask_below (u64 (Z.shiftl 1 (Z.of_nat i))) n.
Proof.
  intros i n Hi j Hj. unfold u64 in Hj.
  change 18446744073709551616 with (2 ^ 64) in Hj.
  destruct (Z_lt_ge_dec (Z.of_nat j) 64) as [Hlt|Hge].
  - rewrite Z.mod_pow2_bits_low in Hj by lia.
    rewrite Z.shiftl_spec in Hj by lia.
    destruct (Z.eq_dec (Z.of_nat j) (Z.of_nat i)) as [E|E]; [lia|].
    exfalso.
    destruct (Z_lt_ge_dec (Z.of_nat j - Z.of_nat i) 0) as [Hneg|Hpos].
    + rewrite Z.testbit_neg_r in Hj by lia. discriminate Hj.
    + assert (Hb : Z.testbit 1 (Z.of_nat j - Z.of_nat i) = false).
      { replace (Z.of_nat j - Z.of_nat i)
          with (Z.succ (Z.of_nat j - Z.of_nat i - 1)) by lia.
        change 1 with (2 * 0 + 1) at 1.
        rewrite Z.testbit_odd_succ by lia. apply Z.testbit_0_l. }
      rewrite Hb in Hj. discriminate Hj.
  - rewrite Z.mod_pow2_bits_high in Hj by lia. discriminate Hj.
Qed.

(** The entries of [state->phis] after [state->phis[k][use] |= 1 << i]. *)
Lemma uses_ok_phis_or : forall pend p st k b d i,
    uses_ok pend p st ->
    use_ok pend p st ((b, d), u64 (Z.shiftl 1 (Z.of_nat i))) ->
    uses_ok pend p (phis_or st k (b, d) i).
Proof.
  intros pend p st k b d i Hinv Hnew k' u Hin. unfold phis_or in Hin.
  rewrite phis_get_set in Hin.
  assert (Hsame : forall u, use_ok pend p st u ->
                            use_ok pend p (phis_set st k
                              (inner_or (phis_get st k) (b, d)
                                 (u64 (Z.shiftl 1 (Z.of_nat i))))) u).
  { intros u0 H. exact H. }
  apply Hsame.
  destruct (Z.eqb_spec k' k) as [->|Hk]; [|apply (Hinv k' u Hin)].
  destruct (inner_or_in _ _ _ _ Hin) as [Hold|(Hf & [Hs|(v & Hv & Hs)])].
  - apply (Hinv k u Hold).
  - destruct u as [use mask]. cbn [fst snd] in Hf, Hs. subst use mask.
    exact Hnew.
  - destruct u as [use mask]. cbn [fst snd] in Hf, Hs. subst use mask.
    destruct (Hinv k _ Hv) as (Hm & blk & Hb & Hmask & Hphi).
    destruct Hnew as (_ & blk' & Hb' & Hmask' & _).
    cbn [fst snd] in *. rewrite Hb in Hb'. apply some_inj in Hb'. subst blk'.
    split; [exact Hm|]. exists blk. split; [exact Hb|].
    split; [apply mask_below_lor; assumption | exact Hphi].
Qed.

Lemma use_ok_weaken : forall (pend pend' : nat -> Z -> Prop) p st p' st' u,
    (forall b d, pend b d -> pend' b d) ->
    marks_grow st st' ->
    get_block p' (fst (fst u)) = get_block p (fst (fst u)) ->
    use_ok pend p st u -> use_ok pend' p' st' u.
Proof.
  intros pend pend' p st p' st' u Hp Hm Hb (Hmark & blk & Hblk & Hmask & Hphi).
  split; [apply Hm, Hmark|]. exists blk.
  split; [exact (eq_trans Hb Hblk)|]. split; [exact Hmask|].
  destruct Hphi as [H|H]; [left; exact H | right; apply Hp, H].
Qed.

Lemma marks_grow_refl : forall st, marks_grow st st.
Proof. intros st x H. exact H. Qed.

Lemma marks_grow_trans : forall s1 s2 s3,
    marks_grow s1 s2 -> marks_grow s2 s3 -> marks_grow s1 s3.
Proof. intros s1 s2 s3 H1 H2 x H. apply H2, H1, H. Qed.

Lemma marks_grow_set : forall st b v, marks_grow st (latest_set st b v).
Proof.
  intros st b v x H. rewrite is_marked_set, H. apply orb_true_r.
Qed.

Lemma ssa_step_refl : forall p st, ssa_step p st p st.
Proof.
  intros p st. split; [apply marks_grow_refl|].
  split; [intros x _; reflexivity|]. intros pend H. exact H.
Qed.

Lemma ssa_step_trans : forall p1 s1 p2 s2 p3 s3,
    ssa_step p1 s1 p2 s2 -> ssa_step p2 s2 p3 s3 -> ssa_step p1 s1 p3 s3.
Proof.
  intros p1 s1 p2 s2 p3 s3 (Hm1 & Hf1 & Hu1) (Hm2 & Hf2 & Hu2).
  split; [apply (marks_grow_trans _ _ _ Hm1 Hm2)|]. split.
  - intros x Hx. rewrite (Hf2 x (Hm1 x Hx)). apply Hf1, Hx.
  - intros pend H. apply Hu2, Hu1, H.
Qed.

Section StepFacts.

Variable rec : Program -> nat -> ssa_state -> result Operand.
Hypothesis rec_step : forall p q st o p' st',
    rec p q st = Some (o, p', st') -> ssa_step p st p' st'.

Lemma phi_operands_step : forall block res preds i ops p st ops' p' st',
    phi_operands rec block res preds i ops p st = Some (ops', p', st') ->
    marks_grow st st' /\ marked_kept st p p' /\
    forall pend blk,
      pend block res ->
      is_marked st block = true ->
      get_block p block = Some blk ->
      length (linear_predecessors blk) = (i + length preds)%nat ->
      uses_ok pend p st -> uses_ok pend p' st'.
Proof.
  intros block res. induction preds as [|q preds IH];
    intros i ops p st ops' p' st' H; cbn [phi_operands] in H.
  - apply some_inj in H. apply pair_equal_spec in H. destruct H as [H ->].
    apply pair_equal_spec in H. destruct H as [_ ->].
    split; [apply marks_grow_refl|]. split; [intros x _; reflexivity|].
    intros pend blk _ _ _ _ Hu. exact Hu.
  - destruct (rec p q st) as [[[o p1] st1]|] eqn:Er; cbn [bind] in H;
      [|discriminate H].
    destruct (rec_step _ _ _ _ _ _ Er) as (Hm1 & Hf1 & Hu1).
    match type of H with
    | bind ?m _ = _ =>
        destruct m as [st2|] eqn:E2; cbn [bind] in H; [|discriminate H]
    end.
    assert (Hm2 : forall x, is_marked st2 x = is_marked st1 x).
    { intros x. destruct (isTemp o); [|apply some_inj in E2; subst; reflexivity].
      destruct (i <? 64)%nat; [|discriminate E2].
      apply some_inj in E2. subst st2. reflexivity. }
    destruct (IH _ _ _ _ _ _ _ H) as (Hm3 & Hf3 & Hu3).
    split; [|split].
    + intros x Hx. apply Hm3. rewrite Hm2. apply Hm1, Hx.
    + intros x Hx. rewrite Hf3 by (rewrite Hm2; apply Hm1, Hx).
      apply Hf1, Hx.
    + intros pend blk Hpend Hmark Hblk Hlen Hu.
      assert (Hblk1 : get_block p1 block = Some blk)
        by (rewrite (Hf1 _ Hmark); exact Hblk).
      apply (Hu3 pend blk Hpend).
      * rewrite Hm2. apply Hm1, Hmark.
      * exact Hblk1.
      * cbn [length] in Hlen. lia.
      * pose proof (Hu1 pend Hu) as Hu1'.
        destruct (isTemp o); [|apply some_inj in E2; subst; exact Hu1'].
        destruct (i <? 64)%nat; [|discriminate E2].
        apply some_inj in E2. subst st2.
        apply uses_ok_phis_or; [exact Hu1'|].
        split; [apply Hm1, Hmark|]. exists blk. cbn [fst snd].
        split; [exact Hblk1|]. split.
        -- apply mask_below_bit. cbn [length] in Hlen. lia.
        -- right. exact Hpend.
Qed.

End StepFacts.

Lemma get_ssa_step : forall fuel p block st o p' st',
    get_ssa fuel p block st = Some (o, p', st') -> ssa_step p st p' st'.
Proof.
  induction fuel as [|fuel IH]; intros p block st o p' st' H;
    cbn [get_ssa] in H; [discriminate H|].
  destruct (latest_find st block) as [pos|] eqn:El.
  { apply some_inj in H. inversion H. apply ssa_step_refl. }
  destruct (get_block p block) as [blk|] eqn:Hb; cbn [bind] in H;
    [|discriminate H].
  destruct (linear_predecessors blk) as [|q [|q' preds]] eqn:Hp.
  - apply some_inj in H. inversion H. apply ssa_step_refl.
  - apply (IH _ _ _ _ _ _ H).
  - destruct (allocateId p) as [res p0] eqn:Ea.
    match type of H with
    | bind ?m _ = _ =>
        destruct m as [[[ops p1] st1]|] eqn:Eo; cbn [bind] in H; [|discriminate H]
    end.
    destruct (get_block p1 block) as [blk1|] eqn:Hb1; cbn [bind] in H;
      [|discriminate H].
    match type of H with
    | bind ?m _ = _ =>
        destruct m as [p2|] eqn:Es; cbn [bind] in H; [|discriminate H]
    end.
    apply some_inj in H. apply pair_equal_spec in H. destruct H as [H ->].
    apply pair_equal_spec in H. destruct H as [_ ->].
    destruct (phi_operands_step (get_ssa fuel) IH _ _ _ _ _ _ _ _ _ _ Eo)
      as (Hm & Hf & Hu).
    destruct (allocateId_blocks _ _ _ Ea) as [Hblocks _].
    assert (Hg0 : forall x, get_block p0 x = get_block p x)
      by (intros x; unfold get_block; rewrite Hblocks; reflexivity).
    assert (Hunmarked : is_marked st block = false)
      by (unfold is_marked; rewrite El; reflexivity).
    assert (Hmarked : is_marked (latest_set st block res) block = true)
      by (rewrite is_marked_set, Nat.eqb_refl; reflexivity).
    assert (Hblk1 : blk1 = blk).
    { rewrite (Hf _ Hmarked), Hg0, Hb in Hb1. apply some_inj in Hb1.
      symmetry. exact Hb1. }
    subst blk1.
    destruct (set_block_instructions_inv _ _ _ _ Es)
      as (blk0 & Hb0 & Hb2 & Hother & _ & _).
    rewrite Hb1 in Hb0. apply some_inj in Hb0. subst blk0.
    split; [|split].
    + apply (marks_grow_trans _ _ _ (marks_grow_set st block res) Hm).
    + intros x Hx.
      assert (Hne : x <> block) by (intros ->; congruence).
      rewrite (Hother _ Hne). rewrite (Hf x (marks_grow_set _ _ _ _ Hx)).
      apply Hg0.
    + intros pend Hinv.
      set (pend' := fun b d => pend b d \/ (b = block /\ d = res)).
      assert (Hinv' : uses_ok pend' p1 st').
      { apply (Hu pend' blk).
        - right. split; reflexivity.
        - exact Hmarked.
        - rewrite Hg0. exact Hb.
        - rewrite Hp. reflexivity.
        - intros k u Hin. rewrite phis_get_latest_set in Hin.
          apply (use_ok_weaken pend pend' p st).
          + intros b d Hbd. left. exact Hbd.
          + apply marks_grow_set.
          + apply Hg0.
          + apply (Hinv k u Hin). }
      assert (Hlen : length ops = length (linear_predecessors blk)).
      { rewrite (phi_operands_length _ _ _ _ _ _ _ _ _ _ _ Eo), Hp.
        reflexivity. }
      intros k u Hin.
      destruct (Hinv' k u Hin) as (Hmk & blku & Hbu & Hmask & Hphi).
      split; [exact Hmk|].
      destruct (Nat.eq_dec (fst (fst u)) block) as [E|E].
      * rewrite E in *. rewrite Hb1 in Hbu. apply some_inj in Hbu. subst blku.
        eexists. split; [exact Hb2|].
        cbn [linear_predecessors set_instructions].
        split; [exact Hmask|].
        destruct Hphi as [Hphi|[Hphi|[_ Hd]]].
        -- left. apply has_phi_prepend; assumption.
        -- right. exact Hphi.
        -- left. rewrite Hd. apply has_phi_new. exact Hlen.
      * exists blku. rewrite (Hother _ E). split; [exact Hbu|].
        split; [exact Hmask|].
        destruct Hphi as [Hphi|[Hphi|[Hx _]]];
          [left; exact Hphi | right; exact Hphi | contradiction].
Qed.

(** *** The lookups return *)

Lemma filter_length_le : forall (A : Type) (f g : A -> bool) l,
    (forall x, In x l -> f x = true -> g x = true) ->
    (length (filter f l) <= length (filter g l))%nat.
Proof.
  intros A f g. induction l as [|a l IH]; intros H; cbn [filter].
  - lia.
  - assert (IH' := IH (fun x Hx => H x (or_intror Hx))).
    destruct (f a) eqn:Ef.
    + rewrite (H a (or_introl eq_refl) Ef). cbn [length]. lia.
    + destruct (g a); cbn [length]; lia.
Qed.

Lemma filter_length_lt : forall (A : Type) (f g : A -> bool) l x0,
    (forall x, In x l -> f x = true -> g x = true) ->
    In x0 l -> g x0 = true -> f x0 = false ->
    (length (filter f l) < length (filter g l))%nat.
Proof.
  intros A f g. induction l as [|a l IH]; intros x0 H Hin Hg Hf; cbn [filter].
  - destruct Hin.
  - pose proof (filter_length_le A f g l (fun x Hx => H x (or_intror Hx))) as Hle.
    destruct Hin as [->|Hin].
    + rewrite Hf, Hg. cbn [length]. lia.
    + pose proof (IH x0 (fun x Hx => H x (or_intror Hx)) Hin Hg Hf) as Hlt.
      destruct (f a) eqn:Ef.
      * rewrite (H a (or_introl eq_refl) Ef). cbn [length]. lia.
      * destruct (g a); cbn [length]; lia.
Qed.

Lemma get_block_some : forall p b,
    (b < length (blocks p))%nat -> exists blk, get_block p b = Some blk.
Proof.
  intros p b H. unfold get_block.
  destruct (nth_error (blocks p) b) as [blk|] eqn:E; [exists blk; reflexivity|].
  apply nth_error_None in E. lia.
Qed.

Lemma get_block_lt : forall p b blk,
    get_block p b = Some blk -> (b < length (blocks p))%nat.
Proof.
  intros p b blk H. apply nth_error_Some. unfold get_block in H.
  rewrite H. discriminate.
Qed.

(** The blocks of the second program are those of the first. *)
Lemma same_code_back : forall p p' b blk',
    same_code p p' -> get_block p' b = Some blk' ->
    exists blk, get_block p b = Some blk /\
                linear_predecessors blk' = linear_predecessors blk /\
                logical_predecessors blk' = logical_predecessors blk.
Proof.
  intros p p' b blk' [Hlen H] Hb'.
  pose proof (get_block_lt _ _ _ Hb') as Hlt. rewrite Hlen in Hlt.
  destruct (get_block_some _ _ Hlt) as [blk Hb].
  destruct (H b blk Hb) as (blk2 & Hb2 & _ & _ & _ & Hlog & Hlin & _).
  rewrite Hb' in Hb2. apply some_inj in Hb2. subst blk2.
  exists blk. repeat split; assumption.
Qed.

Lemma wf_cfg_same_code : forall p p',
    same_code p p' -> wf_cfg p -> wf_cfg p'.
Proof.
  intros p p' Hs Hwf b blk' Hb'.
  destruct (same_code_back _ _ _ _ Hs Hb') as (blk & Hb & Hlin & _).
  destruct (Hwf b blk Hb) as (H1 & H2 & H3).
  rewrite Hlin, (proj1 Hs). repeat split; assumption.
Qed.

Lemma needs_phi_back : forall p st p' st' x,
    same_code p p' -> marks_grow st st' ->
    needs_phi p' st' x = true -> needs_phi p st x = true.
Proof.
  intros p st p' st' x Hs Hm H. unfold needs_phi in *.
  apply andb_true_iff in H. destruct H as [Hu Hp].
  apply andb_true_iff. split.
  - apply negb_true_iff. apply negb_true_iff in Hu.
    destruct (is_marked st x) eqn:E; [|reflexivity].
    rewrite (Hm x E) in Hu. discriminate Hu.
  - destruct (get_block p' x) as [blk'|] eqn:Hb'; [|discriminate Hp].
    destruct (same_code_back _ _ _ _ Hs Hb') as (blk & Hb & Hlin & _).
    rewrite Hb, <- Hlin. exact Hp.
Qed.

Lemma open_joins_le : forall p st p' st',
    same_code p p' -> marks_grow st st' ->
    (open_joins p' st' <= open_joins p st)%nat.
Proof.
  intros p st p' st' Hs Hm. unfold open_joins. rewrite (proj1 Hs).
  apply filter_length_le. intros x _. apply (needs_phi_back _ _ _ _ _ Hs Hm).
Qed.

Lemma open_joins_lt : forall p st b v blk,
    get_block p b = Some blk ->
    (2 <= length (linear_predecessors blk))%nat ->
    is_marked st b = false ->
    (open_joins p (latest_set st b v) < open_joins p st)%nat.
Proof.
  intros p st b v blk Hb Hlen Hu. unfold open_joins.
  apply (filter_length_lt _ _ _ _ b).
  - intros x _. apply (needs_phi_back p st p (latest_set st b v) x
                         (same_code_refl p) (marks_grow_set st b v)).
  - apply in_seq. pose proof (get_block_lt _ _ _ Hb). lia.
  - unfold needs_phi. rewrite Hu, Hb. cbn [negb andb].
    apply Nat.leb_le. exact Hlen.
  - unfold needs_phi. rewrite is_marked_set, Nat.eqb_refl. reflexivity.
Qed.

Lemma open_joins_bound : forall p st, (open_joins p st <= length (blocks p))%nat.
Proof.
  intros p st. unfold open_joins.
  pose proof (filter_length_le nat (needs_phi p st) (fun _ => true)
                (seq 0 (length (blocks p))) (fun _ _ _ => eq_refl)) as H.
  assert (Hall : forall l : list nat, filter (fun _ => true) l = l)
    by (induction l as [|a l IHl]; cbn [filter]; [|rewrite IHl]; reflexivity).
  rewrite Hall, length_seq in H. exact H.
Qed.

Section Totality.

Variable rec : Program -> nat -> ssa_state -> result Operand.
Variable n bound : nat.
Hypothesis rec_total : forall p q st,
    wf_cfg p -> length (blocks p) = n -> (q < n)%nat ->
    (open_joins p st <= bound)%nat ->
    exists o p' st', rec p q st = Some (o, p', st').
Hypothesis rec_same : forall p q st o p' st',
    rec p q st = Some (o, p', st') -> same_code p p'.
Hypothesis rec_step : forall p q st o p' st',
    rec p q st = Some (o, p', st') -> ssa_step p st p' st'.

Lemma phi_operands_total : forall block res preds i ops p st,
    wf_cfg p -> length (blocks p) = n ->
    (open_joins p st <= bound)%nat ->
    (forall q, In q preds -> (q < n)%nat) ->
    (i + length preds <= 64)%nat ->
    exists ops' p' st',
      phi_operands rec block res preds i ops p st = Some (ops', p', st').
Proof.
  intros block res. induction preds as [|q preds IH];
    intros i ops p st Hwf Hn Hoj Hq Hi; cbn [phi_operands].
  - eexists _, _, _. reflexivity.
  - destruct (rec_total p q st Hwf Hn (Hq q (or_introl eq_refl)) Hoj)
      as (o & p1 & st1 & Er).
    rewrite Er. cbn [bind].
    pose proof (rec_same _ _ _ _ _ _ Er) as Hs.
    destruct (rec_step _ _ _ _ _ _ Er) as (Hm & _).
    pose proof (open_joins_le _ _ _ _ Hs Hm) as Hle.
    cbn [length] in Hi.
    assert (Hi64 : (i <? 64)%nat = true) by (apply Nat.ltb_lt; lia).
    rewrite Hi64.
    assert (Hwf1 : wf_cfg p1) by (apply (wf_cfg_same_code _ _ Hs Hwf)).
    assert (Hn1 : length (blocks p1) = n) by (rewrite (proj1 Hs); exact Hn).
    assert (Hq' : forall q0, In q0 preds -> (q0 < n)%nat)
      by (intros q0 H0; apply Hq; right; exact H0).
    destruct (isTemp o); cbn [bind].
    + apply IH; try assumption; [|lia].
      change (open_joins p1 (phis_or st1 (tempId o) (block, res) i))
        with (open_joins p1 st1). lia.
    + apply IH; try assumption; lia.
Qed.

End Totality.

(** With enough fuel for the joins still open and the chain above the
    block, [get_ssa] returns. *)
Lemma get_ssa_total : forall fuel p b st,
    wf_cfg p -> (b < length (blocks p))%nat ->
    (open_joins p st * S (length (blocks p)) + S b <= fuel)%nat ->
    exists o p' st', get_ssa fuel p b st = Some (o, p', st').
Proof.
  induction fuel as [|fuel IH]; intros p b st Hwf Hb Hfuel; [lia|].
  cbn [get_ssa].
  destruct (latest_find st b) as [pos|] eqn:El.
  { eexists _, _, _. reflexivity. }
  destruct (get_block_some _ _ Hb) as [blk Hblk]. rewrite Hblk. cbn [bind].
  destruct (Hwf b blk Hblk) as (H64 & Hvalid & Hsingle).
  destruct (linear_predecessors blk) as [|q [|q' preds]] eqn:Hp.
  - eexists _, _, _. reflexivity.
  - pose proof (Hsingle q eq_refl) as Hq.
    apply IH; [exact Hwf | lia | lia].
  - destruct (allocateId p) as [res p0] eqn:Ea.
    pose proof (allocateId_same_code _ _ _ Ea) as Hs0.
    assert (Hu : is_marked st b = false)
      by (unfold is_marked; rewrite El; reflexivity).
    assert (Hlt : (open_joins p (latest_set st b res) < open_joins p st)%nat).
    { apply (open_joins_lt _ _ _ _ blk Hblk); [|exact Hu].
      rewrite Hp. cbn [length]. lia. }
    pose proof (open_joins_le p (latest_set st b res) p0 (latest_set st b res)
                  Hs0 (marks_grow_refl _)) as Hle0.
    set (n := length (blocks p)) in *.
    set (bound := (open_joins p st - 1)%nat).
    assert (Hbound : (bound * S n + n <= fuel)%nat).
    { assert (open_joins p st = S bound) by (unfold bound; lia).
      assert (S bound * S n = bound * S n + S n)%nat by lia.
      lia. }
    destruct (phi_operands_total (get_ssa fuel) n bound) with
      (block := b) (res := res) (preds := q :: q' :: preds) (i := O)
      (ops := @nil Operand) (p := p0) (st := latest_set st b res)
      as (ops & p1 & st1 & Eo).
    + intros p' q0 st' Hwf' Hn' Hq0 Hoj'. apply IH; [exact Hwf' | lia |].
      rewrite Hn'.
      assert (open_joins p' st' * S n <= bound * S n)%nat
        by (apply Nat.mul_le_mono_r; exact Hoj').
      lia.
    + apply get_ssa_same_code.
    + apply get_ssa_step.
    + apply (wf_cfg_same_code _ _ Hs0 Hwf).
    + apply (proj1 Hs0).
    + unfold bound. lia.
    + intros q0 Hq0. apply Hvalid. exact Hq0.
    + exact H64.
    + rewrite Eo. cbn [bind].
      pose proof (phi_operands_same_code (get_ssa fuel) (get_ssa_same_code fuel)
                    _ _ _ _ _ _ _ _ _ _ Eo) as Hs1.
      destruct (proj2 (same_code_trans _ _ _ Hs0 Hs1) b blk Hblk)
        as (blk1 & Hb1 & _).
      rewrite Hb1. cbn [bind].
      destruct (set_block_instructions_spec p1 b blk1
                  (linear_phi res ops :: instructions blk1) Hb1)
        as (p2 & Hset & _).
      rewrite Hset. cbn [bind]. eexists _, _, _. reflexivity.
Qed.

Lemma get_ssa_enough : forall fuel p b st,
    wf_cfg p -> (b < length (blocks p))%nat ->
    (enough_fuel p <= fuel)%nat ->
    exists o p' st', get_ssa fuel p b st = Some (o, p', st').
Proof.
  intros fuel p b st Hwf Hb Hfuel. apply get_ssa_total; [exact Hwf | exact Hb |].
  unfold enough_fuel in Hfuel. pose proof (open_joins_bound p st) as Ho.
  assert (open_joins p st * S (length (blocks p))
          <= length (blocks p) * S (length (blocks p)))%nat
    by (apply Nat.mul_le_mono_r; exact Ho).
  lia.
Qed.

(** *** The linear phis are rewritten *)










(** *** The lowering of an edge returns *)





(** A block with a [p_logical_end] has its code before the last one. *)
Lemma logical_end_split : forall l,
    existsb is_logical_end l = true ->
    exists pre e post,
      l = pre ++ e :: post /\ is_logical_end e = true /\
      forallb (fun i => negb (is_logical_end i)) post = true.
Proof.
  induction l as [|x l IH]; intros H; cbn [existsb] in H; [discriminate H|].
  destruct (existsb is_logical_end l) eqn:El.
  - destruct (IH eq_refl) as (pre & e & post & -> & He & Hp).
    exists (x :: pre), e, post. repeat split; assumption.
  - rewrite orb_false_r in H. exists [], x, l.
    split; [reflexivity|]. split; [exact H|].
    clear -El. induction l as [|y l IH]; [reflexivity|].
    cbn [existsb forallb] in *. apply orb_false_iff in El.
    destruct El as [Ey El]. rewrite Ey. cbn [negb andb]. apply IH, El.
Qed.



Lemma nth_error_combine_seq : forall (A : Type) (l : list A) s b x,
    nth_error l b = Some x ->
    nth_error (combine (seq s (length l)) l) b = Some ((s + b)%nat, x).
Proof.
  intros A. induction l as [|y l IH]; intros s b x Hb;
    [destruct b; discriminate Hb|].
  cbn [length seq combine]. destruct b as [|b]; cbn [nth_error] in *.
  - apply some_inj in Hb. subst y. rewrite Nat.add_0_r. reflexivity.
  - rewrite (IH (S s) b x Hb). do 2 f_equal. lia.
Qed.

Lemma check_cfg_spec : forall p, check_cfg p = true -> wf_cfg p.
Proof.
  intros p H b blk Hb. unfold check_cfg in H.
  rewrite forallb_forall in H.
  pose proof (nth_error_In _ _ (nth_error_combine_seq _ _ 0%nat _ _ Hb)) as Hin.
  specialize (H _ Hin). cbn [fst snd Nat.add] in H. unfold wf_block in H.
  apply andb_true_iff in H. destruct H as [H H3].
  apply andb_true_iff in H. destruct H as [H1 H2].
  apply Nat.leb_le in H1. rewrite forallb_forall in H2.
  split; [exact H1|]. split.
  - intros q Hq. apply Nat.ltb_lt, H2, Hq.
  - intros q Hq. rewrite Hq in H3. apply Nat.ltb_lt, H3.
Qed.

Section LoweringReturns.

Variable scc_reg : PhysReg.




End LoweringReturns.

(** *** The code of the edges *)




(** In the same example [get_ssa] finds an accumulator for the second
    predecessor, the block 3, through the linear phi it creates in the
    block 2: the code of this edge is the blend. *)
Lemma second_edge_blends :
  exists copy p' pblk',
    lower_divergent_bool_phi (mkPhysReg 253) (fun _ _ => 12345) 36
      example_diamond 4 example_phi = Some (copy, p') /\
    get_block p' 3 = Some pblk' /\ blends pblk' = true /\
    finds_accumulator 36 example_diamond (mkState [] []) 1 = false.
Proof.
  destruct (lower_divergent_bool_phi (mkPhysReg 253) (fun _ _ => 12345) 36
              example_diamond 4 example_phi) as [[copy p']|] eqn:E;
    [|vm_compute in E; discriminate E].
  destruct (get_block p' 3) as [pblk'|] eqn:Eb;
    [|vm_compute in E; apply some_inj, pair_equal_spec in E;
      destruct E as [_ <-]; vm_compute in Eb; discriminate Eb].
  exists copy, p', pblk'. split; [reflexivity|]. split; [exact Eb|].
  split; [|vm_compute; reflexivity].
  vm_compute in E. apply some_inj, pair_equal_spec in E.
  destruct E as [_ <-]. vm_compute in Eb. apply some_inj in Eb. subst pblk'.
  vm_compute. reflexivity.
Qed.

End BoolPhiLowering.

Section OccupancyLimits.

(** ** The recorded limits and the register bounds *)

Import Liveness.

(** The accumulated demand bounds the demand of every visit, and is one of
    them or the initial 0. *)
Lemma max_demand_fold : forall visits a,
    let r := fold_left (fun acc d => (Z.max (fst acc) (fst d),
                                      Z.max (snd acc) (snd d))) visits a in
    fst a <= fst r /\ snd a <= snd r /\
    (forall d, In d visits -> fst d <= fst r /\ snd d <= snd r) /\
    (fst r = fst a \/ exists d, In d visits /\ fst r = fst d) /\
    (snd r = snd a \/ exists d, In d visits /\ snd r = snd d).
Proof.
  induction visits as [|x visits IH]; intros a; cbn [fold_left].
  - cbn zeta. split; [lia|]. split; [lia|]. split; [intros d []|].
    split; left; reflexivity.
  - specialize (IH (Z.max (fst a) (fst x), Z.max (snd a) (snd x))).
    cbn zeta in IH. cbn [fst snd] in IH.
    destruct IH as (H1 & H2 & H3 & H4 & H5).
    cbn zeta. split; [lia|]. split; [lia|]. split; [|split].
    + intros d [<-|Hd]; [lia|]. apply (H3 d Hd).
    + destruct H4 as [H4|(d & Hd & H4)].
      * destruct (Z.max_spec (fst a) (fst x)) as [[_ E]|[_ E]].
        -- right. exists x. split; [left; reflexivity|exact (eq_trans H4 E)].
        -- left. exact (eq_trans H4 E).
      * right. exists d. split; [right; exact Hd|exact H4].
    + destruct H5 as [H5|(d & Hd & H5)].
      * destruct (Z.max_spec (snd a) (snd x)) as [[_ E]|[_ E]].
        -- right. exists x. split; [left; reflexivity|exact (eq_trans H5 E)].
        -- left. exact (eq_trans H5 E).
      * right. exists d. split; [right; exact Hd|exact H5].
Qed.

(** The limits [occupancy] records, checked on every demand that fits. *)
Lemma limits_checked :
  forallb (fun c =>
    forallb (fun v =>
      forallb (fun s =>
        (s + 2 >? max_addressible_sgpr c)
        || ((v <=? max_vgpr (occupancy c v s))
            && (s <=? max_sgpr (occupancy c v s))
            && (num_waves (occupancy c v s) * max_vgpr (occupancy c v s) <=? 256)
            && (num_waves (occupancy c v s) * (max_sgpr (occupancy c v s) + 2)
                <=? total_sgpr_regs c)
            && (max_sgpr (occupancy c v s) + 2 <=? max_addressible_sgpr c)))
        (map Z.of_nat (seq 0 103)))
      (map Z.of_nat (seq 0 257)))
    all_chips = true.
Proof. vm_compute. reflexivity. Qed.

Lemma limits_hold : forall c v s,
    demand_fits c v s ->
    v <= max_vgpr (occupancy c v s) /\ s <= max_sgpr (occupancy c v s) /\
    num_waves (occupancy c v s) * max_vgpr (occupancy c v s) <= 256 /\
    num_waves (occupancy c v s) * (max_sgpr (occupancy c v s) + 2)
      <= total_sgpr_regs c /\
    max_sgpr (occupancy c v s) + 2 <= max_addressible_sgpr c.
Proof.
  intros c v s (Hv & Hs & Hm).
  pose proof limits_checked as H.
  rewrite forallb_forall in H. specialize (H c (all_chips_complete c)).
  rewrite forallb_forall in H. specialize (H v (in_range 257 v ltac:(lia))).
  rewrite forallb_forall in H.
  assert (Hs' : 0 <= s < Z.of_nat 103)
    by (unfold max_addressible_sgpr in Hm; destruct (chip_ge_VI c); lia).
  specialize (H s (in_range 103 s Hs')).
  apply orb_true_iff in H. destruct H as [H | H].
  - apply Z.gtb_lt in H. lia.
  - rewrite !andb_true_iff, !Z.leb_le in H. tauto.
Qed.

(** X1.  When the demand of every block the analysis visits fits the
    hardware (at most 256 vector registers, scalar demand plus 2 at most the
    highest addressable index), the program gets between 1 and 10 waves,
    the recorded [max_vgpr] and [max_sgpr] cover the demand of every block,
    and that many waves of that size fit the register files:
    [num_waves * max_vgpr <= 256] and
    [num_waves * (max_sgpr + 2) <= total_sgpr_regs]. *)
Theorem occupancy_limits_cover_demand :
  forall c visits,
    (forall d, In d visits -> demand_fits c (fst d) (snd d)) ->
    let p := live_var_analysis c visits in
    1 <= num_waves p <= 10 /\
    (forall d, In d visits -> fst d <= max_vgpr p /\ snd d <= max_sgpr p) /\
    num_waves p * max_vgpr p <= 256 /\
    num_waves p * (max_sgpr p + 2) <= total_sgpr_regs c /\
    max_sgpr p + 2 <= max_addressible_sgpr c.
Proof.
  intros c visits Hall. unfold live_var_analysis.
  destruct (max_demand visits) as [v s] eqn:Em.
  pose proof (max_demand_fold visits (0, 0)) as Hf. cbn zeta in Hf.
  unfold max_demand in Em. rewrite Em in Hf. cbn [fst snd] in Hf.
  destruct Hf as (Hv0 & Hs0 & Hle & Hv & Hs).
  assert (Hm0 : 2 <= max_addressible_sgpr c)
    by (unfold max_addressible_sgpr; destruct (chip_ge_VI c); lia).
  assert (Hfit : demand_fits c v s).
  { unfold demand_fits. split; [|split].
    - destruct Hv as [->|(d & Hd & ->)]; [lia|]. apply (Hall d Hd).
    - exact Hs0.
    - destruct Hs as [->|(d & Hd & ->)]; [lia|]. apply (Hall d Hd). }
  destruct (limits_hold c v s Hfit) as (L1 & L2 & L3 & L4 & L5).
  cbn zeta. split; [apply (fitting_demand_has_waves c v s Hfit)|].
  split; [|split; [exact L3|split; [exact L4|exact L5]]].
  intros d Hd. destruct (Hle d Hd). lia.
Qed.

(** Two blocks on a VI chip. *)
Lemma occupancy_limits_cover_demand_witness :
  let p := live_var_analysis VI [(20, 30); (24, 12)] in
  1 <= num_waves p <= 10 /\
  (forall d, In d [(20, 30); (24, 12)] ->
             fst d <= max_vgpr p /\ snd d <= max_sgpr p) /\
  num_waves p * max_vgpr p <= 256 /\
  num_waves p * (max_sgpr p + 2) <= total_sgpr_regs VI /\
  max_sgpr p + 2 <= max_addressible_sgpr VI.
Proof.
  apply (occupancy_limits_cover_demand VI [(20, 30); (24, 12)]).
  intros d [<-|[<-|[]]]; unfold demand_fits; cbn; lia.
Defined.

(** The waves the bounds of [register_allocation] admit, against the waves
    [occupancy] records, on the chips before VI. *)
Lemma bounds_checked :
  forallb (fun c =>
    forallb (fun v =>
      forallb (fun s =>
        chip_ge_VI c
        || match RegAlloc.register_allocation v s (RegAlloc.mkConfig 0 0) with
           | Some cfg =>
               num_waves (occupancy c v s)
               =? Z.min 10 (Z.min (256 / RegAlloc.num_vgprs cfg)
                                  (total_sgpr_regs c / RegAlloc.num_sgprs cfg))
           | None => false
           end)
        (map Z.of_nat (seq 0 101)))
      (map Z.of_nat (seq 0 257)))
    all_chips = true.
Proof. vm_compute. reflexivity. Qed.

(** X2.  On the chips before VI the register bounds keep the occupancy:
    for a demand within the assertion of [register_allocation], the
    [num_vgprs] and [num_sgprs] it writes to the config admit exactly the
    number of waves that [live_var_analysis] recorded for that demand,
    min(10, 256 / num_vgprs, 512 / num_sgprs). *)
Theorem register_bounds_keep_occupancy :
  forall c vgpr_demand sgpr_demand config,
    chip_ge_VI c = false ->
    0 <= vgpr_demand <= 256 -> 0 <= sgpr_demand <= 100 ->
    exists config',
      RegAlloc.register_allocation vgpr_demand sgpr_demand config = Some config' /\
      num_waves (occupancy c vgpr_demand sgpr_demand)
        = Z.min 10 (Z.min (256 / RegAlloc.num_vgprs config')
                          (512 / RegAlloc.num_sgprs config')).
Proof.
  intros c v s config Hc Hv Hs.
  pose proof bounds_checked as H.
  rewrite forallb_forall in H. specialize (H c (all_chips_complete c)).
  rewrite forallb_forall in H. specialize (H v (in_range 257 v ltac:(lia))).
  rewrite forallb_forall in H. specialize (H s (in_range 101 s ltac:(lia))).
  rewrite Hc in H. cbn [orb] in H.
  unfold RegAlloc.register_allocation in *.
  destruct ((v <=? 256) && (s <=? 100)); [|discriminate H].
  destruct (RegAlloc.register_bounds v s) as [ms mv].
  eexists. split; [reflexivity|].
  apply Z.eqb_eq in H. rewrite H. unfold total_sgpr_regs. rewrite Hc.
  reflexivity.
Qed.

(** 30 vector and 50 scalar registers on an SI chip: 8 waves. *)
Lemma register_bounds_keep_occupancy_witness :
  exists config',
    RegAlloc.register_allocation 30 50 (RegAlloc.mkConfig 0 0) = Some config' /\
    num_waves (occupancy SI 30 50)
      = Z.min 10 (Z.min (256 / RegAlloc.num_vgprs config')
                        (512 / RegAlloc.num_sgprs config')).
Proof.
  apply (register_bounds_keep_occupancy SI 30 50 (RegAlloc.mkConfig 0 0)).
  - reflexivity.
  - lia.
  - lia.
Defined.

End OccupancyLimits.

Section DivergenceVisits.
Local Close Scope Z_scope.

(** ** What the visits of the divergence analysis compute *)

Import Nir.

Section VisitFacts.

Variable num_inputs : nir_op -> nat.
Variable input_sizes : nir_op -> nat -> nat.
Variable has_dest : nir_intrinsic_op -> bool.
Variable num_srcs : nir_intrinsic_op -> nat.
Variable cf : nir_cf.

Local Abbreviation visit_instr := (visit_instr num_inputs input_sizes has_dest num_srcs cf).
Local Abbreviation visit_alu := (visit_alu num_inputs input_sizes).
Local Abbreviation visit_intrinsic := (visit_intrinsic has_dest num_srcs).
Local Abbreviation visit_phi := (visit_phi cf).

Ltac visit_split H :=
  repeat match type of H with
         | bind ?m _ = Some _ =>
             let E := fresh "E" in
             destruct m eqn:E; cbn [bind] in H; [|discriminate H]
         | (if ?c then _ else _) = Some _ =>
             let E := fresh "E" in destruct c eqn:E
         | match ?x with _ => _ end = Some _ =>
             let E := fresh "E" in destruct x eqn:E; try discriminate H
         end;
  try (inversion H; subst; clear H).

(** The three shapes of the result of a visit. *)
Lemma flag_unchanged : forall t : divergence,
    false = true <-> exists v, t v = false /\ t v = true.
Proof.
  intros t. split; [discriminate|].
  intros (v & H0 & H1). rewrite H0 in H1. discriminate H1.
Qed.

Lemma flag_set : forall (t : divergence) d,
    t d = false ->
    true = true <-> exists v, t v = false /\ set t d true v = true.
Proof.
  intros t d Hd. split; [|reflexivity].
  intros _. exists d. split; [exact Hd|apply set_same].
Qed.

Lemma flag_reset : forall (t : divergence) d,
    false = true <-> exists v, t v = false /\ set t d false v = true.
Proof.
  intros t d. split; [discriminate|].
  intros (v & H0 & H1). destruct (Nat.eq_dec v d) as [->|Hne].
  - rewrite set_same in H1. discriminate H1.
  - rewrite set_other in H1 by exact Hne. rewrite H0 in H1. discriminate H1.
Qed.

Lemma parallel_copy_flag : forall es t c t' c',
    visit_parallel_copy_loop t c es = (t', c') ->
    (c' = true <-> c = true \/ exists v, t v = false /\ t' v = true).
Proof.
  induction es as [|e es IH]; intros t c t' c' H;
    cbn [visit_parallel_copy_loop] in H.
  - inversion H; subst. split; [intros Hc; left; exact Hc|].
    intros [Hc|(v & H0 & H1)]; [exact Hc|].
    rewrite H0 in H1. discriminate H1.
  - destruct (t (entry_dest e)) eqn:Ed; [apply (IH _ _ _ _ H)|].
    pose proof (IH _ _ _ _ H) as IH'. clear IH.
    rewrite set_same in IH'.
    split.
    + intros Hc. apply IH' in Hc. destruct Hc as [Hc|(v & H0 & H1)].
      * destruct (t (index (entry_src e))) eqn:Es; [|left; exact Hc].
        right. exists (entry_dest e). split; [exact Ed|].
        apply (parallel_copy_monotone _ _ _ _ _ _ H). apply set_same.
      * right. exists v. split; [|exact H1].
        destruct (Nat.eq_dec v (entry_dest e)) as [->|Hne]; [exact Ed|].
        rewrite set_other in H0 by exact Hne. exact H0.
    + intros [Hc|(v & H0 & H1)]; apply IH'.
      * left. rewrite Hc. destruct (t (index (entry_src e))); reflexivity.
      * destruct (set t (entry_dest e) (t (index (entry_src e))) v) eqn:Ev.
        -- left. destruct (Nat.eq_dec v (entry_dest e)) as [->|Hne].
           ++ rewrite set_same in Ev. rewrite Ev. reflexivity.
           ++ rewrite set_other in Ev by exact Hne.
              rewrite H0 in Ev. discriminate Ev.
        -- right. exists v. split; [exact Ev|exact H1].
Qed.

Lemma visit_flag_spec :
  forall t i t' c,
    visit_instr t i = Some (t', c) ->
    (c = true <-> exists v, t v = false /\ t' v = true).
Proof.
  intros t i t' c H. destruct i; cbn [Nir.visit_instr] in H.
  - unfold Nir.visit_alu in H. visit_split H;
      first [apply flag_unchanged | apply flag_set; assumption | apply flag_reset].
  - unfold Nir.visit_intrinsic in H.
    destruct (has_dest (intrinsic i)); cbn [negb] in H;
      [|inversion H; subst; apply flag_unchanged].
    destruct (t (intrinsic_dest i)) eqn:Ed;
      [inversion H; subst; apply flag_unchanged|].
    match type of H with
    | bind ?m _ = _ => destruct m as [[|]|] eqn:Em; cbn [bind] in H;
                       inversion H; subst
    end; [apply flag_set; assumption | apply flag_reset].
  - unfold visit_tex in H. destruct (t (tex_dest i)) eqn:Ed;
      [inversion H; subst; apply flag_unchanged|].
    inversion H; subst.
    destruct (tex_loop t false (tex_src i));
      [apply flag_set; assumption | apply flag_reset].
  - unfold Nir.visit_phi in H. visit_split H;
      first [apply flag_unchanged | apply flag_set; assumption | apply flag_reset].
  - unfold visit_parallel_copy in H.
    destruct (visit_parallel_copy_loop t false entries) as [t1 c1] eqn:E.
    inversion H; subst.
    rewrite (parallel_copy_flag _ _ _ _ _ E). split.
    + intros [Hc|Hc]; [discriminate Hc|exact Hc].
    + intros Hc. right. exact Hc.
  - unfold visit_load_const in H. inversion H; subst. apply flag_reset.
  - unfold visit_ssa_undef in H. inversion H; subst. apply flag_reset.
  - unfold visit_deref in H.
    destruct (existsb (fun t0 => negb (is_tex t0)) (deref_uses i));
      inversion H; subst; [apply flag_reset|].
    destruct (t (deref_dest i)) eqn:Ed; cbn [negb].
    + split; [discriminate|]. intros (v & H0 & H1).
      destruct (Nat.eq_dec v (deref_dest i)) as [->|Hne].
      * rewrite Ed in H0. discriminate H0.
      * rewrite set_other in H1 by exact Hne. rewrite H0 in H1. discriminate H1.
    + apply flag_set. exact Ed.
  - inversion H; subst. apply flag_unchanged.
  - discriminate H.
Qed.

(** X3.  The flag a visit returns is exact: it is [true] if and only if
    the visit turned a value from uniform to divergent.  The worklist
    loop refills the worklist on this flag. *)
Theorem visit_flag_exact :
  forall t i t' c,
    visit_instr t i = Some (t', c) ->
    (c = true <-> exists v, t v = false /\ t' v = true).
Proof. exact visit_flag_spec. Qed.

(** *** Texture instructions *)

Lemma tex_loop_spec : forall t srcs acc,
    tex_loop t acc srcs = true <->
    acc = true \/
    exists s, In s srcs /\ src_type s = nir_tex_src_coord /\
              t (index (tex_ssa s)) = true.
Proof.
  intros t. induction srcs as [|s srcs IH]; intros acc; cbn [tex_loop].
  - split; [intros H; left; exact H|].
    intros [H|(s & [] & _)]. exact H.
  - destruct (src_type s) eqn:Es; rewrite IH; split.
    + intros [H|(s' & Hin & Hc & Hd)].
      * apply orb_true_iff in H. destruct H as [H|H]; [left; exact H|].
        right. exists s. split; [left; reflexivity|]. split; assumption.
      * right. exists s'. split; [right; exact Hin|]. split; assumption.
    + intros [H|(s' & [<-|Hin] & Hc & Hd)].
      * left. rewrite H. reflexivity.
      * left. rewrite Hd. apply orb_true_r.
      * right. exists s'. split; [exact Hin|]. split; assumption.
    + intros [H|(s' & Hin & Hc & Hd)]; [left; exact H|].
      right. exists s'. split; [right; exact Hin|]. split; assumption.
    + intros [H|(s' & [<-|Hin] & Hc & Hd)]; [left; exact H| |].
      * rewrite Es in Hc. discriminate Hc.
      * right. exists s'. split; [exact Hin|]. split; assumption.
Qed.

Lemma visit_tex_spec :
  forall t instr,
    exists t' c,
      visit_tex t instr = Some (t', c) /\
      (forall v, v <> tex_dest instr -> t' v = t v) /\
      (t' (tex_dest instr) = true <->
       t (tex_dest instr) = true \/
       exists s, In s (tex_src instr) /\ src_type s = nir_tex_src_coord /\
                 t (index (tex_ssa s)) = true).
Proof.
  intros t instr. unfold visit_tex.
  destruct (t (tex_dest instr)) eqn:Ed.
  - exists t, false. split; [reflexivity|]. split; [reflexivity|].
    rewrite Ed. split; [intros _; left; reflexivity|reflexivity].
  - eexists _, _. split; [reflexivity|]. split.
    + intros v Hv. apply set_other. exact Hv.
    + rewrite set_same, tex_loop_spec. split.
      * intros [H|H]; [discriminate H|right; exact H].
      * intros [H|H]; [discriminate H|right; exact H].
Qed.

(** X4.  [visit_tex] always returns and writes the result of the
    instruction only; the result is divergent afterwards if and only if
    it was before or one of the coordinate sources is divergent.  The
    sources of every other type are not looked at. *)
Theorem visit_tex_coordinates :
  forall t instr,
    exists t' c,
      visit_tex t instr = Some (t', c) /\
      (forall v, v <> tex_dest instr -> t' v = t v) /\
      (t' (tex_dest instr) = true <->
       t (tex_dest instr) = true \/
       exists s, In s (tex_src instr) /\ src_type s = nir_tex_src_coord /\
                 t (index (tex_ssa s)) = true).
Proof. exact visit_tex_spec. Qed.

(** *** Intrinsics *)

Lemma ubo_loop_spec : forall t srcs n k,
    (k + n <= length srcs)%nat ->
    exists d,
      ubo_loop t srcs (seq k n) = Some d /\
      (d = true <->
       exists j s, (k <= j < k + n)%nat /\ nth_error srcs j = Some s /\
                   t (index s) = true).
Proof.
  intros t srcs. induction n as [|n IH]; intros k Hk; cbn [seq ubo_loop].
  - exists false. split; [reflexivity|]. split; [discriminate|].
    intros (j & s & Hj & _). lia.
  - destruct (nth_error srcs k) as [s|] eqn:Es.
    2:{ apply nth_error_None in Es. lia. }
    cbn [bind]. destruct (t (index s)) eqn:Ed.
    + exists true. split; [reflexivity|]. split; [|reflexivity].
      intros _. exists k, s. split; [lia|]. split; assumption.
    + destruct (IH (S k) ltac:(lia)) as (d & Hd & Hiff).
      exists d. split; [exact Hd|]. rewrite Hiff. split.
      * intros (j & s' & Hj & Hn & Ht). exists j, s'. split; [lia|].
        split; assumption.
      * intros (j & s' & Hj & Hn & Ht).
        destruct (Nat.eq_dec j k) as [->|Hne].
        -- rewrite Es in Hn. inversion Hn; subst. rewrite Ed in Ht.
           discriminate Ht.
        -- exists j, s'. split; [lia|]. split; assumption.
Qed.

(** X5.  For an intrinsic with a result that is not yet marked
    divergent, [visit_intrinsic] marks the result uniform for the eleven
    intrinsics of its first case list (shader_clock, ballot, the two
    read_invocation, the four votes, reduce, load_push_constant,
    vulkan_resource_index), divergent for load_ubo exactly when one of
    its sources is divergent, and divergent for every other intrinsic;
    the flag it returns is the mark. *)
Theorem visit_intrinsic_classes :
  forall t instr,
    has_dest (intrinsic instr) = true ->
    t (intrinsic_dest instr) = false ->
    (In (intrinsic instr) uniform_intrinsics ->
     visit_intrinsic t instr
       = Some (set t (intrinsic_dest instr) false, false)) /\
    (intrinsic instr = nir_intrinsic_load_ubo ->
     (num_srcs nir_intrinsic_load_ubo <= length (intrinsic_src instr))%nat ->
     exists d,
       visit_intrinsic t instr = Some (set t (intrinsic_dest instr) d, d) /\
       (d = true <->
        exists j s, (j < num_srcs nir_intrinsic_load_ubo)%nat /\
                    nth_error (intrinsic_src instr) j = Some s /\
                    t (index s) = true)) /\
    (~ In (intrinsic instr) uniform_intrinsics ->
     intrinsic instr <> nir_intrinsic_load_ubo ->
     visit_intrinsic t instr
       = Some (set t (intrinsic_dest instr) true, true)).
Proof.
  intros t instr Hd Ht. unfold Nir.visit_intrinsic. rewrite Hd, Ht.
  cbn [negb]. split; [|split].
  - intros Hin. unfold uniform_intrinsics in Hin. cbn [In] in Hin.
    repeat (destruct Hin as [<-|Hin]; [reflexivity|]). destruct Hin.
  - intros Hu Hn. rewrite Hu.
    destruct (ubo_loop_spec t (intrinsic_src instr)
                (num_srcs nir_intrinsic_load_ubo) 0 ltac:(lia))
      as (d & Hl & Hiff).
    exists d. rewrite Hl. cbn [bind]. split; [reflexivity|].
    rewrite Hiff. split; intros (j & s & Hj & H1 & H2); exists j, s;
      (split; [lia|]); split; assumption.
  - intros Hnin Hnu. unfold uniform_intrinsics in Hnin. cbn [In] in Hnin.
    destruct (intrinsic instr); try reflexivity;
      try (exfalso; apply Hnu; reflexivity);
      exfalso; apply Hnin; tauto.
Qed.

End VisitFacts.

(** An interpolated input on the zeroed map: the visit marks its result and
    returns [true]. *)
Lemma visit_flag_exact_witness :
  true = true <->
  exists v, (fun _ : nat => false) v = false /\
            set (fun _ => false) 0 true v = true.
Proof.
  apply (visit_flag_exact (fun _ => 0) (fun _ _ => 0) (fun _ => true)
           (fun _ => 0) example_cf (fun _ => false)
           (instr_intrinsic
              (mkIntrinsic nir_intrinsic_load_interpolated_input 0 []))).
  reflexivity.
Defined.

(** A ballot, a load_ubo of two uniform sources and an interpolated input. *)
Lemma visit_intrinsic_classes_witness :
  let t : divergence := fun _ => false in
  let instr := mkIntrinsic nir_intrinsic_load_ubo 2
                 [mkDef 0 1 nir_instr_type_load_const;
                  mkDef 1 1 nir_instr_type_load_const] in
  (In (intrinsic instr) uniform_intrinsics ->
   visit_intrinsic (fun _ => true) (fun _ => 2) t instr
     = Some (set t (intrinsic_dest instr) false, false)) /\
  (intrinsic instr = nir_intrinsic_load_ubo ->
   (2 <= length (intrinsic_src instr))%nat ->
   exists d,
     visit_intrinsic (fun _ => true) (fun _ => 2) t instr
       = Some (set t (intrinsic_dest instr) d, d) /\
     (d = true <->
      exists j s, (j < 2)%nat /\
                  nth_error (intrinsic_src instr) j = Some s /\
                  t (index s) = true)) /\
  (~ In (intrinsic instr) uniform_intrinsics ->
   intrinsic instr <> nir_intrinsic_load_ubo ->
   visit_intrinsic (fun _ => true) (fun _ => 2) t instr
     = Some (set t (intrinsic_dest instr) true, true)).
Proof.
  intros t instr.
  apply (visit_intrinsic_classes (fun _ => true) (fun _ => 2) t instr);
    reflexivity.
Defined.

(** ** The phis of a loop and the ALU instructions *)

Import Nir.

Section LoopPhis.

Variable cf : nir_cf.

Lemma walk_conditions_spec : forall t chain d,
    walk_conditions cf t chain = Some d ->
    (d = true <->
     exists n, In n (enclosing_ifs cf chain) /\ t (if_condition cf n) = true).
Proof.
  intros t. induction chain as [|current up IH]; intros d H;
    cbn [walk_conditions enclosing_ifs] in *; [discriminate H|].
  destruct (node_type cf current).
  - rewrite (IH d H). reflexivity.
  - destruct (t (if_condition cf current)) eqn:Ec.
    + inversion H; subst. split; [|reflexivity]. intros _.
      exists current. split; [left; reflexivity|exact Ec].
    + rewrite (IH d H). split.
      * intros (n & Hin & Hn). exists n. split; [right; exact Hin|exact Hn].
      * intros (n & [<-|Hin] & Hn); [congruence|].
        exists n. split; assumption.
  - inversion H; subst. split; [discriminate|]. intros (n & [] & _).
  - rewrite (IH d H). reflexivity.
Qed.

Lemma eta_loop_spec : forall t srcs d,
    eta_loop cf t srcs = Some d ->
    (d = true <-> exists s, In s srcs /\ under_divergent_if cf t s).
Proof.
  intros t. induction srcs as [|s srcs IH]; intros d H; cbn [eta_loop] in H.
  - inversion H; subst. split; [discriminate|]. intros (s & [] & _).
  - destruct (parents cf (pred s)) as [|current up] eqn:Ep; [discriminate H|].
    destruct (node_type cf current) eqn:En; try discriminate H.
    destruct (walk_conditions cf t (current :: up)) as [d0|] eqn:Ew;
      cbn [bind] in H; [|discriminate H].
    pose proof (walk_conditions_spec _ _ _ Ew) as Hw.
    destruct d0.
    + inversion H; subst. split; [|reflexivity]. intros _.
      exists s. split; [left; reflexivity|].
      unfold under_divergent_if. rewrite Ep. apply Hw. reflexivity.
    + rewrite (IH d H). split.
      * intros (s' & Hin & Hs'). exists s'. split; [right; exact Hin|exact Hs'].
      * intros (s' & [<-|Hin] & Hs').
        -- unfold under_divergent_if in Hs'. rewrite Ep in Hs'.
           apply Hw in Hs'. discriminate Hs'.
        -- exists s'. split; assumption.
Qed.

Lemma mu_loop_spec : forall t u0 u1 srcs d,
    mu_loop cf t u0 u1 srcs = Some d ->
    (d = true <->
     exists s, In s srcs /\ index (phi_ssa s) <> u0 /\
               index (phi_ssa s) <> u1 /\ under_divergent_if cf t s).
Proof.
  intros t u0 u1. induction srcs as [|s srcs IH]; intros d H;
    cbn [mu_loop] in H.
  - inversion H; subst. split; [discriminate|]. intros (s & [] & _).
  - destruct (Nat.eqb_spec (index (phi_ssa s)) u0) as [E0|E0];
      cbn [orb] in H.
    { rewrite (IH d H). split.
      - intros (s' & Hin & Hs'). exists s'. split; [right; exact Hin|exact Hs'].
      - intros (s' & [<-|Hin] & H0 & Hs'); [contradiction|].
        exists s'. split; [exact Hin|]. split; assumption. }
    destruct (Nat.eqb_spec (index (phi_ssa s)) u1) as [E1|E1].
    { rewrite (IH d H). split.
      - intros (s' & Hin & Hs'). exists s'. split; [right; exact Hin|exact Hs'].
      - intros (s' & [<-|Hin] & H0 & H1 & Hs'); [contradiction|].
        exists s'. split; [exact Hin|]. split; [exact H0|]. split; assumption. }
    destruct (walk_conditions cf t (parents cf (pred s))) as [d0|] eqn:Ew;
      cbn [bind] in H; [|discriminate H].
    pose proof (walk_conditions_spec _ _ _ Ew) as Hw.
    destruct d0.
    + inversion H; subst. split; [|reflexivity]. intros _.
      exists s. split; [left; reflexivity|]. split; [exact E0|].
      split; [exact E1|]. apply Hw. reflexivity.
    + rewrite (IH d H). split.
      * intros (s' & Hin & Hs'). exists s'. split; [right; exact Hin|exact Hs'].
      * intros (s' & [<-|Hin] & H0 & H1 & Hs').
        -- apply Hw in Hs'. discriminate Hs'.
        -- exists s'. split; [exact Hin|]. split; [exact H0|].
           split; assumption.
Qed.

(** The part of [visit_phi] that the three kinds of phis share. *)
Lemma visit_phi_shape : forall t instr t' c,
    visit_phi cf t instr = Some (t', c) ->
    (forall v, v <> phi_dest instr -> t' v = t v) /\
    (t (phi_dest instr) = true -> t' (phi_dest instr) = true) /\
    ((exists s, In s (phi_srcs instr) /\ t (index (phi_ssa s)) = true) ->
     t' (phi_dest instr) = true) /\
    (t (phi_dest instr) = false ->
     (forall s, In s (phi_srcs instr) -> t (index (phi_ssa s)) = false) ->
     (non_undef_count (phi_srcs instr) <= 1 -> t' (phi_dest instr) = false) /\
     (2 <= non_undef_count (phi_srcs instr) ->
      exists d,
        t' (phi_dest instr) = d /\
        match prev cf (phi_block instr) with
        | None =>
            match parents cf (phi_block instr) with
            | loop :: _ =>
                match node_type cf loop, prev cf loop with
                | nir_cf_node_loop, Some before =>
                    match node_type cf before,
                          unconditional_defs (loop_last_block cf loop)
                                             before (phi_srcs instr) with
                    | nir_cf_node_block, [u0; u1] =>
                        mu_loop cf t u0 u1 (phi_srcs instr)
                    | _, _ => None
                    end
                | _, _ => None
                end
            | [] => None
            end
        | Some p =>
            match node_type cf p with
            | nir_cf_node_if => Some (t (if_condition cf p))
            | nir_cf_node_loop => eta_loop cf t (phi_srcs instr)
            | _ => None
            end
        end = Some d)).
Proof.
  intros t instr t' c H. unfold visit_phi in H.
  destruct (t (phi_dest instr)) eqn:Ed.
  { inversion H; subst. split; [reflexivity|]. split; [intros _; exact Ed|].
    split; [intros _; exact Ed|]. intros Hf. discriminate Hf. }
  destruct (phi_scan_spec t (phi_srcs instr) 0) as [[Hs Hex]|[Hs Hall]];
    rewrite Hs in H.
  { inversion H; subst. split; [intros v Hv; apply set_other, Hv|].
    split; [intros Hf; discriminate Hf|].
    split; [intros _; apply set_same|]. intros _ Hnone.
    destruct Hex as (s & Hin & Ht). rewrite (Hnone s Hin) in Ht.
    discriminate Ht. }
  cbn [Nat.add] in H.
  destruct (Nat.leb_spec (non_undef_count (phi_srcs instr)) 1) as [Hle|Hgt].
  { inversion H; subst. split; [reflexivity|].
    split; [intros Hf; discriminate Hf|]. split.
    - intros (s & Hin & Ht). rewrite (Hall s Hin) in Ht. discriminate Ht.
    - intros _ _. split; [intros _; exact Ed|]. intros Hge. lia. }
  match type of H with
  | bind ?m _ = _ => destruct m as [d|] eqn:Em; cbn [bind] in H;
                     [|discriminate H]
  end.
  assert (Ht' : t' = set t (phi_dest instr) d)
    by (destruct d; inversion H; reflexivity).
  subst t'. split; [intros v Hv; apply set_other, Hv|].
  split; [intros Hf; discriminate Hf|]. split.
  - intros (s & Hin & Ht). rewrite (Hall s Hin) in Ht. discriminate Ht.
  - intros _ _. split; [intros Hle; lia|]. intros _.
    exists d. split; [apply set_same|reflexivity].
Qed.

(** X14.  For a phi after a loop (an eta phi), when [visit_phi]
    returns it has written the result of the phi only, and the result is
    divergent afterwards if and only if it was before, or a source is
    divergent, or at least two sources are not undefined and one of the
    sources comes from a block under a divergent condition, an [if]
    between the block and the loop it leaves. *)
Theorem eta_phi_divergent :
  forall t instr p t' c,
    prev cf (phi_block instr) = Some p ->
    node_type cf p = nir_cf_node_loop ->
    visit_phi cf t instr = Some (t', c) ->
    (forall v, v <> phi_dest instr -> t' v = t v) /\
    (t' (phi_dest instr) = true <->
     t (phi_dest instr) = true \/
     (exists s, In s (phi_srcs instr) /\ t (index (phi_ssa s)) = true) \/
     (2 <= non_undef_count (phi_srcs instr) /\
      exists s, In s (phi_srcs instr) /\ under_divergent_if cf t s)).
Proof.
  intros t instr p t' c Hprev Hloop H.
  destruct (visit_phi_shape _ _ _ _ H) as (Hframe & Hkeep & Hsrc & Hrest).
  split; [exact Hframe|]. rewrite Hprev, Hloop in Hrest.
  split.
  - intros Ht'. destruct (t (phi_dest instr)) eqn:Ed; [left; reflexivity|].
    right.
    destruct (existsb (fun s => t (index (phi_ssa s))) (phi_srcs instr))
      eqn:Ee.
    + left. apply existsb_exists in Ee. exact Ee.
    + right.
      assert (Hall : forall s, In s (phi_srcs instr) ->
                               t (index (phi_ssa s)) = false).
      { intros s Hin. destruct (t (index (phi_ssa s))) eqn:Es; [|reflexivity].
        assert (Hx : existsb (fun s => t (index (phi_ssa s))) (phi_srcs instr)
                     = true)
          by (apply existsb_exists; exists s; split; assumption).
        congruence. }
      destruct (Hrest eq_refl Hall) as (Hle & Hge).
      destruct (Nat.leb_spec (non_undef_count (phi_srcs instr)) 1) as [H1|H1].
      * rewrite (Hle H1) in Ht'. discriminate Ht'.
      * split; [exact H1|]. destruct (Hge H1) as (d & Hd & He).
        apply (eta_loop_spec _ _ _ He). congruence.
  - intros [Hd|[Hs|(Hge & Hu)]]; [apply Hkeep, Hd | apply Hsrc, Hs |].
    destruct (t (phi_dest instr)) eqn:Ed; [apply Hkeep; reflexivity|].
    destruct (existsb (fun s => t (index (phi_ssa s))) (phi_srcs instr))
      eqn:Ee.
    + apply Hsrc. apply existsb_exists in Ee. exact Ee.
    + assert (Hall : forall s, In s (phi_srcs instr) ->
                               t (index (phi_ssa s)) = false).
      { intros s Hin. destruct (t (index (phi_ssa s))) eqn:Es; [|reflexivity].
        assert (Hx : existsb (fun s => t (index (phi_ssa s))) (phi_srcs instr)
                     = true)
          by (apply existsb_exists; exists s; split; assumption).
        congruence. }
      destruct (Hrest eq_refl Hall) as (_ & Hge').
      destruct (Hge' Hge) as (d & Hd & He). rewrite Hd.
      apply (eta_loop_spec _ _ _ He). exact Hu.
Qed.

(** X15.  For a phi at a loop header (a mu phi) with its two
    unconditional sources, the value that enters the loop and the value
    of the back-edge, when [visit_phi] returns the result is divergent
    afterwards if and only if it was before, or a source is divergent, or
    at least two sources are not undefined and a source with another
    value than the two unconditional ones comes from a block under a
    divergent condition inside the loop. *)
Theorem mu_phi_divergent :
  forall t instr loop up before u0 u1 t' c,
    prev cf (phi_block instr) = None ->
    parents cf (phi_block instr) = loop :: up ->
    node_type cf loop = nir_cf_node_loop ->
    prev cf loop = Some before ->
    node_type cf before = nir_cf_node_block ->
    unconditional_defs (loop_last_block cf loop) before (phi_srcs instr)
      = [u0; u1] ->
    visit_phi cf t instr = Some (t', c) ->
    (forall v, v <> phi_dest instr -> t' v = t v) /\
    (t' (phi_dest instr) = true <->
     t (phi_dest instr) = true \/
     (exists s, In s (phi_srcs instr) /\ t (index (phi_ssa s)) = true) \/
     (2 <= non_undef_count (phi_srcs instr) /\
      exists s, In s (phi_srcs instr) /\ index (phi_ssa s) <> u0 /\
                index (phi_ssa s) <> u1 /\ under_divergent_if cf t s)).
Proof.
  intros t instr loop up before u0 u1 t' c Hprev Hpar Hloop Hbefore Hblock
    Hunc H.
  destruct (visit_phi_shape _ _ _ _ H) as (Hframe & Hkeep & Hsrc & Hrest).
  split; [exact Hframe|].
  rewrite Hprev, Hpar, Hloop, Hbefore, Hblock, Hunc in Hrest.
  split.
  - intros Ht'. destruct (t (phi_dest instr)) eqn:Ed; [left; reflexivity|].
    right.
    destruct (existsb (fun s => t (index (phi_ssa s))) (phi_srcs instr))
      eqn:Ee.
    + left. apply existsb_exists in Ee. exact Ee.
    + right.
      assert (Hall : forall s, In s (phi_srcs instr) ->
                               t (index (phi_ssa s)) = false).
      { intros s Hin. destruct (t (index (phi_ssa s))) eqn:Es; [|reflexivity].
        assert (Hx : existsb (fun s => t (index (phi_ssa s))) (phi_srcs instr)
                     = true)
          by (apply existsb_exists; exists s; split; assumption).
        congruence. }
      destruct (Hrest eq_refl Hall) as (Hle & Hge).
      destruct (Nat.leb_spec (non_undef_count (phi_srcs instr)) 1) as [H1|H1].
      * rewrite (Hle H1) in Ht'. discriminate Ht'.
      * split; [exact H1|]. destruct (Hge H1) as (d & Hd & He).
        apply (mu_loop_spec _ _ _ _ _ He). congruence.
  - intros [Hd|[Hs|(Hge & Hu)]]; [apply Hkeep, Hd | apply Hsrc, Hs |].
    destruct (t (phi_dest instr)) eqn:Ed; [apply Hkeep; reflexivity|].
    destruct (existsb (fun s => t (index (phi_ssa s))) (phi_srcs instr))
      eqn:Ee.
    + apply Hsrc. apply existsb_exists in Ee. exact Ee.
    + assert (Hall : forall s, In s (phi_srcs instr) ->
                               t (index (phi_ssa s)) = false).
      { intros s Hin. destruct (t (index (phi_ssa s))) eqn:Es; [|reflexivity].
        assert (Hx : existsb (fun s => t (index (phi_ssa s))) (phi_srcs instr)
                     = true)
          by (apply existsb_exists; exists s; split; assumption).
        congruence. }
      destruct (Hrest eq_refl Hall) as (_ & Hge').
      destruct (Hge' Hge) as (d & Hd & He). rewrite Hd.
      apply (mu_loop_spec _ _ _ _ _ He). exact Hu.
Qed.

End LoopPhis.

(** The phi after the loop of the example, under a divergent condition. *)
Lemma eta_phi_divergent_witness :
  let t := set (fun _ => false) 0 true in
  exists t' c,
    visit_phi example_loop_cf t example_eta = Some (t', c) /\
    (forall v, v <> phi_dest example_eta -> t' v = t v) /\
    (t' (phi_dest example_eta) = true <->
     t (phi_dest example_eta) = true \/
     (exists s, In s (phi_srcs example_eta) /\ t (index (phi_ssa s)) = true) \/
     (2 <= non_undef_count (phi_srcs example_eta) /\
      exists s, In s (phi_srcs example_eta) /\
                under_divergent_if example_loop_cf t s)).
Proof.
  intros t. eexists _, _. split; [reflexivity|].
  eapply (eta_phi_divergent example_loop_cf t example_eta 1); reflexivity.
Defined.

(** The phi of the loop header of the example, under a divergent
    condition. *)
Lemma mu_phi_divergent_witness :
  let t := set (fun _ => false) 0 true in
  exists t' c,
    visit_phi example_loop_cf t example_mu = Some (t', c) /\
    (forall v, v <> phi_dest example_mu -> t' v = t v) /\
    (t' (phi_dest example_mu) = true <->
     t (phi_dest example_mu) = true \/
     (exists s, In s (phi_srcs example_mu) /\ t (index (phi_ssa s)) = true) \/
     (2 <= non_undef_count (phi_srcs example_mu) /\
      exists s, In s (phi_srcs example_mu) /\ index (phi_ssa s) <> 1 /\
                index (phi_ssa s) <> 2 /\
                under_divergent_if example_loop_cf t s)).
Proof.
  intros t. eexists _, _. split; [reflexivity|].
  eapply (mu_phi_divergent example_loop_cf t example_mu 1 [9] 0 1 2); reflexivity.
Defined.

(** *** ALU instructions *)

Section AluFacts.

Variable num_inputs : nir_op -> nat.
Variable input_sizes : nir_op -> nat -> nat.

Lemma alu_loop_spec : forall t instr n0 n k,
    op instr = nir_op_other n0 ->
    (k + n <= length (alu_src instr))%nat ->
    exists d,
      alu_loop input_sizes t instr (seq k n) = Some d /\
      (d = true <->
       exists j s, (k <= j < k + n)%nat /\ nth_error (alu_src instr) j = Some s /\
                   t (index (src s)) = true).
Proof.
  intros t instr n0. induction n as [|n IH]; intros k Hop Hk;
    cbn [seq alu_loop].
  - exists false. split; [reflexivity|]. split; [discriminate|].
    intros (j & s & Hj & _). lia.
  - destruct (nth_error (alu_src instr) k) as [s|] eqn:Es.
    2:{ apply nth_error_None in Es. lia. }
    cbn [bind].
    assert (Hd : alu_src_is_divergent t instr s (input_sizes (op instr) k)
                 = Some (t (index (src s)))).
    { unfold alu_src_is_divergent. rewrite Hop.
      destruct (Nat.eqb (input_sizes (nir_op_other n0) k) 1
                && negb (Nat.eqb (num_components (src s)) 1)); reflexivity. }
    rewrite Hd. cbn [bind]. destruct (t (index (src s))) eqn:Ed.
    + exists true. split; [reflexivity|]. split; [|reflexivity].
      intros _. exists k, s. split; [lia|]. split; assumption.
    + destruct (IH (S k) Hop ltac:(lia)) as (d & Hl & Hiff).
      exists d. split; [exact Hl|]. rewrite Hiff. split.
      * intros (j & s' & Hj & Hn & Ht). exists j, s'. split; [lia|].
        split; assumption.
      * intros (j & s' & Hj & Hn & Ht).
        destruct (Nat.eq_dec j k) as [->|Hne].
        -- rewrite Es in Hn. inversion Hn; subst. rewrite Ed in Ht.
           discriminate Ht.
        -- exists j, s'. split; [lia|]. split; assumption.
Qed.

Lemma visit_alu_spec :
  forall t instr n0,
    op instr = nir_op_other n0 ->
    (num_inputs (op instr) <= length (alu_src instr))%nat ->
    exists t' c,
      visit_alu num_inputs input_sizes t instr = Some (t', c) /\
      (forall v, v <> alu_dest instr -> t' v = t v) /\
      (t' (alu_dest instr) = true <->
       t (alu_dest instr) = true \/
       exists j s, (j < num_inputs (op instr))%nat /\
                   nth_error (alu_src instr) j = Some s /\
                   t (index (src s)) = true).
Proof.
  intros t instr n0 Hop Hn. unfold visit_alu.
  destruct (t (alu_dest instr)) eqn:Ed.
  { exists t, false. split; [reflexivity|]. split; [reflexivity|].
    rewrite Ed. split; [intros _; left; reflexivity|reflexivity]. }
  destruct (alu_loop_spec t instr n0 (num_inputs (op instr)) 0 Hop
              ltac:(lia)) as (d & Hl & Hiff).
  rewrite Hl. cbn [bind].
  assert (Hiff' : d = true <->
                  exists j s, (j < num_inputs (op instr))%nat /\
                              nth_error (alu_src instr) j = Some s /\
                              t (index (src s)) = true).
  { rewrite Hiff. split; intros (j & s & Hj & H1 & H2); exists j, s;
      (split; [lia|]); split; assumption. }
  destruct d.
  - eexists _, _. split; [reflexivity|].
    split; [intros v Hv; apply set_other, Hv|].
    rewrite set_same. split; [|reflexivity]. intros _. right.
    apply Hiff'. reflexivity.
  - eexists _, _. split; [reflexivity|].
    split; [intros v Hv; apply set_other, Hv|].
    rewrite set_same. split; [discriminate|].
    intros [Hf|Hex]; [discriminate Hf|]. apply Hiff' in Hex. discriminate Hex.
Qed.

(** X16.  For an ALU instruction other than vec2, vec3 and vec4 that
    has its inputs, [visit_alu] returns and writes the result of the
    instruction only; the result is divergent afterwards if and only if
    it was before or one of the inputs is divergent. *)
Theorem visit_alu_inputs :
  forall t instr n0,
    op instr = nir_op_other n0 ->
    (num_inputs (op instr) <= length (alu_src instr))%nat ->
    exists t' c,
      visit_alu num_inputs input_sizes t instr = Some (t', c) /\
      (forall v, v <> alu_dest instr -> t' v = t v) /\
      (t' (alu_dest instr) = true <->
       t (alu_dest instr) = true \/
       exists j s, (j < num_inputs (op instr))%nat /\
                   nth_error (alu_src instr) j = Some s /\
                   t (index (src s)) = true).
Proof. exact visit_alu_spec. Qed.

End AluFacts.

(** An addition of the values 0 and 1, of which 1 is divergent. *)
Lemma visit_alu_inputs_witness :
  let t := set (fun _ => false) 1 true in
  let instr := mkAlu (nir_op_other 0) 2
                 [mkAluSrc (mkDef 0 1 nir_instr_type_load_const) (fun i => i);
                  mkAluSrc (mkDef 1 1 nir_instr_type_intrinsic) (fun i => i)] in
  exists t' c,
    visit_alu (fun _ => 2) (fun _ _ => 0) t instr = Some (t', c) /\
    (forall v, v <> alu_dest instr -> t' v = t v) /\
    (t' (alu_dest instr) = true <->
     t (alu_dest instr) = true \/
     exists j s, (j < 2)%nat /\ nth_error (alu_src instr) j = Some s /\
                 t (index (src s)) = true).
Proof.
  intros t instr.
  apply (visit_alu_inputs (fun _ => 2) (fun _ _ => 0) t instr 0).
  - reflexivity.
  - cbn. lia.
Defined.

(** ** The iteration of the divergence analysis *)

Import Nir.

Lemma same_marks_refl : forall t, same_marks t t.
Proof. intros t v. reflexivity. Qed.

Lemma same_marks_sym : forall t t', same_marks t t' -> same_marks t' t.
Proof. intros t t' H v. symmetry. apply H. Qed.

Lemma same_marks_trans : forall t1 t2 t3,
    same_marks t1 t2 -> same_marks t2 t3 -> same_marks t1 t3.
Proof. intros t1 t2 t3 H1 H2 v. rewrite (H2 v). apply H1. Qed.

Lemma same_marks_set : forall t t' i b,
    same_marks t t' -> same_marks (set t i b) (set t' i b).
Proof.
  intros t t' i b H v. unfold set. destruct (Nat.eqb v i); [reflexivity|apply H].
Qed.

Section Extensional.

Variable num_inputs : nir_op -> nat.
Variable input_sizes : nir_op -> nat -> nat.
Variable has_dest : nir_intrinsic_op -> bool.
Variable num_srcs : nir_intrinsic_op -> nat.
Variable cf : nir_cf.

Local Abbreviation visit_instr := (visit_instr num_inputs input_sizes has_dest num_srcs cf).
Local Abbreviation visit_block := (visit_block num_inputs input_sizes has_dest num_srcs cf).

Variables t t' : divergence.
Hypothesis Hsame : same_marks t t'.

Lemma alu_loop_ext : forall instr idxs,
    alu_loop input_sizes t' instr idxs = alu_loop input_sizes t instr idxs.
Proof.
  intros instr. induction idxs as [|i idxs IH]; cbn [alu_loop]; [reflexivity|].
  destruct (nth_error (alu_src instr) i) as [s|]; cbn [bind]; [|reflexivity].
  assert (Hd : alu_src_is_divergent t' instr s (input_sizes (op instr) i)
               = alu_src_is_divergent t instr s (input_sizes (op instr) i)).
  { unfold alu_src_is_divergent.
    destruct (Nat.eqb (input_sizes (op instr) i) 1
              && negb (Nat.eqb (num_components (src s)) 1));
      [|rewrite (Hsame _); reflexivity].
    destruct (op instr); try (rewrite (Hsame _); reflexivity);
      destruct (nth_error (alu_src instr) (swizzle s 0)); cbn [bind];
      try reflexivity; rewrite (Hsame _); reflexivity. }
  rewrite Hd, IH. reflexivity.
Qed.

Lemma ubo_loop_ext : forall srcs idxs,
    ubo_loop t' srcs idxs = ubo_loop t srcs idxs.
Proof.
  intros srcs. induction idxs as [|i idxs IH]; cbn [ubo_loop]; [reflexivity|].
  destruct (nth_error srcs i); cbn [bind]; [|reflexivity].
  rewrite (Hsame _), IH. reflexivity.
Qed.

Lemma tex_loop_ext : forall srcs acc,
    tex_loop t' acc srcs = tex_loop t acc srcs.
Proof.
  induction srcs as [|s srcs IH]; intros acc; cbn [tex_loop]; [reflexivity|].
  destruct (src_type s); rewrite ?(Hsame _); apply IH.
Qed.

Lemma phi_scan_ext : forall srcs n, phi_scan t' n srcs = phi_scan t n srcs.
Proof.
  induction srcs as [|s srcs IH]; intros n; cbn [phi_scan]; [reflexivity|].
  rewrite (Hsame _), !IH. reflexivity.
Qed.

Lemma walk_conditions_ext : forall chain,
    walk_conditions cf t' chain = walk_conditions cf t chain.
Proof.
  induction chain as [|c chain IH]; cbn [walk_conditions]; [reflexivity|].
  rewrite (Hsame _), IH. reflexivity.
Qed.

Lemma mu_loop_ext : forall u0 u1 srcs,
    mu_loop cf t' u0 u1 srcs = mu_loop cf t u0 u1 srcs.
Proof.
  intros u0 u1. induction srcs as [|s srcs IH]; cbn [mu_loop]; [reflexivity|].
  rewrite walk_conditions_ext, IH. reflexivity.
Qed.

Lemma eta_loop_ext : forall srcs, eta_loop cf t' srcs = eta_loop cf t srcs.
Proof.
  induction srcs as [|s srcs IH]; cbn [eta_loop]; [reflexivity|].
  rewrite walk_conditions_ext, IH. reflexivity.
Qed.

End Extensional.

Section Iteration.

Variable num_inputs : nir_op -> nat.
Variable input_sizes : nir_op -> nat -> nat.
Variable has_dest : nir_intrinsic_op -> bool.
Variable num_srcs : nir_intrinsic_op -> nat.
Variable cf : nir_cf.

Local Abbreviation visit_instr := (visit_instr num_inputs input_sizes has_dest num_srcs cf).
Local Abbreviation visit_block := (visit_block num_inputs input_sizes has_dest num_srcs cf).
Local Abbreviation analysis_loop := (analysis_loop num_inputs input_sizes has_dest num_srcs cf).
Local Abbreviation nir_divergence_analysis := (nir_divergence_analysis num_inputs input_sizes has_dest num_srcs cf).
Local Abbreviation reached := (reached num_inputs input_sizes has_dest num_srcs cf).
Local Abbreviation defs := (defs has_dest).
Local Abbreviation ssa_form := (ssa_form has_dest).
Local Abbreviation all_defs := (all_defs has_dest).

Lemma same_result_refl_set : forall t t' i b c,
    same_marks t t' -> same_result (Some (set t i b, c)) (Some (set t' i b, c)).
Proof.
  intros t t' i b c H. split; [apply same_marks_set, H|reflexivity].
Qed.

Lemma parallel_copy_ext : forall es t t' c,
    same_marks t t' ->
    same_marks (fst (visit_parallel_copy_loop t c es))
               (fst (visit_parallel_copy_loop t' c es)) /\
    snd (visit_parallel_copy_loop t' c es)
    = snd (visit_parallel_copy_loop t c es).
Proof.
  induction es as [|e es IH]; intros t t' c H;
    cbn [visit_parallel_copy_loop].
  - split; [exact H|reflexivity].
  - rewrite (H (entry_dest e)). destruct (t (entry_dest e)); [apply IH, H|].
    rewrite !set_same, (H (index (entry_src e))).
    apply IH. apply same_marks_set, H.
Qed.

Lemma visit_instr_ext : forall t t' i,
    same_marks t t' -> same_result (visit_instr t i) (visit_instr t' i).
Proof.
  intros t t' i H. destruct i; cbn [Nir.visit_instr].
  - unfold visit_alu. rewrite (H (alu_dest i)).
    destruct (t (alu_dest i)); [split; [exact H|reflexivity]|].
    rewrite (alu_loop_ext input_sizes t t' H).
    destruct (alu_loop input_sizes t i (seq 0 (num_inputs (op i))))
      as [[|]|]; cbn [bind]; try exact I;
      apply same_result_refl_set, H.
  - unfold visit_intrinsic.
    destruct (negb (has_dest (intrinsic i))); [split; [exact H|reflexivity]|].
    rewrite (H (intrinsic_dest i)).
    destruct (t (intrinsic_dest i)); [split; [exact H|reflexivity]|].
    rewrite (ubo_loop_ext t t' H).
    match goal with
    | |- same_result (bind ?m _) _ => destruct m as [d|]; cbn [bind];
                                      [|exact I]
    end.
    apply same_result_refl_set, H.
  - unfold visit_tex. rewrite (H (tex_dest i)).
    destruct (t (tex_dest i)); [split; [exact H|reflexivity]|].
    rewrite (tex_loop_ext t t' H). apply same_result_refl_set, H.
  - unfold visit_phi. rewrite (H (phi_dest i)).
    destruct (t (phi_dest i)); [split; [exact H|reflexivity]|].
    rewrite (phi_scan_ext t t' H).
    destruct (phi_scan t 0 (phi_srcs i)) as [|n];
      [apply same_result_refl_set, H|].
    destruct (n <=? 1)%nat; [split; [exact H|reflexivity]|].
    rewrite (eta_loop_ext cf t t' H).
    assert (Hmu : forall u0 u1 srcs,
               mu_loop cf t' u0 u1 srcs = mu_loop cf t u0 u1 srcs)
      by (apply mu_loop_ext; exact H).
    match goal with
    | |- same_result (bind ?m _) (bind ?m' _) =>
        assert (Hm : m' = m)
    end.
    { destruct (prev cf (phi_block i)) as [p|].
      - destruct (node_type cf p); try reflexivity.
        rewrite (H (if_condition cf p)). reflexivity.
      - destruct (parents cf (phi_block i)) as [|loop up]; [reflexivity|].
        destruct (node_type cf loop); try reflexivity.
        destruct (prev cf loop) as [before|]; [|reflexivity].
        destruct (node_type cf before); try reflexivity.
        destruct (unconditional_defs (loop_last_block cf loop) before
                    (phi_srcs i)) as [|u0 [|u1 [|u2 us]]]; try reflexivity.
        apply Hmu. }
    rewrite Hm.
    match goal with
    | |- same_result (bind ?m _) _ => destruct m as [[|]|]; cbn [bind];
                                      try exact I
    end; apply same_result_refl_set, H.
  - unfold visit_parallel_copy.
    destruct (parallel_copy_ext entries t t' false H) as [H1 H2].
    destruct (visit_parallel_copy_loop t false entries) as [a c].
    destruct (visit_parallel_copy_loop t' false entries) as [a' c'].
    split; [exact H1|exact H2].
  - apply same_result_refl_set, H.
  - apply same_result_refl_set, H.
  - unfold visit_deref.
    destruct (existsb (fun t0 => negb (is_tex t0)) (deref_uses i));
      [apply same_result_refl_set, H|].
    rewrite (H (deref_dest i)). apply same_result_refl_set, H.
  - split; [exact H|reflexivity].
  - exact I.
Qed.

Lemma visit_block_ext : forall instrs t t' c,
    same_marks t t' ->
    same_result (visit_block t c instrs) (visit_block t' c instrs).
Proof.
  induction instrs as [|i instrs IH]; intros t t' c H; cbn [Nir.visit_block].
  - split; [exact H|reflexivity].
  - pose proof (visit_instr_ext t t' i H) as Hi. unfold same_result in Hi.
    destruct (visit_instr t i) as [[a ca]|];
      destruct (visit_instr t' i) as [[a' ca']|]; try contradiction;
      cbn [bind]; [|exact I].
    destruct Hi as [Ha ->]. apply IH, Ha.
Qed.

Variable blocks : list (list nir_instr).
Hypothesis Hssa : ssa_form blocks.

(** A visit in the course of the iteration keeps what is divergent. *)
Lemma visit_keeps_divergent : forall t i t' c v,
    reached blocks t -> In i (concat blocks) ->
    visit_instr t i = Some (t', c) ->
    t v = true -> t' v = true.
Proof.
  intros t i t' c v Hr Hi Hv Ht.
  destruct (visit_monotone_or_uniform _ _ _ _ _ _ _ _ _ _ Hv Ht) as [H|H];
    [exact H|].
  rewrite (reached_uniform_kept _ _ _ _ _ blocks t Hssa Hr i v Hi H) in Ht.
  discriminate Ht.
Qed.

Lemma uniform_count_le : forall (t t' : divergence) ds,
    (forall v, t v = true -> t' v = true) ->
    uniform_count t' ds <= uniform_count t ds.
Proof.
  intros t t' ds H. unfold uniform_count. apply filter_length_le.
  intros x _ Hx. apply negb_true_iff in Hx. apply negb_true_iff.
  destruct (t x) eqn:E; [|reflexivity]. rewrite (H x E) in Hx. discriminate Hx.
Qed.

Lemma uniform_count_lt : forall (t t' : divergence) ds v,
    (forall v, t v = true -> t' v = true) ->
    In v ds -> t v = false -> t' v = true ->
    uniform_count t' ds < uniform_count t ds.
Proof.
  intros t t' ds v H Hin H0 H1. unfold uniform_count.
  apply (filter_length_lt _ _ _ _ v).
  - intros x _ Hx. apply negb_true_iff in Hx. apply negb_true_iff.
    destruct (t x) eqn:E; [|reflexivity]. rewrite (H x E) in Hx.
    discriminate Hx.
  - exact Hin.
  - rewrite H0. reflexivity.
  - rewrite H1. reflexivity.
Qed.

Lemma defs_in_all : forall i v,
    In i (concat blocks) -> In v (defs i) -> In v (all_defs blocks).
Proof.
  intros i v Hi Hv. unfold Nir.all_defs. apply in_concat.
  exists (defs i). split; [apply in_map, Hi|exact Hv].
Qed.

(** One visit: the marks grow, strictly when the flag is set, and stay
    when it is not. *)
Lemma visit_instr_progress : forall t i t' c,
    reached blocks t -> In i (concat blocks) ->
    visit_instr t i = Some (t', c) ->
    (forall v, t v = true -> t' v = true) /\
    (c = true -> uniform_count t' (all_defs blocks)
                 < uniform_count t (all_defs blocks)) /\
    (c = false -> same_marks t t').
Proof.
  intros t i t' c Hr Hi Hv.
  assert (Hm : forall v, t v = true -> t' v = true)
    by (intros v; apply (visit_keeps_divergent _ _ _ _ _ Hr Hi Hv)).
  pose proof (visit_flag_spec _ _ _ _ _ _ _ _ _ Hv) as Hflag.
  split; [exact Hm|]. split.
  - intros Hc. apply Hflag in Hc. destruct Hc as (v & H0 & H1).
    apply (uniform_count_lt _ _ _ v Hm); [|exact H0|exact H1].
    apply (defs_in_all i); [exact Hi|].
    destruct (in_dec Nat.eq_dec v (defs i)) as [Hd|Hd]; [exact Hd|].
    rewrite (visit_writes_defs _ _ _ _ _ _ _ _ _ _ Hv Hd) in H1. congruence.
  - intros Hc v. destruct (t v) eqn:E0; [apply Hm, E0|].
    destruct (t' v) eqn:E1; [|reflexivity].
    assert (Ht : c = true) by (apply Hflag; exists v; split; assumption).
    congruence.
Qed.

Lemma visit_block_progress : forall instrs t c t' c',
    reached blocks t -> incl instrs (concat blocks) ->
    visit_block t c instrs = Some (t', c') ->
    reached blocks t' /\
    uniform_count t' (all_defs blocks) <= uniform_count t (all_defs blocks) /\
    (c' = true -> c = true \/
                  uniform_count t' (all_defs blocks)
                  < uniform_count t (all_defs blocks)) /\
    (c' = false ->
     c = false /\ same_marks t t' /\
     forall i, In i instrs ->
       exists t1, visit_instr t i = Some (t1, false) /\ same_marks t t1).
Proof.
  induction instrs as [|i instrs IH]; intros t c t' c' Hr Hincl H;
    cbn [Nir.visit_block] in H.
  - apply some_inj in H. apply pair_equal_spec in H. destruct H as [<- <-].
    split; [exact Hr|]. split; [lia|]. split; [intros Hc; left; exact Hc|].
    intros Hc. split; [exact Hc|]. split; [apply same_marks_refl|].
    intros i [].
  - destruct (visit_instr t i) as [[t1 c1]|] eqn:E; cbn [bind] in H;
      [|discriminate H].
    assert (Hi : In i (concat blocks)) by (apply Hincl; left; reflexivity).
    assert (Hincl' : incl instrs (concat blocks))
      by (intros x Hx; apply Hincl; right; exact Hx).
    destruct (visit_instr_progress _ _ _ _ Hr Hi E) as (Hm & Hlt & Hsame).
    assert (Hr1 : reached blocks t1)
      by (apply (reached_visit _ _ _ _ _ _ t i t1 c1 Hr Hi E)).
    destruct (IH _ _ _ _ Hr1 Hincl' H) as (Hr' & Hle & Hc' & Hf').
    pose proof (uniform_count_le t t1 (all_defs blocks) Hm) as Hle1.
    split; [exact Hr'|]. split; [lia|]. split.
    + intros Hc. destruct (Hc' Hc) as [Hor|Hlt']; [|right; lia].
      apply orb_true_iff in Hor. destruct Hor as [Hor|Hor];
        [left; exact Hor|]. right. specialize (Hlt Hor). lia.
    + intros Hc. destruct (Hf' Hc) as (Hor & Hs' & Hall).
      apply orb_false_iff in Hor. destruct Hor as [Hc0 Hc1].
      specialize (Hsame Hc1).
      split; [exact Hc0|].
      split; [apply (same_marks_trans _ t1 _ Hsame Hs')|].
      intros x [<-|Hx].
      * exists t1. rewrite <- Hc1. split; [exact E|exact Hsame].
      * destruct (Hall x Hx) as (t2 & Hv2 & Hs2).
        pose proof (visit_instr_ext t1 t x (same_marks_sym _ _ Hsame)) as Hext.
        unfold same_result in Hext. rewrite Hv2 in Hext.
        destruct (visit_instr t x) as [[t3 c3]|]; [|contradiction].
        destruct Hext as [H3 ->]. exists t3. split; [reflexivity|].
        intros v. rewrite (H3 v), (Hs2 v). apply Hsame.
Qed.

(** *** The worklist *)

Lemma add_all_fold : forall l w,
    let w' := fold_left (fun w b => if existsb (Nat.eqb b) w then w else w ++ [b])
                        l w in
    NoDup w -> NoDup w' /\ forall x, In x w' <-> In x w \/ In x l.
Proof.
  induction l as [|b l IH]; intros w; cbn [fold_left]; cbn zeta.
  - intros H. split; [exact H|]. intros x. cbn [In]. tauto.
  - intros Hnd. destruct (existsb (Nat.eqb b) w) eqn:Eb.
    + destruct (IH w Hnd) as (H1 & H2). split; [exact H1|].
      intros x. split.
      * intros Hx. apply H2 in Hx. destruct Hx as [Hx|Hx];
          [left; exact Hx|right; right; exact Hx].
      * intros [Hx|[<-|Hx]]; apply H2;
          [left; exact Hx | | right; exact Hx].
        left. apply existsb_exists in Eb. destruct Eb as (y & Hy & Ey).
        apply Nat.eqb_eq in Ey. subst y. exact Hy.
    + assert (Hnin : ~ In b w).
      { intros Hin. assert (Hx : existsb (Nat.eqb b) w = true).
        { apply existsb_exists. exists b. split; [exact Hin|].
          apply Nat.eqb_refl. }
        congruence. }
      destruct (IH (w ++ [b]) (NoDup_snoc _ _ _ Hnd Hnin)) as (H1 & H2).
      split; [exact H1|]. intros x. split.
      * intros Hx. apply H2 in Hx. destruct Hx as [Hx|Hx];
          [|right; right; exact Hx].
        apply in_app_iff in Hx. destruct Hx as [Hx|[<-|[]]];
          [left; exact Hx|right; left; reflexivity].
      * intros [Hx|[<-|Hx]]; apply H2;
          [left; apply in_app_iff; left; exact Hx
          |left; apply in_app_iff; right; left; reflexivity
          |right; exact Hx].
Qed.

Lemma add_all_spec : forall w n,
    NoDup w -> (forall x, In x w -> x < n) ->
    NoDup (worklist_add_all w n) /\
    (forall x, In x (worklist_add_all w n) <-> x < n) /\
    length (worklist_add_all w n) <= n.
Proof.
  intros w n Hnd Hlt. unfold worklist_add_all.
  destruct (add_all_fold (seq 0 n) w Hnd) as (H1 & H2).
  assert (H3 : forall x, In x (fold_left
              (fun w b => if existsb (Nat.eqb b) w then w else w ++ [b])
              (seq 0 n) w) <-> x < n).
  { intros x. rewrite H2, in_seq. split; [|intros H; right; lia].
    intros [H|H]; [apply Hlt, H|lia]. }
  split; [exact H1|]. split; [exact H3|].
  pose proof (NoDup_incl_length (l' := seq 0 n) H1) as Hl.
  rewrite length_seq in Hl. apply Hl.
  intros x Hx. apply in_seq. apply H3 in Hx. lia.
Qed.

Lemma worklist_length : forall w n,
    NoDup w -> (forall x, In x w -> x < n) -> length w <= n.
Proof.
  intros w n Hnd Hlt.
  pose proof (NoDup_incl_length (l' := seq 0 n) Hnd) as Hl.
  rewrite length_seq in Hl. apply Hl.
  intros x Hx. apply in_seq. specialize (Hlt x Hx). lia.
Qed.

Lemma block_instrs_incl : forall b instrs,
    nth_error blocks b = Some instrs -> incl instrs (concat blocks).
Proof.
  intros b instrs Hb x Hx. apply in_concat. exists instrs.
  split; [apply (nth_error_In _ _ Hb)|exact Hx].
Qed.

(** *** Termination *)

Hypothesis Hvisits : forall t i,
    reached blocks t -> In i (concat blocks) -> visit_instr t i <> None.

Lemma visit_block_total : forall instrs t c,
    reached blocks t -> incl instrs (concat blocks) ->
    exists t' c', visit_block t c instrs = Some (t', c').
Proof.
  induction instrs as [|i instrs IH]; intros t c Hr Hincl;
    cbn [Nir.visit_block]; [eexists _, _; reflexivity|].
  assert (Hi : In i (concat blocks)) by (apply Hincl; left; reflexivity).
  destruct (visit_instr t i) as [[t1 c1]|] eqn:E;
    [|exfalso; apply (Hvisits t i Hr Hi E)].
  cbn [bind]. apply IH.
  - apply (reached_visit _ _ _ _ _ _ t i t1 c1 Hr Hi E).
  - intros x Hx. apply Hincl. right. exact Hx.
Qed.

Lemma analysis_loop_total : forall fuel t w,
    reached blocks t -> NoDup w ->
    (forall x, In x w -> x < length blocks) ->
    uniform_count t (all_defs blocks) * S (length blocks) + length w <= fuel ->
    exists t', analysis_loop fuel blocks t w = Some t'.
Proof.
  induction fuel as [|fuel IH]; intros t w Hr Hnd Hlt Hfuel;
    destruct w as [|b w]; cbn [Nir.analysis_loop];
    try (eexists; reflexivity).
  { cbn [length] in Hfuel. lia. }
  assert (Hb : b < length blocks) by (apply Hlt; left; reflexivity).
  destruct (nth_error blocks b) as [instrs|] eqn:Eb;
    [|apply nth_error_None in Eb; lia].
  cbn [bind].
  pose proof (block_instrs_incl _ _ Eb) as Hincl.
  destruct (visit_block_total instrs t false Hr Hincl) as (t1 & c1 & Ev).
  rewrite Ev. cbn [bind].
  destruct (visit_block_progress _ _ _ _ _ Hr Hincl Ev)
    as (Hr1 & Hle & Hc & _).
  inversion Hnd as [|? ? Hnb Hnd']; subst.
  assert (Hlt' : forall x, In x w -> x < length blocks)
    by (intros x Hx; apply Hlt; right; exact Hx).
  cbn [length] in Hfuel.
  destruct c1.
  - destruct (Hc eq_refl) as [Hf|Hlt1]; [discriminate Hf|].
    destruct (add_all_spec w (length blocks) Hnd' Hlt') as (Ha1 & Ha2 & Ha3).
    apply IH; [exact Hr1 | exact Ha1 | intros x Hx; apply Ha2, Hx |].
    nia.
  - apply IH; [exact Hr1 | exact Hnd' | exact Hlt' |]. nia.
Qed.

(** X17.  On a shader in SSA form whose instructions the visits accept
    (no call, the phis where the control flow has them), the worklist
    loop of [nir_divergence_analysis] ends: the analysis returns a map
    when it may pop (number of definitions + 1) * (number of blocks + 1)
    blocks or more. *)
Theorem nir_divergence_analysis_terminates :
  forall fuel,
    analysis_fuel has_dest blocks <= fuel ->
    exists t, nir_divergence_analysis fuel blocks = Some t.
Proof.
  intros fuel Hfuel. unfold Nir.nir_divergence_analysis.
  destruct (add_all_spec [] (length blocks) (NoDup_nil _)
              (fun x (H : In x []) => match H with end)) as (Ha1 & Ha2 & Ha3).
  apply analysis_loop_total.
  - apply reached_init.
  - exact Ha1.
  - intros x Hx. apply Ha2, Hx.
  - unfold analysis_fuel in Hfuel.
    assert (Hu : uniform_count (fun _ => false) (all_defs blocks)
                 <= length (all_defs blocks)).
    { unfold uniform_count. apply List.filter_length_le. }
    fold (all_defs blocks) in Hfuel. nia.
Qed.

(** *** The result is a fixed point *)

Lemma analysis_loop_stable : forall fuel t w tf,
    analysis_loop fuel blocks t w = Some tf ->
    reached blocks t -> NoDup w ->
    (forall x, In x w -> x < length blocks) ->
    (forall b instrs, nth_error blocks b = Some instrs -> ~ In b w ->
       exists t1, visit_block t false instrs = Some (t1, false) /\
                  same_marks t t1) ->
    reached blocks tf /\
    forall b instrs, nth_error blocks b = Some instrs ->
      exists t1, visit_block tf false instrs = Some (t1, false) /\
                 same_marks tf t1.
Proof.
  induction fuel as [|fuel IH]; intros t w tf H Hr Hnd Hlt Hst;
    destruct w as [|b w]; cbn [Nir.analysis_loop] in H;
    try discriminate H.
  - apply some_inj in H. subst tf. split; [exact Hr|].
    intros b instrs Hb. apply (Hst b instrs Hb). intros [].
  - apply some_inj in H. subst tf. split; [exact Hr|].
    intros b instrs Hb. apply (Hst b instrs Hb). intros [].
  - destruct (nth_error blocks b) as [instrs|] eqn:Eb; cbn [bind] in H;
      [|discriminate H].
    destruct (visit_block t false instrs) as [[t1 c1]|] eqn:Ev;
      cbn [bind] in H; [|discriminate H].
    pose proof (block_instrs_incl _ _ Eb) as Hincl.
    destruct (visit_block_progress _ _ _ _ _ Hr Hincl Ev)
      as (Hr1 & _ & _ & Hf).
    inversion Hnd as [|? ? Hnb Hnd']; subst.
    assert (Hlt' : forall x, In x w -> x < length blocks)
      by (intros x Hx; apply Hlt; right; exact Hx).
    destruct c1.
    + destruct (add_all_spec w (length blocks) Hnd' Hlt') as (Ha1 & Ha2 & _).
      apply (IH _ _ _ H Hr1 Ha1); [intros x Hx; apply Ha2, Hx|].
      intros b' instrs' Hb' Hnin. exfalso. apply Hnin. apply Ha2.
      apply nth_error_Some. congruence.
    + destruct (Hf eq_refl) as (_ & Hsame & _).
      apply (IH _ _ _ H Hr1 Hnd' Hlt').
      intros b' instrs' Hb' Hnin.
      destruct (Nat.eq_dec b' b) as [->|Hne].
      * rewrite Eb in Hb'. apply some_inj in Hb'. subst instrs'.
        pose proof (visit_block_ext instrs t t1 false Hsame) as Hext.
        unfold same_result in Hext. rewrite Ev in Hext.
        destruct (visit_block t1 false instrs) as [[t2 c2]|]; [|contradiction].
        destruct Hext as [H2 ->]. exists t2. split; [reflexivity|exact H2].
      * destruct (Hst b' instrs' Hb') as (t3 & Hv3 & Hs3).
        { intros [Hx|Hx]; [apply Hne; symmetry; exact Hx|exact (Hnin Hx)]. }
        pose proof (visit_block_ext instrs' t t1 false Hsame) as Hext.
        unfold same_result in Hext. rewrite Hv3 in Hext.
        destruct (visit_block t1 false instrs') as [[t4 c4]|]; [|contradiction].
        destruct Hext as [H4 ->]. exists t4. split; [reflexivity|].
        intros v. rewrite (H4 v), (Hs3 v). symmetry. apply Hsame.
Qed.

Lemma analysis_stable : forall fuel t i,
    nir_divergence_analysis fuel blocks = Some t ->
    In i (concat blocks) ->
    exists t', visit_instr t i = Some (t', false) /\ same_marks t t'.
Proof.
  intros fuel t i H Hi. unfold Nir.nir_divergence_analysis in H.
  destruct (add_all_spec [] (length blocks) (NoDup_nil _)
              (fun x (H : In x []) => match H with end)) as (Ha1 & Ha2 & _).
  destruct (analysis_loop_stable _ _ _ _ H (reached_init _ _ _ _ _ _) Ha1)
    as (Hr & Hst).
  - intros x Hx. apply Ha2, Hx.
  - intros b instrs Hb Hnin. exfalso. apply Hnin. apply Ha2.
    apply nth_error_Some. congruence.
  - apply in_concat in Hi. destruct Hi as (instrs & Hin & Hi).
    apply In_nth_error in Hin. destruct Hin as (b & Hb).
    destruct (Hst b instrs Hb) as (t1 & Hv & Hs).
    destruct (visit_block_progress _ _ _ _ _ Hr (block_instrs_incl _ _ Hb) Hv)
      as (_ & _ & _ & Hf).
    destruct (Hf eq_refl) as (_ & _ & Hall). apply (Hall i Hi).
Qed.

(** X18.  The map [nir_divergence_analysis] returns for a shader in SSA
    form is a fixed point of the visits: visiting any instruction of the
    shader again on it returns the flag [false] and leaves every mark as
    it is. *)
Theorem analysis_result_is_fixpoint :
  forall fuel t i,
    nir_divergence_analysis fuel blocks = Some t ->
    In i (concat blocks) ->
    exists t', visit_instr t i = Some (t', false) /\ same_marks t t'.
Proof. exact analysis_stable. Qed.

(** X19.  The result is closed under the data dependences the visits
    follow: in the map returned for a shader in SSA form, the result of
    an ALU instruction (other than vec2, vec3 and vec4, with its inputs)
    with a divergent input is divergent, the result of a phi with a
    divergent source is divergent, and the result of a texture
    instruction with a divergent coordinate is divergent. *)
Theorem analysis_result_closed :
  forall fuel t,
    nir_divergence_analysis fuel blocks = Some t ->
    (forall a n0 j s,
        In (instr_alu a) (concat blocks) ->
        op a = nir_op_other n0 ->
        num_inputs (op a) <= length (alu_src a) ->
        j < num_inputs (op a) -> nth_error (alu_src a) j = Some s ->
        t (index (src s)) = true -> t (alu_dest a) = true) /\
    (forall p s,
        In (instr_phi p) (concat blocks) ->
        In s (phi_srcs p) -> t (index (phi_ssa s)) = true ->
        t (phi_dest p) = true) /\
    (forall x s,
        In (instr_tex x) (concat blocks) ->
        In s (tex_src x) -> src_type s = nir_tex_src_coord ->
        t (index (tex_ssa s)) = true -> t (tex_dest x) = true).
Proof.
  intros fuel t H. split; [|split].
  - intros a n0 j s Hin Hop Hlen Hj Hs Ht.
    destruct (analysis_stable _ _ _ H Hin) as (t' & Hv & Hsame).
    cbn [Nir.visit_instr] in Hv.
    destruct (visit_alu_spec num_inputs input_sizes t a n0 Hop Hlen)
      as (t2 & c2 & Hv2 & _ & Hiff).
    rewrite Hv in Hv2. apply some_inj in Hv2.
    apply pair_equal_spec in Hv2. destruct Hv2 as [<- _].
    rewrite <- (Hsame (alu_dest a)). apply Hiff. right.
    exists j, s. split; [exact Hj|]. split; assumption.
  - intros p s Hin Hs Ht.
    destruct (analysis_stable _ _ _ H Hin) as (t' & Hv & Hsame).
    cbn [Nir.visit_instr] in Hv.
    destruct (visit_phi_shape _ _ _ _ _ Hv) as (_ & _ & Hsrc & _).
    rewrite <- (Hsame (phi_dest p)). apply Hsrc. exists s.
    split; assumption.
  - intros x s Hin Hs Hc Ht.
    destruct (analysis_stable _ _ _ H Hin) as (t' & Hv & Hsame).
    cbn [Nir.visit_instr] in Hv.
    destruct (visit_tex_spec t x) as (t2 & c2 & Hv2 & _ & Hiff).
    rewrite Hv in Hv2. apply some_inj in Hv2.
    apply pair_equal_spec in Hv2. destruct Hv2 as [<- _].
    rewrite <- (Hsame (tex_dest x)). apply Hiff. right.
    exists s. split; [exact Hs|]. split; assumption.
Qed.

(** X20.  In the map returned for a shader in SSA form the value of
    every load_const, of every undef and of every deref with a use
    outside of a texture instruction is uniform. *)
Theorem analysis_result_constants_uniform :
  forall fuel t i d,
    nir_divergence_analysis fuel blocks = Some t ->
    In i (concat blocks) -> written_uniform i d -> t d = false.
Proof.
  intros fuel t i d H Hi Hw. unfold Nir.nir_divergence_analysis in H.
  assert (Hr : reached blocks t).
  { apply (analysis_loop_reached _ _ _ _ _ _ _ _ _ _ H). apply reached_init. }
  exact (reached_uniform_kept _ _ _ _ _ blocks t Hssa Hr i d Hi Hw).
Qed.

End Iteration.

(** The shader of the example is in SSA form and its visits return. *)
Lemma example_shader_ssa : ssa_form (fun _ => true) example_shader.
Proof.
  unfold ssa_form. cbn.
  repeat (constructor; [cbn [In]; intros H; repeat destruct H as [H|H];
                        try discriminate H; try contradiction|]).
  constructor.
Qed.

Lemma example_shader_visits : forall t i,
    In i (concat example_shader) ->
    visit_instr (fun _ => 0) (fun _ _ => 0) (fun _ => true) (fun _ => 0)
                example_cf t i <> None.
Proof.
  intros t i Hi. cbn in Hi.
  destruct Hi as [<-|[<-|[<-|[<-|[]]]]]; cbn [visit_instr].
  - unfold visit_intrinsic. cbn.
    destruct (t 0); discriminate.
  - discriminate.
  - discriminate.
  - unfold visit_phi. cbn.
    destruct (t 3); [discriminate|].
    destruct (t 1); [discriminate|].
    destruct (t 2); discriminate.
Qed.

Lemma nir_divergence_analysis_terminates_witness :
  exists t,
    nir_divergence_analysis (fun _ => 0) (fun _ _ => 0) (fun _ => true)
      (fun _ => 0) example_cf 25 example_shader = Some t.
Proof.
  apply (nir_divergence_analysis_terminates (fun _ => 0) (fun _ _ => 0)
           (fun _ => true) (fun _ => 0) example_cf example_shader
           example_shader_ssa).
  - intros t i _ Hi. apply example_shader_visits, Hi.
  - cbn. lia.
Defined.

Lemma analysis_result_is_fixpoint_witness :
  exists t,
    nir_divergence_analysis (fun _ => 0) (fun _ _ => 0) (fun _ => true)
      (fun _ => 0) example_cf 25 example_shader = Some t /\
    forall i, In i (concat example_shader) ->
      exists t', visit_instr (fun _ => 0) (fun _ _ => 0) (fun _ => true)
                   (fun _ => 0) example_cf t i = Some (t', false) /\
                 same_marks t t'.
Proof.
  eexists. split; [reflexivity|]. intros i Hi.
  apply (analysis_result_is_fixpoint (fun _ => 0) (fun _ _ => 0)
           (fun _ => true) (fun _ => 0) example_cf example_shader
           example_shader_ssa 25); [reflexivity|exact Hi].
Defined.

Lemma analysis_result_closed_witness :
  exists t,
    nir_divergence_analysis (fun _ => 0) (fun _ _ => 0) (fun _ => true)
      (fun _ => 0) example_cf 25 example_shader = Some t /\
    forall p s,
      In (instr_phi p) (concat example_shader) ->
      In s (phi_srcs p) -> t (index (phi_ssa s)) = true ->
      t (phi_dest p) = true.
Proof.
  eexists. split; [reflexivity|].
  apply (analysis_result_closed (fun _ => 0) (fun _ _ => 0)
           (fun _ => true) (fun _ => 0) example_cf example_shader
           example_shader_ssa 25). reflexivity.
Defined.

Lemma analysis_result_constants_uniform_witness :
  exists t,
    nir_divergence_analysis (fun _ => 0) (fun _ _ => 0) (fun _ => true)
      (fun _ => 0) example_cf 25 example_shader = Some t /\
    t 1 = false.
Proof.
  eexists. split; [reflexivity|].
  apply (analysis_result_constants_uniform (fun _ => 0) (fun _ _ => 0)
           (fun _ => true) (fun _ => 0) example_cf example_shader
           example_shader_ssa 25 _ (instr_load_const 1) 1).
  - reflexivity.
  - cbn. tauto.
  - reflexivity.
Defined.

End DivergenceVisits.

Section AssemblerFacts.

(** ** The exports, the patched words and the two assemblers *)

Import Asm.

(** An export that ends the program: [done] and [valid_mask] are set. *)
Lemma find_export_found : forall rl l,
    find_export rl = Found l ->
    exists i m d c,
      In i l /\ format i = Format.EXP /\ payload i = Export_fields m d c true true.
Proof.
  induction rl as [|x rl IH]; intros l H; cbn [find_export] in H;
    [discriminate H|].
  destruct (format x =? Format.EXP) eqn:Ef.
  - destruct (payload x) eqn:Ep; try discriminate H.
    inversion H; subst. eexists _, enabled_mask, dest, compressed.
    split; [left; reflexivity|]. split; [|reflexivity].
    apply Z.eqb_eq. exact Ef.
  - destruct (match definitions x with
              | [] => false
              | d :: _ => reg (def_reg d) =? reg exec
              end); [discriminate H|].
    destruct (aco_opcode.eqb (opcode x) aco_opcode.s_endpgm); [discriminate H|].
    destruct (find_export rl) as [l0| |] eqn:Er; try discriminate H.
    inversion H; subst.
    destruct (IH l0 eq_refl) as (i & m & d & c & Hin & Hf & Hp).
    exists i, m, d, c. split; [right; exact Hin|]. split; assumption.
Qed.

Lemma fix_exports_rev_spec : forall r r',
    fix_exports_rev r = Some r' -> r <> [] ->
    map index r' = map index r /\
    exists blk i m d c,
      In blk r' /\ In i (instructions blk) /\
      format i = Format.EXP /\ payload i = Export_fields m d c true true.
Proof.
  induction r as [|blk r IH]; intros r' H Hne; [contradiction|].
  cbn [fix_exports_rev] in H.
  destruct (rev (instructions blk)) as [|last before] eqn:Erev; [discriminate H|].
  destruct (find_export before) as [before'| |] eqn:Ef.
  - apply some_inj in H. subst r'. split; [reflexivity|].
    destruct (find_export_found _ _ Ef) as (i & m & d & c & Hin & Hf & Hp).
    eexists _, i, m, d, c. split; [left; reflexivity|].
    split; [|split; assumption].
    cbn [set_instructions instructions]. apply in_rev. rewrite rev_involutive.
    right. exact Hin.
  - destruct (fix_exports_rev r) as [r0|] eqn:Er; cbn [bind] in H;
      [|discriminate H].
    apply some_inj in H. subst r'. split.
    + cbn [map set_instructions index]. f_equal.
      destruct r as [|b2 r2].
      * cbn [fix_exports_rev] in Er. apply some_inj in Er. subst r0. reflexivity.
      * apply (IH r0 eq_refl). discriminate.
    + eexists _, null_export, 0, 9, false. split; [left; reflexivity|].
      split; [|split; reflexivity].
      cbn [set_instructions instructions]. unfold vector_insert.
      apply in_or_app. right. left. reflexivity.
  - discriminate H.
Qed.

(** X6.  When [fix_exports] returns on a program with at least one block,
    the program has as many blocks as before, with the same indices, and
    one of them holds an export instruction with [done] and [valid_mask]
    set: the last export it found, or the null export it inserted. *)
Theorem fix_exports_marks_an_export :
  forall blocks blocks',
    fix_exports blocks = Some blocks' -> blocks <> [] ->
    map index blocks' = map index blocks /\
    exists blk i m d c,
      In blk blocks' /\ In i (instructions blk) /\
      format i = Format.EXP /\ payload i = Export_fields m d c true true.
Proof.
  intros blocks blocks' H Hne. unfold fix_exports in H.
  destruct (fix_exports_rev (rev blocks)) as [r|] eqn:E; cbn [bind] in H;
    [|discriminate H].
  apply some_inj in H. subst blocks'.
  assert (Hr : rev blocks <> []).
  { intros Hr. apply (f_equal (@rev Block)) in Hr.
    rewrite rev_involutive in Hr. exact (Hne Hr). }
  destruct (fix_exports_rev_spec _ _ E Hr)
    as (Hidx & blk & i & m & d & c & Hin & Hi & Hf & Hp).
  split.
  - rewrite map_rev, Hidx, <- map_rev, rev_involutive. reflexivity.
  - exists blk, i, m, d, c. split; [apply in_rev in Hin; exact Hin|].
    split; [exact Hi|]. split; assumption.
Qed.

Lemma fix_exports_marks_an_export_witness :
  map index (example_fixed 0) = map index (example_program 0) /\
  exists blk i m d c,
    In blk (example_fixed 0) /\ In i (instructions blk) /\
    format i = Format.EXP /\ payload i = Export_fields m d c true true.
Proof.
  apply (fix_exports_marks_an_export (example_program 0) (example_fixed 0)).
  - reflexivity.
  - discriminate.
Defined.

(** *** The words [fix_branches] patches *)

Lemma shiftr_lor_u16 : forall w x, Z.shiftr (Z.lor w (u16 x)) 16 = Z.shiftr w 16.
Proof.
  intros w x. rewrite Z.shiftr_lor.
  assert (H : Z.shiftr (u16 x) 16 = 0).
  { rewrite Z.shiftr_div_pow2 by lia. apply Z.div_small. unfold u16.
    change (2 ^ 16) with 65536. apply Z.mod_pos_bound. lia. }
  rewrite H. apply Z.lor_0_r.
Qed.

(** X7.  [fix_branches] keeps the number of words; the words at the
    positions that were not recorded for a branch are unchanged, and of a
    recorded branch word only the low 16 bits change. *)
Theorem fix_branches_keeps_code :
  forall hw offs blocks ctx out final,
    emit_blocks hw (mkCtx [] offs) [] blocks = Some (ctx, out) ->
    fix_branches ctx out = Some final ->
    length final = length out /\
    forall k w, nth_error out k = Some w ->
      exists w', nth_error final k = Some w' /\
                 Z.shiftr w' 16 = Z.shiftr w 16 /\
                 (~ In k (map fst (branches ctx)) -> w' = w).
Proof.
  intros hw offs blocks ctx out final He Hf.
  destruct (emit_blocks_grows hw _ _ _ _ _ He (recorded_init offs))
    as ((_ & _ & Hnd & _) & _).
  unfold fix_branches in Hf.
  destruct (fix_branches_loop_spec _ _ _ _ Hf Hnd) as (Hlen & Hother & Hbr).
  split; [exact Hlen|]. intros k w Hk.
  destruct (in_dec Nat.eq_dec k (map fst (branches ctx))) as [Hin|Hnin].
  - apply in_map_iff in Hin. destruct Hin as ([k' t] & Hk' & Hin).
    cbn [fst] in Hk'. subst k'.
    destruct (Hbr k t Hin) as (start & w0 & _ & Hw0 & Hfin).
    rewrite Hk in Hw0. apply some_inj in Hw0. subst w0.
    eexists. split; [exact Hfin|]. split; [apply shiftr_lor_u16|].
    intros Hn. exfalso. apply Hn. apply in_map_iff. exists (k, t).
    split; [reflexivity|exact Hin].
  - exists w. split; [rewrite (Hother k Hnin); exact Hk|].
    split; [reflexivity|]. intros _. reflexivity.
Qed.

Lemma fix_branches_keeps_code_witness :
  exists ctx out final,
    emit_blocks example_opcodes (mkCtx [] [0; 0; 0]) [] (example_fixed 4)
      = Some (ctx, out) /\
    fix_branches ctx out = Some final /\
    length final = length out /\
    forall k w, nth_error out k = Some w ->
      exists w', nth_error final k = Some w' /\
                 Z.shiftr w' 16 = Z.shiftr w 16 /\
                 (~ In k (map fst (branches ctx)) -> w' = w).
Proof.
  destruct (emit_blocks example_opcodes (mkCtx [] [0; 0; 0]) []
              (example_fixed 4)) as [[ctx out]|] eqn:He; [|discriminate He].
  destruct (fix_branches ctx out) as [final|] eqn:Hf.
  - exists ctx, out, final. split; [reflexivity|]. split; [exact Hf|].
    apply (fix_branches_keeps_code example_opcodes [0; 0; 0] (example_fixed 4)
             ctx out final He Hf).
  - exfalso. vm_compute in He. apply some_inj in He.
    apply pair_equal_spec in He. destruct He as [<- <-].
    vm_compute in Hf. discriminate Hf.
Defined.

(** *** Inline constants *)

(** X8.  The register of an inline constant determines the constant: two
    32-bit constants whose operands get the same register, other than the
    register 255 of a literal, are equal. *)
Theorem inline_constant_register_injective :
  forall v w,
    0 <= v < 4294967296 -> 0 <= w < 4294967296 ->
    physReg (Operand_const v) = physReg (Operand_const w) ->
    isLiteral (Operand_const v) = false ->
    v = w.
Proof.
  intros v w Hv Hw Heq Hl.
  unfold isLiteral, isConstant, Operand_const, setFixed, physReg in *.
  cbn [op_reg op_isConst andb] in *.
  apply Z.eqb_neq in Hl.
  assert (Hr : reg (constant_reg v) = reg (constant_reg w))
    by (rewrite Heq; reflexivity).
  clear Heq. unfold constant_reg in *.
  repeat match type of Hl with
         | context [if ?c then _ else _] =>
             let E := fresh "E" in destruct c eqn:E; cbn [reg] in Hl, Hr
         end;
  repeat match type of Hr with
         | context [if ?c then _ else _] =>
             let E := fresh "E" in destruct c eqn:E; cbn [reg] in Hr
         end;
  try (exfalso; apply Hl; reflexivity);
  repeat match goal with
         | H : (_ <=? _) = true |- _ => apply Z.leb_le in H
         | H : (_ <=? _) = false |- _ => apply Z.leb_gt in H
         | H : (_ >=? _) = true |- _ => apply Z.geb_le in H
         | H : (_ >=? _) = false |- _ => rewrite Z.geb_leb in H; apply Z.leb_gt in H
         | H : (_ =? _) = true |- _ => apply Z.eqb_eq in H
         | H : (_ =? _) = false |- _ => apply Z.eqb_neq in H
         end;
  unfold u32 in *; try (Z.div_mod_to_equations; lia).
Qed.

(** The constants -1 and -1. *)
Lemma inline_constant_register_injective_witness :
  reg (physReg (Operand_const 4294967295)) = 193 /\ 4294967295 = 4294967295.
Proof.
  split; [reflexivity|].
  apply (inline_constant_register_injective 4294967295 4294967295);
    try lia; reflexivity.
Defined.

(** *** The older assembler *)

Lemma append_literal_none : forall ops out,
    forallb (fun o => negb (isLiteral o)) ops = true ->
    append_literal out ops = out.
Proof.
  induction ops as [|o ops IH]; intros out H; cbn [append_literal]; [reflexivity|].
  cbn [forallb] in H. apply andb_true_iff in H. destruct H as [Ho H].
  apply negb_true_iff in Ho. rewrite Ho. apply IH, H.
Qed.

Lemma old_append_literal : forall out instr,
    OldAsm.literal_first instr = true ->
    OldAsm.append_literal out instr = Some (append_literal out (operands instr)).
Proof.
  intros out instr H. unfold OldAsm.append_literal, OldAsm.literal_first in *.
  unfold operandCount, getOperand.
  destruct (operands instr) as [|o rest]; [reflexivity|].
  cbn [length nth_error bind append_literal].
  replace (Z.of_nat (S (length rest)) =? 0) with false
    by (symmetry; apply Z.eqb_neq; lia).
  cbn [negb]. apply andb_true_iff in H. destruct H as [Ho Hrest].
  unfold isLiteral, physReg in *.
  destruct (reg (op_reg o) =? 255) eqn:Er; cbn [negb orb] in Ho.
  - rewrite Ho. reflexivity.
  - rewrite andb_false_r. rewrite (append_literal_none _ _ Hrest). reflexivity.
Qed.

Ltac decide_format :=
  repeat match goal with
         | |- context [format ?i =? ?f] =>
             let E := fresh "E" in
             destruct (format i =? f) eqn:E;
             [ try (apply Z.eqb_eq in E;
                    match goal with
                    | H : _ = format i |- _ =>
                        rewrite <- H in E; vm_compute in E; discriminate E
                    end)
             | try (apply Z.eqb_neq in E; exfalso; apply E;
                    match goal with
                    | H : _ = format i |- _ => rewrite <- H; reflexivity
                    end) ]
         end.

Ltac same_words enc :=
  match goal with
  | |- bind ?old _ = _ =>
      change old with enc; destruct enc; cbn [bind keep_ctx option_map snd];
      [apply old_append_literal; assumption | reflexivity]
  end.

(** X9.  The two assemblers of the sources agree where their cases are
    the same: for an instruction of format SOPK, SOP1, VOP1, VOPC, VINTRP,
    EXP or PSEUDO in which only the first operand can be a literal,
    [emit_instruction] of [aco_assembler.cpp] appends the words that the
    newer [emit_instruction] appends, and fails when it does. *)
Theorem assemblers_agree :
  forall hw ctx out instr,
    In (format instr) OldAsm.common_formats ->
    OldAsm.literal_first instr = true ->
    OldAsm.emit_instruction hw out instr
      = option_map snd (emit_instruction hw ctx out instr).
Proof.
  intros hw ctx out instr Hin Hlit.
  unfold OldAsm.emit_instruction, emit_instruction, emit_plain, encode_break,
    breaks.
  cbn [existsb].
  unfold OldAsm.common_formats in Hin. cbn [In] in Hin.
  destruct Hin as [Hf|[Hf|[Hf|[Hf|[Hf|[Hf|[Hf|[]]]]]]]];
    decide_format; cbn [orb].
  - same_words (encode_sopk hw out instr).
  - same_words (encode_sop1 hw out instr).
  - same_words (encode_vop1 hw out instr).
  - same_words (encode_vopc hw out instr).
  - same_words (encode_vintrp hw out instr).
  - same_words (encode_exp out instr).
  - cbn [bind option_map snd]. apply old_append_literal. exact Hlit.
Qed.

(** [s_mov_b32 s0, 0x12345] gets the same two words from both. *)
Lemma assemblers_agree_witness :
  OldAsm.emit_instruction example_opcodes [] example_sop1
    = option_map snd (emit_instruction example_opcodes (mkCtx [] []) []
                        example_sop1).
Proof.
  apply (assemblers_agree example_opcodes (mkCtx [] []) [] example_sop1).
  - right. left. reflexivity.
  - reflexivity.
Defined.

End AssemblerFacts.

Section AccumulatorFacts.

(** ** The accumulator, the insertion point and programs without boolean
    phis *)

Import BoolPhis.

(** *** The lookup of the accumulator *)

Lemma get_ssa_operand : forall fuel p block st o p' st',
    get_ssa fuel p block st = Some (o, p', st') ->
    o = Operand_undef \/ exists id, o = Operand_temp (mkTemp id RegClass.s2).
Proof.
  induction fuel as [|fuel IH]; intros p block st o p' st' H;
    cbn [get_ssa] in H; [discriminate H|].
  destruct (latest_find st block) as [pos|].
  { apply some_inj in H. inversion H. right. exists pos. reflexivity. }
  destruct (get_block p block) as [blk|]; cbn [bind] in H; [|discriminate H].
  destruct (linear_predecessors blk) as [|q [|q' preds]].
  - apply some_inj in H. inversion H. left. reflexivity.
  - apply (IH _ _ _ _ _ _ H).
  - destruct (allocateId p) as [res p0].
    match type of H with
    | bind ?m _ = _ =>
        destruct m as [[[ops p1] st1]|]; cbn [bind] in H; [|discriminate H]
    end.
    destruct (get_block p1 block); cbn [bind] in H; [|discriminate H].
    match type of H with
    | bind ?m _ = _ => destruct m; cbn [bind] in H; [|discriminate H]
    end.
    apply some_inj in H. inversion H. right. exists res. reflexivity.
Qed.

(** X10.  On a control-flow graph that passes [check_cfg], [get_ssa]
    returns for every block of the program when its depth is bounded by
    [enough_fuel] or more.  The operand it returns is undefined or a
    temporary of class [s2], and the program it leaves differs from the
    one it was given in the leading phis of the blocks only. *)
Theorem get_ssa_returns :
  forall fuel p block st,
    check_cfg p = true ->
    (block < length (blocks p))%nat ->
    (enough_fuel p <= fuel)%nat ->
    exists o p' st',
      get_ssa fuel p block st = Some (o, p', st') /\
      (o = Operand_undef \/ exists id, o = Operand_temp (mkTemp id RegClass.s2)) /\
      same_code p p'.
Proof.
  intros fuel p block st Hc Hb Hf.
  destruct (get_ssa_enough fuel p block st (check_cfg_spec p Hc) Hb Hf)
    as (o & p' & st' & H).
  exists o, p', st'. split; [exact H|]. split.
  - apply (get_ssa_operand _ _ _ _ _ _ _ H).
  - apply (get_ssa_same_code _ _ _ _ _ _ _ H).
Qed.

(** The join of the example, with no accumulator written yet. *)
Lemma get_ssa_returns_witness :
  exists o p' st',
    get_ssa 36 example_diamond 4 (mkState [] []) = Some (o, p', st') /\
    (o = Operand_undef \/ exists id, o = Operand_temp (mkTemp id RegClass.s2)) /\
    same_code example_diamond p'.
Proof.
  apply (get_ssa_returns 36 example_diamond 4 (mkState [] [])).
  - reflexivity.
  - cbn. lia.
  - cbn. lia.
Defined.

(** *** A value written is the value read *)

Lemma latest_kept_refl : forall st, latest_kept st st.
Proof. intros st x v H. exact H. Qed.

Lemma latest_kept_trans : forall s1 s2 s3,
    latest_kept s1 s2 -> latest_kept s2 s3 -> latest_kept s1 s3.
Proof. intros s1 s2 s3 H1 H2 x v H. apply H2, H1, H. Qed.

Lemma latest_kept_phis_or : forall st k u i, latest_kept st (phis_or st k u i).
Proof. intros st k u i x v H. exact H. Qed.

Lemma latest_kept_phis_set : forall st k m, latest_kept st (phis_set st k m).
Proof. intros st k m x v H. exact H. Qed.

Section LatestFacts.

Variable rec : Program -> nat -> ssa_state -> result Operand.
Hypothesis rec_kept : forall p q st o p' st',
    rec p q st = Some (o, p', st') -> latest_kept st st'.

Lemma phi_operands_latest : forall block res preds i ops p st ops' p' st',
    phi_operands rec block res preds i ops p st = Some (ops', p', st') ->
    latest_kept st st'.
Proof.
  intros block res. induction preds as [|q preds IH];
    intros i ops p st ops' p' st' H; cbn [phi_operands] in H.
  - apply some_inj in H. apply pair_equal_spec in H. destruct H as [_ ->].
    apply latest_kept_refl.
  - destruct (rec p q st) as [[[o p1] st1]|] eqn:Er; cbn [bind] in H;
      [|discriminate H].
    match type of H with
    | bind ?m _ = _ =>
        destruct m as [st2|] eqn:E2; cbn [bind] in H; [|discriminate H]
    end.
    apply (latest_kept_trans _ st1 _); [apply (rec_kept _ _ _ _ _ _ Er)|].
    apply (latest_kept_trans _ st2 _); [|apply (IH _ _ _ _ _ _ _ H)].
    destruct (isTemp o); [|apply some_inj in E2; subst; apply latest_kept_refl].
    destruct (i <? 64)%nat; [|discriminate E2].
    apply some_inj in E2. subst st2. apply latest_kept_phis_or.
Qed.

Lemma update_operands_latest :
  forall block phi_def k mask bits p st p' st',
    update_operands rec block phi_def k mask bits p st = Some (p', st') ->
    latest_kept st st'.
Proof.
  intros block phi_def k mask. induction bits as [|operand bits IH];
    intros p st p' st' H; cbn [update_operands] in H.
  - apply some_inj in H. apply pair_equal_spec in H. destruct H as [_ ->].
    apply latest_kept_refl.
  - destruct (negb (Z.testbit mask (Z.of_nat operand)));
      [apply (IH _ _ _ _ H)|].
    destruct (get_block p block) as [blk|]; cbn [bind] in H; [|discriminate H].
    destruct (nth_error (linear_predecessors blk) operand) as [q|];
      cbn [bind] in H; [|discriminate H].
    destruct (rec p q st) as [[[o p1] st1]|] eqn:Er; cbn [bind] in H;
      [|discriminate H].
    destruct (get_block p1 block) as [blk1|]; cbn [bind] in H;
      [|discriminate H].
    match type of H with
    | (if ?c then _ else _) = _ => destruct c; [discriminate H|]
    end.
    destruct (nth_error (instructions blk1) k) as [phi|]; cbn [bind] in H;
      [|discriminate H].
    destruct (set_operand phi operand o) as [phi'|]; cbn [bind] in H;
      [|discriminate H].
    destruct (vector_set (instructions blk1) k phi') as [l|]; cbn [bind] in H;
      [|discriminate H].
    destruct (set_block_instructions p1 block l) as [p2|]; cbn [bind] in H;
      [|discriminate H].
    apply (latest_kept_trans _ st1 _); [apply (rec_kept _ _ _ _ _ _ Er)|].
    eapply latest_kept_trans; [|apply (IH _ _ _ _ H)].
    destruct (negb (isUndefined o));
      [apply latest_kept_phis_or | apply latest_kept_refl].
Qed.

End LatestFacts.

Lemma get_ssa_latest : forall fuel p block st o p' st',
    get_ssa fuel p block st = Some (o, p', st') -> latest_kept st st'.
Proof.
  induction fuel as [|fuel IH]; intros p block st o p' st' H;
    cbn [get_ssa] in H; [discriminate H|].
  destruct (latest_find st block) as [pos|] eqn:El.
  { apply some_inj in H. inversion H. apply latest_kept_refl. }
  destruct (get_block p block) as [blk|]; cbn [bind] in H; [|discriminate H].
  destruct (linear_predecessors blk) as [|q [|q' preds]].
  - apply some_inj in H. inversion H. apply latest_kept_refl.
  - apply (IH _ _ _ _ _ _ H).
  - destruct (allocateId p) as [res p0].
    match type of H with
    | bind ?m _ = _ =>
        destruct m as [[[ops p1] st1]|] eqn:Eo; cbn [bind] in H; [|discriminate H]
    end.
    destruct (get_block p1 block); cbn [bind] in H; [|discriminate H].
    match type of H with
    | bind ?m _ = _ => destruct m; cbn [bind] in H; [|discriminate H]
    end.
    apply some_inj in H. apply pair_equal_spec in H. destruct H as [_ ->].
    apply (latest_kept_trans _ (latest_set st block res) _).
    + intros x v Hx. rewrite latest_find_set.
      destruct (Nat.eqb_spec x block) as [->|_]; [congruence|exact Hx].
    + apply (phi_operands_latest (get_ssa fuel) IH _ _ _ _ _ _ _ _ _ _ Eo).
Qed.

Lemma update_phis_latest : forall fuel uses p st p' st',
    update_phis fuel uses p st = Some (p', st') -> latest_kept st st'.
Proof.
  intros fuel. induction uses as [|[[b d] m] uses IH]; intros p st p' st' H;
    cbn [update_phis] in H.
  - apply some_inj in H. apply pair_equal_spec in H. destruct H as [_ ->].
    apply latest_kept_refl.
  - destruct (update_phi fuel p st b d m) as [[p1 st1]|] eqn:E;
      cbn [bind] in H; [|discriminate H].
    apply (latest_kept_trans _ st1 _); [|apply (IH _ _ _ _ H)].
    unfold update_phi in E.
    destruct (get_block p b) as [blk|]; cbn [bind] in E; [|discriminate E].
    destruct (find_phi (instructions blk) d 0) as [k|]; cbn [bind] in E;
      [|discriminate E].
    destruct (nth_error (instructions blk) k); cbn [bind] in E; [|discriminate E].
    match type of E with
    | (if ?c then _ else _) = _ => destruct c; [discriminate E|]
    end.
    apply (update_operands_latest (get_ssa fuel) (get_ssa_latest fuel)
             _ _ _ _ _ _ _ _ _ E).
Qed.

(** X11.  A value written is the value read: after [write_ssa] has given
    the accumulator a new temporary in a block, [get_ssa] on that block
    returns this temporary and leaves the program and the state as they
    are, whatever phis [write_ssa] had to update on the way. *)
Theorem write_ssa_then_get_ssa :
  forall fuel fuel' p block st previous t p' st',
    write_ssa fuel p block st previous = Some (t, p', st') ->
    get_ssa (S fuel') p' block st' = Some (Operand_temp t, p', st').
Proof.
  intros fuel fuel' p block st previous t p' st' H. unfold write_ssa in H.
  destruct (allocateId p) as [id p0].
  match type of H with
  | bind ?m _ = _ =>
      destruct m as [[p1 st1]|] eqn:E; cbn [bind] in H; [|discriminate H]
  end.
  apply some_inj in H. apply pair_equal_spec in H. destruct H as [H ->].
  apply pair_equal_spec in H. destruct H as [<- ->].
  assert (Hl : latest_find st' block = Some id).
  { assert (H0 : latest_find (latest_set st block id) block = Some id)
      by (rewrite latest_find_set, Nat.eqb_refl; reflexivity).
    destruct (negb (previous =? 0)).
    - apply (update_phis_latest _ _ _ _ _ _ E). exact H0.
    - apply some_inj in E. apply pair_equal_spec in E. destruct E as [_ <-].
      exact H0. }
  cbn [get_ssa]. rewrite Hl. reflexivity.
Qed.

(** The first value written in the block 1 of the example. *)
Lemma write_ssa_then_get_ssa_witness :
  exists t p' st',
    write_ssa 36 example_diamond 1 (mkState [] []) 0 = Some (t, p', st') /\
    get_ssa 1 p' 1 st' = Some (Operand_temp t, p', st').
Proof.
  eexists _, _, _. split; [reflexivity|].
  apply (write_ssa_then_get_ssa 36 0 example_diamond 1 (mkState [] []) 0).
  reflexivity.
Defined.

(** *** The insertion point *)

Lemma rev_cons_split : forall (A : Type) (l : list A) x r,
    rev l = x :: r -> l = rev r ++ [x].
Proof.
  intros A l x r H. apply (f_equal (@rev A)) in H.
  rewrite rev_involutive in H. exact H.
Qed.

(** X12.  [insert_before_logical_end] fails on an empty block, and on an
    empty block only.  In a block with a [p_logical_end] the instruction
    goes right before the last one; in a block without, it goes before the
    last instruction when that is a branch and to the end of the block
    otherwise.  The other instructions keep their order. *)
Theorem insert_before_logical_end_places :
  forall l x,
    (l = [] /\ insert_before_logical_end l x = None) \/
    exists pre post,
      l = pre ++ post /\
      insert_before_logical_end l x = Some (pre ++ x :: post) /\
      ((exists e rest,
          post = e :: rest /\ is_logical_end e = true /\
          forallb (fun i => negb (is_logical_end i)) rest = true) \/
       (existsb is_logical_end l = false /\
        exists br, post = [br] /\ format br = Format.PSEUDO_BRANCH) \/
       (existsb is_logical_end l = false /\ post = [] /\
        exists last, l = removelast l ++ [last] /\
                     format last <> Format.PSEUDO_BRANCH)).
Proof.
  intros l x. destruct l as [|a0 l0]; [left; split; reflexivity|].
  right. remember (a0 :: l0) as l eqn:Hl0.
  assert (Hne : l <> []) by (subst l; discriminate). clear Hl0.
  destruct (existsb is_logical_end l) eqn:Ee.
  - destruct (logical_end_split l Ee) as (pre & e & post & -> & He & Hpost).
    exists pre, (e :: post). split; [reflexivity|].
    split; [apply insert_before_logical_end_spec; assumption|].
    left. exists e, post. split; [reflexivity|]. split; assumption.
  - assert (Hnone : last_logical_end l = None).
    { apply last_logical_end_none. clear Hne.
      induction l as [|a l IH]; [reflexivity|]. cbn [existsb forallb] in *.
      apply orb_false_iff in Ee. destruct Ee as [Ea El].
      rewrite Ea. cbn [negb andb]. apply IH, El. }
    unfold insert_before_logical_end, insert_before_branch. rewrite Hnone.
    destruct (rev l) as [|last r] eqn:Er.
    { exfalso. apply Hne. apply (f_equal (@rev Instruction)) in Er.
      rewrite rev_involutive in Er. exact Er. }
    pose proof (rev_cons_split _ _ _ _ Er) as Hl.
    destruct (format last =? Format.PSEUDO_BRANCH) eqn:Ef.
    + exists (rev r), [last]. split; [exact Hl|]. split.
      * f_equal. rewrite Hl at 1 2. rewrite length_app. cbn [length].
        replace (length (rev r) + 1 - 1)%nat with (length (rev r)) by lia.
        apply vector_insert_app.
      * right. left. split; [reflexivity|]. exists last.
        split; [reflexivity|]. apply Z.eqb_eq. exact Ef.
    + exists l, []. split; [rewrite app_nil_r; reflexivity|].
      split; [reflexivity|]. right. right. split; [reflexivity|].
      split; [reflexivity|]. exists last. split.
      * rewrite Hl at 2. rewrite Hl at 1. rewrite removelast_last. reflexivity.
      * apply Z.eqb_neq. exact Ef.
Qed.

(** *** Programs without boolean phis *)

Lemma put_block_same : forall bs b blk,
    nth_error bs b = Some blk -> put_block bs b blk = bs.
Proof.
  induction bs as [|x bs IH]; intros b blk H; destruct b as [|b];
    cbn in H; try discriminate H.
  - apply some_inj in H. subst. reflexivity.
  - unfold put_block in *. cbn [firstn skipn app]. f_equal. apply IH, H.
Qed.

Lemma put_block_nth : forall bs b blk,
    (b < length bs)%nat -> nth_error (put_block bs b blk) b = Some blk.
Proof.
  intros bs b blk H. unfold put_block.
  rewrite nth_error_app2 by (rewrite length_firstn; lia).
  rewrite length_firstn.
  replace (b - Nat.min b (length bs))%nat with O by lia. reflexivity.
Qed.

Lemma put_block_twice : forall bs b x y,
    (b < length bs)%nat -> put_block (put_block bs b x) b y = put_block bs b y.
Proof.
  intros bs b x y H. unfold put_block.
  assert (Hf : length (firstn b bs) = b) by (rewrite length_firstn; lia).
  rewrite firstn_app, Hf, Nat.sub_diag. cbn [firstn].
  rewrite app_nil_r, firstn_firstn, Nat.min_id. f_equal. f_equal.
  replace (S b) with (length (firstn b bs) + 1)%nat at 1 by lia.
  rewrite skipn_app. rewrite skipn_all2 by lia.
  replace (length (firstn b bs) + 1 - length (firstn b bs))%nat with 1%nat by lia.
  reflexivity.
Qed.

Lemma put_block_length : forall bs b blk,
    (b < length bs)%nat -> length (put_block bs b blk) = length bs.
Proof.
  intros bs b blk H. unfold put_block.
  rewrite length_app, length_firstn. cbn [length]. rewrite length_skipn. lia.
Qed.

Lemma set_block_put : forall p b blk l,
    get_block p b = Some blk ->
    set_block_instructions p b l
    = Some (mkProgram (put_block (blocks p) b (set_instructions l blk))
                      (allocationID p)).
Proof.
  intros p b blk l H. unfold set_block_instructions. rewrite H. cbn [bind].
  unfold vector_set.
  assert (Hlt : (b < length (blocks p))%nat).
  { apply nth_error_Some. unfold get_block in H. congruence. }
  apply Nat.ltb_lt in Hlt. rewrite Hlt. reflexivity.
Qed.

Lemma set_instructions_twice : forall l l' blk,
    set_instructions l (set_instructions l' blk) = set_instructions l blk.
Proof. reflexivity. Qed.

Lemma set_instructions_same : forall blk,
    set_instructions (instructions blk) blk = blk.
Proof. intros []. reflexivity. Qed.

Section NothingToLower.

Variable scc_reg : PhysReg.
Variable uninit : Instruction -> nat -> Z.
Variable fuel : nat.

(** The first loop puts the leading phis back into the block. *)
Lemma lower_block_phis_keeps : forall block instrs p blk,
    get_block p block = Some blk ->
    forallb (fun i => negb (aco_opcode.eqb (opcode i) aco_opcode.p_phi)
                      || (negb (length (definitions i) =? 0)%nat
                          && negb (is_bool_phi i)))
            (leading_phis instrs) = true ->
    lower_block_phis scc_reg uninit fuel block instrs [] p
    = Some (strip_phis instrs, [],
            mkProgram (put_block (blocks p) block
                         (set_instructions
                            (instructions blk ++ leading_phis instrs) blk))
                      (allocationID p)).
Proof.
  intros block. induction instrs as [|phi rest IH]; intros p blk Hb Hl.
  - cbn [lower_block_phis strip_phis leading_phis]. rewrite app_nil_r.
    rewrite set_instructions_same, (put_block_same _ _ _ Hb).
    destruct p. reflexivity.
  - cbn [lower_block_phis strip_phis leading_phis] in *.
    destruct (is_phi phi) eqn:Ep; cbn [negb].
    2:{ rewrite app_nil_r.
        rewrite set_instructions_same, (put_block_same _ _ _ Hb).
        destruct p. reflexivity. }
    cbn [forallb] in Hl. apply andb_true_iff in Hl. destruct Hl as [Hphi Hl].
    assert (Hlow :
      (if aco_opcode.eqb (opcode phi) aco_opcode.p_phi
       then d <- getDefinition phi 0 ;;
            Some (RegClass.eqb (reg_class (def_temp d)) RegClass.s2)
       else Some false) = Some false).
    { unfold is_bool_phi in Hphi.
      destruct (aco_opcode.eqb (opcode phi) aco_opcode.p_phi);
        [|reflexivity].
      cbn [negb orb andb] in Hphi. unfold getDefinition in *.
      destruct (definitions phi) as [|d ds]; [discriminate Hphi|].
      cbn [nth_error bind length Nat.eqb negb andb] in *.
      apply negb_true_iff in Hphi. rewrite Hphi. reflexivity. }
    rewrite Hlow. cbn [bind]. rewrite Hb. cbn [bind].
    rewrite (set_block_put _ _ _ _ Hb). cbn [bind].
    assert (Hlt : (block < length (blocks p))%nat).
    { apply nth_error_Some. unfold get_block in Hb. congruence. }
    erewrite IH.
    + cbn [blocks allocationID]. rewrite put_block_twice by exact Hlt.
      rewrite set_instructions_twice.
      cbn [instructions set_instructions].
      replace ((instructions blk ++ [phi]) ++ leading_phis rest)
        with (instructions blk ++ phi :: leading_phis rest)
        by (rewrite <- app_assoc; reflexivity).
      reflexivity.
    + unfold get_block. cbn [blocks]. apply put_block_nth. exact Hlt.
    + exact Hl.
Qed.

Lemma lower_blocks_keeps : forall bs p,
    (forall b, In b bs ->
       exists blk, get_block p b = Some blk /\
                   phis_lead (instructions blk) = true) ->
    lower_blocks scc_reg uninit fuel bs p = Some p.
Proof.
  induction bs as [|block bs IH]; intros p Hall; cbn [lower_blocks];
    [reflexivity|].
  destruct (Hall block (or_introl eq_refl)) as (blk & Hb & Hl).
  rewrite Hb. cbn [bind]. rewrite (set_block_put _ _ _ _ Hb). cbn [bind].
  assert (Hlt : (block < length (blocks p))%nat).
  { apply nth_error_Some. unfold get_block in Hb. congruence. }
  unfold phis_lead in Hl. apply andb_true_iff in Hl.
  destruct Hl as [Hstrip Hlead].
  erewrite lower_block_phis_keeps;
    [| unfold get_block; cbn [blocks]; apply put_block_nth; exact Hlt
     | exact Hlead ].
  cbn [bind existsb orb].
  assert (Hno : existsb is_phi (strip_phis (instructions blk)) = false).
  { clear - Hstrip. induction (strip_phis (instructions blk)) as [|a l IH];
      [reflexivity|]. cbn [forallb existsb] in *.
    apply andb_true_iff in Hstrip. destruct Hstrip as [Ha Hl].
    apply negb_true_iff in Ha. rewrite Ha. apply IH, Hl. }
  rewrite Hno.
  cbn [blocks allocationID]. rewrite put_block_twice by exact Hlt.
  unfold get_block at 1. cbn [blocks].
  rewrite put_block_nth by exact Hlt. cbn [bind].
  erewrite set_block_put;
    [| unfold get_block; cbn [blocks]; apply put_block_nth; exact Hlt ].
  cbn [bind blocks allocationID]. rewrite put_block_twice by exact Hlt.
  rewrite !set_instructions_twice. cbn [instructions set_instructions app].
  rewrite <- leading_strip, set_instructions_same, (put_block_same _ _ _ Hb).
  replace (mkProgram (blocks p) (allocationID p)) with p by (destruct p; reflexivity).
  apply IH. intros b Hin. apply Hall. right. exact Hin.
Qed.

End NothingToLower.

(** X13.  [lower_bool_phis] leaves a program without boolean phis as it
    is: when in every block the phis stand at the start and every [p_phi]
    has a definition of a class other than [s2], the pass returns the
    program it was given, with the same instructions and the same id
    allocator, whatever the storage of undefined operands holds. *)
Theorem lower_bool_phis_nothing_to_lower :
  forall scc_reg uninit fuel p,
    (forall blk, In blk (blocks p) -> phis_lead (instructions blk) = true) ->
    lower_bool_phis scc_reg uninit fuel p = Some p.
Proof.
  intros scc_reg uninit fuel p Hall. unfold lower_bool_phis.
  apply lower_blocks_keeps. intros b Hin. apply in_seq in Hin.
  destruct (nth_error (blocks p) b) as [blk|] eqn:Hb.
  - exists blk. split; [exact Hb|]. apply Hall. apply (nth_error_In _ _ Hb).
  - apply nth_error_None in Hb. lia.
Qed.

Lemma lower_bool_phis_nothing_to_lower_witness :
  lower_bool_phis (mkPhysReg 253) (fun _ _ => 0) 0 example_straight
    = Some example_straight.
Proof.
  apply (lower_bool_phis_nothing_to_lower (mkPhysReg 253) (fun _ _ => 0) 0
           example_straight).
  intros blk [<-|[]]. reflexivity.
Defined.

(** *** The blocks of a program *)

(** X24.  [createAndInsertBlock] keeps the indices of the blocks in step
    with their positions: in a program of fewer than 2^32 blocks in which
    the index of every block is its position, the new block is the last
    one, it is found at its own index, the blocks before it are unchanged,
    and in the new program the index of every block is its position
    again.  The assembler relies on this when it looks up [block_offset]
    by [index]. *)
Theorem createAndInsertBlock_indexed :
  forall p b p',
    indexed p ->
    Z.of_nat (length (blocks p)) < 4294967296 ->
    createAndInsertBlock p = (b, p') ->
    get_block p' (index b) = Some b /\
    length (blocks p') = S (length (blocks p)) /\
    (forall k, (k < length (blocks p))%nat -> get_block p' k = get_block p k) /\
    allocationID p' = allocationID p /\
    indexed p'.
Proof.
  intros p b p' Hidx Hlen H. unfold createAndInsertBlock in H.
  apply pair_equal_spec in H. destruct H as [<- <-].
  assert (Hi : Z.to_nat (u32 (Z.of_nat (length (blocks p)))) = length (blocks p)).
  { unfold u32. rewrite Z.mod_small by lia. apply Nat2Z.id. }
  cbn [index blocks allocationID]. rewrite Hi. unfold get_block. cbn [blocks].
  split; [|split; [|split; [|split]]].
  - rewrite nth_error_app2 by lia. rewrite Nat.sub_diag. reflexivity.
  - rewrite length_app. cbn [length]. lia.
  - intros k Hk. apply nth_error_app1. exact Hk.
  - reflexivity.
  - intros k blk Hk. unfold get_block in Hk. cbn [blocks] in Hk.
    destruct (Nat.lt_ge_cases k (length (blocks p))) as [Hlt|Hge].
    + rewrite nth_error_app1 in Hk by exact Hlt. apply (Hidx k blk Hk).
    + rewrite nth_error_app2 in Hk by exact Hge.
      destruct (k - length (blocks p))%nat as [|n] eqn:E.
      * cbn in Hk. apply some_inj in Hk. subst blk. cbn [index]. lia.
      * destruct n; discriminate Hk.
Qed.

(** A second block for the program of one block. *)
Lemma createAndInsertBlock_indexed_witness :
  get_block (snd (createAndInsertBlock example_straight))
            (index (fst (createAndInsertBlock example_straight)))
    = Some (fst (createAndInsertBlock example_straight)) /\
  length (blocks (snd (createAndInsertBlock example_straight)))
    = S (length (blocks example_straight)) /\
  (forall k, (k < length (blocks example_straight))%nat ->
             get_block (snd (createAndInsertBlock example_straight)) k
             = get_block example_straight k) /\
  allocationID (snd (createAndInsertBlock example_straight))
    = allocationID example_straight /\
  indexed (snd (createAndInsertBlock example_straight)).
Proof.
  apply (createAndInsertBlock_indexed example_straight).
  - intros k blk Hk. destruct k as [|[|k]]; cbn in Hk;
      [apply some_inj in Hk; subst blk; reflexivity|discriminate Hk|discriminate Hk].
  - cbn. lia.
  - reflexivity.
Defined.

End AccumulatorFacts.

Section SpillTargets.

(** ** Dominators, the targets of the spiller and the slots *)

Import Spill.

(** *** [get_dominator] *)

Lemma block_idom_nth : forall idoms x y,
    block_idom idoms x = Some y ->
    0 <= x /\ nth_error idoms (Z.to_nat x) = Some y.
Proof.
  intros idoms x y H. unfold block_idom in H.
  destruct (Z.ltb_spec x 0); [discriminate H|]. split; [assumption|exact H].
Qed.

Lemma on_chain_le : forall idoms c x,
    idoms_ok idoms -> on_chain idoms c x ->
    (x < 0 -> c = x) /\ (0 <= x -> c <= x).
Proof.
  intros idoms c x Hok H. induction H as [x|c x y Hxy Hc IH].
  - split; intros _; [reflexivity|lia].
  - destruct (block_idom_nth _ _ _ Hxy) as [Hx Hn].
    destruct (Hok _ _ Hn) as [Hle Hlt]. split; [lia|]. intros _.
    destruct (Z.eq_dec x 0) as [->|Hne].
    + destruct IH as [IH1 IH2]. cbn in Hle.
      destruct (Z.ltb_spec y 0); [rewrite IH1 by lia; lia|].
      specialize (IH2 ltac:(lia)). lia.
    + assert (Hpos : (0 < Z.to_nat x)%nat) by lia.
      specialize (Hlt Hpos). destruct IH as [_ IH2].
      specialize (IH2 ltac:(lia)). lia.
Qed.

Lemma dominator_loop_spec : forall idoms fuel a b,
    idoms_ok idoms ->
    0 <= a < Z.of_nat (length idoms) -> 0 <= b < Z.of_nat (length idoms) ->
    (Z.to_nat (a + b) <= fuel)%nat ->
    exists r,
      dominator_loop idoms fuel a b = Some r /\ 0 <= r /\
      on_chain idoms r a /\ on_chain idoms r b /\
      forall c, on_chain idoms c a -> on_chain idoms c b -> c <= r.
Proof.
  intros idoms fuel. induction fuel as [|fuel IH]; intros a b Hok Ha Hb Hf.
  - assert (a = 0 /\ b = 0) as [-> ->] by lia. cbn.
    exists 0. split; [reflexivity|]. split; [lia|].
    split; [constructor|]. split; [constructor|].
    intros c Hc _. apply (on_chain_le _ _ _ Hok Hc). lia.
  - cbn [dominator_loop]. destruct (Z.eqb_spec a b) as [->|Hne].
    + exists b. split; [reflexivity|]. split; [lia|].
      split; [constructor|]. split; [constructor|].
      intros c Hc _. apply (on_chain_le _ _ _ Hok Hc). lia.
    + destruct (Z.gtb_spec a b) as [Hgt|Hle].
      * assert (Hn : exists y, nth_error idoms (Z.to_nat a) = Some y).
        { destruct (nth_error idoms (Z.to_nat a)) as [y|] eqn:E;
            [exists y; reflexivity|]. apply nth_error_None in E. lia. }
        destruct Hn as (y & Hn).
        assert (Hi : block_idom idoms a = Some y).
        { unfold block_idom. destruct (Z.ltb_spec a 0); [lia|exact Hn]. }
        destruct (Hok _ _ Hn) as [_ Hy]. specialize (Hy ltac:(lia)).
        rewrite Hi. cbn [bind].
        destruct (IH y b Hok ltac:(lia) Hb ltac:(lia))
          as (r & Hr & Hr0 & Hra & Hrb & Hmax).
        exists r. split; [exact Hr|]. split; [exact Hr0|].
        split; [apply (chain_up _ _ _ _ Hi Hra)|]. split; [exact Hrb|].
        intros c Hca Hcb. inversion Hca as [|? ? y' Hi' Hcy]; subst.
        -- destruct (on_chain_le _ _ _ Hok Hcb) as [_ H2]. specialize (H2 ltac:(lia)).
           lia.
        -- rewrite Hi in Hi'. apply some_inj in Hi'. subst y'.
           apply (Hmax c Hcy Hcb).
      * assert (Hlt : a < b) by lia.
        assert (Hn : exists y, nth_error idoms (Z.to_nat b) = Some y).
        { destruct (nth_error idoms (Z.to_nat b)) as [y|] eqn:E;
            [exists y; reflexivity|]. apply nth_error_None in E. lia. }
        destruct Hn as (y & Hn).
        assert (Hi : block_idom idoms b = Some y).
        { unfold block_idom. destruct (Z.ltb_spec b 0); [lia|exact Hn]. }
        destruct (Hok _ _ Hn) as [_ Hy]. specialize (Hy ltac:(lia)).
        rewrite Hi. cbn [bind].
        destruct (IH a y Hok Ha ltac:(lia) ltac:(lia))
          as (r & Hr & Hr0 & Hra & Hrb & Hmax).
        exists r. split; [exact Hr|]. split; [exact Hr0|].
        split; [exact Hra|]. split; [apply (chain_up _ _ _ _ Hi Hrb)|].
        intros c Hca Hcb. inversion Hcb as [|? ? y' Hi' Hcy]; subst.
        -- destruct (on_chain_le _ _ _ Hok Hca) as [_ H2]. specialize (H2 ltac:(lia)).
           lia.
        -- rewrite Hi in Hi'. apply some_inj in Hi'. subst y'.
           apply (Hmax c Hca Hcy).
Qed.

(** X21.  In a dominator tree in which the immediate dominator of every
    block but the first is an earlier block, [get_dominator] of two blocks
    returns when its loop may take as many steps as the sum of the two
    indices.  The result is the nearest common dominator: it lies on the
    chains of immediate dominators of both blocks, and every block on both
    chains is the result or comes before it.  Swapping the two blocks
    gives the same result. *)
Theorem get_dominator_nearest :
  forall fuel a b linear_idom logical_idom (is_linear : bool),
    idoms_ok (if is_linear then linear_idom else logical_idom) ->
    0 <= a < Z.of_nat (length (if is_linear then linear_idom else logical_idom)) ->
    0 <= b < Z.of_nat (length (if is_linear then linear_idom else logical_idom)) ->
    (Z.to_nat (a + b) <= fuel)%nat ->
    exists r,
      get_dominator fuel a b linear_idom logical_idom is_linear = Some r /\
      get_dominator fuel b a linear_idom logical_idom is_linear = Some r /\
      on_chain (if is_linear then linear_idom else logical_idom) r a /\
      on_chain (if is_linear then linear_idom else logical_idom) r b /\
      forall c,
        on_chain (if is_linear then linear_idom else logical_idom) c a ->
        on_chain (if is_linear then linear_idom else logical_idom) c b ->
        c <= r.
Proof.
  intros fuel a b lin log is_linear Hok Ha Hb Hf.
  set (idoms := if is_linear then lin else log) in *.
  destruct (dominator_loop_spec idoms fuel a b Hok Ha Hb Hf)
    as (r & Hr & Hr0 & Hra & Hrb & Hmax).
  destruct (dominator_loop_spec idoms fuel b a Hok Hb Ha ltac:(lia))
    as (r' & Hr' & Hr0' & Hra' & Hrb' & Hmax').
  assert (r' = r).
  { pose proof (Hmax r' Hrb' Hra'). pose proof (Hmax' r Hrb Hra). lia. }
  subst r'. exists r. unfold get_dominator. fold idoms.
  destruct (Z.eqb_spec a (-1)); [lia|]. destruct (Z.eqb_spec b (-1)); [lia|].
  rewrite Hr, Hr'. cbn [bind]. destruct (Z.eqb_spec r (-1)); [lia|].
  split; [reflexivity|]. split; [reflexivity|].
  split; [exact Hra|]. split; [exact Hrb|exact Hmax].
Qed.

Lemma example_idoms_ok : idoms_ok example_idoms.
Proof.
  intros i y H. unfold example_idoms in H.
  destruct i as [|[|[|[|i]]]]; cbn in H; try (apply some_inj in H; subst y);
    try (split; [lia|intros; lia]).
  destruct i; discriminate H.
Qed.

(** The blocks 3 and 2 of the example meet in the block 0. *)
Lemma get_dominator_nearest_witness :
  exists r,
    get_dominator 5 3 2 example_idoms [] true = Some r /\
    get_dominator 5 2 3 example_idoms [] true = Some r /\
    on_chain example_idoms r 3 /\ on_chain example_idoms r 2 /\
    forall c, on_chain example_idoms c 3 -> on_chain example_idoms c 2 -> c <= r.
Proof.
  apply (get_dominator_nearest 5 3 2 example_idoms [] true).
  - exact example_idoms_ok.
  - cbn. lia.
  - cbn. lia.
  - cbn. lia.
Defined.

(** *** The targets of [spill] *)

Lemma spill_targets_checked :
  forallb (fun c =>
    forallb (fun v =>
      forallb (fun s =>
        (s + 2 >? Liveness.max_addressible_sgpr c)
        || match spill_targets c (Liveness.num_waves (Liveness.occupancy c v s))
                   v s with
           | None => false
           | Some no_spilling =>
               6 <=? Liveness.num_waves (Liveness.occupancy c v s)
           | Some nothing_to_do => true
           | Some (spill_to t) =>
               (Liveness.num_waves (Liveness.occupancy c v s) <? num_waves t)
               && (num_waves t <=? 8)
               && (num_waves t * target_vgpr t <=? 256)
               && (target_sgpr t <? s)
               && (s - target_sgpr t <=? 64 * spills_to_vgpr t)
               && (v + spills_to_vgpr t <=? target_vgpr t)
           end)
        (map Z.of_nat (seq 0 103)))
      (map Z.of_nat (seq 0 257)))
    Liveness.all_chips = true.
Proof. vm_compute. reflexivity. Qed.

(** X22.  For a program whose register demand fits the hardware, [spill]
    passes its assertion on the vector demand, and when it goes on to
    spill it does so for a higher occupancy: its target has more waves
    than the program had, at most 8, that many waves of [target_vgpr]
    registers fit the register file, the scalar demand exceeds
    [target_sgpr], and the vector registers set aside for the spilled
    scalars hold them (64 each) and fit under [target_vgpr] together with
    the vector demand. *)
Theorem spill_raises_occupancy :
  forall c v s,
    Liveness.demand_fits c v s ->
    exists d,
      spill_targets c (Liveness.num_waves (Liveness.occupancy c v s)) v s
        = Some d /\
      match d with
      | no_spilling => 6 <= Liveness.num_waves (Liveness.occupancy c v s)
      | nothing_to_do => True
      | spill_to t =>
          Liveness.num_waves (Liveness.occupancy c v s) < num_waves t <= 8 /\
          num_waves t * target_vgpr t <= 256 /\
          target_sgpr t < s /\
          s - target_sgpr t <= 64 * spills_to_vgpr t /\
          v + spills_to_vgpr t <= target_vgpr t
      end.
Proof.
  intros c v s (Hv & Hs & Hm).
  pose proof spill_targets_checked as H.
  rewrite forallb_forall in H. specialize (H c (all_chips_complete c)).
  rewrite forallb_forall in H. specialize (H v (in_range 257 v ltac:(lia))).
  rewrite forallb_forall in H.
  assert (Hs' : 0 <= s < Z.of_nat 103).
  { unfold Liveness.max_addressible_sgpr in Hm.
    destruct (Liveness.chip_ge_VI c); lia. }
  specialize (H s (in_range 103 s Hs')).
  apply orb_true_iff in H. destruct H as [H | H].
  { apply Z.gtb_lt in H. lia. }
  destruct (spill_targets c (Liveness.num_waves (Liveness.occupancy c v s)) v s)
    as [[| |t]|]; [| | |discriminate H].
  - eexists. split; [reflexivity|]. apply Z.leb_le. exact H.
  - eexists. split; [reflexivity|]. exact I.
  - eexists. split; [reflexivity|].
    rewrite !andb_true_iff, !Z.leb_le, !Z.ltb_lt in H. lia.
Qed.

(** 20 vector and 90 scalar registers on an SI chip. *)
Lemma spill_raises_occupancy_witness :
  exists d,
    spill_targets Liveness.SI
      (Liveness.num_waves (Liveness.occupancy Liveness.SI 20 90)) 20 90
      = Some d /\
    match d with
    | no_spilling =>
        6 <= Liveness.num_waves (Liveness.occupancy Liveness.SI 20 90)
    | nothing_to_do => True
    | spill_to t =>
        Liveness.num_waves (Liveness.occupancy Liveness.SI 20 90)
          < num_waves t <= 8 /\
        num_waves t * target_vgpr t <= 256 /\
        target_sgpr t < 90 /\
        90 - target_sgpr t <= 64 * spills_to_vgpr t /\
        20 + spills_to_vgpr t <= target_vgpr t
    end.
Proof.
  apply (spill_raises_occupancy Liveness.SI 20 90).
  unfold Liveness.demand_fits. cbn. lia.
Defined.

End SpillTargets.

Section SpillColouring.
Local Close Scope Z_scope.

(** ** The slots of interfering spill ids *)

Import Spill.

Lemma set_insert_in : forall x y s, In x (set_insert y s) <-> x = y \/ In x s.
Proof.
  intros x y. induction s as [|z s IH]; cbn [set_insert In].
  - split; [intros [H|[]]; left; symmetry; exact H|].
    intros [H|[]]. left. symmetry. exact H.
  - destruct (Nat.ltb_spec y z) as [Hlt|Hge].
    + cbn [In]. split; [intros [H|H]; [left; symmetry; exact H|right; exact H]|].
      intros [H|H]; [left; symmetry; exact H|right; exact H].
    + destruct (Nat.eqb_spec y z) as [->|Hne]; cbn [In].
      * split; [intros H; right; exact H|].
        intros [->|H]; [left; reflexivity|exact H].
      * rewrite IH. tauto.
Qed.

Lemma set_insert_all_in : forall t s x,
    In x (set_insert_all s t) <-> In x s \/ In x t.
Proof.
  unfold set_insert_all. induction t as [|y t IH]; intros s x; cbn [fold_left In].
  - tauto.
  - rewrite IH, set_insert_in. split.
    + intros [[->|H]|H]; [right; left; reflexivity|left; exact H|right; right; exact H].
    + intros [H|[<-|H]]; [left; right; exact H|left; left; reflexivity|right; exact H].
Qed.

Lemma set_mem_in : forall x s, set_mem x s = true <-> In x s.
Proof.
  intros x s. unfold set_mem. rewrite existsb_exists. split.
  - intros (y & Hy & E). apply Nat.eqb_eq in E. subst y. exact Hy.
  - intros H. exists x. split; [exact H|apply Nat.eqb_refl].
Qed.

Lemma slot_of_map_set : forall m k v a,
    slot_of (map_set m k v) a = if (a =? k)%nat then Some v else slot_of m a.
Proof.
  intros m k v a. unfold slot_of, map_set. cbn [find fst].
  rewrite (Nat.eqb_sym k a). destruct (Nat.eqb_spec a k) as [->|Hne];
    [reflexivity|]. f_equal.
  induction m as [|[k' v'] m IH]; cbn [filter find fst]; [reflexivity|].
  destruct (Nat.eqb_spec k' k) as [->|Hk]; cbn [negb find fst].
  - destruct (Nat.eqb_spec k a); [congruence|exact IH].
  - destruct (k' =? a)%nat; [reflexivity|exact IH].
Qed.

Lemma extended_refl : forall ssi, extended ssi ssi.
Proof. intros ssi. exists []. rewrite app_nil_r. reflexivity. Qed.

Lemma extended_trans : forall a b c, extended a b -> extended b c -> extended a c.
Proof.
  intros a b c [e1 ->] [e2 ->]. exists (e1 ++ e2). rewrite app_assoc. reflexivity.
Qed.

Lemma extended_nth : forall ssi ssi' j set,
    extended ssi ssi' -> nth_error ssi j = Some set -> nth_error ssi' j = Some set.
Proof.
  intros ssi ssi' j set [ext ->] H. rewrite nth_error_app1; [exact H|].
  apply nth_error_Some. congruence.
Qed.

Lemma check_sgpr_spec : forall count id i ssi r ssi',
    check_sgpr id i count ssi = Some (r, ssi') ->
    extended ssi ssi' /\
    (r = false -> forall j, i <= j < i + count ->
       exists set, nth_error ssi' j = Some set /\ ~ In id set).
Proof.
  induction count as [|count IH]; intros id i ssi r ssi' H;
    cbn [check_sgpr] in H.
  - apply some_inj in H. apply pair_equal_spec in H. destruct H as [<- <-].
    split; [apply extended_refl|]. intros _ j Hj. lia.
  - set (ssi1 := if (i =? length ssi)%nat then ssi ++ [[]] else ssi) in *.
    assert (He1 : extended ssi ssi1).
    { unfold ssi1. destruct (i =? length ssi)%nat;
        [exists [[]]; reflexivity|apply extended_refl]. }
    destruct (nth_error ssi1 i) as [s|] eqn:Es; cbn [bind] in H;
      [|discriminate H].
    destruct (set_mem id s) eqn:Em.
    + apply some_inj in H. apply pair_equal_spec in H. destruct H as [<- <-].
      split; [exact He1|]. intros Hf. discriminate Hf.
    + destruct (IH _ _ _ _ _ H) as (He2 & Hall).
      split; [apply (extended_trans _ _ _ He1 He2)|].
      intros Hr j Hj. destruct (Nat.eq_dec j i) as [->|Hne].
      * exists s. split; [apply (extended_nth _ _ _ _ He2 Es)|].
        intros Hin. apply set_mem_in in Hin. congruence.
      * apply (Hall Hr). lia.
Qed.

Lemma check_vgpr_spec : forall count id slot_idx i ssi r ssi',
    check_vgpr id slot_idx i count ssi = Some (r, ssi') ->
    extended ssi ssi' /\
    (r = false -> forall j, i <= j < i + count ->
       exists set, nth_error ssi' j = Some set /\ ~ In id set).
Proof.
  induction count as [|count IH]; intros id slot_idx i ssi r ssi' H;
    cbn [check_vgpr] in H.
  - apply some_inj in H. apply pair_equal_spec in H. destruct H as [<- <-].
    split; [apply extended_refl|]. intros _ j Hj. lia.
  - set (ssi1 := if (i =? length ssi)%nat then ssi ++ [[]] else ssi) in *.
    assert (He1 : extended ssi ssi1).
    { unfold ssi1. destruct (i =? length ssi)%nat;
        [exists [[]]; reflexivity|apply extended_refl]. }
    destruct (nth_error ssi1 i) as [s|] eqn:Es; cbn [bind] in H;
      [|discriminate H].
    destruct (set_mem id s || negb (i / 64 =? slot_idx / 64)%nat) eqn:Em.
    + apply some_inj in H. apply pair_equal_spec in H. destruct H as [<- <-].
      split; [exact He1|]. intros Hf. discriminate Hf.
    + apply orb_false_iff in Em. destruct Em as [Em _].
      destruct (IH _ _ _ _ _ _ H) as (He2 & Hall).
      split; [apply (extended_trans _ _ _ He1 He2)|].
      intros Hr j Hj. destruct (Nat.eq_dec j i) as [->|Hne].
      * exists s. split; [apply (extended_nth _ _ _ _ He2 Es)|].
        intros Hin. apply set_mem_in in Hin. congruence.
      * apply (Hall Hr). lia.
Qed.

Lemma mark_spec : forall count ids i ssi ssi',
    mark ids i count ssi = Some ssi' ->
    forall j set, nth_error ssi j = Some set ->
      exists set', nth_error ssi' j = Some set' /\
                   (forall x, In x set -> In x set') /\
                   (i <= j < i + count -> forall x, In x ids -> In x set').
Proof.
  induction count as [|count IH]; intros ids i ssi ssi' H j set Hj;
    cbn [mark] in H.
  - apply some_inj in H. subst ssi'. exists set. split; [exact Hj|].
    split; [intros x Hx; exact Hx|]. intros Hr. lia.
  - destruct (nth_error ssi i) as [s|] eqn:Es; cbn [bind] in H;
      [|discriminate H].
    destruct (vector_set ssi i (set_insert_all s ids)) as [ssi1|] eqn:Ev;
      cbn [bind] in H; [|discriminate H].
    destruct (vector_set_spec _ _ _ _ _ Ev) as (_ & Hi & Hother).
    destruct (Nat.eq_dec j i) as [->|Hne].
    + rewrite Es in Hj. apply some_inj in Hj. subst s.
      destruct (IH _ _ _ _ H i _ Hi) as (set' & Hn & Hsub & _).
      exists set'. split; [exact Hn|]. split.
      * intros x Hx. apply Hsub. apply set_insert_all_in. left. exact Hx.
      * intros _ x Hx. apply Hsub. apply set_insert_all_in. right. exact Hx.
    + rewrite <- (Hother j Hne) in Hj.
      destruct (IH _ _ _ _ H j _ Hj) as (set' & Hn & Hsub & Hin).
      exists set'. split; [exact Hn|]. split; [exact Hsub|].
      intros Hr. apply Hin. lia.
Qed.

Section Colouring.

Variable I : interferences_t.

Local Abbreviation coloured := (coloured I).

Lemma coloured_extended : forall s ssi',
    coloured s -> extended (spill_slot_interferences s) ssi' ->
    coloured (mkSlots (sgpr_slot s) (vgpr_slot s) (is_assigned s) ssi').
Proof.
  intros s ssi' (Hc & Hd & Ha & Hl) He. split; [|split; [|split]].
  - intros a sa ea j Hp Hn Ho.
    destruct (Hc a sa ea j Hp Hn Ho) as (set & Hs & Hsub).
    exists set. split; [apply (extended_nth _ _ _ _ He Hs)|exact Hsub].
  - exact Hd.
  - exact Ha.
  - exact Hl.
Qed.

(** An id is given a slot whose dwords do not hold it. *)
Lemma coloured_place : forall s id e slot_idx ssi1 ssi2 asg sg vg,
    coloured s ->
    nth_error I id = Some e ->
    extended (spill_slot_interferences s) ssi1 ->
    (forall j, occupies (fst e) slot_idx j ->
       exists set, nth_error ssi1 j = Some set /\ ~ In id set) ->
    mark (snd e) slot_idx (Z.to_nat (sizeOf (fst e))) ssi1 = Some ssi2 ->
    vector_set (is_assigned s) id true = Some asg ->
    (forall a sa, (slot_of sg a = Some sa \/ slot_of vg a = Some sa) <->
                  (a = id /\ sa = slot_idx) \/ (a <> id /\ placed s a sa)) ->
    coloured (mkSlots sg vg asg ssi2).
Proof.
  intros s id e slot_idx ssi1 ssi2 asg sg vg (Hc & Hd & Ha & Hl)
    He Hext Hfree Hmark Hasg Hpl.
  destruct (vector_set_spec _ _ _ _ _ Hasg) as (Hlen & Hid & Hother).
  assert (Hcover1 : forall a sa ea j,
             placed s a sa -> nth_error I a = Some ea ->
             occupies (fst ea) sa j ->
             exists set, nth_error ssi1 j = Some set /\
                         forall x, In x (snd ea) -> In x set).
  { intros a sa ea j Hp Hn Ho.
    destruct (Hc a sa ea j Hp Hn Ho) as (set & Hs & Hsub).
    exists set. split; [apply (extended_nth _ _ _ _ Hext Hs)|exact Hsub]. }
  assert (Hnew : forall a sa ea j,
             placed s a sa -> nth_error I a = Some ea ->
             In id (snd ea) ->
             occupies (fst ea) sa j -> occupies (fst e) slot_idx j -> False).
  { intros a sa ea j Hp Hn Hin Ho Hoid.
    destruct (Hcover1 a sa ea j Hp Hn Ho) as (set & Hs & Hsub).
    destruct (Hfree j Hoid) as (set' & Hs' & Hnin).
    rewrite Hs in Hs'. apply some_inj in Hs'. subst set'.
    apply Hnin, Hsub, Hin. }
  unfold Spill.coloured, placed. cbn [sgpr_slot vgpr_slot is_assigned
                                 spill_slot_interferences].
  split; [|split; [|split]].
  - intros a sa ea j Hp Hn Ho. apply Hpl in Hp.
    destruct Hp as [[-> ->]|[Hne Hp]].
    + rewrite He in Hn. apply some_inj in Hn. subst ea.
      destruct (Hfree j Ho) as (set & Hs & _).
      destruct (mark_spec _ _ _ _ _ Hmark j set Hs) as (set' & Hs' & _ & Hin).
      exists set'. split; [exact Hs'|]. apply Hin. exact Ho.
    + destruct (Hcover1 a sa ea j Hp Hn Ho) as (set & Hs & Hsub).
      destruct (mark_spec _ _ _ _ _ Hmark j set Hs) as (set' & Hs' & Hmono & _).
      exists set'. split; [exact Hs'|]. intros x Hx. apply Hmono, Hsub, Hx.
  - intros a b sa sb ea eb j Hab Hpa Hpb Hna Hnb Hiab Hiba Hoa Hob.
    apply Hpl in Hpa. apply Hpl in Hpb.
    destruct Hpa as [[-> ->]|[Hnea Hpa]], Hpb as [[-> ->]|[Hneb Hpb]].
    + apply Hab. reflexivity.
    + rewrite He in Hna. apply some_inj in Hna. subst ea.
      apply (Hnew b sb eb j Hpb Hnb Hiba Hob Hoa).
    + rewrite He in Hnb. apply some_inj in Hnb. subst eb.
      apply (Hnew a sa ea j Hpa Hna Hiab Hoa Hob).
    + apply (Hd a b sa sb ea eb j Hab Hpa Hpb Hna Hnb Hiab Hiba Hoa Hob).
  - intros a. split.
    + intros (sa & Hp). apply Hpl in Hp. destruct Hp as [[-> _]|[Hne Hp]].
      * exact Hid.
      * rewrite (Hother a Hne). apply Ha. exists sa. exact Hp.
    + intros Hn. destruct (Nat.eq_dec a id) as [->|Hne].
      * exists slot_idx. apply Hpl. left. split; reflexivity.
      * rewrite (Hother a Hne) in Hn. apply Ha in Hn.
        destruct Hn as (sa & Hp). exists sa. apply Hpl. right.
        split; [exact Hne|exact Hp].
  - rewrite Hlen. exact Hl.
Qed.

Lemma try_sgpr_coloured : forall slot_idx id done s done' s',
    try_sgpr I slot_idx id (done, s) = Some (done', s') ->
    coloured s -> coloured s'.
Proof.
  intros slot_idx id done s done' s' H Hc. unfold try_sgpr in H.
  destruct (nth_error (is_assigned s) id) as [assigned|] eqn:Ea;
    cbn [bind] in H; [|discriminate H].
  destruct (nth_error I id) as [e|] eqn:Ee; cbn [bind] in H;
    [|discriminate H].
  destruct assigned.
  { apply some_inj in H. apply pair_equal_spec in H. destruct H as [_ <-].
    exact Hc. }
  destruct (negb (RegType_eqb (typeOf (fst e)) sgpr)).
  { apply some_inj in H. apply pair_equal_spec in H. destruct H as [_ <-].
    exact Hc. }
  destruct (check_sgpr id slot_idx (Z.to_nat (sizeOf (fst e)))
              (spill_slot_interferences s)) as [[interferes ssi1]|] eqn:Ec;
    cbn [bind] in H; [|discriminate H].
  destruct (check_sgpr_spec _ _ _ _ _ _ Ec) as (Hext & Hfree).
  destruct interferes.
  { apply some_inj in H. apply pair_equal_spec in H. destruct H as [_ <-].
    apply (coloured_extended _ _ Hc Hext). }
  destruct (vector_set (is_assigned s) id true) as [asg|] eqn:Ev;
    cbn [bind] in H; [|discriminate H].
  destruct (mark (snd e) slot_idx (Z.to_nat (sizeOf (fst e))) ssi1)
    as [ssi2|] eqn:Em; cbn [bind] in H; [|discriminate H].
  apply some_inj in H. apply pair_equal_spec in H. destruct H as [_ <-].
  apply (coloured_place s id e slot_idx ssi1 ssi2 asg _ _ Hc Ee Hext);
    [|exact Em|exact Ev|].
  - intros j Hj. apply (Hfree eq_refl). exact Hj.
  - assert (Hun : forall sa, ~ placed s id sa).
    { intros sa Hp. destruct Hc as (_ & _ & Ha & _).
      assert (Hx : nth_error (is_assigned s) id = Some true)
        by (apply Ha; exists sa; exact Hp).
      congruence. }
    intros a sa. rewrite slot_of_map_set.
    destruct (Nat.eqb_spec a id) as [->|Hne].
    + split.
      * intros [H|H]; [left; split; [reflexivity|congruence]|].
        exfalso. apply (Hun sa). right. exact H.
      * intros [[_ ->]|[Hx _]]; [left; reflexivity|contradiction].
    + split.
      * intros H. right. split; [exact Hne|exact H].
      * intros [[Hx _]|[_ H]]; [contradiction|exact H].
Qed.

Lemma try_vgpr_coloured : forall slot_idx id done s done' s',
    try_vgpr I slot_idx id (done, s) = Some (done', s') ->
    coloured s -> coloured s'.
Proof.
  intros slot_idx id done s done' s' H Hc. unfold try_vgpr in H.
  destruct (nth_error (is_assigned s) id) as [assigned|] eqn:Ea;
    cbn [bind] in H; [|discriminate H].
  destruct (nth_error I id) as [e|] eqn:Ee; cbn [bind] in H;
    [|discriminate H].
  destruct assigned.
  { apply some_inj in H. apply pair_equal_spec in H. destruct H as [_ <-].
    exact Hc. }
  destruct (negb (RegType_eqb (typeOf (fst e)) vgpr)).
  { apply some_inj in H. apply pair_equal_spec in H. destruct H as [_ <-].
    exact Hc. }
  destruct (check_vgpr id slot_idx slot_idx (Z.to_nat (sizeOf (fst e)))
              (spill_slot_interferences s)) as [[interferes ssi1]|] eqn:Ec;
    cbn [bind] in H; [|discriminate H].
  destruct (check_vgpr_spec _ _ _ _ _ _ _ Ec) as (Hext & Hfree).
  destruct interferes.
  { apply some_inj in H. apply pair_equal_spec in H. destruct H as [_ <-].
    apply (coloured_extended _ _ Hc Hext). }
  destruct (vector_set (is_assigned s) id true) as [asg|] eqn:Ev;
    cbn [bind] in H; [|discriminate H].
  destruct (mark (snd e) slot_idx (Z.to_nat (sizeOf (fst e))) ssi1)
    as [ssi2|] eqn:Em; cbn [bind] in H; [|discriminate H].
  apply some_inj in H. apply pair_equal_spec in H. destruct H as [_ <-].
  apply (coloured_place s id e slot_idx ssi1 ssi2 asg _ _ Hc Ee Hext);
    [|exact Em|exact Ev|].
  - intros j Hj. apply (Hfree eq_refl). exact Hj.
  - assert (Hun : forall sa, ~ placed s id sa).
    { intros sa Hp. destruct Hc as (_ & _ & Ha & _).
      assert (Hx : nth_error (is_assigned s) id = Some true)
        by (apply Ha; exists sa; exact Hp).
      congruence. }
    intros a sa. rewrite slot_of_map_set.
    destruct (Nat.eqb_spec a id) as [->|Hne].
    + split.
      * intros [H|H]; [|left; split; [reflexivity|congruence]].
        exfalso. apply (Hun sa). left. exact H.
      * intros [[_ ->]|[Hx _]]; [right; reflexivity|contradiction].
    + split.
      * intros H. right. split; [exact Hne|exact H].
      * intros [[Hx _]|[_ H]]; [contradiction|exact H].
Qed.

Lemma for_ids_coloured : forall body ids st st',
    (forall id done s done' s',
        body id (done, s) = Some (done', s') -> coloured s -> coloured s') ->
    for_ids body ids st = Some st' ->
    coloured (snd st) -> coloured (snd st').
Proof.
  intros body. induction ids as [|id ids IH]; intros st st' Hbody H Hc;
    cbn [for_ids] in H.
  - apply some_inj in H. subst st'. exact Hc.
  - destruct (body id st) as [st1|] eqn:Eb; cbn [bind] in H; [|discriminate H].
    apply (IH _ _ Hbody H). destruct st as [done s], st1 as [done1 s1].
    apply (Hbody _ _ _ _ _ Eb Hc).
Qed.

Lemma assign_loop_coloured : forall try n fuel slot_idx s s',
    (forall slot_idx id done s done' s',
        try slot_idx id (done, s) = Some (done', s') ->
        coloured s -> coloured s') ->
    assign_loop try n fuel slot_idx s = Some s' ->
    coloured s -> coloured s'.
Proof.
  intros try n. induction fuel as [|fuel IH]; intros slot_idx s s' Htry H Hc;
    cbn [assign_loop] in H; [discriminate H|].
  destruct (for_ids (try slot_idx) (seq 0 n) (true, s)) as [[done s1]|] eqn:Ef;
    cbn [bind] in H; [|discriminate H].
  assert (Hc1 : coloured s1).
  { apply (for_ids_coloured _ _ _ _ (Htry slot_idx) Ef). exact Hc. }
  destruct done.
  - apply some_inj in H. subst s'. exact Hc1.
  - apply (IH _ _ _ Htry H Hc1).
Qed.

End Colouring.

(** X23.  When [assign_spill_slots] passes its assertions, every spill id
    has a slot, and two spill ids that interfere with one another (after
    the affinities are merged) have no dword in common: the ranges of
    their slots, each as long as the register class of the id, are
    disjoint. *)
Theorem spill_slots_disjoint :
  forall fuel interferences affinities spills_to_vgpr s temps,
    assign_spill_slots fuel interferences affinities spills_to_vgpr
      = Some (s, temps) ->
    exists I,
      merge_affinities interferences affinities = Some I /\
      (forall a, a < length I -> exists sa, placed s a sa) /\
      forall a b sa sb ea eb j,
        a <> b -> placed s a sa -> placed s b sb ->
        nth_error I a = Some ea -> nth_error I b = Some eb ->
        In b (snd ea) -> In a (snd eb) ->
        occupies (fst ea) sa j -> occupies (fst eb) sb j -> False.
Proof.
  intros fuel interferences affinities spills s temps H.
  unfold assign_spill_slots in H.
  destruct (merge_affinities interferences affinities) as [I|] eqn:Em;
    cbn [bind] in H; [|discriminate H].
  destruct (negb (no_self_interference I)); [discriminate H|].
  destruct (assign_loop (try_sgpr I) (length I) fuel 0
              (mkSlots [] [] (repeat false (length I)) [])) as [s1|] eqn:E1;
    cbn [bind] in H; [|discriminate H].
  destruct (assign_loop (try_vgpr I) (length I) fuel 0 s1) as [s2|] eqn:E2;
    cbn [bind] in H; [|discriminate H].
  destruct (negb (forallb (fun a => a) (is_assigned s2))) eqn:Eall;
    [discriminate H|].
  destruct ((length (spill_slot_interferences s2) + 63) / 64 <=? spills)%nat;
    [|discriminate H].
  apply some_inj in H. apply pair_equal_spec in H. destruct H as [<- _].
  assert (H0 : coloured I (mkSlots [] [] (repeat false (length I)) [])).
  { unfold coloured, placed. cbn. split; [|split; [|split]].
    - intros a sa ea j [Hp|Hp]; discriminate Hp.
    - intros a b sa sb ea eb j _ [Hp|Hp]; discriminate Hp.
    - intros a. split; [intros (sa & [Hp|Hp]); discriminate Hp|].
      intros Hn. apply nth_error_In, repeat_spec in Hn. discriminate Hn.
    - apply repeat_length. }
  pose proof (assign_loop_coloured I _ _ _ _ _ _ (try_sgpr_coloured I) E1 H0)
    as H1.
  destruct (assign_loop_coloured I _ _ _ _ _ _ (try_vgpr_coloured I) E2 H1)
    as (_ & Hd & Ha & Hl).
  exists I. split; [reflexivity|]. split; [|exact Hd].
  intros a Hlt. apply Ha. apply negb_false_iff in Eall.
  rewrite forallb_forall in Eall.
  destruct (nth_error (is_assigned s2) a) as [x|] eqn:En.
  - rewrite (Eall x (nth_error_In _ _ En)). reflexivity.
  - apply nth_error_None in En. lia.
Qed.

(** The five scalar spill ids of the example. *)
Lemma spill_slots_disjoint_witness :
  exists s I,
    assign_spill_slots 100 example_interferences [] 2 = Some (s, 2) /\
    merge_affinities example_interferences [] = Some I /\
    (forall a, a < length I -> exists sa, placed s a sa) /\
    forall a b sa sb ea eb j,
      a <> b -> placed s a sa -> placed s b sb ->
      nth_error I a = Some ea -> nth_error I b = Some eb ->
      In b (snd ea) -> In a (snd eb) ->
      occupies (fst ea) sa j -> occupies (fst eb) sb j -> False.
Proof.
  destruct (assign_spill_slots 100 example_interferences [] 2)
    as [[s temps]|] eqn:E; [|vm_compute in E; discriminate E].
  assert (Ht : temps = 2).
  { vm_compute in E. apply some_inj in E. apply pair_equal_spec in E.
    destruct E as [_ <-]. reflexivity. }
  subst temps.
  destruct (spill_slots_disjoint 100 example_interferences [] 2 s 2 E)
    as (I & Hm & Hp & Hd).
  exists s, I. split; [reflexivity|]. split; [exact Hm|].
  split; [exact Hp|exact Hd].
Defined.

End SpillColouring.

Section RegisterSearch.
Local Close Scope Z_scope.

(** ** The search for free registers *)

Import RegAlloc.

Lemma first_used_spec : forall reg_file reg_lo count i,
    reg_lo + i + count <= length reg_file ->
    exists r,
      first_used reg_file reg_lo i count = Some r /\
      match r with
      | None => forall j, reg_lo + i <= j < reg_lo + i + count ->
                          nth_error reg_file j = Some 0%Z
      | Some reg_hi =>
          reg_lo + i <= reg_hi < reg_lo + i + count /\
          nth_error reg_file reg_hi <> Some 0%Z
      end.
Proof.
  intros reg_file reg_lo. induction count as [|count IH]; intros i Hlen;
    cbn [first_used].
  - exists None. split; [reflexivity|]. intros j Hj. lia.
  - destruct (nth_error reg_file (reg_lo + i)) as [x|] eqn:Ex.
    2:{ apply nth_error_None in Ex. lia. }
    cbn [bind]. destruct (Z.eqb_spec x 0) as [->|Hne]; cbn [negb].
    + destruct (IH (S i) ltac:(lia)) as (r & Hr & Hspec).
      exists r. split; [exact Hr|]. destruct r as [reg_hi|].
      * destruct Hspec as [Hrange Hused]. split; [lia|exact Hused].
      * intros j Hj. destruct (Nat.eq_dec j (reg_lo + i)) as [->|Hj'];
          [exact Ex|]. apply Hspec. lia.
    + exists (Some (reg_lo + i)). split; [reflexivity|]. split; [lia|].
      rewrite Ex. intros H. apply some_inj in H. contradiction.
Qed.

Lemma skip_past_spec : forall stride reg_hi fuel lb k,
    1 <= stride ->
    reg_hi + 1 - (lb + k * stride) <= fuel ->
    exists k',
      skip_past fuel (lb + k * stride) reg_hi stride = Some (lb + k' * stride) /\
      k <= k' /\ reg_hi < lb + k' * stride /\
      forall m, k <= m < k' -> lb + m * stride <= reg_hi.
Proof.
  intros stride reg_hi. induction fuel as [|fuel IH]; intros lb k Hs Hf;
    cbn [skip_past].
  - destruct (Nat.leb_spec (lb + k * stride) reg_hi); [lia|].
    exists k. split; [reflexivity|]. split; [lia|]. split; [lia|].
    intros m Hm. lia.
  - destruct (Nat.leb_spec (lb + k * stride) reg_hi) as [Hle|Hgt].
    + replace (lb + k * stride + stride) with (lb + S k * stride) by lia.
      destruct (IH lb (S k) Hs ltac:(nia)) as (k' & Hk' & Hle' & Hgt' & Hall).
      exists k'. split; [exact Hk'|]. split; [lia|]. split; [exact Hgt'|].
      intros m Hm. destruct (Nat.eq_dec m k) as [->|Hne]; [exact Hle|].
      apply Hall. lia.
    + exists k. split; [reflexivity|]. split; [lia|]. split; [lia|].
      intros m Hm. lia.
Qed.

Lemma get_reg_loop_spec : forall reg_file lb ub size stride,
    1 <= stride -> 1 <= size -> ub <= length reg_file ->
    forall fuel k,
      (forall m, m < k -> ~ free_at reg_file (lb + m * stride) size) ->
      ub + 1 - (lb + k * stride) <= fuel ->
      exists r found,
        get_reg_loop fuel reg_file ub size stride (lb + k * stride)
          = Some (r, found) /\
        if found : bool
        then exists k', r = lb + k' * stride /\ r + size <= ub /\
                        free_at reg_file r size /\
                        forall m, m < k' ->
                                  ~ free_at reg_file (lb + m * stride) size
        else r = 0 /\
             forall m, lb + m * stride + size <= ub ->
                       ~ free_at reg_file (lb + m * stride) size.
Proof.
  intros reg_file lb ub size stride Hs Hsz Hub.
  induction fuel as [|fuel IH]; intros k Hinv Hf; cbn [get_reg_loop].
  - destruct (Nat.leb_spec (lb + k * stride + size) ub) as [Hle|Hgt]; [lia|].
    exists 0, false. split; [reflexivity|]. split; [reflexivity|].
    intros m Hm. apply Hinv. nia.
  - destruct (Nat.leb_spec (lb + k * stride + size) ub) as [Hle|Hgt].
    2:{ exists 0, false. split; [reflexivity|]. split; [reflexivity|].
        intros m Hm. apply Hinv. nia. }
    destruct (nth_error reg_file (lb + k * stride)) as [x|] eqn:Ex.
    2:{ apply nth_error_None in Ex. lia. }
    cbn [bind]. destruct (Z.eqb_spec x 0) as [->|Hne]; cbn [negb].
    + destruct (first_used_spec reg_file (lb + k * stride) (size - 1) 1
                  ltac:(lia)) as (r & Hr & Hspec).
      rewrite Hr. cbn [bind]. destruct r as [reg_hi|].
      * destruct Hspec as [Hrange Hused].
        destruct (skip_past_spec stride reg_hi fuel lb k Hs ltac:(lia))
          as (k' & Hk' & Hle' & Hgt' & Hall).
        rewrite Hk'. cbn [bind]. apply IH; [|nia].
        intros m Hm Hfree.
        destruct (Nat.lt_ge_cases m k) as [Hlt|Hge]; [apply (Hinv m Hlt Hfree)|].
        apply Hused. apply Hfree. specialize (Hall m ltac:(lia)). nia.
      * exists (lb + k * stride), true. split; [reflexivity|].
        exists k. split; [reflexivity|]. split; [exact Hle|].
        split; [|exact Hinv].
        intros j Hj. destruct (Nat.eq_dec j (lb + k * stride)) as [->|Hne];
          [exact Ex|]. apply Hspec. lia.
    + replace (lb + k * stride + stride) with (lb + S k * stride) by lia.
      apply IH; [|nia].
      intros m Hm Hfree.
      destruct (Nat.eq_dec m k) as [->|Hne'].
      * assert (H0 : nth_error reg_file (lb + k * stride) = Some 0%Z)
          by (apply Hfree; lia).
        rewrite Ex in H0. apply some_inj in H0. contradiction.
      * apply (Hinv m ltac:(lia) Hfree).
Qed.

(** X25.  The search of [_get_reg] without moves is a first fit: within
    a register file that covers the bounds, for a size and a stride of at
    least 1 and values whose sums stay below 2^32, it returns.  When it
    finds a register, that register is [lb] plus a multiple of the stride,
    its [size] registers lie below [ub] and are free, and no earlier
    multiple of the stride has [size] free registers; when it finds none,
    no multiple of the stride below [ub] has. *)
Theorem get_reg_first_fit :
  forall fuel reg_file lb ub size stride,
    1 <= stride -> 1 <= size -> ub <= length reg_file -> ub + 1 <= fuel ->
    (Z.of_nat (lb + ub + stride + size) < 4294967296)%Z ->
    exists r found,
      get_reg_without_moves fuel reg_file lb ub size stride = Some (r, found) /\
      if found : bool
      then exists k, r = lb + k * stride /\ r + size <= ub /\
                     free_at reg_file r size /\
                     forall m, m < k -> ~ free_at reg_file (lb + m * stride) size
      else r = 0 /\
           forall m, lb + m * stride + size <= ub ->
                     ~ free_at reg_file (lb + m * stride) size.
Proof.
  intros fuel reg_file lb ub size stride Hs Hsz Hub Hf _.
  unfold get_reg_without_moves.
  pose proof (get_reg_loop_spec reg_file lb ub size stride Hs Hsz Hub fuel 0)
    as H.
  cbn [Nat.mul] in H. rewrite Nat.add_0_r in H. apply H.
  - intros m Hm. lia.
  - lia.
Qed.

(** Two registers with a stride of 2 in the example: the registers 2 and
    3. *)
Lemma get_reg_first_fit_witness :
  exists r found,
    get_reg_without_moves 9 example_reg_file 0 8 2 2 = Some (r, found) /\
    if found : bool
    then exists k, r = 0 + k * 2 /\ r + 2 <= 8 /\
                   free_at example_reg_file r 2 /\
                   forall m, m < k -> ~ free_at example_reg_file (0 + m * 2) 2
    else r = 0 /\
         forall m, 0 + m * 2 + 2 <= 8 ->
                   ~ free_at example_reg_file (0 + m * 2) 2.
Proof.
  apply (get_reg_first_fit 9 example_reg_file 0 8 2 2); cbn; lia.
Defined.

End RegisterSearch.
